(** * Kona bundler: resolver, parser flags, bundler graph and dev-server rebuild

    A shallow embedding of the parts of the Kona sources that the
    specification talks about:

    - [core/resolver/moduleResolver.ts]  (class [ModuleResolver]),
    - [core/parser/parser.ts]            (method [KonaParser.parse]),
    - [core/bundler/bundler.ts]          (class [Bundler]),
    - [core/bundler/turboBundler.ts]     (method [transformBatch], class
                                          [ResolutionCache], [resolveToId],
                                          [isExternal], [chunk]),
    - [core/devServer/devServer.ts]      (methods [DevServer.rebuild],
                                          [getUpdates], [broadcast]),
    - the ESM runtime                    (function [hasTopLevelAwait]).

    JavaScript strings are [string]s, objects obtained from [JSON.parse] are
    association lists in [Object.entries] order, the two [Map] caches of the
    resolver are [gmap]s, and the insertion-ordered [Map] of modules of the
    bundler is an association list.  Exceptions are values of [outcome].
    The bundler is the one that its constructor builds from options
    without plugins and without an [onProgress] callback. *)

From Stdlib Require Import String Ascii List Bool Arith Lia Permutation DecimalString.
From stdpp Require Import base option gmap strings list.
Import ListNotations.
Open Scope string_scope.

Set Default Proof Using "Type".

(* ===================================================================== *)
(** ** JavaScript string primitives *)
(* ===================================================================== *)

Module Str.

Definition slash : ascii := "/"%char.
Definition star : ascii := "*"%char.
Definition dollar : ascii := "$"%char.

Definition isEmpty (s : string) : bool :=
  match s with EmptyString => true | _ => false end.

(** [s.startsWith(p)] *)
Fixpoint startsWith (s p : string) : bool :=
  match p, s with
  | EmptyString, _ => true
  | String b p', String a s' => Ascii.eqb a b && startsWith s' p'
  | String _ _, EmptyString => false
  end.

(** [s.slice(n)] for [0 <= n] *)
Fixpoint drop (n : nat) (s : string) : string :=
  match n, s with
  | O, _ => s
  | S n', String _ s' => drop n' s'
  | S _, EmptyString => EmptyString
  end.

(** [s.slice(0, n)] for [0 <= n] *)
Fixpoint take (n : nat) (s : string) : string :=
  match n, s with
  | O, _ => EmptyString
  | S n', String a s' => String a (take n' s')
  | S _, EmptyString => EmptyString
  end.

(** [s.endsWith(p)] *)
Definition endsWith (s p : string) : bool :=
  (String.length p <=? String.length s)%nat &&
  String.eqb (drop (String.length s - String.length p) s) p.

(** [s.slice(0, -1)] *)
Definition dropLast (s : string) : string :=
  take (String.length s - 1) s.

(** [s.includes(c)] for a one-character needle *)
Fixpoint includesChar (c : ascii) (s : string) : bool :=
  match s with
  | EmptyString => false
  | String a s' => Ascii.eqb a c || includesChar c s'
  end.

(** [s.split(c)] for a one-character separator: never the empty list *)
Fixpoint split (c : ascii) (s : string) : list string :=
  match s with
  | EmptyString => [EmptyString]
  | String a s' =>
      if Ascii.eqb a c then EmptyString :: split c s'
      else match split c s' with
           | [] => [String a EmptyString]
           | h :: t => String a h :: t
           end
  end.

(** [l.join(sep)] *)
Fixpoint join (sep : string) (l : list string) : string :=
  match l with
  | [] => EmptyString
  | [x] => x
  | x :: rest => x ++ sep ++ join sep rest
  end.

(** The text before and after the first occurrence of [c], when there is
    one. *)
Fixpoint cutAt (c : ascii) (s : string) : option (string * string) :=
  match s with
  | EmptyString => None
  | String a s' =>
      if Ascii.eqb a c then Some (EmptyString, s')
      else match cutAt c s' with
           | Some (pre, post) => Some (String a pre, post)
           | None => None
           end
  end.

(** Expansion of the special patterns of a replacement string, as
    [String.prototype.replace] performs it when the pattern has no capture
    group: [$$] is a dollar, [$&] the match, [$`] the text before the
    match, [$'] the text after it; any other [$] stands for itself. *)
Fixpoint expand (repl matched before after : string) : string :=
  match repl with
  | EmptyString => EmptyString
  | String a r =>
      if Ascii.eqb a dollar then
        match r with
        | String b r' =>
            if Ascii.eqb b dollar then String dollar (expand r' matched before after)
            else if Ascii.eqb b "&"%char then matched ++ expand r' matched before after
            else if Ascii.eqb b "`"%char then before ++ expand r' matched before after
            else if Ascii.eqb b "'"%char then after ++ expand r' matched before after
            else String a (expand r matched before after)
        | EmptyString => String a EmptyString
        end
      else String a (expand r matched before after)
  end.

(** [s.replace(c, repl)] for a one-character string pattern: the first
    occurrence only. *)
Definition replaceFirstChar (c : ascii) (repl s : string) : string :=
  match cutAt c s with
  | Some (pre, post) => pre ++ expand repl (String c EmptyString) pre post ++ post
  | None => s
  end.

(** [s.replace(new RegExp(escape(key), 'g'), repl)]: every occurrence of
    the literal [key], scanned from the left without overlap.  [before]
    is the text already consumed, newest character first.  An empty key
    matches at every position, the end included.  [inMatch] counts the
    characters of the current match that are still to be skipped. *)
Fixpoint replaceAllGo (key repl : string) (inMatch : nat) (before s : string) : string :=
  match s with
  | EmptyString =>
      if isEmpty key then expand repl EmptyString (String.rev before) EmptyString
      else EmptyString
  | String a s' =>
      match inMatch with
      | S k => replaceAllGo key repl k (String a before) s'
      | O =>
          if isEmpty key then
            expand repl EmptyString (String.rev before) s
              ++ String a (replaceAllGo key repl 0 (String a before) s')
          else if startsWith s key then
            expand repl key (String.rev before) (drop (String.length key) s)
              ++ replaceAllGo key repl (String.length key - 1) (String a before) s'
          else String a (replaceAllGo key repl 0 (String a before) s')
      end
  end.

Definition replaceAll (key repl s : string) : string :=
  replaceAllGo key repl 0 EmptyString s.

Definition lowerChar (a : ascii) : ascii :=
  let n := nat_of_ascii a in
  if (65 <=? n)%nat && (n <=? 90)%nat then ascii_of_nat (n + 32) else a.

(** [s.toLowerCase()], on ASCII letters *)
Fixpoint toLowerCase (s : string) : string :=
  match s with
  | EmptyString => EmptyString
  | String a s' => String (lowerChar a) (toLowerCase s')
  end.

End Str.

(* ===================================================================== *)
(** ** Node's [path] module (POSIX flavour) *)
(* ===================================================================== *)

(** [path.join], [path.resolve], [path.dirname] and [path.relative] belong
    to the Node runtime.  They are transcribed here from their POSIX
    definition, on strings, because the resolver mixes them freely with
    string concatenation ([filePath + ext]) and [String.replace]. *)

Module Path.

Definition isAbsolute (p : string) : bool :=
  match p with
  | String a _ => Ascii.eqb a Str.slash
  | EmptyString => false
  end.

(** [normalizeString]: the segments of a path, newest first in [acc],
    with empty and [.] segments dropped and [..] resolved. *)
Fixpoint normalizeSegs (allowAboveRoot : bool) (acc segs : list string) : list string :=
  match segs with
  | [] => List.rev acc
  | seg :: rest =>
      if String.eqb seg EmptyString || String.eqb seg "." then
        normalizeSegs allowAboveRoot acc rest
      else if String.eqb seg ".." then
        match acc with
        | top :: acc' =>
            if String.eqb top ".." then
              normalizeSegs allowAboveRoot
                (if allowAboveRoot then ".." :: acc else acc) rest
            else normalizeSegs allowAboveRoot acc' rest
        | [] =>
            normalizeSegs allowAboveRoot
              (if allowAboveRoot then [".."] else []) rest
        end
      else normalizeSegs allowAboveRoot (seg :: acc) rest
  end.

Definition normalizeString (p : string) (allowAboveRoot : bool) : string :=
  Str.join "/" (normalizeSegs allowAboveRoot [] (Str.split Str.slash p)).

(** [path.normalize] *)
Definition normalize (p : string) : string :=
  if Str.isEmpty p then "."
  else
    let abs := isAbsolute p in
    let trailing := Str.endsWith p "/" in
    let q := normalizeString p (negb abs) in
    if Str.isEmpty q then
      if abs then "/" else if trailing then "./" else "."
    else
      let q := if trailing then q ++ "/" else q in
      if abs then "/" ++ q else q.

(** [path.join(...args)] *)
Definition join (args : list string) : string :=
  match List.filter (fun a => negb (Str.isEmpty a)) args with
  | [] => "."
  | parts => normalize (Str.join "/" parts)
  end.

(** The loop of [path.resolve]: arguments are taken from the right until
    an absolute one has been prepended; [cwd] comes last. *)
Fixpoint resolveGo (revArgs : list string) (cwd : string) (resolved : string)
  : string * bool :=
  match revArgs with
  | [] =>
      if Str.isEmpty cwd then (resolved, false)
      else (cwd ++ "/" ++ resolved, isAbsolute cwd)
  | a :: rest =>
      if Str.isEmpty a then resolveGo rest cwd resolved
      else if isAbsolute a then (a ++ "/" ++ resolved, true)
      else resolveGo rest cwd (a ++ "/" ++ resolved)
  end.

(** [path.resolve(...args)], with the process working directory [cwd] *)
Definition resolve (cwd : string) (args : list string) : string :=
  let '(joined, abs) := resolveGo (List.rev args) cwd EmptyString in
  let q := normalizeString joined (negb abs) in
  if abs then "/" ++ q
  else if Str.isEmpty q then "." else q.

Fixpoint dropWhile (f : ascii -> bool) (l : list ascii) : list ascii :=
  match l with
  | [] => []
  | a :: l' => if f a then dropWhile f l' else l
  end.

Definition isSlash (a : ascii) : bool := Ascii.eqb a Str.slash.

(** [path.dirname]: the scan runs from the last character down to index
    1, skips trailing slashes, then the last segment, and cuts at the
    slash it meets. *)
Definition dirname (p : string) : string :=
  match p with
  | EmptyString => "."
  | String c0 rest =>
      let hasRoot := isSlash c0 in
      let r := List.rev (list_ascii_of_string rest) in
      let r1 := dropWhile isSlash r in
      let r2 := dropWhile (fun a => negb (isSlash a)) r1 in
      match r2 with
      | [] => if hasRoot then "/" else "."
      | _ :: r3 =>
          match r3 with
          | [] => if hasRoot then "//" else String c0 EmptyString
          | _ => String c0 (string_of_list_ascii (List.rev r3))
          end
      end
  end.

(** [path.extname]: from the last dot of the last component, trailing
    slashes apart, unless that dot starts the component or the component
    is [..]. *)
Definition extname (p : string) : string :=
  let base :=
    List.last (List.filter (fun a => negb (Str.isEmpty a)) (Str.split Str.slash p))
      EmptyString in
  if String.eqb base ".." then EmptyString
  else
    let r := List.rev (list_ascii_of_string base) in
    let ext := dropWhile (fun a => negb (Ascii.eqb a "."%char)) r in
    match ext with
    | [] => EmptyString
    | _dot :: before =>
        match before with
        | [] => EmptyString
        | _ => Str.drop (List.length before) base
        end
    end.

Fixpoint stripCommon (a b : list string) : list string * list string :=
  match a, b with
  | x :: a', y :: b' => if String.eqb x y then stripCommon a' b' else (a, b)
  | _, _ => (a, b)
  end.

(** [path.relative(from, to)] *)
Definition relative (cwd from to : string) : string :=
  let f := resolve cwd [from] in
  let t := resolve cwd [to] in
  if String.eqb f t then EmptyString
  else
    let segs p := List.filter (fun a => negb (Str.isEmpty a)) (Str.split Str.slash p) in
    let '(up, down) := stripCommon (segs f) (segs t) in
    Str.join "/" (List.map (fun _ => "..") up ++ down).

End Path.

(* ===================================================================== *)
(** ** Values, exceptions and the host environment *)
(* ===================================================================== *)

#[local] Set Warnings "-register-all".

(** What [JSON.parse] returns.  Objects list their own properties in
    [Object.entries] order, each key once.  Numbers are only ever tested for
    truthiness, so integers stand for them.  [JOther] is a value that
    [JSON.parse] never returns and that a property read can still meet: a
    function or a prototype object, which a value inherits. *)
Inductive json : Type :=
| JNull
| JBool (b : bool)
| JNum (n : Z)
| JStr (s : string)
| JArr (items : list json)
| JObj (fields : list (string * json))
| JOther.

(** Thrown values. *)
Inductive exn : Type :=
| Error (message : string)
| TypeError (message : string)
| RangeError (message : string)
| SyntaxError (message : string).

(** [subject.match(new RegExp(source))]: the constructor throws a
    [SyntaxError] for a source that is no pattern; a match gives the text
    of its first group, [undefined] when that group took no part. *)
Inductive Match : Type :=
| Invalid (message : string)
| NoMatch
| Matched (first : option string).

Inductive outcome (A : Type) : Type :=
| Ok (a : A)
| Throw (e : exn).
Arguments Ok {A} a.
Arguments Throw {A} e.

Definition isOk {A} (r : outcome A) : bool :=
  match r with Ok _ => true | Throw _ => false end.

Inductive entry : Type :=
| File (content : string)
| Directory.

(** Lookup in an object, first match. *)
Fixpoint assoc {A} (k : string) (l : list (string * A)) : option A :=
  match l with
  | [] => None
  | (k', v) :: rest => if String.eqb k' k then Some v else assoc k rest
  end.

(** [Map.prototype.set] on an insertion-ordered map: an existing key keeps
    its place. *)
Fixpoint assocSet {A} (k : string) (v : A) (l : list (string * A)) : list (string * A) :=
  match l with
  | [] => [(k, v)]
  | (k', v') :: rest =>
      if String.eqb k' k then (k', v) :: rest else (k', v') :: assocSet k v rest
  end.

Definition truthyStr (s : string) : bool := negb (Str.isEmpty s).

(** A [string | null] used as a condition. *)
Definition truthyOpt (o : option string) : bool :=
  match o with Some s => truthyStr s | None => false end.

Definition truthy (j : json) : bool :=
  match j with
  | JNull => false
  | JBool b => b
  | JNum n => negb (Z.eqb n 0)
  | JStr s => truthyStr s
  | JArr _ | JObj _ | JOther => true
  end.

(** A value that may be [undefined], used as a condition. *)
Definition truthyU (o : option json) : bool :=
  match o with Some j => truthy j | None => false end.

(** [a || b] on [string | null] values. *)
Definition orElse (a b : option string) : option string :=
  if truthyOpt a then a else b.

(** [pkg.exports], [pkg.browser], [pkg.version], [pkg.sideEffects],
    [pkg.module] and [pkg.main] on a parsed JSON value: reading a property
    of [null] throws, an object answers with its own property, and every
    other value answers [undefined].  These six names are members of no
    prototype; [getField] below reads a property of any name. *)
Definition getProp (j : json) (k : string) : outcome (option json) :=
  match j with
  | JNull => Throw (TypeError ("Cannot read properties of null (reading '" ++ k ++ "')"))
  | JObj fields => Ok (assoc k fields)
  | _ => Ok None
  end.

(** *** Inherited properties

    The string-named properties of the prototypes of the values that
    [JSON.parse] returns (ECMAScript 2023, with the accessors of its
    annex B). *)
Definition objectPrototype : list string :=
  [ "constructor"; "__defineGetter__"; "__defineSetter__"; "hasOwnProperty";
    "__lookupGetter__"; "__lookupSetter__"; "isPrototypeOf"; "propertyIsEnumerable";
    "toString"; "valueOf"; "__proto__"; "toLocaleString" ].

Definition arrayPrototype : list string :=
  [ "constructor"; "at"; "concat"; "copyWithin"; "fill"; "find"; "findIndex";
    "findLast"; "findLastIndex"; "lastIndexOf"; "pop"; "push"; "reverse"; "shift";
    "unshift"; "slice"; "sort"; "splice"; "includes"; "indexOf"; "join"; "keys";
    "entries"; "values"; "forEach"; "filter"; "flat"; "flatMap"; "map"; "every";
    "some"; "reduce"; "reduceRight"; "toLocaleString"; "toString"; "toReversed";
    "toSorted"; "toSpliced"; "with" ].

Definition stringPrototype : list string :=
  [ "constructor"; "anchor"; "at"; "big"; "blink"; "bold"; "charAt"; "charCodeAt";
    "codePointAt"; "concat"; "endsWith"; "fontcolor"; "fontsize"; "fixed";
    "includes"; "indexOf"; "isWellFormed"; "italics"; "lastIndexOf"; "link";
    "localeCompare"; "match"; "matchAll"; "normalize"; "padEnd"; "padStart";
    "repeat"; "replace"; "replaceAll"; "search"; "slice"; "small"; "split";
    "strike"; "sub"; "substr"; "substring"; "sup"; "startsWith"; "toString";
    "toWellFormed"; "trim"; "trimStart"; "trimLeft"; "trimEnd"; "trimRight";
    "toLocaleLowerCase"; "toLocaleUpperCase"; "toLowerCase"; "toUpperCase";
    "valueOf" ].

Definition numberPrototype : list string :=
  [ "constructor"; "toExponential"; "toFixed"; "toPrecision"; "toString"; "valueOf";
    "toLocaleString" ].

Definition booleanPrototype : list string := [ "constructor"; "toString"; "valueOf" ].

Definition named (k : string) (names : list string) : bool :=
  List.existsb (String.eqb k) names.

(** The names that a value inherits. *)
Definition inheritedNames (j : json) : list string :=
  match j with
  | JObj _ => objectPrototype
  | JArr _ => arrayPrototype ++ objectPrototype
  | JStr _ => stringPrototype ++ objectPrototype
  | JNum _ => numberPrototype ++ objectPrototype
  | JBool _ => booleanPrototype ++ objectPrototype
  | JNull | JOther => []
  end.

(** [String(n)] for an array index. *)
Definition decimal (n : nat) : string := NilZero.string_of_uint (Nat.to_uint n).

(** The index below [len] that the property name [k] writes, if any. *)
Definition indexNamed (k : string) (len : nat) : option nat :=
  List.find (fun i => String.eqb (decimal i) k) (List.seq 0 len).

(** The elements of an array under their property names. *)
Definition indexed {A} (l : list A) : list (string * A) :=
  List.combine (List.map decimal (List.seq 0 (List.length l))) l.

(** [value[name]] for any name: an own property first (a key of an
    object, an index or [length] of an array or of a string), then what
    the value inherits, which is a function or a prototype object.  A
    [JOther] is never read from. *)
Definition getField (j : json) (k : string) : outcome (option json) :=
  let inherited := if named k (inheritedNames j) then Some JOther else None in
  match j with
  | JNull => Throw (TypeError ("Cannot read properties of null (reading '" ++ k ++ "')"))
  | JObj fields =>
      match assoc k fields with
      | Some v => Ok (Some v)
      | None => Ok inherited
      end
  | JArr items =>
      match assoc k (indexed items) with
      | Some v => Ok (Some v)
      | None =>
          if String.eqb k "length" then Ok (Some (JNum (Z.of_nat (List.length items))))
          else Ok inherited
      end
  | JStr s =>
      match indexNamed k (String.length s) with
      | Some i => Ok (Some (JStr (String.substring i 1 s)))
      | None =>
          if String.eqb k "length" then Ok (Some (JNum (Z.of_nat (String.length s))))
          else Ok inherited
      end
  | JNum _ | JBool _ => Ok inherited
  | JOther => Ok None
  end.

(** The nodes of the syntax tree that [ts.createSourceFile] builds, as far
    as [KonaParser.parse] looks at them.  A kind carries the fields of the
    node that the parser reads: for an import declaration, the text of its
    module specifier when that is a string literal, and
    [importClause?.isTypeOnly || false]; for a call, whether the callee is
    the [import] keyword, and the text of the first argument when that is a
    string literal. *)
Inductive SyntaxKind : Type :=
| SourceFile
| ImportDeclaration (moduleSpecifier : option string) (isTypeOnly : bool)
| CallExpression (calleeIsImportKeyword : bool) (firstArgument : option string)
| AwaitExpression
| FunctionDeclaration
| FunctionExpression
| ArrowFunction
| MethodDeclaration
| GetAccessor
| SetAccessor
| Constructor
| ClassStaticBlockDeclaration
| ClassDeclaration
| JsxElement
| JsxSelfClosingElement
| JsxFragment
| OtherKind (name : string).

(** A node with the children that [ts.forEachChild] walks, in order. *)
Inductive Node : Type :=
| mkNode (kind : SyntaxKind) (children : list Node).

(** The world outside the repository: the file system as [fs] answers for
    a path, [JSON.parse], the regular expressions of the engine
    ([regExpMatch source subject]), the working directory of the process,
    the call depth at which the engine gives up on a recursion, the
    TypeScript parser ([createSourceFile fileName source tsx], where [tsx]
    tells [ScriptKind.TSX] from [ScriptKind.JS]), the hexadecimal MD5
    digest, and the clock. *)
Record Host : Type := {
  fs : string -> option entry;
  jsonParse : string -> option json;
  regExpMatch : string -> string -> Match;
  cwd : string;
  stackLimit : nat;
  createSourceFile : string -> string -> bool -> Node;
  md5hex : string -> string;
  now : nat;
}.

Definition existsSync (h : Host) (p : string) : bool :=
  match fs h p with Some _ => true | None => false end.

(** [fs.existsSync(p) && fs.statSync(p).isFile()] *)
Definition isFile (h : Host) (p : string) : bool :=
  match fs h p with Some (File _) => true | _ => false end.

Definition isDirectory (h : Host) (p : string) : bool :=
  match fs h p with Some Directory => true | _ => false end.

Definition readFileSync (h : Host) (p : string) : outcome string :=
  match fs h p with
  | Some (File c) => Ok c
  | Some Directory => Throw (Error "EISDIR: illegal operation on a directory, read")
  | None => Throw (Error ("ENOENT: no such file or directory, open '" ++ p ++ "'"))
  end.

(* ===================================================================== *)
(** ** [moduleResolver.ts] *)
(* ===================================================================== *)

Module ModuleResolver.

(** [ResolveOptions] as the caller writes them: an absent field is
    [None]. *)
Record ResolveOptions : Type := {
  o_basedir : string;
  o_extensions : option (list string);
  o_alias : option (list (string * string));
  o_paths : option (list (string * list string));
  o_baseUrl : option string;
  o_mainFields : option (list string);
  o_conditionNames : option (list string);
  o_browser : option bool;
  o_external : option (list string);
  o_cache : option (gmap string (option string));
}.

(** [Required<ResolveOptions>], the cache apart.  ([opt_external] is the
    [external] option; the name [external] is the field of
    [ResolveResult].) *)
Record Options : Type := {
  basedir : string;
  extensions : list string;
  alias : list (string * string);
  paths : list (string * list string);
  baseUrl : string;
  mainFields : list string;
  conditionNames : list string;
  browser : bool;
  opt_external : list string;
}.

Record ResolveResult : Type := {
  path : string;
  external : bool;
  packageName : option string;
  packageVersion : option json;
  sideEffects : option json;
}.

Definition DEFAULT_EXTENSIONS : list string :=
  [".ts"; ".tsx"; ".js"; ".jsx"; ".mjs"; ".mts"; ".cjs"; ".cts"; ".json"].
Definition DEFAULT_MAIN_FIELDS : list string := ["module"; "main"; "browser"].
Definition DEFAULT_CONDITION_NAMES : list string :=
  ["import"; "require"; "default"; "browser"; "node"].

(** The resolver object: its options and its two caches. *)
Record Resolver : Type := {
  options : Options;
  cache : gmap string (option string);
  packageCache : gmap string json;
}.

(** [options.x || dflt] for a string option: the empty string is falsy. *)
Definition orStr (o : option string) (dflt : string) : string :=
  match o with Some s => if truthyStr s then s else dflt | None => dflt end.

(** The constructor. *)
Definition new (o : ResolveOptions) : Resolver :=
  {| options :=
       {| basedir := o_basedir o;
          extensions := default DEFAULT_EXTENSIONS (o_extensions o);
          alias := default [] (o_alias o);
          paths := default [] (o_paths o);
          baseUrl := orStr (o_baseUrl o) EmptyString;
          mainFields := default DEFAULT_MAIN_FIELDS (o_mainFields o);
          conditionNames := default DEFAULT_CONDITION_NAMES (o_conditionNames o);
          browser := default true (o_browser o);
          opt_external := default [] (o_external o) |};
     cache := default ∅ (o_cache o);
     packageCache := ∅ |}.

(** Methods that read [package.json] files update [packageCache], also
    when they end up throwing. *)
Definition M (A : Type) : Type := gmap string json -> outcome A * gmap string json.

Definition ret {A} (a : A) : M A := fun pc => (Ok a, pc).
Definition throw {A} (e : exn) : M A := fun pc => (Throw e, pc).
Definition bind {A B} (m : M A) (k : A -> M B) : M B :=
  fun pc =>
    match m pc with
    | (Ok a, pc') => k a pc'
    | (Throw e, pc') => (Throw e, pc')
    end.
Definition lift {A} (r : outcome A) : M A := fun pc => (r, pc).

Notation "'let*' x := m 'in' k" := (bind m (fun x => k))
  (at level 10, x name, m at level 100, k at level 200).

Section Methods.

Variable h : Host.
Variable opts : Options.

Definition builtins : list string :=
  [ "fs"; "path"; "os"; "util"; "events"; "stream"; "http"; "https";
    "url"; "querystring"; "crypto"; "zlib"; "buffer"; "child_process";
    "cluster"; "dgram"; "dns"; "net"; "readline"; "repl"; "tls"; "tty";
    "v8"; "vm"; "worker_threads"; "assert"; "async_hooks"; "console";
    "constants"; "domain"; "inspector"; "module"; "perf_hooks"; "process";
    "punycode"; "string_decoder"; "sys"; "timers"; "trace_events"; "wasi" ].

Definition isExternal (specifier : string) : bool :=
  if Str.startsWith specifier "node:" then true
  else
    let name := List.hd EmptyString (Str.split Str.slash specifier) in
    if List.existsb (String.eqb name) builtins then true
    else
      List.existsb
        (fun ext =>
           if String.eqb ext specifier then true
           else Str.endsWith ext "*" && Str.startsWith specifier (Str.dropLast ext))
        (opt_external opts).

Fixpoint resolveAliasIn (entries : list (string * string)) (specifier : string) : string :=
  match entries with
  | [] => specifier
  | (a, target) :: rest =>
      if String.eqb specifier a then target
      else if Str.startsWith specifier (a ++ "/") then
        target ++ Str.drop (String.length a) specifier
      else resolveAliasIn rest specifier
  end.

Definition resolveAlias (specifier : string) : string :=
  resolveAliasIn (alias opts) specifier.

Definition isLineTerminator (c : ascii) : bool :=
  Ascii.eqb c "010"%char || Ascii.eqb c "013"%char.

Fixpoint noLineTerminator (s : string) : bool :=
  match s with
  | EmptyString => true
  | String a s' => negb (isLineTerminator a) && noLineTerminator s'
  end.

(** [specifier.match(patternToRegex(pattern))], answering [match[1] || ''].
    [patternToRegex] escapes every metacharacter and then turns the
    first escaped star into a group that takes any text without a line
    terminator; the rest of the pattern matches literally. *)
Definition matchPathsPattern (pattern specifier : string) : option string :=
  match Str.cutAt Str.star pattern with
  | None => if String.eqb pattern specifier then Some EmptyString else None
  | Some (pre, post) =>
      if (String.length pre + String.length post <=? String.length specifier)%nat
         && Str.startsWith specifier pre && Str.endsWith specifier post then
        let mid := Str.take (String.length specifier - String.length pre - String.length post)
                     (Str.drop (String.length pre) specifier) in
        if noLineTerminator mid then Some mid else None
      else None
  end.

Fixpoint firstExt (filePath : string) (exts : list string) : option string :=
  match exts with
  | [] => None
  | ext :: rest =>
      if isFile h (filePath ++ ext) then Some (filePath ++ ext)
      else firstExt filePath rest
  end.

Definition tryResolveFile (filePath : string) : option string :=
  if isFile h filePath then Some filePath
  else firstExt filePath (extensions opts).

Fixpoint tryTargets (targets : list string) (capture : string) : option string :=
  match targets with
  | [] => None
  | target :: rest =>
      let resolved := Str.replaceFirstChar Str.star capture target in
      let fullPath := Path.resolve (cwd h) [baseUrl opts; resolved] in
      let found := tryResolveFile fullPath in
      if truthyOpt found then found else tryTargets rest capture
  end.

Fixpoint resolvePathsIn (entries : list (string * list string)) (specifier : string)
  : option string :=
  match entries with
  | [] => None
  | (pattern, targets) :: rest =>
      match matchPathsPattern pattern specifier with
      | Some capture =>
          let found := tryTargets targets capture in
          if truthyOpt found then found else resolvePathsIn rest specifier
      | None => resolvePathsIn rest specifier
      end
  end.

Definition resolvePaths (specifier : string) : option string :=
  if negb (truthyStr (baseUrl opts)) then None
  else resolvePathsIn (paths opts) specifier.

Definition readPackageJson (pkgPath : string) : M json :=
  fun pc =>
    match pc !! pkgPath with
    | Some pkg => (Ok pkg, pc)
    | None =>
        match readFileSync h pkgPath with
        | Ok content =>
            match jsonParse h content with
            | Some pkg => (Ok pkg, <[pkgPath := pkg]> pc)
            | None => (Ok (JObj []), pc)
            end
        | Throw _ => (Ok (JObj []), pc)
        end
    end.

Fixpoint firstMainField (pkg : json) (fields : list string) : outcome (option json) :=
  match fields with
  | [] => Ok None
  | field :: rest =>
      match getField pkg field with
      | Throw e => Throw e
      | Ok v => if truthyU v then Ok v else firstMainField pkg rest
      end
  end.

(** The answer is whatever the field holds; [None] is [null]. *)
Definition getMainFromPackage (pkg : json) : outcome (option json) :=
  let viaBrowser : outcome (option json) :=
    if browser opts then
      match getProp pkg "browser" with
      | Throw e => Throw e
      | Ok (Some (JStr b)) => if truthyStr b then Ok (Some (JStr b)) else Ok None
      | Ok _ => Ok None
      end
    else Ok None in
  match viaBrowser with
  | Throw e => Throw e
  | Ok (Some b) => Ok (Some b)
  | Ok None => firstMainField pkg (mainFields opts)
  end.

(** [path.join] and [path.resolve] validate that every argument is a
    string. *)
Definition asPathArg (j : json) : outcome string :=
  match j with
  | JStr s => Ok s
  | _ => Throw (TypeError "The 'path' argument must be of type string")
  end.

Definition tryResolveDirectory (dirPath : string) : M (option string) :=
  if negb (isDirectory h dirPath) then ret None
  else
    let pkgPath := Path.join [dirPath; "package.json"] in
    let* viaMain :=
      (if existsSync h pkgPath then
         let* pkg := readPackageJson pkgPath in
         let* main := lift (getMainFromPackage pkg) in
         if truthyU main then
           let* m := lift (asPathArg (default JNull main)) in
           ret (tryResolveFile (Path.resolve (cwd h) [dirPath; m]))
         else ret None
       else ret None) in
    if truthyOpt viaMain then ret viaMain
    else ret (tryResolveFile (Path.join [dirPath; "index"])).

Definition resolveRelative (specifier basedir : string) : M (option string) :=
  let absolutePath := Path.resolve (cwd h) [basedir; specifier] in
  let asFile := tryResolveFile absolutePath in
  if truthyOpt asFile then ret asFile
  else tryResolveDirectory absolutePath.

(** [for (const condition of conditionNames) if (condition in obj)
    return recurse(obj[condition])]: [sub] holds, for each own property
    of the object that can hold an answer, what the recursive call on its
    value answers; [rest] names the other properties that the object has,
    own or inherited, whose values (functions, prototype objects, the
    [length] of an array) the recursive call answers with [null].  The
    loop returns at the first condition the object has, whatever the
    answer. *)
Fixpoint firstCondition {A} (null : A) (conds : list string) (sub : list (string * A))
    (rest : list string) : A :=
  match conds with
  | [] => null
  | condition :: conds' =>
      match assoc condition sub with
      | Some answer => answer
      | None =>
          if named condition rest then null else firstCondition null conds' sub rest
      end
  end.

(** [resolveExportsTarget].  An array is an object to [typeof]: its
    properties are its indices and [length]. *)
Fixpoint resolveExportsTarget (target : json) (packagePath : string) : option string :=
  match target with
  | JStr t => Some (Path.join [packagePath; t])
  | JObj fields =>
      firstCondition None (conditionNames opts)
        (List.map (fun kv => (fst kv, resolveExportsTarget (snd kv) packagePath)) fields)
        objectPrototype
  | JArr items =>
      firstCondition None (conditionNames opts)
        (indexed (List.map (fun t => resolveExportsTarget t packagePath) items))
        ("length" :: arrayPrototype ++ objectPrototype)
  | _ => None
  end.

(** [subpath.match(new RegExp('^' + pattern.replace('*', '(.+)') + '$'))]:
    the key is not escaped, so what it matches is for the engine to
    say. *)
Definition matchExportsPattern (pattern subpath : string) : Match :=
  regExpMatch h ("^" ++ Str.replaceFirstChar Str.star "(.+)" pattern ++ "$") subpath.

(** The loop over the pattern keys of an [exports] object;
    [resolved.replace('*', match[1])] writes [undefined] for a group that
    took no part. *)
Fixpoint exportsPatterns (entries : list (string * json)) (subpath packagePath : string)
  : outcome (option string) :=
  match entries with
  | [] => Ok None
  | (pattern, target) :: rest =>
      if Str.includesChar Str.star pattern then
        match matchExportsPattern pattern subpath with
        | Invalid message => Throw (SyntaxError message)
        | Matched first =>
            let resolved := resolveExportsTarget target packagePath in
            if truthyOpt resolved then
              Ok (Some (Str.replaceFirstChar Str.star (default "undefined" first)
                          (default EmptyString resolved)))
            else exportsPatterns rest subpath packagePath
        | NoMatch => exportsPatterns rest subpath packagePath
        end
      else exportsPatterns rest subpath packagePath
  end.

(** [for (const exp of exports) { const r = recurse(exp); if (r) return r }] *)
Fixpoint firstTruthy (l : list (outcome (option string))) : outcome (option string) :=
  match l with
  | [] => Ok None
  | Throw e :: _ => Throw e
  | Ok r :: rest => if truthyOpt r then Ok r else firstTruthy rest
  end.

Fixpoint resolveExports (exports : json) (subpath packagePath : string)
  : outcome (option string) :=
  match exports with
  | JStr e =>
      Ok (if String.eqb subpath "." then Some (Path.join [packagePath; e]) else None)
  | JArr items =>
      firstTruthy (List.map (fun exp => resolveExports exp subpath packagePath) items)
  | JObj fields =>
      match assoc subpath fields with
      | Some target => Ok (resolveExportsTarget target packagePath)
      | None =>
          if named subpath objectPrototype then Ok None
          else
            match exportsPatterns fields subpath packagePath with
            | Throw e => Throw e
            | Ok (Some replaced) => Ok (Some replaced)
            | Ok None =>
                firstCondition (Ok None) (conditionNames opts)
                  (List.map (fun kv => (fst kv, resolveExports (snd kv) subpath packagePath))
                     fields)
                  objectPrototype
            end
      end
  | _ => Ok None
  end.

(** The object [resolveNodeModule] returns for a hit inside a package. *)
Definition packageResult (resolved packageName : string) (pkg : json)
  : outcome ResolveResult :=
  match getProp pkg "version", getProp pkg "sideEffects" with
  | Ok v, Ok se =>
      Ok {| path := resolved; external := false; packageName := Some packageName;
            packageVersion := v; sideEffects := se |}
  | Throw e, _ | _, Throw e => Throw e
  end.

(** [targetPath] of [resolveNodeModule] when [exports] did not
    answer: the subpath inside the package, or else the entry field, or
    else the package directory. *)
Definition targetPathOf (nodeModulesPath subpath : string) (pkg : json) : outcome string :=
  if truthyStr subpath then Ok (Path.join [nodeModulesPath; subpath])
  else
    match getMainFromPackage pkg with
    | Throw e => Throw e
    | Ok main =>
        if truthyU main then
          match asPathArg (default JNull main) with
          | Throw e => Throw e
          | Ok m => Ok (Path.join [nodeModulesPath; m])
          end
        else Ok nodeModulesPath
    end.

(** What one round of the upward walk of [resolveNodeModule] does once
    it has read the [package.json] of the package directory
    [nodeModulesPath]: [Some r] when the round returns [r], [None] when
    the walk goes on to the parent directory. *)
Definition lookInPackage (nodeModulesPath packageName subpath : string) (pkg : json)
  : M (option ResolveResult) :=
  let* exports := lift (getProp pkg "exports") in
  let* viaSubpath :=
    (if truthyU exports && truthyStr subpath then
       lift (resolveExports (default JNull exports) ("./" ++ subpath) nodeModulesPath)
     else ret None) in
  if truthyOpt viaSubpath then
    let* r := lift (packageResult (default EmptyString viaSubpath) packageName pkg) in
    ret (Some r)
  else
    let* viaRoot :=
      (if negb (truthyStr subpath) && truthyU exports then
         lift (resolveExports (default JNull exports) "." nodeModulesPath)
       else ret None) in
    if truthyOpt viaRoot then
      let* r := lift (packageResult (default EmptyString viaRoot) packageName pkg) in
      ret (Some r)
    else
      let* targetPath := lift (targetPathOf nodeModulesPath subpath pkg) in
      let asFile := tryResolveFile targetPath in
      let* resolved :=
        (if truthyOpt asFile then ret asFile else tryResolveDirectory targetPath) in
      if truthyOpt resolved then
        let* r := lift (packageResult (default EmptyString resolved) packageName pkg) in
        ret (Some r)
      else ret None.

(** One round of the walk, in the directory [current]. *)
Definition lookIn (current packageName subpath : string) : M (option ResolveResult) :=
  let nodeModulesPath := Path.join [current; "node_modules"; packageName] in
  if negb (existsSync h nodeModulesPath) then ret None
  else
    let pkgPath := Path.join [nodeModulesPath; "package.json"] in
    if negb (existsSync h pkgPath) then ret None
    else
      let* pkg := readPackageJson pkgPath in
      lookInPackage nodeModulesPath packageName subpath pkg.

(** The [while (current !== path.dirname(current))] loop.  [rounds]
    bounds the number of rounds; [walk_rounds_enough] shows that
    [walkRounds] rounds, or more, never cut the loop short. *)
Fixpoint walk (rounds : nat) (specifier basedir current packageName subpath : string)
  : M ResolveResult :=
  if String.eqb current (Path.dirname current) then
    throw (Error ("Cannot find module '" ++ specifier ++ "' from '" ++ basedir ++ "'"))
  else
    match rounds with
    | O => throw (Error ("Cannot find module '" ++ specifier ++ "' from '" ++ basedir ++ "'"))
    | S rounds' =>
        let* found := lookIn current packageName subpath in
        match found with
        | Some r => ret r
        | None => walk rounds' specifier basedir (Path.dirname current) packageName subpath
        end
    end.

Definition walkRounds (basedir : string) : nat := String.length basedir + 2.

(** [packageName] and [subpath] of [resolveNodeModule]; a missing
    [parts[1]] prints as [undefined]. *)
Definition packageNameOf (specifier : string) : string :=
  let parts := Str.split Str.slash specifier in
  if Str.startsWith specifier "@" then
    List.nth 0 parts "undefined" ++ "/" ++ List.nth 1 parts "undefined"
  else List.nth 0 parts "undefined".

Definition subpathOf (specifier : string) : string :=
  let parts := Str.split Str.slash specifier in
  if Str.startsWith specifier "@" then Str.join "/" (List.skipn 2 parts)
  else Str.join "/" (List.skipn 1 parts).

Definition resolveNodeModule (specifier basedir : string) : M ResolveResult :=
  walk (walkRounds basedir) specifier basedir basedir
    (packageNameOf specifier) (subpathOf specifier).

Definition plainResult (p : string) (ext : bool) : ResolveResult :=
  {| path := p; external := ext; packageName := None;
     packageVersion := None; sideEffects := None |}.

(** [resolveInternal] calls itself after an alias substitution.  [depth]
    is the call depth left before the engine throws its [RangeError]. *)
Fixpoint resolveInternal (depth : nat) (specifier basedir : string) : M ResolveResult :=
  match depth with
  | O => throw (RangeError "Maximum call stack size exceeded")
  | S depth' =>
      if isExternal specifier then ret (plainResult specifier true)
      else
        let aliased := resolveAlias specifier in
        if negb (String.eqb aliased specifier) then resolveInternal depth' aliased basedir
        else
          let pathsResolved := resolvePaths specifier in
          if truthyOpt pathsResolved then
            ret (plainResult (default EmptyString pathsResolved) false)
          else if Str.startsWith specifier "." || Str.startsWith specifier "/" then
            let* resolved := resolveRelative specifier basedir in
            if truthyOpt resolved then
              ret (plainResult (default EmptyString resolved) false)
            else
              throw (Error ("Cannot resolve '" ++ specifier ++ "' from '" ++ basedir ++ "'"))
          else resolveNodeModule specifier basedir
  end.

End Methods.

(** The error thrown on a negative cache hit. *)
Definition cannotResolveModule (specifier basedir : string) : exn :=
  Error ("Cannot resolve module '" ++ specifier ++ "' from '" ++ basedir ++ "'").

Definition basedirOf (r : Resolver) (fromFile : option string) : string :=
  match fromFile with
  | Some f => if truthyStr f then Path.dirname f else basedir (options r)
  | None => basedir (options r)
  end.

Definition cacheKey (basedir specifier : string) : string :=
  basedir ++ ":" ++ specifier.

(** [resolve(specifier, fromFile?)]: the answer and the resolver after the
    call. *)
Definition resolve (h : Host) (r : Resolver) (specifier : string) (fromFile : option string)
  : outcome ResolveResult * Resolver :=
  let basedir := basedirOf r fromFile in
  let key := cacheKey basedir specifier in
  match cache r !! key with
  | Some None => (Throw (cannotResolveModule specifier basedir), r)
  | Some (Some cached) => (Ok (plainResult cached false), r)
  | None =>
      match resolveInternal h (options r) (stackLimit h) specifier basedir (packageCache r) with
      | (Ok result, pc) =>
          (Ok result,
           {| options := options r; cache := <[key := Some (path result)]> (cache r);
              packageCache := pc |})
      | (Throw e, pc) =>
          (Throw e,
           {| options := options r; cache := <[key := None]> (cache r);
              packageCache := pc |})
      end
  end.

Definition clearCache (r : Resolver) : Resolver :=
  {| options := options r; cache := ∅; packageCache := ∅ |}.

(** [pkg.field] where reading it does not throw, for statements. *)
Definition field (pkg : json) (k : string) : option json :=
  match getProp pkg k with Ok v => v | Throw _ => None end.

(** The result [resolveNodeModule] returns for the file [target] of the
    package [packageName]. *)
Definition hit (target packageName : string) (pkg : json) : ResolveResult :=
  {| path := target; external := false; packageName := Some packageName;
     packageVersion := field pkg "version"; sideEffects := field pkg "sideEffects" |}.

(** A later call of [resolve], with the file system as it is then. *)
Record Call : Type := {
  c_host : Host;
  c_specifier : string;
  c_fromFile : option string;
}.

(** The resolver after a sequence of calls, whatever they answered. *)
Definition resolveAll (calls : list Call) (r : Resolver) : Resolver :=
  List.fold_left
    (fun r c => snd (resolve (c_host c) r (c_specifier c) (c_fromFile c))) calls r.

End ModuleResolver.

(* ===================================================================== *)
(** ** [parser.ts]: [KonaParser.parse] *)
(* ===================================================================== *)

Module KonaParser.

Record ParserOptions : Type := {
  filename : string;
  typescript : bool;
  jsx : bool;
}.

(** [new KonaParser()]: the file name is [unknown.js], which neither
    [detectJSX] nor [detectTypeScript] accepts. *)
Definition defaultOptions : ParserOptions :=
  {| filename := "unknown.js"; typescript := false; jsx := false |}.

Record ImportInfo : Type := {
  source : string;
  isDynamic : bool;
  isTypeOnly : bool;
}.

(** The fields of [ParseResult] that the bundler and the statements below
    use. *)
Record ParseResult : Type := {
  imports : list ImportInfo;
  hasJSX : bool;
  hasTypeScript : bool;
  hasDynamicImport : bool;
  hasTopLevelAwait : bool;
}.

(** The variables that the closure [visit] updates. *)
Record Walk : Type := {
  w_imports : list ImportInfo;
  w_hasJSX : bool;
  w_hasDynamicImport : bool;
  w_hasTopLevelAwait : bool;
}.

(** The [while (parent)] loop of the top-level-await check, over the
    kinds of the ancestors of the await expression, nearest first:
    [true] when the loop sets the flag. *)
Fixpoint reachesSourceFile (ancestors : list SyntaxKind) : bool :=
  match ancestors with
  | [] => false
  | parent :: rest =>
      match parent with
      | FunctionDeclaration | FunctionExpression | ArrowFunction | MethodDeclaration => false
      | SourceFile => true
      | _ => reachesSourceFile rest
      end
  end.

Definition visitNode (ancestors : list SyntaxKind) (kind : SyntaxKind) (w : Walk) : Walk :=
  (* import declarations *)
  let w :=
    match kind with
    | ImportDeclaration (Some spec) typeOnly =>
        {| w_imports := w_imports w ++
                          [{| source := spec; isDynamic := false; isTypeOnly := typeOnly |}];
           w_hasJSX := w_hasJSX w;
           w_hasDynamicImport := w_hasDynamicImport w;
           w_hasTopLevelAwait := w_hasTopLevelAwait w |}
    | _ => w
    end in
  (* dynamic imports *)
  let w :=
    match kind with
    | CallExpression true arg =>
        {| w_imports :=
             match arg with
             | Some spec =>
                 w_imports w ++
                   [{| source := spec; isDynamic := true; isTypeOnly := false |}]
             | None => w_imports w
             end;
           w_hasJSX := w_hasJSX w;
           w_hasDynamicImport := true;
           w_hasTopLevelAwait := w_hasTopLevelAwait w |}
    | _ => w
    end in
  (* JSX detection *)
  let w :=
    match kind with
    | JsxElement | JsxSelfClosingElement | JsxFragment =>
        {| w_imports := w_imports w;
           w_hasJSX := true;
           w_hasDynamicImport := w_hasDynamicImport w;
           w_hasTopLevelAwait := w_hasTopLevelAwait w |}
    | _ => w
    end in
  (* top-level await *)
  match kind with
  | AwaitExpression =>
      if reachesSourceFile ancestors then
        {| w_imports := w_imports w;
           w_hasJSX := w_hasJSX w;
           w_hasDynamicImport := w_hasDynamicImport w;
           w_hasTopLevelAwait := true |}
      else w
  | _ => w
  end.

(** The closure [visit]; [ancestors] is the chain of [node.parent]. *)
Fixpoint visit (ancestors : list SyntaxKind) (node : Node) (w : Walk) : Walk :=
  match node with
  | mkNode kind children =>
      List.fold_left (fun w child => visit (kind :: ancestors) child w) children
        (visitNode ancestors kind w)
  end.

Definition parse (h : Host) (o : ParserOptions) (src : string) : ParseResult :=
  let sourceFile := createSourceFile h (filename o) src (typescript o || jsx o) in
  let w := visit [] sourceFile
             {| w_imports := []; w_hasJSX := false;
                w_hasDynamicImport := false; w_hasTopLevelAwait := false |} in
  {| imports := w_imports w;
     hasJSX := w_hasJSX w;
     hasTypeScript := typescript o;
     hasDynamicImport := w_hasDynamicImport w;
     hasTopLevelAwait := w_hasTopLevelAwait w |}.

End KonaParser.

(* ===================================================================== *)
(** ** [bundler.ts] *)
(* ===================================================================== *)

(** The bundler is modelled for configurations without plugins: with
    [plugins: []] the three callback lists stay empty, so the callback
    loops of [processModule] do nothing, every module is loaded from the
    file system, and [processModule] never answers [null]. *)

Module Dependency.
Record t : Type := {
  specifier : string;
  resolved : string;
  isDynamic : bool;
  isTypeOnly : bool;
}.
End Dependency.

Module Mod.
(** [interface Module].  [dependents] is a [Set] in insertion order. *)
Record t : Type := {
  id : string;
  path : string;
  source : string;
  transformed : string;
  parseResult : KonaParser.ParseResult;
  dependencies : list Dependency.t;
  dependents : list string;
  isEntry : bool;
  isDynamic : bool;
  chunk : option string;
  hash : string;
  sideEffects : bool;
}.

Definition withDependencies (ds : list Dependency.t) (m : t) : t :=
  {| id := id m; path := path m; source := source m; transformed := transformed m;
     parseResult := parseResult m; dependencies := ds; dependents := dependents m;
     isEntry := isEntry m; isDynamic := isDynamic m; chunk := chunk m;
     hash := hash m; sideEffects := sideEffects m |}.

Definition withDependents (ds : list string) (m : t) : t :=
  {| id := id m; path := path m; source := source m; transformed := transformed m;
     parseResult := parseResult m; dependencies := dependencies m; dependents := ds;
     isEntry := isEntry m; isDynamic := isDynamic m; chunk := chunk m;
     hash := hash m; sideEffects := sideEffects m |}.

Definition withChunk (c : option string) (m : t) : t :=
  {| id := id m; path := path m; source := source m; transformed := transformed m;
     parseResult := parseResult m; dependencies := dependencies m;
     dependents := dependents m;
     isEntry := isEntry m; isDynamic := isDynamic m; chunk := c;
     hash := hash m; sideEffects := sideEffects m |}.
End Mod.

Module Chunk.
(** [interface Chunk], without the generated text and what is computed
    from it ([code], [map], [hash], [size]) and without the [imports] and
    [exports] summaries.  [modules] lists the module ids in the order in
    which the chunk code defines them; [sorted] is the same order by
    module path. *)
Record t : Type := {
  id : string;
  name : string;
  modules : list string;
  sorted : list string;
  isEntry : bool;
  isDynamic : bool;
}.
End Chunk.

(** Membership in a [Set<string>] or an array of strings. *)
Definition mem (x : string) (l : list string) : bool := List.existsb (String.eqb x) l.

(** [Set.prototype.add] *)
Definition setAdd (x : string) (l : list string) : list string :=
  if mem x l then l else l ++ [x].

(** [Set.prototype.delete] *)
Definition setDelete (x : string) (l : list string) : list string :=
  List.filter (fun y => negb (String.eqb x y)) l.

Definition has {A} (k : string) (l : list (string * A)) : bool :=
  match assoc k l with Some _ => true | None => false end.

(** Update in place of the object stored under [k]. *)
Fixpoint update {A} (k : string) (f : A -> A) (l : list (string * A)) : list (string * A) :=
  match l with
  | [] => []
  | (k', v) :: rest =>
      if String.eqb k' k then (k', f v) :: rest else (k', v) :: update k f rest
  end.

Module Bundler.

Inductive Format : Type := esm | cjs | iife.
Inductive Target : Type := browser | node.

(** [BundlerOptions], as far as [build] reads them when there are no
    plugins and no [onProgress] callback. *)
Record BundlerOptions : Type := {
  entry : list string;
  format : option Format;
  target : option Target;
  splitting : option bool;
  treeshake : option bool;
  external : option (list string);
  alias : option (list (string * string));
  define : option (list (string * string));
}.

Record BundleStats : Type := {
  stat_modules : nat;
  stat_chunks : nat;
}.

Record BundleOutput : Type := {
  chunks : list Chunk.t;
  out_modules : list (string * Mod.t);
  stats : BundleStats;
}.

(** The bundler object; [warnings] collects what goes to
    [console.warn]. *)
Record t : Type := {
  options : BundlerOptions;
  modules : list (string * Mod.t);
  resolver : ModuleResolver.Resolver;
  warnings : list string;
}.

Definition withModules (ms : list (string * Mod.t)) (b : t) : t :=
  {| options := options b; modules := ms; resolver := resolver b; warnings := warnings b |}.

Definition withResolver (r : ModuleResolver.Resolver) (b : t) : t :=
  {| options := options b; modules := modules b; resolver := r; warnings := warnings b |}.

Definition warn (msg : string) (b : t) : t :=
  {| options := options b; modules := modules b; resolver := resolver b;
     warnings := warnings b ++ [msg] |}.

Definition isBrowser (o : BundlerOptions) : bool :=
  match default browser (target o) with browser => true | node => false end.

Section Methods.

Variable h : Host.

(** The constructor. *)
Definition new (o : BundlerOptions) : t :=
  {| options := o;
     modules := [];
     resolver :=
       ModuleResolver.new
         {| ModuleResolver.o_basedir := cwd h;
            ModuleResolver.o_extensions := None;
            ModuleResolver.o_alias := Some (default [] (alias o));
            ModuleResolver.o_paths := None;
            ModuleResolver.o_baseUrl := None;
            ModuleResolver.o_mainFields := None;
            ModuleResolver.o_conditionNames := None;
            ModuleResolver.o_browser := Some (isBrowser o);
            ModuleResolver.o_external := Some (default [] (external o));
            ModuleResolver.o_cache := None |};
     warnings := [] |}.

Fixpoint applyDefinesIn (entries : list (string * string)) (code : string) : string :=
  match entries with
  | [] => code
  | (key, value) :: rest => applyDefinesIn rest (Str.replaceAll key value code)
  end.

Definition applyDefines (b : t) (code : string) : string :=
  applyDefinesIn (default [] (define (options b))) code.

Definition generateModuleId (modulePath : string) : string :=
  Str.replaceAll "\" "/" (Path.relative (cwd h) (cwd h) modulePath).

Definition hashContent (content : string) : string :=
  Str.take 8 (md5hex h content).

Definition pushDependency (modulePath : string) (d : Dependency.t) (b : t) : t :=
  withModules
    (update modulePath (fun m => Mod.withDependencies (Mod.dependencies m ++ [d]) m)
       (modules b)) b.

Definition addDependent (depPath modulePath : string) (b : t) : t :=
  withModules
    (update depPath (fun m => Mod.withDependents (setAdd modulePath (Mod.dependents m)) m)
       (modules b)) b.

Definition couldNotResolve (src modulePath : string) : string :=
  "Warning: Could not resolve '" ++ src ++ "' from '" ++ modulePath ++ "'".

(** The body of the loop over [parseResult.imports], with its
    [try]/[catch]; [recur] is the recursive call of [processModule],
    which answers [None] when the call-depth allowance is used up. *)
Definition processImport
    (recur : string -> bool -> bool -> t -> option (outcome unit * t))
    (modulePath : string) (imp : KonaParser.ImportInfo) (b : t) : option t :=
  if KonaParser.isTypeOnly imp then Some b
  else
    let '(r, resolver') :=
      ModuleResolver.resolve h (resolver b) (KonaParser.source imp) (Some modulePath) in
    let b := withResolver resolver' b in
    match r with
    | Throw _ => Some (warn (couldNotResolve (KonaParser.source imp) modulePath) b)
    | Ok resolved =>
        if ModuleResolver.external resolved then Some b
        else
          let b :=
            pushDependency modulePath
              {| Dependency.specifier := KonaParser.source imp;
                 Dependency.resolved := ModuleResolver.path resolved;
                 Dependency.isDynamic := KonaParser.isDynamic imp;
                 Dependency.isTypeOnly := KonaParser.isTypeOnly imp |} b in
          match recur (ModuleResolver.path resolved) false (KonaParser.isDynamic imp) b with
          | None => None
          | Some (Ok _, b') => Some (addDependent (ModuleResolver.path resolved) modulePath b')
          | Some (Throw _, b') =>
              Some (warn (couldNotResolve (KonaParser.source imp) modulePath) b')
          end
    end.

Definition processImports
    (recur : string -> bool -> bool -> t -> option (outcome unit * t))
    (modulePath : string) (imps : list KonaParser.ImportInfo) (b : t) : option t :=
  List.fold_left
    (fun acc imp =>
       match acc with
       | Some b => processImport recur modulePath imp b
       | None => None
       end)
    imps (Some b).

(** [processModule], for a bundler that was constructed without
    plugins: [setupPlugins] has then registered no callback, and the three
    loops over [resolveCallbacks], [loadCallbacks] and
    [transformCallbacks] run over empty arrays, so the source is read
    from the file and only the defines are applied to it.  (A callback of
    a plugin is arbitrary code; a bundler with plugins is outside this
    embedding.)  [depth] bounds the nesting of the recursive calls; [None]
    means that the bound was too small.  The module object that the
    method returns is the one stored under [modulePath]. *)
Fixpoint processModule (depth : nat) (modulePath : string) (isEntry isDynamic : bool)
    (b : t) : option (outcome unit * t) :=
  match depth with
  | O => None
  | S depth' =>
      if has modulePath (modules b) then Some (Ok tt, b)
      else if negb (existsSync h modulePath) then
        Some (Throw (Error ("File not found: " ++ modulePath)), b)
      else
        match readFileSync h modulePath with
        | Throw e => Some (Throw e, b)
        | Ok source =>
            let parseResult := KonaParser.parse h KonaParser.defaultOptions source in
            let transformed := applyDefines b source in
            let module :=
              {| Mod.id := generateModuleId modulePath;
                 Mod.path := modulePath;
                 Mod.source := source;
                 Mod.transformed := transformed;
                 Mod.parseResult := parseResult;
                 Mod.dependencies := [];
                 Mod.dependents := [];
                 Mod.isEntry := isEntry;
                 Mod.isDynamic := isDynamic;
                 Mod.chunk := None;
                 Mod.hash := hashContent transformed;
                 Mod.sideEffects := true |} in
            let b := withModules (assocSet modulePath module (modules b)) b in
            match processImports (processModule depth') modulePath
                    (KonaParser.imports parseResult) b with
            | Some b' => Some (Ok tt, b')
            | None => None
            end
        end
  end.

(** *** Tree shaking *)

(** [usedExports]: a [Map<string, Set<string>>]. *)
Definition Used : Type := list (string * list string).

(** The body of the loop over [module.dependencies] in [treeShake];
    the flag is [changed]. *)
Definition markDependency (acc : Used * bool) (dep : Dependency.t) : Used * bool :=
  let '(used, changed) := acc in
  let '(used, changed) :=
    if has (Dependency.resolved dep) used then (used, changed)
    else (assocSet (Dependency.resolved dep) [] used, true) in
  let depUsed := default [] (assoc (Dependency.resolved dep) used) in
  if mem "*" depUsed then (used, changed)
  else (assocSet (Dependency.resolved dep) (setAdd "*" depUsed) used, true).

(** One round of the [for] loop over [this.modules]. *)
Definition propagateOnce (ms : list (string * Mod.t)) (used : Used) : Used * bool :=
  List.fold_left
    (fun acc kv =>
       if has (fst kv) (fst acc) then
         List.fold_left markDependency (Mod.dependencies (snd kv)) acc
       else acc)
    ms (used, false).

(** The [while (changed)] loop.  A round that changes something marks
    the target of some dependency with a star; [propagate_rounds_enough]
    shows that [propagateRounds] rounds, or more, never cut the loop
    short. *)
Fixpoint propagate (rounds : nat) (ms : list (string * Mod.t)) (used : Used) : Used :=
  match rounds with
  | O => used
  | S rounds' =>
      let '(used', changed) := propagateOnce ms used in
      if changed then propagate rounds' ms used' else used'
  end.

Definition propagateRounds (ms : list (string * Mod.t)) : nat :=
  S (2 * List.fold_left (fun n kv => n + List.length (Mod.dependencies (snd kv))) ms 0).

Definition entryUsage (ms : list (string * Mod.t)) : Used :=
  List.fold_left
    (fun used kv => if Mod.isEntry (snd kv) then assocSet (fst kv) ["*"] used else used)
    ms [].

Definition usedExports (ms : list (string * Mod.t)) : Used :=
  propagate (propagateRounds ms) ms (entryUsage ms).

Definition treeShake (b : t) : t :=
  let used := usedExports (modules b) in
  withModules
    (List.filter
       (fun kv => negb (negb (has (fst kv) used) && negb (Mod.sideEffects (snd kv))))
       (modules b)) b.

(** *** Code splitting *)

Definition hasChunk (m : Mod.t) : bool :=
  match Mod.chunk m with Some c => truthyStr c | None => false end.

Definition mapModules (f : string -> Mod.t -> Mod.t) (ms : list (string * Mod.t))
  : list (string * Mod.t) :=
  List.map (fun kv => (fst kv, f (fst kv) (snd kv))) ms.

(** The chunk of the first dependent that has one. *)
Fixpoint dependentChunk (ms : list (string * Mod.t)) (dependents : list string)
  : option string :=
  match dependents with
  | [] => None
  | depPath :: rest =>
      match assoc depPath ms with
      | Some dep => if hasChunk dep then Mod.chunk dep else dependentChunk ms rest
      | None => dependentChunk ms rest
      end
  end.

(** One round over [this.modules]: the modules are updated in place, so
    a module sees the chunks assigned earlier in the same round. *)
Definition assignOnce (ms : list (string * Mod.t)) : list (string * Mod.t) * bool :=
  List.fold_left
    (fun acc kv =>
       let '(cur, changed) := acc in
       match assoc (fst kv) cur with
       | Some module =>
           if hasChunk module then acc
           else
             match dependentChunk cur (Mod.dependents module) with
             | Some c => (update (fst kv) (Mod.withChunk (Some c)) cur, true)
             | None => acc
             end
       | None => acc
       end)
    ms (ms, false).

(** The [while (changed)] loop: every round that changes something gives
    a chunk to a module that had none, and [assignLoop_rounds_enough]
    shows that more rounds than there are modules never cut the loop
    short. *)
Fixpoint assignLoop (rounds : nat) (ms : list (string * Mod.t)) : list (string * Mod.t) :=
  match rounds with
  | O => ms
  | S rounds' =>
      let '(ms', changed) := assignOnce ms in
      if changed then assignLoop rounds' ms' else ms'
  end.

Definition firstEntryChunk (ms : list (string * Mod.t)) : option string :=
  match List.find (fun kv => Mod.isEntry (snd kv)) ms with
  | Some kv => Mod.chunk (snd kv)
  | None => None
  end.

Definition splitCode (b : t) : t :=
  (* entry chunks *)
  let ms :=
    mapModules
      (fun p m =>
         if Mod.isEntry m then
           Mod.withChunk (Some ("entry-" ++ Str.take 6 (hashContent p))) m
         else m)
      (modules b) in
  (* dynamic import chunks *)
  let ms :=
    mapModules
      (fun p m =>
         if Mod.isDynamic m && negb (hasChunk m) then
           Mod.withChunk (Some ("chunk-" ++ Str.take 6 (hashContent p))) m
         else m)
      ms in
  (* remaining modules go to the chunk of an importer *)
  let ms := assignLoop (S (List.length ms)) ms in
  (* fallback *)
  let fallback :=
    match firstEntryChunk ms with
    | Some c => if truthyStr c then c else "main"
    | None => "main"
    end in
  withModules
    (mapModules (fun _ m => if hasChunk m then m else Mod.withChunk (Some fallback) m) ms)
    b.

Definition createSingleChunk (b : t) : t :=
  withModules (mapModules (fun _ m => Mod.withChunk (Some "bundle") m) (modules b)) b.

(** *** Chunk generation *)

(** The variables that the closure [visit] of [topologicalSort]
    updates. *)
Record Sort : Type := {
  result : list Mod.t;
  visited : list string;
  visiting : list string;
}.

(** [modules.includes(depModule)]: the modules of a chunk are values of
    [this.modules], where a module is stored under its own path, so the
    same object is the same path. *)
Definition includes (group : list Mod.t) (m : Mod.t) : bool :=
  List.existsb (fun x => String.eqb (Mod.path x) (Mod.path m)) group.

(** The closure [visit].  [depth] bounds the nesting of the calls; a
    call nests at most as deep as the chunk has modules. *)
Fixpoint visit (depth : nat) (all : list (string * Mod.t)) (group : list Mod.t)
    (module : Mod.t) (s : Sort) : Sort :=
  if mem (Mod.path module) (visited s) then s
  else if mem (Mod.path module) (visiting s) then s
  else
    match depth with
    | O => s
    | S depth' =>
        let s1 :=
          {| result := result s; visited := visited s;
             visiting := setAdd (Mod.path module) (visiting s) |} in
        let s2 :=
          List.fold_left
            (fun s dep =>
               match assoc (Dependency.resolved dep) all with
               | Some depModule =>
                   if includes group depModule then visit depth' all group depModule s
                   else s
               | None => s
               end)
            (Mod.dependencies module) s1 in
        {| result := result s2 ++ [module];
           visited := setAdd (Mod.path module) (visited s2);
           visiting := setDelete (Mod.path module) (visiting s2) |}
    end.

Definition topologicalSort (all : list (string * Mod.t)) (group : list Mod.t)
  : list Mod.t :=
  result
    (List.fold_left (fun s module => visit (S (List.length group)) all group module s)
       group {| result := []; visited := []; visiting := [] |}).

Definition chunkIdOf (m : Mod.t) : string :=
  match Mod.chunk m with
  | Some c => if truthyStr c then c else "main"
  | None => "main"
  end.

(** [chunkModules]: the modules grouped by chunk id, groups and members
    in insertion order. *)
Fixpoint pushTo (chunkId : string) (m : Mod.t) (groups : list (string * list Mod.t))
  : list (string * list Mod.t) :=
  match groups with
  | [] => [(chunkId, [m])]
  | (c, ms) :: rest =>
      if String.eqb c chunkId then (c, (ms ++ [m])%list) :: rest
      else (c, ms) :: pushTo chunkId m rest
  end.

Definition groupByChunk (ms : list (string * Mod.t)) : list (string * list Mod.t) :=
  List.fold_left (fun groups kv => pushTo (chunkIdOf (snd kv)) (snd kv) groups) ms [].

Definition generateChunks (b : t) : list Chunk.t :=
  List.map
    (fun g =>
       let chunkId := fst g in
       let isEntry := List.existsb Mod.isEntry (snd g) in
       let isDynamic := List.existsb Mod.isDynamic (snd g) && negb isEntry in
       let sorted := topologicalSort (modules b) (snd g) in
       {| Chunk.id := chunkId;
          Chunk.name := if isEntry then "index" else chunkId;
          Chunk.modules := List.map Mod.id sorted;
          Chunk.sorted := List.map Mod.path sorted;
          Chunk.isEntry := isEntry;
          Chunk.isDynamic := isDynamic |})
    (groupByChunk (modules b)).

(** [getChunkImports]: the [chunk] fields, [None] for [undefined], of
    the modules that the modules of the chunk depend on and that lie in
    another chunk, each once, in the order in which the loops meet
    them. *)
Definition optEqb (a b : option string) : bool :=
  match a, b with
  | Some x, Some y => String.eqb x y
  | None, None => true
  | _, _ => false
  end.

Definition addImport (c : option string) (imports : list (option string))
  : list (option string) :=
  if List.existsb (optEqb c) imports then imports else (imports ++ [c])%list.

Definition getChunkImports (b : t) (group : list Mod.t) (chunkId : string)
  : list (option string) :=
  List.fold_left
    (fun imports module =>
       List.fold_left
         (fun imports dep =>
            match assoc (Dependency.resolved dep) (modules b) with
            | Some depModule =>
                if negb (optEqb (Mod.chunk depModule) (Some chunkId)) then
                  addImport (Mod.chunk depModule) imports
                else imports
            | None => imports
            end)
         (Mod.dependencies module) imports)
    group [].

(** [sanitizeId]: every character that is no ASCII letter and no digit
    becomes an underscore. *)
Definition isAlphaNum (a : ascii) : bool :=
  let n := nat_of_ascii a in
  ((97 <=? n)%nat && (n <=? 122)%nat)
  || ((65 <=? n)%nat && (n <=? 90)%nat)
  || ((48 <=? n)%nat && (n <=? 57)%nat).

Fixpoint sanitizeId (id : string) : string :=
  match id with
  | EmptyString => EmptyString
  | String a rest => String (if isAlphaNum a then a else "_"%char) (sanitizeId rest)
  end.

(** *** [build] *)

(** The loop over the entries; the first entry that throws ends it. *)
Fixpoint processEntries (depth : nat) (entries : list string) (b : t)
  : option (outcome unit * t) :=
  match entries with
  | [] => Some (Ok tt, b)
  | e :: rest =>
      match processModule depth (Path.resolve (cwd h) [cwd h; e]) true false b with
      | None => None
      | Some (Throw err, b') => Some (Throw err, b')
      | Some (Ok _, b') => processEntries depth rest b'
      end
  end.

(** [build], on the bundler [b] as its constructor left it, for options
    without plugins and without an [onProgress] callback ([setupPlugins]
    does nothing then, and [onProgress] is the empty function that the
    constructor puts in its place): the output, or the error that rejects
    the promise, and the bundler afterwards. *)
Definition build (depth : nat) (b : t) : option (outcome BundleOutput * t) :=
  match processEntries depth (entry (options b)) b with
  | None => None
  | Some (Throw err, b') => Some (Throw err, b')
  | Some (Ok _, b) =>
      let b := if default true (treeshake (options b)) then treeShake b else b in
      let b := if default true (splitting (options b)) then splitCode b
               else createSingleChunk b in
      let cs := generateChunks b in
      Some (Ok {| chunks := cs;
                  out_modules := modules b;
                  stats := {| stat_modules := List.length (modules b);
                              stat_chunks := List.length cs |} |},
            b)
  end.

End Methods.

(** [bundle(options)]: a fresh bundler, then [build]. *)
Definition bundle (h : Host) (depth : nat) (o : BundlerOptions) : option (outcome BundleOutput) :=
  match build h depth (new h o) with
  | Some (r, _) => Some r
  | None => None
  end.

End Bundler.

(* ===================================================================== *)
(** ** Vocabulary for the order of a chunk *)
(* ===================================================================== *)

Module Order.

Section Graph.

(** [all] is [this.modules]; [group] is the array of modules of one
    chunk. *)
Variables (all : list (string * Mod.t)) (group : list Mod.t).

(** [this.modules] stores a module under its own path, and the modules
    of a chunk are values of [this.modules]. *)
Definition wellFormed : Prop :=
  (forall (k : string) (m : Mod.t), assoc k all = Some m -> Mod.path m = k)
  /\ (forall m : Mod.t, In m group -> assoc (Mod.path m) all = Some m).

(** An edge inside the chunk, through a recorded dependency that [keep]
    accepts. *)
Definition edgeVia (keep : Dependency.t -> bool) (A B : Mod.t) : Prop :=
  In A group /\ In B group
  /\ exists d : Dependency.t,
       In d (Mod.dependencies A) /\ keep d = true
       /\ Dependency.resolved d = Mod.path B.

Inductive reachesVia (keep : Dependency.t -> bool) : Mod.t -> Mod.t -> Prop :=
| reach_here (A : Mod.t) : reachesVia keep A A
| reach_step (A B C : Mod.t) :
    edgeVia keep A B -> reachesVia keep B C -> reachesVia keep A C.

Definition anyEdge (d : Dependency.t) : bool := true.
Definition staticOnly (d : Dependency.t) : bool := negb (Dependency.isDynamic d).

(** Every recorded dependency, static or dynamic. *)
Definition edge : Mod.t -> Mod.t -> Prop := edgeVia anyEdge.
Definition reaches : Mod.t -> Mod.t -> Prop := reachesVia anyEdge.

(** The static dependencies only. *)
Definition staticEdge : Mod.t -> Mod.t -> Prop := edgeVia staticOnly.
Definition staticReaches : Mod.t -> Mod.t -> Prop := reachesVia staticOnly.

End Graph.

(** [p] stands before an occurrence of [q] in [l]. *)
Definition earlier (l : list string) (p q : string) : Prop :=
  exists l1 l2 : list string, l = (l1 ++ q :: l2)%list /\ In p l1.

End Order.

(* ===================================================================== *)
(** ** [turboBundler.ts]: [transformBatch] *)
(* ===================================================================== *)

Module TurboBundler.

(** [TurboModule], as far as [transformBatch] reads and writes it. *)
Record TurboModule : Type := {
  path : string;
  source : string;
  code : string;
}.

Fixpoint applyDefines (entries : list (string * string)) (code : string) : string :=
  match entries with
  | [] => code
  | (key, value) :: rest => applyDefines rest (Str.replaceAll key value code)
  end.

(** The body of the loop of [transformBatch].  [wasmTransformer] is the
    optional WebAssembly transformer, [None] when it could not be
    loaded. *)
Definition transformOne (define : list (string * string))
    (wasmTransformer : option (string -> string -> string)) (m : TurboModule)
  : TurboModule :=
  if truthyStr (code m) then m
  else
    let c := applyDefines define (source m) in
    let ext := Str.toLowerCase (Path.extname (path m)) in
    let c :=
      if List.existsb (String.eqb ext) [".ts"; ".tsx"; ".jsx"] then
        match wasmTransformer with
        | Some transform_code => transform_code c (path m)
        | None => c
        end
      else c in
    {| path := path m; source := source m; code := c |}.

Definition transformBatch (define : list (string * string))
    (wasmTransformer : option (string -> string -> string)) (ms : list TurboModule)
  : list TurboModule :=
  List.map (transformOne define wasmTransformer) ms.

(** *** [class ResolutionCache] *)

Module ResolutionCache.

(** The three maps of the object.  [packageJsonCache] holds [null] for a
    [package.json] that could not be read or parsed. *)
Record t : Type := {
  cache : gmap string string;
  packageJsonCache : gmap string json;
  existsCache : gmap string bool;
}.

Definition empty : t := {| cache := ∅; packageJsonCache := ∅; existsCache := ∅ |}.

(** A method: its answer, or what it throws, and the object afterwards. *)
Definition M (A : Type) : Type := t -> outcome A * t.

Definition ret {A} (a : A) : M A := fun st => (Ok a, st).
Definition bind {A B} (m : M A) (k : A -> M B) : M B :=
  fun st =>
    match m st with
    | (Ok a, st') => k a st'
    | (Throw e, st') => (Throw e, st')
    end.
Definition lift {A} (r : outcome A) : M A := fun st => (r, st).

Notation "'let*' x := m 'in' k" := (bind m (fun x => k))
  (at level 10, x name, m at level 100, k at level 200).

Section Methods.

Variable h : Host.

(** [fileExists]: [statSync(filepath).isFile()], [false] when [statSync]
    throws; either answer is remembered. *)
Definition fileExists (filepath : string) : M bool :=
  fun st =>
    match existsCache st !! filepath with
    | Some known => (Ok known, st)
    | None =>
        let exists_ := isFile h filepath in
        (Ok exists_,
         {| cache := cache st; packageJsonCache := packageJsonCache st;
            existsCache := <[filepath := exists_]> (existsCache st) |})
    end.

Definition readPackageJson (filepath : string) : M json :=
  fun st =>
    match packageJsonCache st !! filepath with
    | Some pkg => (Ok pkg, st)
    | None =>
        let pkg :=
          match readFileSync h filepath with
          | Ok content => default JNull (jsonParse h content)
          | Throw _ => JNull
          end in
        (Ok pkg,
         {| cache := cache st; packageJsonCache := <[filepath := pkg]> (packageJsonCache st);
            existsCache := existsCache st |})
    end.

(** [for (const c of candidates) if (this.fileExists(c)) return c]: the
    first candidate that is a file. *)
Fixpoint firstExisting (candidates : list string) : M (option string) :=
  match candidates with
  | [] => ret None
  | c :: rest =>
      let* found := fileExists c in
      if found then ret (Some c) else firstExisting rest
  end.

(** [resolveFile]: the path itself, then the path with each extension,
    then the index file of the path with each extension. *)
Definition resolveFile (filepath : string) (extensions : list string) : M (option string) :=
  let* exact := fileExists filepath in
  if exact then ret (Some filepath)
  else
    let* withExt := firstExisting (List.map (fun ext => filepath ++ ext) extensions) in
    match withExt with
    | Some p => ret (Some p)
    | None =>
        firstExisting (List.map (fun ext => Path.join [filepath; "index" ++ ext]) extensions)
    end.

Definition CONDITIONS : list string := ["import"; "require"; "default"; "node"; "browser"].

(** The first of [keys] whose value in the object is truthy, with what
    the recursive call answers for that value. *)
Fixpoint firstTruthyKey (keys : list string)
    (sub : list (string * (bool * outcome (option string)))) : outcome (option string) :=
  match keys with
  | [] => Ok None
  | k :: rest =>
      match assoc k sub with
      | Some (true, answer) => answer
      | _ => firstTruthyKey rest sub
      end
  end.

(** [resolveExports(exports, pkgDir)]: a string is joined to the
    package directory, without a look at the file system; otherwise the
    value under [.] is followed, or else the value under the first of the
    five conditions, each only when it is truthy.  Reading a property of
    [null] throws. *)
Fixpoint resolveExports (exports : json) (pkgDir : string) : outcome (option string) :=
  match exports with
  | JStr e => Ok (Some (Path.join [pkgDir; e]))
  | JNull => Throw (TypeError "Cannot read properties of null (reading '.')")
  | JObj fields =>
      firstTruthyKey ("." :: CONDITIONS)
        (List.map (fun kv => (fst kv, (truthy (snd kv), resolveExports (snd kv) pkgDir)))
           fields)
  | _ => Ok None
  end.

(** The [module] field: followed only when the file exists. *)
Definition viaModuleField (pkgDir : string) (pkg : json) : M (option string) :=
  let* field := lift (getProp pkg "module") in
  if truthyU field then
    let* m := lift (ModuleResolver.asPathArg (default JNull field)) in
    let modulePath := Path.join [pkgDir; m] in
    let* found := fileExists modulePath in
    ret (if found then Some modulePath else None)
  else ret None.

(** The [main] field, through [resolveFile]. *)
Definition viaMainField (pkgDir : string) (pkg : json) (extensions : list string)
  : M (option string) :=
  let* field := lift (getProp pkg "main") in
  if truthyU field then
    let* m := lift (ModuleResolver.asPathArg (default JNull field)) in
    resolveFile (Path.join [pkgDir; m]) extensions
  else ret None.

Definition resolvePackage (pkgDir : string) (extensions : list string) : M (option string) :=
  let pkgJsonPath := Path.join [pkgDir; "package.json"] in
  let* hasPkg := fileExists pkgJsonPath in
  if negb hasPkg then resolveFile pkgDir extensions
  else
    let* pkg := readPackageJson pkgJsonPath in
    if negb (truthy pkg) then ret None
    else
      let* exports := lift (getProp pkg "exports") in
      let* entry :=
        (if truthyU exports then lift (resolveExports (default JNull exports) pkgDir)
         else ret None) in
      if truthyOpt entry then ret entry
      else
        let* viaModule := viaModuleField pkgDir pkg in
        match viaModule with
        | Some p => ret (Some p)
        | None =>
            let* viaMain := viaMainField pkgDir pkg extensions in
            if truthyOpt viaMain then ret viaMain
            else resolveFile (Path.join [pkgDir; "index"]) extensions
        end.

(** The [while (dir !== path.dirname(dir))] loop; [rounds] bounds the
    number of rounds, and [turbo_walk_rounds_enough] shows that the bound
    of [resolveInternal] never cuts the loop short. *)
Fixpoint walk (rounds : nat) (specifier dir : string) (extensions : list string)
  : M (option string) :=
  if String.eqb dir (Path.dirname dir) then ret None
  else
    match rounds with
    | O => ret None
    | S rounds' =>
        let* resolved :=
          resolvePackage (Path.join [dir; "node_modules"; specifier]) extensions in
        if truthyOpt resolved then ret resolved
        else walk rounds' specifier (Path.dirname dir) extensions
    end.

Definition resolveInternal (specifier fromDir : string) (extensions : list string)
  : M (option string) :=
  if Str.startsWith specifier "." || Str.startsWith specifier "/" then
    let base :=
      if Str.startsWith specifier "/" then specifier else Path.join [fromDir; specifier] in
    resolveFile base extensions
  else walk (String.length fromDir + 2) specifier fromDir extensions.

(** The key [`${fromDir}\0${specifier}`]. *)
Definition keyOf (fromDir specifier : string) : string :=
  fromDir ++ String "000"%char specifier.

(** [resolve]: only a truthy answer is stored in [cache]. *)
Definition resolve (specifier fromDir : string) (extensions : list string)
  : M (option string) :=
  fun st =>
    let key := keyOf fromDir specifier in
    match cache st !! key with
    | Some known => (Ok (Some known), st)
    | None =>
        match resolveInternal specifier fromDir extensions st with
        | (Ok result, st') =>
            if truthyOpt result then
              (Ok result,
               {| cache := <[key := default EmptyString result]> (cache st');
                  packageJsonCache := packageJsonCache st';
                  existsCache := existsCache st' |})
            else (Ok result, st')
        | (Throw e, st') => (Throw e, st')
        end
    end.

End Methods.

(** A later call of [resolve], with the file system as it is then. *)
Record TurboCall : Type := {
  t_host : Host;
  t_specifier : string;
  t_fromDir : string;
}.

(** The cache object after a sequence of calls with the extension list
    [exts], whatever they answered. *)
Definition resolveEach (exts : list string) (calls : list TurboCall) (st : t) : t :=
  List.fold_left
    (fun st c => snd (resolve (t_host c) (t_specifier c) (t_fromDir c) exts st)) calls st.

End ResolutionCache.

(** *** [class TurboBundler], the rest *)

Definition extensions : list string := [".ts"; ".tsx"; ".js"; ".jsx"; ".mjs"; ".json"].

Definition builtins : list string :=
  [ "fs"; "path"; "os"; "util"; "events"; "stream"; "http"; "https";
    "url"; "crypto"; "zlib"; "assert"; "buffer"; "child_process";
    "cluster"; "dgram"; "dns"; "domain"; "net"; "readline"; "repl";
    "string_decoder"; "tls"; "tty"; "v8"; "vm"; "worker_threads" ].

(** [isExternal]; [external] is the option of that name. *)
Definition isExternal (external : list string) (specifier : string) : bool :=
  if Str.startsWith specifier "." || Str.startsWith specifier "/" then false
  else if Str.startsWith specifier "node:" then true
  else
    let name := List.hd EmptyString (Str.split Str.slash specifier) in
    if mem name builtins then true
    else if mem name external then true
    else true.

(** [resolveToId]: [ids] gives, for each key of [this.modules], the
    [id] of the module stored there. *)
Definition resolveToId (h : Host) (external : list string) (ids : list (string * string))
    (specifier fromPath : string) : ResolutionCache.M string :=
  if isExternal external specifier then ResolutionCache.ret specifier
  else
    ResolutionCache.bind
      (ResolutionCache.resolve h specifier (Path.dirname fromPath) extensions)
      (fun resolved =>
         ResolutionCache.ret
           (if truthyOpt resolved then
              match assoc (default EmptyString resolved) ids with
              | Some id => id
              | None => specifier
              end
            else specifier)).

(** The loop of [chunk(arr, size)]: [arr] is what remains from index
    [i] on.  With [size] zero the loop never ends; [rounds] bounds the
    number of rounds, and [None] means that the bound was reached. *)
Fixpoint chunkLoop {T} (rounds : nat) (arr : list T) (size : nat) : option (list (list T)) :=
  match arr with
  | [] => Some []
  | _ :: _ =>
      match rounds with
      | O => None
      | S rounds' =>
          match chunkLoop rounds' (List.skipn size arr) size with
          | Some rest => Some (List.firstn size arr :: rest)
          | None => None
          end
      end
  end.

Definition chunk {T} (arr : list T) (size : nat) : option (list (list T)) :=
  chunkLoop (List.length arr) arr size.

(** [Math.ceil(n / cpus)] for [cpus] positive. *)
Definition batchSize (n cpus : nat) : nat := (n + cpus - 1) / cpus.

End TurboBundler.

(* ===================================================================== *)
(** ** [devServer.ts]: [rebuild] *)
(* ===================================================================== *)

(** [error.message] *)
Definition messageOf (e : exn) : string :=
  match e with
  | Error m | TypeError m | RangeError m | SyntaxError m => m
  end.

Module Msg.
(** The [type] of an [HMRMessage]. *)
Inductive type : Type := connected | update | full_reload | error | prune.
End Msg.

Module DevServer.

Inductive UpdateType : Type := js | css.

Record HMRUpdate : Type := {
  u_type : UpdateType;
  u_path : string;
  acceptedPath : string;
  u_timestamp : nat;
}.

(** [HMRError], without the stack text that the engine attaches to an
    error object. *)
Record HMRError : Type := {
  message : string;
}.

Record HMRMessage : Type := {
  type : Msg.type;
  timestamp : option nat;
  updates : option (list HMRUpdate);
  error : option HMRError;
}.

Inductive ReadyState : Type := CONNECTING | OPEN | CLOSING | CLOSED.

(** A WebSocket of [this.clients], with what has been sent on it, oldest
    first. *)
Record Client : Type := {
  readyState : ReadyState;
  sent : list HMRMessage;
}.

(** The fields of the server that [rebuild] reads and writes.
    [bundlerOptions] are options without plugins, as everywhere here;
    [onRebuild] is the callback of the options; it may throw. *)
Record t : Type := {
  bundlerOptions : Bundler.BundlerOptions;
  onRebuild : Bundler.BundleOutput -> outcome unit;
  currentBundle : option Bundler.BundleOutput;
  clients : list Client;
  isRebuilding : bool;
}.

Definition isOpen (c : Client) : bool :=
  match readyState c with OPEN => true | _ => false end.

Definition send (m : HMRMessage) (c : Client) : Client :=
  {| readyState := readyState c; sent := sent c ++ [m] |}.

Definition broadcast (m : HMRMessage) (s : t) : t :=
  {| bundlerOptions := bundlerOptions s;
     onRebuild := onRebuild s;
     currentBundle := currentBundle s;
     clients := List.map (fun c => if isOpen c then send m c else c) (clients s);
     isRebuilding := isRebuilding s |}.

Definition setCurrentBundle (o : Bundler.BundleOutput) (s : t) : t :=
  {| bundlerOptions := bundlerOptions s;
     onRebuild := onRebuild s;
     currentBundle := Some o;
     clients := clients s;
     isRebuilding := isRebuilding s |}.

Definition setRebuilding (flag : bool) (s : t) : t :=
  {| bundlerOptions := bundlerOptions s;
     onRebuild := onRebuild s;
     currentBundle := currentBundle s;
     clients := clients s;
     isRebuilding := flag |}.

Definition getUpdates (h : Host) (newBundle : Bundler.BundleOutput) (changedFile : string)
  : list HMRUpdate :=
  let ext := Str.toLowerCase (Path.extname changedFile) in
  if String.eqb ext ".css" then
    [{| u_type := css; u_path := changedFile; acceptedPath := changedFile;
        u_timestamp := now h |}]
  else if List.existsb (String.eqb ext) [".js"; ".jsx"; ".ts"; ".tsx"; ".mjs"] then
    let moduleId := Str.replaceAll "\" "/" (Path.relative (cwd h) (cwd h) changedFile) in
    List.flat_map
      (fun c =>
         if mem moduleId (Chunk.modules c) then
           [{| u_type := js; u_path := "/" ++ Chunk.name c ++ ".js";
               acceptedPath := changedFile; u_timestamp := now h |}]
         else [])
      (Bundler.chunks newBundle)
  else [].

Definition errorMessage (e : exn) : HMRMessage :=
  {| type := Msg.error; timestamp := None; updates := None;
     error := Some {| message := messageOf e |} |}.

(** [rebuild(changedFile)], run to completion: [None] when the depth
    allowance of the build was too small.  A call that finds
    [isRebuilding] set returns at once. *)
Definition rebuild (h : Host) (depth : nat) (changedFile : string) (s : t) : option t :=
  if isRebuilding s then Some s
  else
    match Bundler.build h depth (Bundler.new h (bundlerOptions s)) with
    | None => None
    | Some (Ok newBundle, _) =>
        let ups := getUpdates h newBundle changedFile in
        let s := setCurrentBundle newBundle s in
        match onRebuild s newBundle with
        | Ok _ =>
            let m :=
              match ups with
              | _ :: _ =>
                  {| type := Msg.update; timestamp := Some (now h);
                     updates := Some ups; error := None |}
              | [] =>
                  {| type := Msg.full_reload; timestamp := Some (now h);
                     updates := None; error := None |}
              end in
            Some (setRebuilding false (broadcast m s))
        | Throw e => Some (setRebuilding false (broadcast (errorMessage e) s))
        end
    | Some (Throw e, _) => Some (setRebuilding false (broadcast (errorMessage e) s))
    end.

End DevServer.

(* ===================================================================== *)
(** ** The textual check [hasTopLevelAwait] of the ESM runtime *)
(* ===================================================================== *)

(** The characters of a text are its code units; the classes below are
    those of the regular expressions for code units under 256. *)

Module EsmRuntime.

(** [\s] *)
Definition isSpace (a : ascii) : bool :=
  let n := nat_of_ascii a in
  ((9 <=? n)%nat && (n <=? 13)%nat) || (n =? 32)%nat || (n =? 160)%nat.

(** [\w] *)
Definition isWord (a : ascii) : bool :=
  let n := nat_of_ascii a in
  ((97 <=? n)%nat && (n <=? 122)%nat)
  || ((65 <=? n)%nat && (n <=? 90)%nat)
  || ((48 <=? n)%nat && (n <=? 57)%nat)
  || (n =? 95)%nat.

Fixpoint skipSpaces (s : string) : string :=
  match s with
  | String a rest => if isSpace a then skipSpaces rest else s
  | EmptyString => EmptyString
  end.

(** One white-space character or more, then the rest. *)
Definition afterSpaces (s : string) : option string :=
  match s with
  | String a rest => if isSpace a then Some (skipSpaces rest) else None
  | EmptyString => None
  end.

(** [s.match(/^async\s+(function|\()/)], as a condition. *)
Definition startsAsync (s : string) : bool :=
  Str.startsWith s "async"
  && match afterSpaces (Str.drop 5 s) with
     | Some rest => Str.startsWith rest "function" || Str.startsWith rest "("
     | None => false
     end.

(** The variables of the [while] loop; [kept] is [result], newest
    character first. *)
Record Scan : Type := {
  depth : Z;
  inAsync : bool;
  kept : string;
}.

(** One round of the loop, at the position where [s] begins. *)
Definition scanStep (st : Scan) (a : ascii) (s : string) : Scan :=
  let inAsync1 := if startsAsync s then true else inAsync st in
  let depth1 :=
    if Ascii.eqb a "{"%char && inAsync1 then (depth st + 1)%Z else depth st in
  let '(depth2, inAsync2) :=
    if Ascii.eqb a "}"%char && inAsync1 then
      ((depth1 - 1)%Z, if Z.eqb (depth1 - 1) 0 then false else inAsync1)
    else (depth1, inAsync1) in
  {| depth := depth2;
     inAsync := inAsync2;
     kept := if inAsync2 then kept st else String a (kept st) |}.

Fixpoint scan (st : Scan) (s : string) : Scan :=
  match s with
  | EmptyString => st
  | String a rest => scan (scanStep st a s) rest
  end.

(** [result] when the loop is over. *)
Definition stripAsync (code : string) : string :=
  String.rev (kept (scan {| depth := 0; inAsync := false; kept := EmptyString |} code)).

(** [/\bawait\s+/] at the start of [s], where [prev] is the character
    before [s], if any. *)
Definition awaitHere (prev : option ascii) (s : string) : bool :=
  match prev with Some p => negb (isWord p) | None => true end
  && Str.startsWith s "await"
  && match afterSpaces (Str.drop 5 s) with Some _ => true | None => false end.

Fixpoint awaitFrom (prev : option ascii) (s : string) : bool :=
  awaitHere prev s
  || match s with
     | String a rest => awaitFrom (Some a) rest
     | EmptyString => false
     end.

(** [/\bawait\s+/g.test(text)], on a fresh expression. *)
Definition awaitTest (text : string) : bool := awaitFrom None text.

Definition hasTopLevelAwait (code : string) : bool := awaitTest (stripAsync code).

End EsmRuntime.

(* ===================================================================== *)
(** ** Vocabulary for syntax trees *)
(* ===================================================================== *)

Module Tree.

(** The nodes of a tree in the order in which [ts.forEachChild] meets
    them, each with the kinds of its ancestors, nearest first. *)
Fixpoint nodes (ancestors : list SyntaxKind) (node : Node)
  : list (list SyntaxKind * SyntaxKind) :=
  match node with
  | mkNode kind children =>
      (ancestors, kind) :: List.flat_map (nodes (kind :: ancestors)) children
  end.

Definition isJsx (k : SyntaxKind) : bool :=
  match k with
  | JsxElement | JsxSelfClosingElement | JsxFragment => true
  | _ => false
  end.

Definition isImportCall (k : SyntaxKind) : bool :=
  match k with
  | CallExpression true _ => true
  | _ => false
  end.

Definition isAwait (k : SyntaxKind) : bool :=
  match k with
  | AwaitExpression => true
  | _ => false
  end.

(** The import that a node stands for, if any. *)
Definition importOf (k : SyntaxKind) : list KonaParser.ImportInfo :=
  match k with
  | ImportDeclaration (Some spec) typeOnly =>
      [{| KonaParser.source := spec; KonaParser.isDynamic := false;
          KonaParser.isTypeOnly := typeOnly |}]
  | CallExpression true (Some spec) =>
      [{| KonaParser.source := spec; KonaParser.isDynamic := true;
          KonaParser.isTypeOnly := false |}]
  | _ => []
  end.

End Tree.

(* ===================================================================== *)
(** ** Concrete projects *)
(* ===================================================================== *)

(** Small file systems, each with the parser tables that stand for
    [JSON.parse] and [ts.createSourceFile] on its files. *)

Module Fixtures.

Definition table {A} (l : list (string * A)) (k : string) : option A := assoc k l.

Definition noJson : string -> option json := fun _ => None.

Definition emptySource : Node := mkNode SourceFile [].

(** [createSourceFile] from a table of source texts. *)
Definition sources (l : list (string * Node)) : string -> string -> bool -> Node :=
  fun _ src _ => default emptySource (assoc src l).

Definition host (files : list (string * entry)) (jsons : list (string * json))
    (trees : list (string * Node)) : Host :=
  {| fs := table files;
     jsonParse := table jsons;
     regExpMatch := fun _ _ => NoMatch;
     cwd := "/p";
     stackLimit := 64;
     createSourceFile := sources trees;
     md5hex := fun s => s;
     now := 0 |}.

Definition resolverOptions (isBrowser : bool) : ModuleResolver.ResolveOptions :=
  {| ModuleResolver.o_basedir := "/p";
     ModuleResolver.o_extensions := None;
     ModuleResolver.o_alias := None;
     ModuleResolver.o_paths := None;
     ModuleResolver.o_baseUrl := None;
     ModuleResolver.o_mainFields := None;
     ModuleResolver.o_conditionNames := None;
     ModuleResolver.o_browser := Some isBrowser;
     ModuleResolver.o_external := None;
     ModuleResolver.o_cache := None |}.

Definition bundlerOptions (entries : list string) (tgt : Bundler.Target)
    (split : option bool) : Bundler.BundlerOptions :=
  {| Bundler.entry := entries;
     Bundler.format := None;
     Bundler.target := Some tgt;
     Bundler.splitting := split;
     Bundler.treeshake := None;
     Bundler.external := None;
     Bundler.alias := None;
     Bundler.define := None |}.

(** An import declaration [import ... from 'spec'] or [import 'spec']. *)
Definition importDecl (spec : string) : Node :=
  mkNode (ImportDeclaration (Some spec) false) [mkNode (OtherKind "StringLiteral") []].

(** An expression statement [import('spec')]. *)
Definition dynamicImport (spec : string) : Node :=
  mkNode (OtherKind "ExpressionStatement")
    [mkNode (CallExpression true (Some spec))
       [mkNode (OtherKind "ImportKeyword") []; mkNode (OtherKind "StringLiteral") []]].

(** *** Conditional exports (scenario 6 of the specification)

    [/p/node_modules/pkg/package.json] is
    [{"exports":{"./sub":{"browser":"./b.js","default":"./d.js"}}}]. *)

Definition condPkgText : string :=
  "{'exports':{'./sub':{'browser':'./b.js','default':'./d.js'}}}".

Definition condPkg : json :=
  JObj [("exports",
         JObj [("./sub", JObj [("browser", JStr "./b.js"); ("default", JStr "./d.js")])])].

Definition condHost : Host :=
  host [ ("/p", Directory);
         ("/p/main.js", File "import 'pkg/sub'");
         ("/p/node_modules", Directory);
         ("/p/node_modules/pkg", Directory);
         ("/p/node_modules/pkg/package.json", File condPkgText);
         ("/p/node_modules/pkg/b.js", File "b");
         ("/p/node_modules/pkg/d.js", File "d") ]
       [ (condPkgText, condPkg) ]
       [ ("import 'pkg/sub'", mkNode SourceFile [importDecl "pkg/sub"]) ].

(** *** A package with both [exports] and [main]

    [/p/node_modules/both/package.json] is
    [{"exports":{"./feature":"./feature.js"},"main":"./main.js"}]. *)

Definition bothPkgText : string :=
  "{'exports':{'./feature':'./feature.js'},'main':'./main.js'}".

Definition bothPkg : json :=
  JObj [("exports", JObj [("./feature", JStr "./feature.js")]); ("main", JStr "./main.js")].

Definition bothHost : Host :=
  host [ ("/p", Directory);
         ("/p/node_modules", Directory);
         ("/p/node_modules/both", Directory);
         ("/p/node_modules/both/package.json", File bothPkgText);
         ("/p/node_modules/both/feature.js", File "feature");
         ("/p/node_modules/both/main.js", File "main") ]
       [ (bothPkgText, bothPkg) ]
       [].

(** *** A package that declares [sideEffects: false]

    [/p/node_modules/pure/package.json] is
    [{"main":"index.js","sideEffects":false}]; the entry imports it. *)

Definition purePkgText : string := "{'main':'index.js','sideEffects':false}".

Definition purePkg : json :=
  JObj [("main", JStr "index.js"); ("sideEffects", JBool false)].

Definition pureHost : Host :=
  host [ ("/p", Directory);
         ("/p/main.js", File "import {keep} from 'pure'; console.log(keep)");
         ("/p/node_modules", Directory);
         ("/p/node_modules/pure", Directory);
         ("/p/node_modules/pure/package.json", File purePkgText);
         ("/p/node_modules/pure/index.js", File "export const keep = 1") ]
       [ (purePkgText, purePkg) ]
       [ ("import {keep} from 'pure'; console.log(keep)",
          mkNode SourceFile
            [importDecl "pure"; mkNode (OtherKind "ExpressionStatement") []]);
         ("export const keep = 1",
          mkNode SourceFile [mkNode (OtherKind "VariableStatement") []]) ].

(** *** An entry with an import that does not resolve *)

Definition missingHost : Host :=
  host [ ("/p", Directory);
         ("/p/main.js", File "import './missing'; console.log(1)") ]
       []
       [ ("import './missing'; console.log(1)",
          mkNode SourceFile
            [importDecl "./missing"; mkNode (OtherKind "ExpressionStatement") []]) ].

(** The same project after [/p/missing.js] has been created. *)
Definition createdHost : Host :=
  host [ ("/p", Directory);
         ("/p/main.js", File "import './missing'; console.log(1)");
         ("/p/missing.js", File "export default 1") ]
       []
       [ ("import './missing'; console.log(1)",
          mkNode SourceFile
            [importDecl "./missing"; mkNode (OtherKind "ExpressionStatement") []]);
         ("export default 1", mkNode SourceFile [mkNode (OtherKind "ExportAssignment") []]) ].

(** *** A dynamic import that is imported back statically

    [/p/b.js] is [import('./a.js')] and [/p/a.js] is [import './b.js']. *)

Definition backHost : Host :=
  host [ ("/p", Directory);
         ("/p/b.js", File "import('./a.js')");
         ("/p/a.js", File "import './b.js'") ]
       []
       [ ("import('./a.js')", mkNode SourceFile [dynamicImport "./a.js"]);
         ("import './b.js'", mkNode SourceFile [importDecl "./b.js"]) ].

(** The build of that project as a single chunk ([splitting: false]),
    its two modules, and the modules of the chunk. *)
Definition noModule : Mod.t :=
  {| Mod.id := EmptyString; Mod.path := EmptyString; Mod.source := EmptyString;
     Mod.transformed := EmptyString;
     Mod.parseResult :=
       {| KonaParser.imports := []; KonaParser.hasJSX := false;
          KonaParser.hasTypeScript := false; KonaParser.hasDynamicImport := false;
          KonaParser.hasTopLevelAwait := false |};
     Mod.dependencies := []; Mod.dependents := []; Mod.isEntry := false;
     Mod.isDynamic := false; Mod.chunk := None; Mod.hash := EmptyString;
     Mod.sideEffects := true |}.

Definition noChunk : Chunk.t :=
  {| Chunk.id := EmptyString; Chunk.name := EmptyString; Chunk.modules := [];
     Chunk.sorted := []; Chunk.isEntry := false; Chunk.isDynamic := false |}.

Definition noOutput : Bundler.BundleOutput :=
  {| Bundler.chunks := [];
     Bundler.out_modules := [];
     Bundler.stats := {| Bundler.stat_modules := 0; Bundler.stat_chunks := 0 |} |}.

Definition outputOf (r : option (outcome Bundler.BundleOutput)) : Bundler.BundleOutput :=
  match r with
  | Some (Ok out) => out
  | _ => noOutput
  end.

Definition backOptions : Bundler.BundlerOptions :=
  bundlerOptions ["b.js"] Bundler.browser (Some false).

Definition backOutput : Bundler.BundleOutput := outputOf (Bundler.bundle backHost 4 backOptions).

Definition backGroup : list Mod.t := List.map snd (Bundler.out_modules backOutput).

Definition backA : Mod.t := default noModule (assoc "/p/a.js" (Bundler.out_modules backOutput)).
Definition backB : Mod.t := default noModule (assoc "/p/b.js" (Bundler.out_modules backOutput)).

(** The build of the project with the package [pure], and its one chunk. *)
Definition pureOptions : Bundler.BundlerOptions :=
  bundlerOptions ["main.js"] Bundler.browser None.

Definition pureOutput : Bundler.BundleOutput := outputOf (Bundler.bundle pureHost 4 pureOptions).

Definition pureChunk : Chunk.t := List.hd noChunk (Bundler.chunks pureOutput).

(** *** An await inside a getter

    [class A { get x() { return await p } }] *)

Definition getterSource : string := "class A { get x() { return await p } }".

Definition getterTree : Node :=
  mkNode SourceFile
    [mkNode ClassDeclaration
       [mkNode (OtherKind "Identifier") [];
        mkNode GetAccessor
          [mkNode (OtherKind "Identifier") [];
           mkNode (OtherKind "Block")
             [mkNode (OtherKind "ReturnStatement")
                [mkNode AwaitExpression [mkNode (OtherKind "Identifier") []]]]]]].

Definition getterHost : Host := host [] [] [(getterSource, getterTree)].

(** *** An import that does not resolve before one that does *)

(** A project whose entry imports [./missing], which is not there, and
    then [./b], which is. *)
Definition partSource : string := "import './missing'; import './b'".

Definition partHost : Host :=
  host [ ("/p", Directory);
         ("/p/main.js", File partSource);
         ("/p/b.js", File "export default 1") ]
       []
       [ (partSource, mkNode SourceFile [importDecl "./missing"; importDecl "./b"]) ].

(** *** A dev server with two clients *)

Definition openClient : DevServer.Client :=
  {| DevServer.readyState := DevServer.OPEN; DevServer.sent := [] |}.

Definition closedClient : DevServer.Client :=
  {| DevServer.readyState := DevServer.CLOSED; DevServer.sent := [] |}.

Definition someBundle : Bundler.BundleOutput :=
  {| Bundler.chunks := [];
     Bundler.out_modules := [];
     Bundler.stats := {| Bundler.stat_modules := 0; Bundler.stat_chunks := 0 |} |}.

Definition server (entries : list string) : DevServer.t :=
  {| DevServer.bundlerOptions := bundlerOptions entries Bundler.browser None;
     DevServer.onRebuild := fun _ => Ok tt;
     DevServer.currentBundle := Some someBundle;
     DevServer.clients := [openClient; closedClient];
     DevServer.isRebuilding := false |}.


(** *** A file with a colon in its name *)

(** A project where the file [/p/a:b.js] is imported as [./a:b]. *)
Definition colonHost : Host :=
  host [ ("/p", Directory); ("/p/a:b.js", File "export default 1") ] [] [].

(** *** Aliases that lead back *)

(** A resolver with the aliases [a -> b] and [b -> a]. *)
Definition cycleOptions : ModuleResolver.ResolveOptions :=
  {| ModuleResolver.o_basedir := "/p";
     ModuleResolver.o_extensions := None;
     ModuleResolver.o_alias := Some [("a", "b"); ("b", "a")];
     ModuleResolver.o_paths := None;
     ModuleResolver.o_baseUrl := None;
     ModuleResolver.o_mainFields := None;
     ModuleResolver.o_conditionNames := None;
     ModuleResolver.o_browser := None;
     ModuleResolver.o_external := None;
     ModuleResolver.o_cache := None |}.

(** *** A browser map *)

(** A package whose [package.json] is [{"browser":{"fs":false}}], with
    an [index.js] beside it. *)
Definition mapPkgText : string := "{'browser':{'fs':false}}".

Definition mapPkg : json := JObj [("browser", JObj [("fs", JBool false)])].

Definition mapHost : Host :=
  host [ ("/p", Directory);
         ("/p/node_modules", Directory);
         ("/p/node_modules/shim", Directory);
         ("/p/node_modules/shim/package.json", File mapPkgText);
         ("/p/node_modules/shim/index.js", File "module.exports = 1") ]
       [ (mapPkgText, mapPkg) ]
       [].

(** *** A path mapping *)

(** A resolver with [baseUrl: '/p'] and [paths: {'@m/*': ['./*']}]. *)
Definition mappedOptions : ModuleResolver.ResolveOptions :=
  {| ModuleResolver.o_basedir := "/p";
     ModuleResolver.o_extensions := None;
     ModuleResolver.o_alias := None;
     ModuleResolver.o_paths := Some [("@m/*", ["./*"])];
     ModuleResolver.o_baseUrl := Some "/p";
     ModuleResolver.o_mainFields := None;
     ModuleResolver.o_conditionNames := None;
     ModuleResolver.o_browser := None;
     ModuleResolver.o_external := None;
     ModuleResolver.o_cache := None |}.

(** *** An import of a module of the platform *)

(** The import [fs/promises]. *)
Definition fsImport : KonaParser.ImportInfo :=
  {| KonaParser.source := "fs/promises";
     KonaParser.isDynamic := false;
     KonaParser.isTypeOnly := false |}.

(** *** The project with the dynamic import, split into chunks *)

Definition splitOptions : Bundler.BundlerOptions :=
  bundlerOptions ["b.js"] Bundler.browser None.

Definition splitOutput : Bundler.BundleOutput :=
  outputOf (Bundler.bundle backHost 4 splitOptions).

Definition splitBundler : Bundler.t :=
  match Bundler.build backHost 4 (Bundler.new backHost splitOptions) with
  | Some (_, b) => b
  | None => Bundler.new backHost splitOptions
  end.

Definition splitA : Mod.t :=
  default noModule (assoc "/p/a.js" (Bundler.out_modules splitOutput)).

End Fixtures.

(* ===================================================================== *)
(** * Properties *)
(* ===================================================================== *)

(** ** The walk up the directories ends *)

Section WalkRounds.

Import ModuleResolver.

Lemma dropWhile_length (f : ascii -> bool) (l : list ascii) :
  List.length (Path.dropWhile f l) <= List.length l.
Proof. induction l as [|a l IH]; simpl; [lia|]. destruct (f a); simpl; lia. Qed.

Lemma dropWhile_head (f : ascii -> bool) (l : list ascii) (x : ascii) (rest : list ascii) :
  Path.dropWhile f l = x :: rest -> f x = false.
Proof.
  induction l as [|a l IH]; simpl; [discriminate|].
  destruct (f a) eqn:E; [exact IH|]. intros [= <- _]. exact E.
Qed.

Lemma length_string_of_list (l : list ascii) :
  String.length (string_of_list_ascii l) = List.length l.
Proof. induction l as [|a l IH]; simpl; [reflexivity|]. rewrite IH. reflexivity. Qed.

Lemma length_list_of_string (s : string) :
  List.length (list_ascii_of_string s) = String.length s.
Proof. induction s as [|a s IH]; simpl; [reflexivity|]. rewrite IH. reflexivity. Qed.

(** [path.dirname] answers its argument, or a shorter path, or [.]. *)
Lemma dirname_shorter (p : string) :
  Path.dirname p = p
  \/ String.length (Path.dirname p) < String.length p
  \/ Path.dirname p = ".".
Proof.
  destruct p as [|c0 rest]; [right; right; reflexivity|].
  unfold Path.dirname.
  set (r := List.rev (list_ascii_of_string rest)).
  assert (List.length r = String.length rest) as Hr
    by (unfold r; rewrite List.length_rev; apply length_list_of_string).
  set (r1 := Path.dropWhile Path.isSlash r).
  pose proof (dropWhile_length Path.isSlash r) as H1. fold r1 in H1.
  set (r2 := Path.dropWhile (fun a => negb (Path.isSlash a)) r1).
  pose proof (dropWhile_length (fun a => negb (Path.isSlash a)) r1) as H2. fold r2 in H2.
  destruct r2 as [|x r3] eqn:E2.
  - destruct rest as [|c1 rest'].
    + destruct (Path.isSlash c0) eqn:Hc.
      * left. unfold Path.isSlash in Hc. apply Ascii.eqb_eq in Hc. subst. reflexivity.
      * right. right. reflexivity.
    + right. left. destruct (Path.isSlash c0); simpl; lia.
  - right. left.
    destruct r3 as [|y r3'].
    + assert (2 <= List.length r1) as Hlen.
      { destruct r1 as [|a r1'] eqn:E1; [discriminate|].
        pose proof (dropWhile_head _ _ _ _ E1) as Ha.
        subst r2. simpl in E2. rewrite Ha in E2. simpl in E2.
        destruct r1' as [|b r1'']; [discriminate|]. simpl. lia. }
      destruct (Path.isSlash c0); simpl; lia.
    + cbn [String.length]. rewrite length_string_of_list, List.length_rev.
      simpl in H2. change (length (y :: r3')) with (S (length r3')). lia.
Qed.

Variables (h : Host) (opts : Options).

(** From [String.length current + 2] rounds on, the bound of [walk] is
    never the reason it stops: any two such bounds give the same answer
    and leave the same package cache. *)
Lemma walk_rounds_enough (specifier basedir name subpath : string) :
  forall (k : nat) (current : string) (n m : nat) (pc : gmap string json),
    String.length current <= k ->
    String.length current + 2 <= n -> String.length current + 2 <= m ->
    walk h opts n specifier basedir current name subpath pc
    = walk h opts m specifier basedir current name subpath pc.
Proof.
  induction k as [|k IH]; intros current n m pc Hk Hn Hm.
  - destruct current; [|simpl in Hk; lia].
    destruct n as [|n]; [simpl in Hn; lia|]. destruct m as [|m]; [simpl in Hm; lia|].
    cbn [walk]. change (String.eqb EmptyString (Path.dirname EmptyString)) with false.
    cbn iota. unfold bind.
    destruct (lookIn h opts EmptyString name subpath pc) as [[[r|]|e] pc']; try reflexivity.
    destruct n, m; reflexivity.
  - destruct n as [|n]; [lia|]. destruct m as [|m]; [lia|].
    simpl. destruct (String.eqb current (Path.dirname current)) eqn:Hfix; [reflexivity|].
    unfold bind.
    destruct (lookIn h opts current name subpath pc) as [[[r|]|e] pc']; try reflexivity.
    destruct (dirname_shorter current) as [Heq|[Hlt|Hdot]].
    + rewrite Heq, String.eqb_refl in Hfix. discriminate.
    + apply IH; lia.
    + rewrite Hdot. destruct n, m; reflexivity.
Qed.

(** [walkRounds] is such a bound, so is every larger one. *)
Lemma walkRounds_enough (specifier basedir current name subpath : string)
    (extra : nat) (pc : gmap string json) :
  walk h opts (walkRounds current + extra) specifier basedir current name subpath pc
  = walk h opts (walkRounds current) specifier basedir current name subpath pc.
Proof.
  apply (walk_rounds_enough specifier basedir name subpath (String.length current));
    unfold walkRounds; lia.
Qed.

End WalkRounds.

(** ** The loops of [treeShake] and [splitCode] end *)

Section Rounds.

Import Bundler.

(** *** [assignLoop] *)

(** The modules that have no chunk yet. *)
Definition pending (ms : list (string * Mod.t)) : nat :=
  List.length (List.filter (fun kv => negb (hasChunk (snd kv))) ms).

Lemma pending_update (k : string) (f : Mod.t -> Mod.t) (ms : list (string * Mod.t))
    (m : Mod.t) :
  assoc k ms = Some m -> hasChunk m = false -> hasChunk (f m) = true ->
  S (pending (update k f ms)) = pending ms.
Proof.
  unfold pending. induction ms as [|[k' v] ms IH]; simpl; [discriminate|].
  destruct (String.eqb k' k).
  - intros [= ->] Hm Hf. simpl. rewrite Hm, Hf. reflexivity.
  - intros Ha Hm Hf. simpl. destruct (hasChunk v); simpl; rewrite <- (IH Ha Hm Hf); reflexivity.
Qed.

Lemma dependentChunk_hasChunk (ms : list (string * Mod.t)) (ds : list string)
    (c : string) (m : Mod.t) :
  dependentChunk ms ds = Some c -> hasChunk (Mod.withChunk (Some c) m) = true.
Proof.
  induction ds as [|d ds IH]; simpl; [discriminate|].
  destruct (assoc d ms) as [dep|]; [|exact IH].
  destruct (hasChunk dep) eqn:Hd; [|exact IH].
  unfold hasChunk in *. intros Hc. rewrite Hc in Hd. exact Hd.
Qed.

Lemma assignOnce_pending (ms : list (string * Mod.t)) :
  snd (assignOnce ms) = true -> pending (fst (assignOnce ms)) < pending ms.
Proof.
  unfold assignOnce.
  cut (forall (l : list (string * Mod.t)) (acc : list (string * Mod.t) * bool),
          let r :=
            List.fold_left
              (fun acc kv =>
                 let '(cur, changed) := acc in
                 match assoc (fst kv) cur with
                 | Some module =>
                     if hasChunk module then acc
                     else
                       match dependentChunk cur (Mod.dependents module) with
                       | Some c => (update (fst kv) (Mod.withChunk (Some c)) cur, true)
                       | None => acc
                       end
                 | None => acc
                 end) l acc in
          pending (fst r) <= pending (fst acc)
          /\ (snd r = true -> snd acc = true \/ pending (fst r) < pending (fst acc))).
  { intros H. destruct (H ms (ms, false)) as [_ H2]. intros Hc.
    destruct (H2 Hc) as [Hf|Hlt]; [discriminate|exact Hlt]. }
  induction l as [|kv l IH]; intros [cur ch]; simpl.
  - split; [lia|]. intros ->. left. reflexivity.
  - destruct (assoc (fst kv) cur) as [module|] eqn:Ha; [|apply IH].
    destruct (hasChunk module) eqn:Hh; [apply IH|].
    destruct (dependentChunk cur (Mod.dependents module)) as [c|] eqn:Hd; [|apply IH].
    pose proof (pending_update (fst kv) (Mod.withChunk (Some c)) cur module Ha Hh
                  (dependentChunk_hasChunk _ _ _ _ Hd)) as Hp.
    destruct (IH (update (fst kv) (Mod.withChunk (Some c)) cur, true)) as [H1 H2].
    simpl in H1, H2. split; [lia|]. intros _. right. lia.
Qed.

(** More rounds than there are modules without a chunk never cut the
    loop short. *)
Lemma assignLoop_rounds_enough :
  forall (n m : nat) (ms : list (string * Mod.t)),
    pending ms < n -> pending ms < m -> assignLoop n ms = assignLoop m ms.
Proof.
  induction n as [|n IH]; intros m ms Hn Hm; [lia|].
  destruct m as [|m]; [lia|]. simpl.
  pose proof (assignOnce_pending ms) as Hp.
  destruct (assignOnce ms) as [ms' changed]. simpl in Hp.
  destruct changed; [|reflexivity].
  specialize (Hp eq_refl). apply IH; lia.
Qed.

Lemma pending_length (ms : list (string * Mod.t)) : pending ms <= List.length ms.
Proof. unfold pending. apply List.filter_length_le. Qed.

(** *** [propagate] *)

Definition starred (used : Used) (k : string) : bool :=
  mem "*" (default [] (assoc k used)).

Definition allDependencies (ms : list (string * Mod.t)) : list Dependency.t :=
  List.flat_map (fun kv => Mod.dependencies (snd kv)) ms.

(** The dependencies whose target is not yet marked with a star. *)
Definition unmarked (ds : list Dependency.t) (used : Used) : nat :=
  List.length (List.filter (fun d => negb (starred used (Dependency.resolved d))) ds).

Definition below (u u' : Used) : Prop :=
  forall k : string, starred u k = true -> starred u' k = true.

Lemma assoc_assocSet {A} (k k' : string) (v : A) (l : list (string * A)) :
  assoc k (assocSet k' v l) = if String.eqb k' k then Some v else assoc k l.
Proof.
  induction l as [|[k0 v0] l IH]; simpl.
  - destruct (String.eqb k' k); reflexivity.
  - destruct (String.eqb k0 k') eqn:E0; simpl.
    + apply String.eqb_eq in E0. subst k0. destruct (String.eqb k' k); reflexivity.
    + destruct (String.eqb k0 k) eqn:E1.
      * apply String.eqb_eq in E1. subst k0.
        rewrite String.eqb_sym, E0. reflexivity.
      * exact IH.
Qed.

Lemma mem_setAdd (x y : string) (l : list string) :
  mem y (setAdd x l) = mem y l || String.eqb y x.
Proof.
  unfold setAdd, mem. destruct (List.existsb (String.eqb x) l) eqn:E.
  - destruct (String.eqb y x) eqn:Eyx; [|rewrite orb_false_r; reflexivity].
    apply String.eqb_eq in Eyx. subst. rewrite E. reflexivity.
  - rewrite List.existsb_app. simpl. rewrite orb_false_r. reflexivity.
Qed.

Lemma markDependency_spec (used : Used) (changed : bool) (d : Dependency.t) :
  let r := markDependency (used, changed) d in
  below used (fst r)
  /\ starred (fst r) (Dependency.resolved d) = true
  /\ (snd r = true -> changed = true \/ starred used (Dependency.resolved d) = false).
Proof.
  unfold markDependency, below, starred, has.
  set (k := Dependency.resolved d).
  destruct (assoc k used) as [l|] eqn:Ha; cbn [default from_option id].
  - rewrite Ha. cbn [default from_option id].
    destruct (mem "*" l) eqn:Hl; cbn [fst snd].
    + split; [tauto|]. split; [rewrite Ha; exact Hl|]. intros ->. left. reflexivity.
    + split; [|split].
      * intros k0. rewrite assoc_assocSet.
        destruct (String.eqb k k0) eqn:E; [|tauto].
        apply String.eqb_eq in E. subst k0. rewrite Ha. cbn [default from_option id].
        rewrite Hl. discriminate.
      * rewrite assoc_assocSet, String.eqb_refl. cbn [default from_option id].
        rewrite mem_setAdd. apply orb_true_r.
      * intros _. right. reflexivity.
  - rewrite assoc_assocSet, String.eqb_refl. cbn [default from_option id].
    change (mem "*" []) with false. cbn iota. cbn [fst snd].
    split; [|split].
    + intros k0. rewrite !assoc_assocSet.
      destruct (String.eqb k k0) eqn:E; [|tauto].
      apply String.eqb_eq in E. subst k0. rewrite Ha. discriminate.
    + rewrite assoc_assocSet, String.eqb_refl. reflexivity.
    + intros _. right. reflexivity.
Qed.

Lemma unmarked_below (ds : list Dependency.t) (u u' : Used) :
  below u u' -> unmarked ds u' <= unmarked ds u.
Proof.
  intros Hb. unfold unmarked. induction ds as [|d ds IH]; simpl; [lia|].
  destruct (starred u (Dependency.resolved d)) eqn:E.
  - rewrite (Hb _ E). simpl. exact IH.
  - destruct (starred u' (Dependency.resolved d)); simpl; lia.
Qed.

Lemma unmarked_gain (ds : list Dependency.t) (u u' : Used) (d : Dependency.t) :
  below u u' -> In d ds ->
  starred u (Dependency.resolved d) = false -> starred u' (Dependency.resolved d) = true ->
  unmarked ds u' < unmarked ds u.
Proof.
  intros Hb. unfold unmarked. induction ds as [|d0 ds IH]; simpl; [tauto|].
  intros [->|Hin] H0 H1.
  - rewrite H0, H1. simpl. pose proof (unmarked_below ds u u' Hb) as Hle.
    unfold unmarked in Hle. lia.
  - specialize (IH Hin H0 H1).
    destruct (starred u (Dependency.resolved d0)) eqn:E.
    + rewrite (Hb _ E). simpl. exact IH.
    + destruct (starred u' (Dependency.resolved d0)); simpl; lia.
Qed.

(** What a run of [markDependency] over some of the dependencies does to
    the count. *)
Definition progress (all : list Dependency.t) (acc acc' : Used * bool) : Prop :=
  below (fst acc) (fst acc')
  /\ (snd acc' = true -> snd acc = true \/ unmarked all (fst acc') < unmarked all (fst acc)).

Lemma progress_refl (all : list Dependency.t) (acc : Used * bool) : progress all acc acc.
Proof. split; [intros k H; exact H|]. intros H. left. exact H. Qed.

Lemma progress_trans (all : list Dependency.t) (a b c : Used * bool) :
  progress all a b -> progress all b c -> progress all a c.
Proof.
  intros [Hab Hab'] [Hbc Hbc']. split.
  - intros k H. apply Hbc, Hab, H.
  - intros Hc. pose proof (unmarked_below all _ _ Hab). pose proof (unmarked_below all _ _ Hbc).
    destruct (Hbc' Hc) as [Hb|Hlt].
    + destruct (Hab' Hb) as [Ha|Hlt]; [left; exact Ha|right; lia].
    + right. lia.
Qed.

Lemma markDependency_progress (all : list Dependency.t) (acc : Used * bool)
    (d : Dependency.t) :
  In d all -> progress all acc (markDependency acc d).
Proof.
  intros Hin. destruct acc as [used changed].
  destruct (markDependency_spec used changed d) as (Hb & Hs & Hc).
  split; [exact Hb|]. intros H. destruct (Hc H) as [Hch|H0]; [left; exact Hch|].
  right. exact (unmarked_gain all _ _ d Hb Hin H0 Hs).
Qed.

Lemma markDependencies_progress (all ds : list Dependency.t) (acc : Used * bool) :
  (forall d, In d ds -> In d all) ->
  progress all acc (List.fold_left markDependency ds acc).
Proof.
  revert acc. induction ds as [|d ds IH]; intros acc Hin; simpl; [apply progress_refl|].
  eapply progress_trans.
  - apply (markDependency_progress all acc d). apply Hin. left. reflexivity.
  - apply IH. intros d' Hd'. apply Hin. right. exact Hd'.
Qed.

Lemma propagateOnce_unmarked (ms : list (string * Mod.t)) (used : Used) :
  snd (propagateOnce ms used) = true ->
  unmarked (allDependencies ms) (fst (propagateOnce ms used))
  < unmarked (allDependencies ms) used.
Proof.
  unfold propagateOnce.
  cut (forall (l : list (string * Mod.t)) (acc : Used * bool),
          (forall kv d, In kv l -> In d (Mod.dependencies (snd kv)) ->
                        In d (allDependencies ms)) ->
          progress (allDependencies ms) acc
            (List.fold_left
               (fun acc kv =>
                  if has (fst kv) (fst acc) then
                    List.fold_left markDependency (Mod.dependencies (snd kv)) acc
                  else acc) l acc)).
  { intros H Hc. destruct (H ms (used, false)) as [_ H2].
    - intros kv d Hkv Hd. unfold allDependencies. apply List.in_flat_map.
      exists kv. split; assumption.
    - destruct (H2 Hc) as [Hf|Hlt]; [discriminate|exact Hlt]. }
  induction l as [|kv l IH]; intros acc Hin; simpl; [apply progress_refl|].
  apply (progress_trans _ acc
           (if has (fst kv) (fst acc)
            then List.fold_left markDependency (Mod.dependencies (snd kv)) acc else acc)).
  - destruct (has (fst kv) (fst acc)); [|apply progress_refl].
    apply markDependencies_progress. intros d Hd.
    apply (Hin kv d); [left; reflexivity|exact Hd].
  - apply IH. intros kv' d Hkv. apply Hin. right. exact Hkv.
Qed.

(** More rounds than there are dependencies with an unmarked target never
    cut the loop short. *)
Lemma propagate_rounds_enough (ms : list (string * Mod.t)) :
  forall (n m : nat) (used : Used),
    unmarked (allDependencies ms) used < n -> unmarked (allDependencies ms) used < m ->
    propagate n ms used = propagate m ms used.
Proof.
  induction n as [|n IH]; intros m used Hn Hm; [lia|].
  destruct m as [|m]; [lia|]. simpl.
  pose proof (propagateOnce_unmarked ms used) as Hp.
  destruct (propagateOnce ms used) as [used' changed]. simpl in Hp.
  destruct changed; [|reflexivity].
  specialize (Hp eq_refl). apply IH; lia.
Qed.

Lemma unmarked_propagateRounds (ms : list (string * Mod.t)) (used : Used) :
  unmarked (allDependencies ms) used < propagateRounds ms.
Proof.
  unfold propagateRounds, unmarked.
  pose proof (List.filter_length_le
                (fun d => negb (starred used (Dependency.resolved d))) (allDependencies ms)) as H.
  assert (forall (l : list (string * Mod.t)) (n : nat),
             List.fold_left (fun n kv => n + List.length (Mod.dependencies (snd kv))) l n
             = n + List.length (allDependencies l)) as Hsum.
  { induction l as [|kv l IH]; intros n; simpl; [lia|].
    rewrite IH. unfold allDependencies at 2. simpl. rewrite List.length_app.
    unfold allDependencies. lia. }
  rewrite Hsum. lia.
Qed.

(** The bounds that [splitCode] and [usedExports] pass are such bounds. *)
Lemma assignLoop_bound_enough (ms : list (string * Mod.t)) (extra : nat) :
  assignLoop (S (List.length ms) + extra) ms = assignLoop (S (List.length ms)) ms.
Proof.
  pose proof (pending_length ms). apply assignLoop_rounds_enough; lia.
Qed.

Lemma propagateRounds_enough (ms : list (string * Mod.t)) (used : Used) (extra : nat) :
  propagate (propagateRounds ms + extra) ms used = propagate (propagateRounds ms) ms used.
Proof.
  pose proof (unmarked_propagateRounds ms used).
  apply propagate_rounds_enough; lia.
Qed.

End Rounds.

(** ** The resolution cache *)

Section ResolutionCache.

Import ModuleResolver.

Lemma resolve_options (h : Host) (r : Resolver) (s : string) (f : option string) :
  options (snd (resolve h r s f)) = options r.
Proof.
  unfold resolve.
  destruct (cache r !! cacheKey (basedirOf r f) s) as [[c|]|]; simpl; try reflexivity.
  destruct (resolveInternal _ _ _ _ _ _) as [[res|e] pc]; reflexivity.
Qed.

Lemma basedirOf_options (r r' : Resolver) (f : option string) :
  options r' = options r -> basedirOf r' f = basedirOf r f.
Proof. intros H. unfold basedirOf. rewrite H. reflexivity. Qed.

(** A call never overwrites an entry of the cache. *)
Lemma resolve_keeps_entries (h : Host) (r : Resolver) (s : string) (f : option string)
    (k : string) (v : option string) :
  cache r !! k = Some v -> cache (snd (resolve h r s f)) !! k = Some v.
Proof.
  intros Hk. unfold resolve.
  destruct (cache r !! cacheKey (basedirOf r f) s) as [[c|]|] eqn:Hc; simpl; try exact Hk.
  assert (cacheKey (basedirOf r f) s <> k) as Hne
    by (intros Heq; rewrite Heq in Hc; congruence).
  destruct (resolveInternal _ _ _ _ _ _) as [[res|e] pc]; simpl;
    rewrite lookup_insert_ne by exact Hne; exact Hk.
Qed.

(** A call that throws leaves the null entry behind. *)
Lemma resolve_throw_recorded (h : Host) (r r1 : Resolver) (s : string)
    (f : option string) (e : exn) :
  resolve h r s f = (Throw e, r1) ->
  cache r1 !! cacheKey (basedirOf r f) s = Some None.
Proof.
  unfold resolve.
  destruct (cache r !! cacheKey (basedirOf r f) s) as [[c|]|] eqn:Hc.
  - discriminate.
  - intros [= _ <-]. exact Hc.
  - destruct (resolveInternal _ _ _ _ _ _) as [[res|e'] pc]; [discriminate|].
    intros [= _ <-]. simpl. apply lookup_insert_eq.
Qed.

Lemma resolve_throw_options (h : Host) (r r1 : Resolver) (s : string)
    (f : option string) (e : exn) :
  resolve h r s f = (Throw e, r1) -> options r1 = options r.
Proof.
  intros H. pose proof (resolve_options h r s f) as Ho. rewrite H in Ho. exact Ho.
Qed.

Lemma resolveAll_options (calls : list Call) (r : Resolver) :
  options (resolveAll calls r) = options r.
Proof.
  revert r. induction calls as [|c calls IH]; intros r; [reflexivity|].
  unfold resolveAll in *. simpl. rewrite IH. apply resolve_options.
Qed.

Lemma resolveAll_keeps_entries (calls : list Call) (r : Resolver) (k : string)
    (v : option string) :
  cache r !! k = Some v -> cache (resolveAll calls r) !! k = Some v.
Proof.
  revert r. induction calls as [|c calls IH]; intros r Hk; [exact Hk|].
  unfold resolveAll in *. simpl. apply IH. apply resolve_keeps_entries. exact Hk.
Qed.

(** A null entry answers without a look at the file system. *)
Lemma resolve_null_entry (h : Host) (r : Resolver) (s : string) (f : option string) :
  cache r !! cacheKey (basedirOf r f) s = Some None ->
  resolve h r s f = (Throw (cannotResolveModule s (basedirOf r f)), r).
Proof. intros H. unfold resolve. rewrite H. reflexivity. Qed.

Lemma resolve_after_clear (h : Host) (r : Resolver) (s : string) (f : option string) :
  fst (resolve h (clearCache r) s f)
  = fst (resolveInternal h (options r) (stackLimit h) s (basedirOf r f) ∅).
Proof.
  unfold resolve. simpl.
  replace (basedirOf (clearCache r) f) with (basedirOf r f) by reflexivity.
  rewrite lookup_empty.
  destruct (resolveInternal _ _ _ _ _ _) as [[res|e] pc]; reflexivity.
Qed.

(** C10.  Once [resolve] has thrown for a pair of importing directory and
    specifier, every later call for that pair, from whichever file of the
    directory, throws the cached not-found error, whatever calls were
    made in between and whatever the file system has become ([h'] is
    arbitrary, so it is not consulted); the pair is recognised by its
    cache key, the directory and the specifier around a colon.  After
    [clearCache] the answer is again the one computed from the file
    system. *)
Theorem resolve_failure_stays_cached
    (h : Host) (r r1 : Resolver) (specifier : string) (fromFile : option string)
    (e : exn) (calls : list Call) (h' : Host)
    (specifier' : string) (fromFile' : option string) :
  resolve h r specifier fromFile = (Throw e, r1) ->
  cacheKey (basedirOf r fromFile') specifier' = cacheKey (basedirOf r fromFile) specifier ->
  resolve h' (resolveAll calls r1) specifier' fromFile'
    = (Throw (cannotResolveModule specifier' (basedirOf r fromFile')), resolveAll calls r1)
  /\ fst (resolve h' (clearCache (resolveAll calls r1)) specifier' fromFile')
     = fst (resolveInternal h' (options r) (stackLimit h') specifier'
              (basedirOf r fromFile') ∅).
Proof.
  intros Hthrow Hkey.
  pose proof (resolve_throw_recorded _ _ _ _ _ _ Hthrow) as Hnull.
  pose proof (resolve_throw_options _ _ _ _ _ _ Hthrow) as Hopt.
  assert (options (resolveAll calls r1) = options r) as Hopt2
    by (rewrite resolveAll_options; exact Hopt).
  pose proof (basedirOf_options r (resolveAll calls r1) fromFile' Hopt2) as Hdir.
  split.
  - rewrite <- Hdir. apply resolve_null_entry.
    rewrite Hdir, Hkey. apply resolveAll_keeps_entries. exact Hnull.
  - rewrite resolve_after_clear, Hopt2, Hdir. reflexivity.
Qed.

End ResolutionCache.

Section ResolutionCacheExamples.

Import ModuleResolver Fixtures.

Lemma pair_with_snd {A B} (x : A * B) (a : A) : fst x = a -> x = (a, snd x).
Proof. destruct x; simpl; intros ->; reflexivity. Defined.

(** C10, on the project whose entry imports [./missing]: the first call
    throws; after another call, and although [/p/missing.js] exists by
    then, the call for the same specifier from another file of the
    directory throws the cached error; after [clearCache] it finds the
    file. *)
Lemma resolve_failure_stays_cached_witness :
  let r := new (resolverOptions true) in
  let first := resolve missingHost r "./missing" (Some "/p/main.js") in
  let calls := [{| c_host := createdHost; c_specifier := "./main";
                   c_fromFile := Some "/p/main.js" |}] in
  fst first = Throw (Error "Cannot resolve './missing' from '/p'")
  /\ (resolve createdHost (resolveAll calls (snd first)) "./missing" (Some "/p/other.js")
        = (Throw (cannotResolveModule "./missing" (basedirOf r (Some "/p/other.js"))),
           resolveAll calls (snd first))
      /\ fst (resolve createdHost (clearCache (resolveAll calls (snd first)))
                "./missing" (Some "/p/other.js"))
         = fst (resolveInternal createdHost (options r) (stackLimit createdHost)
                  "./missing" (basedirOf r (Some "/p/other.js")) ∅))
  /\ fst (resolveInternal createdHost (options r) (stackLimit createdHost)
             "./missing" (basedirOf r (Some "/p/other.js")) ∅)
      = Ok (plainResult "/p/missing.js" false).
Proof.
  intros r first calls.
  split; [vm_compute; reflexivity|].
  split; [|vm_compute; reflexivity].
  apply (resolve_failure_stays_cached missingHost r (snd first) "./missing"
           (Some "/p/main.js") (Error "Cannot resolve './missing' from '/p'")
           calls createdHost "./missing" (Some "/p/other.js")).
  - apply pair_with_snd. vm_compute. reflexivity.
  - vm_compute. reflexivity.
Defined.

(** C4.  The second of two identical calls is answered from the cache
    with [external: false] and without the package metadata: the built-in
    [fs] comes back as external first and as internal then, and the
    package [pure] loses its name and its [sideEffects] field. *)
Theorem cache_hit_differs_from_first_answer :
  let r := new (resolverOptions true) in
  let first := resolve pureHost r "fs" (Some "/p/main.js") in
  let second := resolve pureHost (snd first) "fs" (Some "/p/main.js") in
  let first' := resolve pureHost r "pure" (Some "/p/main.js") in
  let second' := resolve pureHost (snd first') "pure" (Some "/p/main.js") in
  fst first = Ok (plainResult "fs" true)
  /\ fst second = Ok (plainResult "fs" false)
  /\ fst first' = Ok {| path := "/p/node_modules/pure/index.js"; external := false;
                        packageName := Some "pure"; packageVersion := None;
                        sideEffects := Some (JBool false) |}
  /\ fst second' = Ok (plainResult "/p/node_modules/pure/index.js" false).
Proof. vm_compute. repeat split; reflexivity. Qed.

(** C5.  The resolver that the bundler builds for [target: browser] tries
    the conditions in the order import, require, default, browser, node,
    as it does for every target: [pkg/sub] resolves to [d.js] through
    [default], although the package offers [browser]. *)
Theorem browser_build_takes_default_condition :
  let forBrowser :=
    Bundler.resolver (Bundler.new condHost (bundlerOptions ["main.js"] Bundler.browser None)) in
  let forNode :=
    Bundler.resolver (Bundler.new condHost (bundlerOptions ["main.js"] Bundler.node None)) in
  conditionNames (options forBrowser) = ["import"; "require"; "default"; "browser"; "node"]
  /\ conditionNames (options forNode) = ["import"; "require"; "default"; "browser"; "node"]
  /\ fst (resolve condHost forBrowser "pkg/sub" (Some "/p/main.js"))
      = Ok {| path := "/p/node_modules/pkg/d.js"; external := false;
              packageName := Some "pkg"; packageVersion := None; sideEffects := None |}
  /\ fst (resolve condHost forNode "pkg/sub" (Some "/p/main.js"))
      = Ok {| path := "/p/node_modules/pkg/d.js"; external := false;
              packageName := Some "pkg"; packageVersion := None; sideEffects := None |}.
Proof. vm_compute. repeat split; reflexivity. Qed.

End ResolutionCacheExamples.

(** ** [exports] against the entry fields *)

Ltac js := cbn beta iota; cbn [default from_option id truthyU truthyOpt andb negb orb].

Section ExportsFirst.

Import ModuleResolver.

Variables (h : Host) (opts : Options).

(** Induction over a parsed value and the values inside it. *)
Section Nested.

Variable P : json -> Prop.
Hypothesis P_null : P JNull.
Hypothesis P_bool : forall b, P (JBool b).
Hypothesis P_num : forall n, P (JNum n).
Hypothesis P_str : forall s, P (JStr s).
Hypothesis P_arr : forall items, Forall P items -> P (JArr items).
Hypothesis P_obj : forall fields, Forall (fun kv => P (snd kv)) fields -> P (JObj fields).
Hypothesis P_other : P JOther.

Fixpoint json_nested (j : json) : P j :=
  match j with
  | JNull => P_null
  | JBool b => P_bool b
  | JNum n => P_num n
  | JStr s => P_str s
  | JArr items =>
      P_arr items
        ((fix all (l : list json) : Forall P l :=
            match l with
            | [] => @List.Forall_nil _ P
            | x :: l' => @List.Forall_cons _ P x l' (json_nested x) (all l')
            end) items)
  | JObj fields =>
      P_obj fields
        ((fix all (l : list (string * json)) : Forall (fun kv => P (snd kv)) l :=
            match l with
            | [] => @List.Forall_nil _ (fun kv => P (snd kv))
            | kv :: l' =>
                @List.Forall_cons _ (fun kv => P (snd kv)) kv l' (json_nested (snd kv)) (all l')
            end) fields)
  | JOther => P_other
  end.

End Nested.

(** What the engine throws on its own: a property read of [null], a
    path that is no string, a regular expression that is none. *)
Definition raisedByEngine (e : exn) : Prop :=
  match e with
  | TypeError _ | SyntaxError _ => True
  | Error _ | RangeError _ => False
  end.

Lemma assoc_member {A} (k : string) (l : list (string * A)) (v : A) :
  assoc k l = Some v -> exists k', In (k', v) l.
Proof.
  induction l as [|[k' v'] l IH]; simpl; [discriminate|].
  destruct (String.eqb k' k).
  - intros [= ->]. exists k'. left. reflexivity.
  - intros H. destruct (IH H) as [k'' Hin]. exists k''. right. exact Hin.
Qed.

Lemma firstCondition_answer {A} (null : A) (conds : list string)
    (sub : list (string * A)) (rest : list string) :
  firstCondition null conds sub rest = null
  \/ exists k, In (k, firstCondition null conds sub rest) sub.
Proof.
  induction conds as [|c conds IH]; simpl; [left; reflexivity|].
  destruct (assoc c sub) as [a|] eqn:Ha.
  - right. exact (assoc_member _ _ _ Ha).
  - destruct (named c rest); [left; reflexivity | exact IH].
Qed.

Lemma exportsPatterns_throws (entries : list (string * json)) (sub p : string) (e : exn) :
  exportsPatterns h opts entries sub p = Throw e -> raisedByEngine e.
Proof.
  induction entries as [|[pattern target] rest IH]; simpl; [discriminate|].
  destruct (Str.includesChar _ _); [|exact IH].
  destruct (matchExportsPattern h pattern sub) as [m| |first].
  - intros [= <-]. exact I.
  - exact IH.
  - destruct (truthyOpt _); [discriminate | exact IH].
Qed.

Lemma firstTruthy_throws (l : list (outcome (option string))) (e : exn) :
  firstTruthy l = Throw e -> In (Throw e) l.
Proof.
  induction l as [|[r|e'] l IH]; simpl; [discriminate| |].
  - destruct (truthyOpt r); [discriminate|]. intros H. right. exact (IH H).
  - intros [= <-]. left. reflexivity.
Qed.

Lemma resolveExports_throws (ex : json) (sub p : string) (e : exn) :
  resolveExports h opts ex sub p = Throw e -> raisedByEngine e.
Proof.
  revert e. induction ex as [| b | n | s | items IH | fields IH |] using json_nested;
    intros e; try discriminate.
  - cbn [resolveExports]. intros Hthrow. apply firstTruthy_throws in Hthrow.
    apply List.in_map_iff in Hthrow as (x & Hx & Hin).
    rewrite List.Forall_forall in IH. exact (IH x Hin e Hx).
  - cbn [resolveExports].
    destruct (assoc sub fields); [discriminate|].
    destruct (named sub objectPrototype); [discriminate|].
    destruct (exportsPatterns h opts fields sub p) as [[r|]|e'] eqn:Hp.
    + discriminate.
    + intros Hc.
      destruct (firstCondition_answer (Ok None) (conditionNames opts)
                  (List.map (fun kv => (fst kv, resolveExports h opts (snd kv) sub p)) fields)
                  objectPrototype) as [Hnull|[k Hin]].
      * rewrite Hnull in Hc. discriminate.
      * rewrite Hc in Hin. apply List.in_map_iff in Hin as ([k' v] & Heq & Hin).
        injection Heq as _ Heq. rewrite List.Forall_forall in IH.
        exact (IH (k', v) Hin e Heq).
    + intros [= <-]. exact (exportsPatterns_throws _ _ _ _ Hp).
Qed.

Lemma getProp_throws (j : json) (k : string) (e : exn) :
  getProp j k = Throw e -> raisedByEngine e.
Proof. destruct j; simpl; try discriminate. intros [= <-]. exact I. Qed.

Lemma getField_throws (j : json) (k : string) (e : exn) :
  getField j k = Throw e -> raisedByEngine e.
Proof.
  destruct j; simpl; try discriminate.
  - intros [= <-]. exact I.
  - destruct (indexNamed _ _); [discriminate|]. destruct (String.eqb _ _); discriminate.
  - destruct (assoc _ _); [discriminate|]. destruct (String.eqb _ _); discriminate.
  - destruct (assoc _ _); discriminate.
Qed.

Lemma firstMainField_throws (pkg : json) (fields : list string) (e : exn) :
  firstMainField pkg fields = Throw e -> raisedByEngine e.
Proof.
  induction fields as [|f fields IH]; simpl; [discriminate|].
  destruct (getField pkg f) as [v|e'] eqn:Hf.
  - destruct (truthyU v); [discriminate | exact IH].
  - intros [= <-]. exact (getField_throws _ _ _ Hf).
Qed.

Lemma getMainFromPackage_throws (pkg : json) (e : exn) :
  getMainFromPackage opts pkg = Throw e -> raisedByEngine e.
Proof.
  unfold getMainFromPackage. destruct (browser opts).
  - destruct (getProp pkg "browser") as [[[| | |b| | |]|]|e'] eqn:Hb;
      try apply firstMainField_throws.
    + destruct (truthyStr b); [discriminate | apply firstMainField_throws].
    + intros [= <-]. exact (getProp_throws _ _ _ Hb).
  - apply firstMainField_throws.
Qed.

Lemma asPathArg_throws (j : json) (e : exn) :
  asPathArg j = Throw e -> raisedByEngine e.
Proof. destruct j; simpl; try discriminate; intros [= <-]; exact I. Qed.

Lemma packageResult_throws (target name : string) (pkg : json) (e : exn) :
  packageResult target name pkg = Throw e -> raisedByEngine e.
Proof. destruct pkg; simpl; try discriminate. intros [= <-]. exact I. Qed.

Lemma targetPathOf_throws (nm subpath : string) (pkg : json) (e : exn) :
  targetPathOf opts nm subpath pkg = Throw e -> raisedByEngine e.
Proof.
  unfold targetPathOf. destruct (truthyStr subpath); [discriminate|].
  destruct (getMainFromPackage opts pkg) as [main|e'] eqn:Hm.
  - destruct (truthyU main); [|discriminate].
    destruct (asPathArg _) as [m|e'] eqn:Ha; [discriminate|].
    intros [= <-]. exact (asPathArg_throws _ _ Ha).
  - intros [= <-]. exact (getMainFromPackage_throws _ _ Hm).
Qed.

Lemma readPackageJson_returns (pkgPath : string) (pc : gmap string json) :
  exists pkg pc', readPackageJson h pkgPath pc = (Ok pkg, pc').
Proof.
  unfold readPackageJson. destruct (pc !! pkgPath); [eauto|].
  destruct (readFileSync h pkgPath); [|eauto].
  destruct (jsonParse h _); eauto.
Qed.

Lemma tryResolveDirectory_throws (dirPath : string) (pc pc' : gmap string json) (e : exn) :
  tryResolveDirectory h opts dirPath pc = (Throw e, pc') -> raisedByEngine e.
Proof.
  unfold tryResolveDirectory, bind, lift, ret.
  destruct (negb (isDirectory h dirPath)); [discriminate|].
  destruct (existsSync h _).
  - destruct (readPackageJson_returns (Path.join [dirPath; "package.json"]) pc)
      as (pkg & pc1 & ->).
    destruct (getMainFromPackage opts pkg) as [main|e'] eqn:Hm.
    + destruct (truthyU main).
      * destruct (asPathArg _) as [m|e'] eqn:Ha.
        -- destruct (truthyOpt _); discriminate.
        -- intros [= <- _]. exact (asPathArg_throws _ _ Ha).
      * cbn [truthyOpt]. discriminate.
    + intros [= <- _]. exact (getMainFromPackage_throws _ _ Hm).
  - cbn [truthyOpt]. discriminate.
Qed.

Lemma bind_throws {A B} (m : M A) (k : A -> M B) (pc pc' : gmap string json) (e : exn) :
  bind m k pc = (Throw e, pc') ->
  m pc = (Throw e, pc') \/ exists a pc1, m pc = (Ok a, pc1) /\ k a pc1 = (Throw e, pc').
Proof.
  unfold bind. destruct (m pc) as [[a|e'] pc1]; intros H.
  - right. exists a, pc1. split; [reflexivity | exact H].
  - left. injection H as <- <-. reflexivity.
Qed.

Ltac thrown H :=
  lazymatch type of H with
  | bind _ _ _ = (Throw _, _) =>
      let H1 := fresh "H" in
      apply bind_throws in H as [H | (? & ? & H1 & H)];
      [thrown H | cbv beta zeta in H; thrown H]
  | (if ?c then _ else _) _ = (Throw _, _) => destruct c; thrown H
  | ret _ _ = (Throw _, _) => discriminate H
  | lift _ _ = (Throw _, _) =>
      injection H as H _;
      eauto using getProp_throws, resolveExports_throws, packageResult_throws,
        targetPathOf_throws
  | tryResolveDirectory _ _ _ _ = (Throw _, _) => exact (tryResolveDirectory_throws _ _ _ _ H)
  end.

Lemma lookInPackage_throws (nm name subpath : string) (pkg : json)
    (pc pc' : gmap string json) (e : exn) :
  lookInPackage h opts nm name subpath pkg pc = (Throw e, pc') -> raisedByEngine e.
Proof. unfold lookInPackage. intros H. thrown H. Qed.

Lemma lookIn_throws (current name subpath : string) (pc pc' : gmap string json) (e : exn) :
  lookIn h opts current name subpath pc = (Throw e, pc') -> raisedByEngine e.
Proof.
  unfold lookIn, bind, ret.
  destruct (negb (existsSync h _)); [discriminate|].
  destruct (negb (existsSync h _)); [discriminate|].
  destruct (readPackageJson_returns
              (Path.join [Path.join [current; "node_modules"; name]; "package.json"]) pc)
    as (pkg & pc1 & ->).
  apply lookInPackage_throws.
Qed.


(** *** The entry of a package *)

(** [pkg[field]] is falsy. *)
Definition falsyField (pkg : json) (field : string) : Prop :=
  exists v, getField pkg field = Ok v /\ truthyU v = false.

(** [main] is the value of the first of [fields], in their order, whose
    value in [pkg] is truthy; there is none when every value is falsy. *)
Definition firstTruthyField (pkg : json) (fields : list string) (main : option json) : Prop :=
  match main with
  | Some v =>
      truthy v = true
      /\ exists (before : list string) (field : string) (after : list string),
           fields = (before ++ field :: after)%list
           /\ Forall (falsyField pkg) before
           /\ getField pkg field = Ok (Some v)
  | None => Forall (falsyField pkg) fields
  end.

(** The entry of a package: its [browser] field when the resolver is one
    for browsers and the field holds a string that is not empty, and
    otherwise the first truthy one of the [mainFields]. *)
Definition entryOf (pkg : json) (main : option json) : Prop :=
  (browser opts = true
   /\ exists b, getProp pkg "browser" = Ok (Some (JStr b)) /\ truthyStr b = true
                /\ main = Some (JStr b))
  \/ ((browser opts = false
       \/ forall b, getProp pkg "browser" = Ok (Some (JStr b)) -> truthyStr b = false)
      /\ firstTruthyField pkg (mainFields opts) main).

Lemma firstMainField_first (pkg : json) (fields : list string) (main : option json) :
  firstMainField pkg fields = Ok main -> firstTruthyField pkg fields main.
Proof.
  revert main. induction fields as [|f fields IH]; intros main; simpl.
  - intros [= <-]. constructor.
  - destruct (getField pkg f) as [v|e] eqn:Hf; [|discriminate].
    destruct (truthyU v) eqn:Hv.
    + intros [= <-]. destruct v as [v|]; [|discriminate]. split; [exact Hv|].
      exists [], f, fields. repeat split; [constructor | exact Hf].
    + intros Hrest. specialize (IH main Hrest).
      assert (falsyField pkg f) as Hfalsy by (exists v; split; assumption).
      destruct main as [v'|].
      * destruct IH as (Htruthy & before & field & after & -> & Hbefore & Hfield).
        split; [exact Htruthy|]. exists (f :: before), field, after.
        repeat split; [constructor; assumption | exact Hfield].
      * constructor; assumption.
Qed.

Lemma getMainFromPackage_entry (pkg : json) (main : option json) :
  getMainFromPackage opts pkg = Ok main -> entryOf pkg main.
Proof.
  unfold getMainFromPackage, entryOf. destruct (browser opts).
  - destruct (getProp pkg "browser") as [[[| | |b| | |]|]|e] eqn:Hb; try discriminate;
      try (intros Hm; right; split;
           [right; intros b' [= ] | exact (firstMainField_first _ _ _ Hm)]).
    destruct (truthyStr b) eqn:Htruthy.
    + intros [= <-]. left. split; [reflexivity|]. exists b. repeat split; assumption.
    + intros Hm. right. split; [|exact (firstMainField_first _ _ _ Hm)].
      right. intros b' [= <-]. exact Htruthy.
  - intros Hm. right. split; [left; reflexivity | exact (firstMainField_first _ _ _ Hm)].
Qed.

Lemma getMainFromPackage_truthy (pkg : json) (v : json) :
  getMainFromPackage opts pkg = Ok (Some v) -> truthy v = true.
Proof.
  intros Hm. destruct (getMainFromPackage_entry _ _ Hm) as [(_ & b & _ & Hb & [= ->])|(_ & H)].
  - exact Hb.
  - exact (proj1 H).
Qed.

Lemma firstMainField_object (fields : list (string * json)) (names : list string) :
  exists main, firstMainField (JObj fields) names = Ok main.
Proof.
  induction names as [|f names IH]; simpl; [eauto|].
  destruct (assoc f fields) as [v|].
  - destruct (truthyU (Some v)); eauto.
  - destruct (truthyU _); eauto.
Qed.

Lemma getMainFromPackage_object (fields : list (string * json)) :
  exists main, getMainFromPackage opts (JObj fields) = Ok main.
Proof.
  unfold getMainFromPackage. destruct (browser opts); [|apply firstMainField_object].
  cbn [getProp]. destruct (assoc "browser" fields) as [[| | |b| | |]|];
    try apply firstMainField_object.
  destruct (truthyStr b); [eauto | apply firstMainField_object].
Qed.

Lemma exports_object (pkg ex : json) :
  getProp pkg "exports" = Ok (Some ex) -> exists fields, pkg = JObj fields.
Proof. destruct pkg; simpl; try discriminate. eauto. Qed.

(** [targetPath] for the entry [main]. *)
Lemma targetPathOf_entry (nm subpath : string) (pkg : json) (main : option json) :
  getMainFromPackage opts pkg = Ok main ->
  targetPathOf opts nm subpath pkg
  = if truthyStr subpath then Ok (Path.join [nm; subpath])
    else match main with
         | None => Ok nm
         | Some (JStr m) => Ok (Path.join [nm; m])
         | Some _ => Throw (TypeError "The 'path' argument must be of type string")
         end.
Proof.
  intros Hm. unfold targetPathOf. destruct (truthyStr subpath); [reflexivity|].
  rewrite Hm. destruct main as [v|]; [|reflexivity].
  cbn [truthyU]. rewrite (getMainFromPackage_truthy _ _ Hm).
  destruct v; reflexivity.
Qed.

(** *** One round of the walk *)

Lemma packageResult_hit (target name : string) (pkg ex : json) :
  getProp pkg "exports" = Ok (Some ex) ->
  packageResult target name pkg = Ok (hit target name pkg).
Proof. destruct pkg; simpl; try discriminate; intros _; reflexivity. Qed.

Lemma lookIn_package (current name subpath : string) (pc pc' : gmap string json)
    (pkg : json) :
  let nm := Path.join [current; "node_modules"; name] in
  existsSync h nm = true ->
  existsSync h (Path.join [nm; "package.json"]) = true ->
  readPackageJson h (Path.join [nm; "package.json"]) pc = (Ok pkg, pc') ->
  lookIn h opts current name subpath pc = lookInPackage h opts nm name subpath pkg pc'.
Proof.
  intros nm Hnm Hpkg Hread. unfold lookIn. fold nm. rewrite Hnm, Hpkg.
  cbn [negb]. unfold bind. rewrite Hread. reflexivity.
Qed.

Lemma lookIn_absent (current name subpath : string) (pc : gmap string json) :
  let nm := Path.join [current; "node_modules"; name] in
  existsSync h nm = false \/ existsSync h (Path.join [nm; "package.json"]) = false ->
  lookIn h opts current name subpath pc = (Ok None, pc).
Proof.
  intros nm Habsent. unfold lookIn. fold nm.
  destruct (existsSync h nm); [|reflexivity].
  destruct Habsent as [Habsent|Habsent]; [discriminate|]. rewrite Habsent. reflexivity.
Qed.

Section OnePackage.

Variables (nm name subpath : string) (pkg ex : json) (pc : gmap string json).
Hypothesis Hex : getProp pkg "exports" = Ok (Some ex).
Hypothesis Htruthy : truthy ex = true.

Let requested : string := if truthyStr subpath then "./" ++ subpath else ".".

Ltac round :=
  unfold lookInPackage, bind, lift, ret;
  rewrite Hex; js; rewrite Htruthy; unfold requested in *;
  destruct (truthyStr subpath); js.

Lemma lookInPackage_answer (answer : option string) :
  resolveExports h opts ex requested nm = Ok answer -> truthyOpt answer = true ->
  lookInPackage h opts nm name subpath pkg pc
  = (Ok (Some (hit (default EmptyString answer) name pkg)), pc).
Proof using Hex Htruthy.
  round; intros Hanswer Hyes; rewrite Hanswer; js;
    rewrite Hyes, (packageResult_hit _ _ _ _ Hex); reflexivity.
Qed.

Lemma lookInPackage_invalid (e : exn) :
  resolveExports h opts ex requested nm = Throw e ->
  lookInPackage h opts nm name subpath pkg pc = (Throw e, pc).
Proof using Hex Htruthy.
  round; intros Hanswer; rewrite Hanswer; reflexivity.
Qed.

Section NoAnswer.

Variable answer : option string.
Hypothesis Hanswer : resolveExports h opts ex requested nm = Ok answer.
Hypothesis Hno : truthyOpt answer = false.

Ltac fallback := round; rewrite Hanswer; js; rewrite Hno; js.

Lemma lookInPackage_no_path (e : exn) :
  targetPathOf opts nm subpath pkg = Throw e ->
  lookInPackage h opts nm name subpath pkg pc = (Throw e, pc).
Proof using Hex Htruthy Hanswer Hno.
  intros Htarget. fallback; rewrite Htarget; reflexivity.
Qed.

Lemma lookInPackage_file (targetPath file : string) :
  targetPathOf opts nm subpath pkg = Ok targetPath ->
  tryResolveFile h opts targetPath = Some file -> truthyStr file = true ->
  lookInPackage h opts nm name subpath pkg pc = (Ok (Some (hit file name pkg)), pc).
Proof using Hex Htruthy Hanswer Hno.
  intros Htarget Hfile Hfound.
  fallback; rewrite Htarget; js; rewrite Hfile; js; rewrite Hfound; js;
    rewrite Hfound, (packageResult_hit _ _ _ _ Hex); reflexivity.
Qed.

Lemma lookInPackage_directory (targetPath : string) (r : outcome (option string))
    (pc' : gmap string json) :
  targetPathOf opts nm subpath pkg = Ok targetPath ->
  truthyOpt (tryResolveFile h opts targetPath) = false ->
  tryResolveDirectory h opts targetPath pc = (r, pc') ->
  lookInPackage h opts nm name subpath pkg pc
  = (match r with
     | Ok found =>
         Ok (if truthyOpt found then Some (hit (default EmptyString found) name pkg)
             else None)
     | Throw e => Throw e
     end, pc').
Proof using Hex Htruthy Hanswer Hno.
  intros Htarget Hfile Hdir.
  fallback; rewrite Htarget; js; rewrite Hfile; js; rewrite Hdir;
    (destruct r as [found|e]; [|reflexivity]);
    (destruct (truthyOpt found); js;
       [rewrite (packageResult_hit _ _ _ _ Hex)|]; reflexivity).
Qed.

End NoAnswer.

End OnePackage.

(** *** The walk through the parent directories *)

Section Walk.

Variables (specifier basedir name subpath : string).

(** [climbs current pc dir pcd]: the rounds of the walk in [current] and
    in the directories above it, below [dir], have no answer, which takes
    the walk from [current] with the package cache [pc] to [dir] with
    the package cache [pcd]. *)
Inductive climbs : string -> gmap string json -> string -> gmap string json -> Prop :=
| climbs_here (dir : string) (pc : gmap string json) : climbs dir pc dir pc
| climbs_up (current : string) (pc pc1 : gmap string json)
    (dir : string) (pcd : gmap string json) :
    String.eqb current (Path.dirname current) = false ->
    lookIn h opts current name subpath pc = (Ok None, pc1) ->
    climbs (Path.dirname current) pc1 dir pcd ->
    climbs current pc dir pcd.

(** Where the walk from [current] ends, and with what. *)
Definition stops (current : string) (pc : gmap string json)
    (out : outcome ResolveResult) (pc' : gmap string json) : Prop :=
  exists (dir : string) (pcd : gmap string json),
    climbs current pc dir pcd
    /\ ((String.eqb dir (Path.dirname dir) = true
         /\ out = Throw (Error ("Cannot find module '" ++ specifier ++ "' from '"
                                  ++ basedir ++ "'"))
         /\ pc' = pcd)
        \/ (String.eqb dir (Path.dirname dir) = false
            /\ exists r, lookIn h opts dir name subpath pcd = (Ok (Some r), pc')
                         /\ out = Ok r)
        \/ (String.eqb dir (Path.dirname dir) = false
            /\ exists e, lookIn h opts dir name subpath pcd = (Throw e, pc')
                         /\ out = Throw e /\ raisedByEngine e)).

Lemma climbs_from_root (current dir : string) (pc pcd : gmap string json) :
  climbs current pc dir pcd ->
  String.eqb current (Path.dirname current) = true -> dir = current /\ pcd = pc.
Proof.
  intros [d q|c q q1 d qd Hroot _ _] Hfix; [split; reflexivity|].
  rewrite Hroot in Hfix. discriminate.
Qed.

Lemma walk_at_root (n : nat) (current : string) (pc : gmap string json)
    (out : outcome ResolveResult) (pc' : gmap string json) :
  String.eqb current (Path.dirname current) = true ->
  walk h opts n specifier basedir current name subpath pc = (out, pc')
  <-> stops current pc out pc'.
Proof.
  intros Hroot.
  assert (walk h opts n specifier basedir current name subpath pc
          = (Throw (Error ("Cannot find module '" ++ specifier ++ "' from '"
                             ++ basedir ++ "'")), pc)) as ->
    by (destruct n; simpl; rewrite Hroot; reflexivity).
  split.
  - intros [= <- <-]. exists current, pc. split; [constructor|]. left. auto.
  - intros (dir & pcd & Hclimbs & Hstop).
    destruct (climbs_from_root _ _ _ _ Hclimbs Hroot) as [-> ->].
    destruct Hstop as [(_ & -> & ->)|[(Hfix & _)|(Hfix & _)]];
      [reflexivity | congruence | congruence].
Qed.

Lemma stops_answer (current : string) (pc pc1 : gmap string json) (r : ResolveResult)
    (out : outcome ResolveResult) (pc' : gmap string json) :
  String.eqb current (Path.dirname current) = false ->
  lookIn h opts current name subpath pc = (Ok (Some r), pc1) ->
  (Ok r, pc1) = (out, pc') <-> stops current pc out pc'.
Proof.
  intros Hroot Hlook. split.
  - intros [= <- <-]. exists current, pc. split; [constructor|]. right. left.
    split; [exact Hroot|]. exists r. split; [exact Hlook | reflexivity].
  - intros (dir & pcd & Hclimbs & Hstop).
    destruct Hclimbs as [d q|c q q1 d qd _ Hmiss _]; [|congruence].
    destruct Hstop as [(Hfix & _)|[(_ & r' & Hr & ->)|(_ & e & He & _)]]; congruence.
Qed.

Lemma stops_throw (current : string) (pc pc1 : gmap string json) (e : exn)
    (out : outcome ResolveResult) (pc' : gmap string json) :
  String.eqb current (Path.dirname current) = false ->
  lookIn h opts current name subpath pc = (Throw e, pc1) ->
  (Throw e, pc1) = (out, pc') <-> stops current pc out pc'.
Proof.
  intros Hroot Hlook. split.
  - intros [= <- <-]. exists current, pc. split; [constructor|]. right. right.
    split; [exact Hroot|]. exists e. repeat split; [exact Hlook|].
    exact (lookIn_throws _ _ _ _ _ _ Hlook).
  - intros (dir & pcd & Hclimbs & Hstop).
    destruct Hclimbs as [d q|c q q1 d qd _ Hmiss _]; [|congruence].
    destruct Hstop as [(Hfix & _)|[(_ & r' & Hr & ->)|(_ & e' & He & -> & _)]]; congruence.
Qed.

Lemma stops_miss (current : string) (pc pc1 : gmap string json)
    (out : outcome ResolveResult) (pc' : gmap string json) :
  String.eqb current (Path.dirname current) = false ->
  lookIn h opts current name subpath pc = (Ok None, pc1) ->
  stops (Path.dirname current) pc1 out pc' <-> stops current pc out pc'.
Proof.
  intros Hroot Hlook. split.
  - intros (dir & pcd & Hclimbs & Hstop). exists dir, pcd. split; [|exact Hstop].
    exact (climbs_up _ _ _ _ _ Hroot Hlook Hclimbs).
  - intros (dir & pcd & Hclimbs & Hstop).
    destruct Hclimbs as [d q|c q q1 d qd _ Hmiss Hclimbs].
    + destruct Hstop as [(Hfix & _)|[(_ & r' & Hr & _)|(_ & e' & He & _)]]; congruence.
    + exists d, qd. split; [|exact Hstop].
      rewrite Hlook in Hmiss. injection Hmiss as <-. exact Hclimbs.
Qed.

Lemma walk_stops :
  forall (k : nat) (current : string) (n : nat) (pc : gmap string json)
         (out : outcome ResolveResult) (pc' : gmap string json),
    String.length current <= k -> String.length current + 2 <= n ->
    walk h opts n specifier basedir current name subpath pc = (out, pc')
    <-> stops current pc out pc'.
Proof.
  induction k as [|k IH]; intros current n pc out pc' Hk Hn;
    (destruct (String.eqb current (Path.dirname current)) eqn:Hroot;
       [exact (walk_at_root n current pc out pc' Hroot)|]);
    (destruct n as [|n]; [lia|]); simpl; rewrite Hroot; unfold bind;
    (destruct (lookIn h opts current name subpath pc) as [[[r|]|e] pc1] eqn:Hlook;
       [exact (stops_answer _ _ _ _ _ _ Hroot Hlook)
       | | exact (stops_throw _ _ _ _ _ _ Hroot Hlook)]);
    rewrite <- (stops_miss _ _ _ _ _ Hroot Hlook);
    (destruct (dirname_shorter current) as [Heq|[Hlt|Hdot]];
       [rewrite Heq, String.eqb_refl in Hroot; discriminate
       | | rewrite Hdot; apply walk_at_root; reflexivity]).
  - lia.
  - apply IH; lia.
Qed.

End Walk.

(** C1, as the code has it.  [resolveNodeModule] asks one directory after
    the other, from [basedir] upwards, and [Cannot find module] is thrown
    exactly when the walk has reached the root without an answer; a
    directory that does not hold the package, or a package without
    [package.json], has no answer.  In a package whose [package.json] has
    an [exports] field, a target that [resolveExports] finds for the
    requested subpath is the result, whatever the entry fields say.  When
    [resolveExports] finds nothing the call does not fail: the round
    goes on to [targetPath], which is the subpath inside the package or,
    for the package itself, the entry of the package ([entryOf]: the
    [browser] string of a browser resolver, else the first truthy one of
    the main fields in their order) or else the package directory;
    [targetPath] is tried as a file and then as a directory, a hit is the
    result, and a miss sends the walk to the parent directory. *)
Theorem exports_first_then_fallback
    (specifier basedir : string) (pc : gmap string json) :
  let name := packageNameOf specifier in
  let subpath := subpathOf specifier in
  let requested := if truthyStr subpath then "./" ++ subpath else "." in
  (forall (out : outcome ResolveResult) (pc' : gmap string json),
      resolveNodeModule h opts specifier basedir pc = (out, pc')
      <-> exists (dir : string) (pcd : gmap string json),
            climbs name subpath basedir pc dir pcd
            /\ ((String.eqb dir (Path.dirname dir) = true
                 /\ out = Throw (Error ("Cannot find module '" ++ specifier ++ "' from '"
                                          ++ basedir ++ "'"))
                 /\ pc' = pcd)
                \/ (String.eqb dir (Path.dirname dir) = false
                    /\ exists r, lookIn h opts dir name subpath pcd = (Ok (Some r), pc')
                                 /\ out = Ok r)
                \/ (String.eqb dir (Path.dirname dir) = false
                    /\ exists e, lookIn h opts dir name subpath pcd = (Throw e, pc')
                                 /\ out = Throw e /\ raisedByEngine e)))
  /\ (forall (current : string) (pcd : gmap string json),
        let nm := Path.join [current; "node_modules"; name] in
        existsSync h nm = false \/ existsSync h (Path.join [nm; "package.json"]) = false ->
        lookIn h opts current name subpath pcd = (Ok None, pcd))
  /\ (forall (current : string) (pcd pc1 : gmap string json) (pkg ex : json),
        let nm := Path.join [current; "node_modules"; name] in
        existsSync h nm = true ->
        existsSync h (Path.join [nm; "package.json"]) = true ->
        readPackageJson h (Path.join [nm; "package.json"]) pcd = (Ok pkg, pc1) ->
        getProp pkg "exports" = Ok (Some ex) ->
        truthy ex = true ->
        match resolveExports h opts ex requested nm with
        | Throw e => lookIn h opts current name subpath pcd = (Throw e, pc1)
        | Ok answer =>
            if truthyOpt answer then
              lookIn h opts current name subpath pcd
              = (Ok (Some (hit (default EmptyString answer) name pkg)), pc1)
            else
              exists main : option json,
                getMainFromPackage opts pkg = Ok main
                /\ entryOf pkg main
                /\ targetPathOf opts nm subpath pkg
                   = (if truthyStr subpath then Ok (Path.join [nm; subpath])
                      else match main with
                           | None => Ok nm
                           | Some (JStr m) => Ok (Path.join [nm; m])
                           | Some _ =>
                               Throw (TypeError "The 'path' argument must be of type string")
                           end)
                /\ (forall e : exn,
                      targetPathOf opts nm subpath pkg = Throw e ->
                      lookIn h opts current name subpath pcd = (Throw e, pc1))
                /\ (forall targetPath file : string,
                      targetPathOf opts nm subpath pkg = Ok targetPath ->
                      tryResolveFile h opts targetPath = Some file ->
                      truthyStr file = true ->
                      lookIn h opts current name subpath pcd
                      = (Ok (Some (hit file name pkg)), pc1))
                /\ (forall (targetPath : string) (r : outcome (option string))
                           (pc2 : gmap string json),
                      targetPathOf opts nm subpath pkg = Ok targetPath ->
                      truthyOpt (tryResolveFile h opts targetPath) = false ->
                      tryResolveDirectory h opts targetPath pc1 = (r, pc2) ->
                      lookIn h opts current name subpath pcd
                      = (match r with
                         | Ok found =>
                             Ok (if truthyOpt found
                                 then Some (hit (default EmptyString found) name pkg)
                                 else None)
                         | Throw e => Throw e
                         end, pc2))
        end).
Proof.
  intros name subpath requested. split; [|split].
  - intros out pc'. unfold resolveNodeModule, walkRounds. fold name subpath.
    apply (walk_stops specifier basedir name subpath (String.length basedir)); lia.
  - intros current pcd nm. apply lookIn_absent.
  - intros current pcd pc1 pkg ex nm Hnm Hpkg Hread Hex Htruthy.
    rewrite (lookIn_package _ _ _ _ _ _ Hnm Hpkg Hread). fold nm.
    destruct (resolveExports h opts ex requested nm) as [answer|e] eqn:Hanswer.
    + destruct (truthyOpt answer) eqn:Hyes.
      * exact (lookInPackage_answer _ _ _ _ _ _ Hex Htruthy _ Hanswer Hyes).
      * destruct (exports_object _ _ Hex) as [fields ->].
        destruct (getMainFromPackage_object fields) as [main Hmain].
        exists main. split; [exact Hmain|].
        split; [exact (getMainFromPackage_entry _ _ Hmain)|].
        split; [exact (targetPathOf_entry _ _ _ _ Hmain)|].
        split; [|split].
        -- intros e. exact (lookInPackage_no_path _ _ _ _ _ _ Hex Htruthy _ Hanswer Hyes e).
        -- intros targetPath file.
           exact (lookInPackage_file _ _ _ _ _ _ Hex Htruthy _ Hanswer Hyes targetPath file).
        -- intros targetPath r pc2.
           exact (lookInPackage_directory _ _ _ _ _ _ Hex Htruthy _ Hanswer Hyes
                    targetPath r pc2).
    + exact (lookInPackage_invalid _ _ _ _ _ _ Hex Htruthy _ Hanswer).
Qed.

End ExportsFirst.

Section ExportsFirstExamples.

Import ModuleResolver Fixtures.

(** C1 as stated fails on the package with
    [{"exports":{"./feature":"./feature.js"},"main":"./main.js"}]: the
    package has [exports], [exports] has no answer for the root request,
    and yet [resolve] succeeds, with the file that [main] names. *)
Lemma exports_mismatch_answers_main :
  let r := new (resolverOptions true) in
  let ex := JObj [("./feature", JStr "./feature.js")] in
  getProp bothPkg "exports" = Ok (Some ex)
  /\ resolveExports bothHost (options r) ex "." "/p/node_modules/both" = Ok None
  /\ fst (resolve bothHost r "both" (Some "/p/main.js"))
      = Ok (hit "/p/node_modules/both/main.js" "both" bothPkg).
Proof. vm_compute. repeat split; reflexivity. Qed.

(** The theorem at work on the same package: in [/p], the round for
    [both/feature] is answered by [exports], which makes it the result of
    the call, and the round for [both] by the file that [main] names. *)
Lemma exports_first_then_fallback_witness :
  let r := new (resolverOptions true) in
  let pc' : gmap string json := <["/p/node_modules/both/package.json" := bothPkg]> ∅ in
  resolveNodeModule bothHost (options r) "both/feature" "/p" ∅
    = (Ok (hit "/p/node_modules/both/feature.js" "both" bothPkg), pc')
  /\ lookIn bothHost (options r) "/p" "both" EmptyString ∅
      = (Ok (Some (hit "/p/node_modules/both/main.js" "both" bothPkg)), pc').
Proof.
  intros r pc'.
  pose (ex := JObj [("./feature", JStr "./feature.js")]).
  split.
  - destruct (exports_first_then_fallback bothHost (options r) "both/feature" "/p" ∅)
      as (Hwalk & _ & Hround).
    apply Hwalk. exists "/p", ∅. split; [constructor|]. right. left.
    split; [reflexivity|]. eexists. split; [|reflexivity].
    exact (Hround "/p" ∅ pc' bothPkg ex eq_refl eq_refl eq_refl eq_refl eq_refl).
  - destruct (exports_first_then_fallback bothHost (options r) "both" "/p" ∅)
      as (_ & _ & Hround).
    pose proof (Hround "/p" ∅ pc' bothPkg ex eq_refl eq_refl eq_refl eq_refl eq_refl)
      as Hfallback.
    lazymatch type of Hfallback with
    | match ?answer with _ => _ end =>
        replace answer with (@Ok (option string) None) in Hfallback
          by (vm_compute; reflexivity)
    end.
    destruct Hfallback as (main & _ & _ & _ & _ & Hfile & _).
    exact (Hfile "/p/node_modules/both/main.js" "/p/node_modules/both/main.js"
             eq_refl eq_refl eq_refl).
Defined.

End ExportsFirstExamples.

(** ** Imports that do not resolve *)

Section UnresolvedImports.

Import Bundler.

Variable h : Host.

(** [processModule] throws only when the module it is called for cannot
    be loaded, and then it has changed nothing; what goes wrong below an
    import is caught in the loop over the imports. *)
Lemma processModule_throws (depth : nat) (p : string) (isEntry isDynamic : bool)
    (b b' : t) (e : exn) :
  processModule h depth p isEntry isDynamic b = Some (Throw e, b') ->
  b' = b
  /\ ((existsSync h p = false /\ e = Error ("File not found: " ++ p))
      \/ readFileSync h p = Throw e).
Proof.
  destruct depth as [|depth]; [discriminate|]. simpl.
  destruct (has p (modules b)); [discriminate|].
  destruct (existsSync h p) eqn:Hex; simpl.
  - destruct (readFileSync h p) as [src|e'] eqn:Hread.
    + destruct (processImports _ _ _ _ _); discriminate.
    + intros [= <- <-]. split; [reflexivity|]. right. reflexivity.
  - intros [= <- <-]. split; [reflexivity|]. left. split; reflexivity.
Qed.

Lemma processEntries_throws (depth : nat) (entries : list string) (b b' : t) (e : exn) :
  processEntries h depth entries b = Some (Throw e, b') ->
  exists en : string,
    In en entries
    /\ let p := Path.resolve (cwd h) [cwd h; en] in
       (existsSync h p = false /\ e = Error ("File not found: " ++ p))
       \/ readFileSync h p = Throw e.
Proof.
  revert b. induction entries as [|en entries IH]; intros b; simpl; [discriminate|].
  destruct (processModule h depth _ true false b) as [[[u|e'] b1]|] eqn:Hp; [| |discriminate].
  - intros H. destruct (IH _ H) as (en' & Hin & Hload).
    exists en'. split; [right; exact Hin|exact Hload].
  - intros [= <- <-]. exists en. split; [left; reflexivity|].
    apply processModule_throws in Hp. exact (proj2 Hp).
Qed.

End UnresolvedImports.

Section UnresolvedImportsExamples.

Import Bundler Fixtures.

(** C2 as stated fails on the project whose entry is
    [import './missing'; console.log(1)]: the specifier does not resolve,
    and [build] succeeds with one chunk that holds the entry, after one
    warning. *)
Lemma build_succeeds_despite_unresolved_import :
  let b := new missingHost (bundlerOptions ["main.js"] browser None) in
  fst (ModuleResolver.resolve missingHost (resolver b) "./missing" (Some "/p/main.js"))
    = Throw (Error "Cannot resolve './missing' from '/p'")
  /\ option_map (fun r => (match fst r with
                           | Ok out => Some (List.map Chunk.sorted (chunks out))
                           | Throw _ => None
                           end,
                           warnings (snd r)))
       (build missingHost 4 b)
     = Some (Some [["/p/main.js"]],
             ["Warning: Could not resolve './missing' from '/p/main.js'"]).
Proof. vm_compute. split; reflexivity. Qed.

End UnresolvedImportsExamples.

(** ** What [processModule] keeps *)

Section ProcessModule.

Import Bundler.

Variable h : Host.

Section Preservation.

(** A property of [this.modules] that survives the two ways in which
    [processModule] changes the map. *)
Variable P : list (string * Mod.t) -> Prop.

Hypothesis P_update : forall k f ms,
  (forall m, Mod.path (f m) = Mod.path m /\ Mod.sideEffects (f m) = Mod.sideEffects m) ->
  P ms -> P (update k f ms).

Hypothesis P_insert : forall k m ms,
  assoc k ms = None -> Mod.path m = k -> Mod.sideEffects m = true ->
  P ms -> P (assocSet k m ms).

Lemma processImport_preserves
    (recur : string -> bool -> bool -> t -> option (outcome unit * t))
    (modulePath : string) (imp : KonaParser.ImportInfo) (b b' : t) :
  (forall p d1 d2 b0 r b1,
      P (modules b0) -> recur p d1 d2 b0 = Some (r, b1) -> P (modules b1)) ->
  P (modules b) ->
  processImport h recur modulePath imp b = Some b' -> P (modules b').
Proof using P_update.
  intros Hrec Hb. unfold processImport.
  destruct (KonaParser.isTypeOnly imp); [intros [= <-]; exact Hb|].
  destruct (ModuleResolver.resolve _ _ _ _) as [[res|e] r'].
  - destruct (ModuleResolver.external res); [intros [= <-]; exact Hb|].
    match goal with
    | |- context [recur ?p ?d1 ?d2 ?b0] =>
        assert (P (modules b0)) as Hb0
          by (apply P_update; [intros m; split; reflexivity|exact Hb]);
        destruct (recur p d1 d2 b0) as [[[u|e] b1]|] eqn:Hr; [| |discriminate];
        pose proof (Hrec _ _ _ _ _ _ Hb0 Hr) as Hb1
    end.
    + intros [= <-]. apply P_update; [intros m; split; reflexivity|exact Hb1].
    + intros [= <-]. exact Hb1.
  - intros [= <-]. exact Hb.
Qed.

Lemma processImports_preserves
    (recur : string -> bool -> bool -> t -> option (outcome unit * t))
    (modulePath : string) (imps : list KonaParser.ImportInfo) (b b' : t) :
  (forall p d1 d2 b0 r b1,
      P (modules b0) -> recur p d1 d2 b0 = Some (r, b1) -> P (modules b1)) ->
  P (modules b) ->
  processImports h recur modulePath imps b = Some b' -> P (modules b').
Proof using P_update.
  intros Hrec. unfold processImports. revert b.
  induction imps as [|imp imps IH]; intros b Hb; simpl.
  - intros [= <-]. exact Hb.
  - destruct (processImport h recur modulePath imp b) as [b1|] eqn:H1.
    + apply IH. exact (processImport_preserves _ _ _ _ _ Hrec Hb H1).
    + clear. induction imps; simpl; [discriminate|assumption].
Qed.

Lemma processModule_preserves (depth : nat) (p : string) (isEntry isDynamic : bool)
    (b b' : t) (r : outcome unit) :
  P (modules b) ->
  processModule h depth p isEntry isDynamic b = Some (r, b') -> P (modules b').
Proof using P_update P_insert.
  revert p isEntry isDynamic b b' r.
  induction depth as [|depth IH]; intros p isEntry isDynamic b b' r Hb; [discriminate|].
  simpl. unfold has. destruct (assoc p (modules b)) eqn:Hhas; [intros [= <- <-]; exact Hb|].
  destruct (negb (existsSync h p)); [intros [= <- <-]; exact Hb|].
  destruct (readFileSync h p) as [src|e]; [|intros [= <- <-]; exact Hb].
  match goal with
  | |- context [processImports h ?rec ?mp ?imps ?b0] =>
      destruct (processImports h rec mp imps b0) as [b1|] eqn:Hp; [|discriminate];
      intros [= <- <-];
      refine (processImports_preserves rec mp imps b0 b1 _ _ Hp)
  end.
  - intros q d1 d2 b0 r0 b2 Hb0 Hr. exact (IH _ _ _ _ _ _ Hb0 Hr).
  - simpl. apply P_insert; [exact Hhas|reflexivity|reflexivity|exact Hb].
Qed.

Lemma processEntries_preserves (depth : nat) (entries : list string) (b b' : t)
    (r : outcome unit) :
  P (modules b) -> processEntries h depth entries b = Some (r, b') -> P (modules b').
Proof using P_update P_insert.
  revert b. induction entries as [|en entries IH]; intros b Hb; simpl.
  - intros [= <- <-]. exact Hb.
  - destruct (processModule h depth _ true false b) as [[[u|e] b1]|] eqn:Hp; [| |discriminate].
    + apply IH. exact (processModule_preserves _ _ _ _ _ _ _ Hb Hp).
    + intros [= <- <-]. exact (processModule_preserves _ _ _ _ _ _ _ Hb Hp).
Qed.

End Preservation.

End ProcessModule.

(** ** The side-effect flag *)

Section SideEffects.

Import Bundler.

Variable h : Host.

Definition allSideEffects (ms : list (string * Mod.t)) : Prop :=
  Forall (fun kv : string * Mod.t => Mod.sideEffects (snd kv) = true) ms.

Lemma update_sideEffects (k : string) (f : Mod.t -> Mod.t) (ms : list (string * Mod.t)) :
  (forall m, Mod.sideEffects (f m) = Mod.sideEffects m) ->
  allSideEffects ms -> allSideEffects (update k f ms).
Proof.
  intros Hf. induction 1 as [|[k' m] ms Hm Hms IH]; simpl; [constructor|].
  destruct (String.eqb k' k); constructor; simpl in *; try rewrite Hf; assumption.
Qed.

Lemma assocSet_sideEffects (k : string) (m : Mod.t) (ms : list (string * Mod.t)) :
  Mod.sideEffects m = true -> allSideEffects ms -> allSideEffects (assocSet k m ms).
Proof.
  intros Hm. induction 1 as [|[k' m'] ms Hm' Hms IH]; simpl.
  - constructor; [exact Hm|constructor].
  - destruct (String.eqb k' k); constructor; simpl in *; assumption.
Qed.

(** Every module that [processModule] creates has its flag set. *)
Lemma processModule_sideEffects (depth : nat) (p : string) (isEntry isDynamic : bool)
    (b b' : t) (r : outcome unit) :
  allSideEffects (modules b) ->
  processModule h depth p isEntry isDynamic b = Some (r, b') -> allSideEffects (modules b').
Proof.
  apply (processModule_preserves h allSideEffects).
  - intros k f ms Hf. apply update_sideEffects. intros m. exact (proj2 (Hf m)).
  - intros k m ms _ _ Hm. apply assocSet_sideEffects. exact Hm.
Qed.

(** So [treeShake] removes nothing. *)
Lemma treeShake_keeps_all (b : t) :
  allSideEffects (modules b) -> modules (treeShake b) = modules b.
Proof.
  unfold allSideEffects, treeShake. simpl.
  generalize (usedExports (modules b)). intros used.
  induction 1 as [|kv ms Hkv Hms IH]; simpl; [reflexivity|].
  rewrite Hkv, andb_false_r. simpl. f_equal. exact IH.
Qed.

End SideEffects.

Section SideEffectsExamples.

Import Bundler Fixtures.

(** C3.  The package of [/p/node_modules/pure/index.js] declares
    [sideEffects: false], and the resolver reports it, yet the module is
    created with its flag set like every other module. *)
Theorem side_effect_flag_ignores_package :
  let b := new pureHost (bundlerOptions ["main.js"] browser None) in
  option_map ModuleResolver.sideEffects
    (match fst (ModuleResolver.resolve pureHost (resolver b) "pure" (Some "/p/main.js")) with
     | Ok r => Some r
     | Throw _ => None
     end)
    = Some (Some (JBool false))
  /\ option_map (fun r => List.map (fun kv => (fst kv, Mod.sideEffects (snd kv)))
                            (modules (snd r)))
       (build pureHost 4 b)
     = Some [("/p/main.js", true); ("/p/node_modules/pure/index.js", true)].
Proof. vm_compute. split; reflexivity. Qed.

End SideEffectsExamples.

(** ** Top-level await *)

Section TopLevelAwait.

Import KonaParser.

Definition stopsTheClimb (k : SyntaxKind) : bool :=
  match k with
  | FunctionDeclaration | FunctionExpression | ArrowFunction | MethodDeclaration => true
  | _ => false
  end.

Definition isSourceFile (k : SyntaxKind) : bool :=
  match k with SourceFile => true | _ => false end.

(** The climb stops at the first function declaration, function
    expression, arrow function or method; any other node is passed. *)
Lemma reachesSourceFile_inside (inner outer : list SyntaxKind) (k : SyntaxKind) :
  Forall (fun x => stopsTheClimb x = false /\ isSourceFile x = false) inner ->
  reachesSourceFile (inner ++ k :: outer)
  = if stopsTheClimb k then false
    else if isSourceFile k then true
    else reachesSourceFile outer.
Proof.
  induction 1 as [|x inner [Hx1 Hx2] Hinner IH]; simpl.
  - destruct k; reflexivity.
  - rewrite <- IH. destruct x; simpl in *; try discriminate; reflexivity.
Qed.

End TopLevelAwait.

Section TopLevelAwaitExamples.

Import KonaParser Fixtures.

(** C8.  For [class A { get x() { return await p } }] the nearest
    enclosing function of the await expression is the getter, and [parse]
    sets the flag all the same: the climb from the await expression passes
    the getter, whose kind is not among the four that stop it. *)
Theorem await_in_getter_sets_flag :
  hasTopLevelAwait (parse getterHost defaultOptions getterSource) = true
  /\ reachesSourceFile
       [OtherKind "ReturnStatement"; OtherKind "Block"; GetAccessor; ClassDeclaration;
        SourceFile] = true
  /\ reachesSourceFile
       [OtherKind "ReturnStatement"; OtherKind "Block"; MethodDeclaration; ClassDeclaration;
        SourceFile] = false.
Proof. vm_compute. repeat split; reflexivity. Qed.

End TopLevelAwaitExamples.

(** ** The dev server after a failed rebuild *)

Section Rebuild.

Import DevServer.


End Rebuild.

Section RebuildExamples.

Import DevServer Fixtures.



End RebuildExamples.

(** ** Replacement texts *)

(** A replacement text without a dollar sign stands for itself. *)
Lemma expand_plain (v matched before after : string) :
  Str.includesChar Str.dollar v = false -> Str.expand v matched before after = v.
Proof.
  induction v as [|c v IH]; simpl; [reflexivity|].
  intros H. apply orb_false_iff in H as [Hc Hv]. rewrite Hc, IH by exact Hv. reflexivity.
Qed.

Lemma startsWith_append (k rest : string) : Str.startsWith (k ++ rest) k = true.
Proof.
  induction k as [|c k IH]; simpl; [destruct rest; reflexivity|].
  rewrite Ascii.eqb_refl. exact IH.
Qed.

(** ** The order of the modules of a chunk *)

Ltac split4 := split; [|split; [|split]].

Section Sets.

Lemma mem_In (x : string) (l : list string) : mem x l = true <-> In x l.
Proof.
  unfold mem. rewrite List.existsb_exists. split.
  - intros (y & Hy & Heq). apply String.eqb_eq in Heq. subst. exact Hy.
  - intros H. exists x. split; [exact H|apply String.eqb_refl].
Qed.

Lemma mem_false (x : string) (l : list string) : mem x l = false <-> ~ In x l.
Proof.
  split.
  - intros H Hin. apply mem_In in Hin. congruence.
  - intros H. destruct (mem x l) eqn:E; [|reflexivity]. apply mem_In in E. contradiction.
Qed.

Lemma setAdd_new (x : string) (l : list string) : ~ In x l -> setAdd x l = (l ++ [x])%list.
Proof. intros H. unfold setAdd. apply mem_false in H. rewrite H. reflexivity. Qed.

Lemma setDelete_absent (x : string) (l : list string) : ~ In x l -> setDelete x l = l.
Proof.
  unfold setDelete. induction l as [|y l IH]; simpl; [reflexivity|].
  intros H. destruct (String.eqb x y) eqn:E.
  - apply String.eqb_eq in E. subst. contradiction H. left. reflexivity.
  - simpl. f_equal. apply IH. intros Hin. apply H. right. exact Hin.
Qed.

Lemma setDelete_last (x : string) (l : list string) :
  ~ In x l -> setDelete x (l ++ [x]) = l.
Proof.
  intros H. unfold setDelete. rewrite List.filter_app. simpl. rewrite String.eqb_refl. simpl.
  rewrite app_nil_r. apply setDelete_absent. exact H.
Qed.

End Sets.

Section Earlier.
Import Order.

Lemma earlier_app (l new : list string) (p q : string) :
  earlier l p q -> earlier (l ++ new) p q.
Proof.
  intros (l1 & l2 & -> & Hp). exists l1, (l2 ++ new)%list. split; [|exact Hp].
  rewrite <- app_assoc. reflexivity.
Qed.

Lemma earlier_last (l : list string) (p q : string) : In p l -> earlier (l ++ [q]) p q.
Proof. intros H. exists l, []. split; [reflexivity|exact H]. Qed.

End Earlier.

Section Sorting.

Import Order Bundler.

Variables (all : list (string * Mod.t)) (group : list Mod.t).
Hypothesis Hwf : wellFormed all group.

Lemma same_path (A B : Mod.t) : In A group -> In B group -> Mod.path A = Mod.path B -> A = B.
Proof using Hwf.
  intros HA HB Heq. destruct Hwf as [_ Hg].
  pose proof (Hg A HA) as H1. pose proof (Hg B HB) as H2. rewrite Heq in H1. congruence.
Qed.

Lemma includes_In (d : Dependency.t) (B : Mod.t) :
  assoc (Dependency.resolved d) all = Some B -> includes group B = true ->
  In B group /\ Dependency.resolved d = Mod.path B.
Proof using Hwf.
  intros Hd Hinc. destruct Hwf as [Hk Hg].
  pose proof (Hk _ _ Hd) as Hp. split; [|symmetry; exact Hp].
  unfold includes in Hinc. apply List.existsb_exists in Hinc as (x & Hx & Heq).
  apply String.eqb_eq in Heq. pose proof (Hg x Hx) as H1. rewrite Heq, Hp, Hd in H1.
  injection H1 as ->. exact Hx.
Qed.

Lemma In_includes (B : Mod.t) : In B group -> includes group B = true.
Proof.
  intros H. unfold includes. apply List.existsb_exists. exists B. split; [exact H|apply String.eqb_refl].
Qed.

Lemma reaches_edge (A B C : Mod.t) :
  reaches group A B -> edge group B C -> reaches group A C.
Proof.
  intros H. induction H as [A|A B' C' He Hr IH]; intros Hedge.
  - eapply reach_step; [exact Hedge|apply reach_here].
  - eapply reach_step; [exact He|apply IH; exact Hedge].
Qed.

(** What holds of the variables of [visit] between two calls. *)
Record Inv (s : Sort) : Prop := {
  inv_paths : List.map Mod.path (result s) = visited s;
  inv_group : forall X, In X (result s) -> In X group;
  inv_deps : forall X d B,
      In X (result s) -> In d (Mod.dependencies X) ->
      assoc (Dependency.resolved d) all = Some B -> includes group B = true ->
      earlier (visited s) (Mod.path B) (Mod.path X) \/ reaches group B X;
}.

(** What a call of [visit] on [m] guarantees, from a state [s]. *)
Definition visitSpec (depth : nat) : Prop :=
  forall (m : Mod.t) (s : Sort),
    Inv s -> In m group ->
    List.NoDup (visiting s) ->
    (forall v, In v (visiting s) ->
       exists V, In V group /\ Mod.path V = v /\ reaches group V m) ->
    List.length group < depth + List.length (visiting s) ->
    let s' := visit depth all group m s in
    Inv s'
    /\ visiting s' = visiting s
    /\ (exists new, visited s' = (visited s ++ new)%list
                    /\ forall x, In x new -> ~ In x (visiting s))
    /\ (In (Mod.path m) (visited s') \/ In (Mod.path m) (visiting s)).

Definition step (depth : nat) (s : Sort) (dep : Dependency.t) : Sort :=
  match assoc (Dependency.resolved dep) all with
  | Some depModule =>
      if includes group depModule then visit depth all group depModule s else s
  | None => s
  end.

Lemma fold_deps (depth : nat) (m : Mod.t) (V1 : list string) :
  visitSpec depth -> In m group ->
  List.NoDup V1 ->
  (forall v, In v V1 -> exists V, In V group /\ Mod.path V = v /\ reaches group V m) ->
  List.length group < depth + List.length V1 ->
  forall (ds : list Dependency.t) (s : Sort),
    (forall d, In d ds -> In d (Mod.dependencies m)) ->
    Inv s -> visiting s = V1 ->
    let s' := List.fold_left (step depth) ds s in
    Inv s'
    /\ visiting s' = V1
    /\ (exists new, visited s' = (visited s ++ new)%list /\ forall x, In x new -> ~ In x V1)
    /\ (forall d B, In d ds -> assoc (Dependency.resolved d) all = Some B ->
          includes group B = true ->
          In (Mod.path B) (visited s') \/ In (Mod.path B) V1).
Proof using Hwf.
  intros Hvisit Hm Hnd Hreach Hfuel.
  induction ds as [|d ds IH]; intros s Hsub Hinv Hv; simpl.
  - split4; try assumption.
    + exists (@nil string). rewrite app_nil_r. split; [reflexivity|intros x []].
    + intros d B [].
  - assert (Inv (step depth s d) /\ visiting (step depth s d) = V1
            /\ (exists new, visited (step depth s d) = (visited s ++ new)%list
                            /\ forall x, In x new -> ~ In x V1)
            /\ (forall B, assoc (Dependency.resolved d) all = Some B ->
                  includes group B = true ->
                  In (Mod.path B) (visited (step depth s d)) \/ In (Mod.path B) V1))
      as (Hinv1 & Hv1 & (new1 & Hnew1 & Hfresh1) & Hd1).
    { unfold step. destruct (assoc (Dependency.resolved d) all) as [B|] eqn:HB.
      - destruct (includes group B) eqn:Hinc.
        + destruct (includes_In _ _ HB Hinc) as [HinB HpB].
          assert (edge group m B) as Hedge.
          { split; [exact Hm|]. split; [exact HinB|].
            exists d. split; [apply Hsub; left; reflexivity|]. split; [reflexivity|exact HpB]. }
          destruct (Hvisit B s Hinv HinB) as (Ha & Hb & Hc & Hd).
          * rewrite Hv. exact Hnd.
          * rewrite Hv. intros v Hin. destruct (Hreach v Hin) as (V & HV & HpV & HrV).
            exists V. split; [exact HV|]. split; [exact HpV|].
            eapply reaches_edge; eassumption.
          * rewrite Hv. exact Hfuel.
          * rewrite Hv in *. split4; try assumption.
            intros B' [= <-] _. exact Hd.
        + split4; try assumption.
          * exists (@nil string). rewrite app_nil_r. split; [reflexivity|intros x []].
          * intros B' [= <-] Hinc'. congruence.
      - split4; try assumption.
        + exists (@nil string). rewrite app_nil_r. split; [reflexivity|intros x []].
        + intros B' [=]. }
    destruct (IH (step depth s d)) as (Hinv2 & Hv2 & (new2 & Hnew2 & Hfresh2) & Hd2);
      try assumption.
    { intros d' Hd'. apply Hsub. right. exact Hd'. }
    split4; try assumption.
    + exists (new1 ++ new2)%list. split.
      * rewrite Hnew2, Hnew1, app_assoc. reflexivity.
      * intros x Hx. apply in_app_or in Hx as [Hx|Hx]; [apply Hfresh1|apply Hfresh2]; exact Hx.
    + intros d' B [<-|Hin] HB Hinc.
      * destruct (Hd1 B HB Hinc) as [H|H]; [|right; exact H].
        left. rewrite Hnew2. apply in_or_app. left. exact H.
      * exact (Hd2 d' B Hin HB Hinc).
Qed.

Lemma visit_O (m : Mod.t) (s : Sort) : visit 0 all group m s = s.
Proof. simpl. destruct (mem _ (visited s)); [reflexivity|]. destruct (mem _ (visiting s)); reflexivity. Qed.

Lemma visit_S (depth : nat) (m : Mod.t) (s : Sort) :
  visit (S depth) all group m s
  = if mem (Mod.path m) (visited s) then s
    else if mem (Mod.path m) (visiting s) then s
    else
      let s2 :=
        List.fold_left (step depth) (Mod.dependencies m)
          {| result := result s; visited := visited s;
             visiting := setAdd (Mod.path m) (visiting s) |} in
      {| result := result s2 ++ [m];
         visited := setAdd (Mod.path m) (visited s2);
         visiting := setDelete (Mod.path m) (visiting s2) |}.
Proof. reflexivity. Qed.

Lemma visiting_bound (m : Mod.t) (s : Sort) :
  In m group -> List.NoDup (visiting s) -> ~ In (Mod.path m) (visiting s) ->
  (forall v, In v (visiting s) -> exists V, In V group /\ Mod.path V = v /\ reaches group V m) ->
  List.length (visiting s) < List.length group.
Proof.
  intros Hm Hnd Hnot Hreach.
  assert (List.length (Mod.path m :: visiting s) <= List.length (List.map Mod.path group)) as H.
  { apply List.NoDup_incl_length.
    - constructor; assumption.
    - intros x [<-|Hx].
      + apply List.in_map. exact Hm.
      + destruct (Hreach x Hx) as (V & HV & <- & _). apply List.in_map. exact HV. }
  rewrite List.length_map in H. simpl in H. lia.
Qed.

Lemma visit_spec : forall depth : nat, visitSpec depth.
Proof using Hwf.
  induction depth as [|depth IH]; intros m s Hinv Hm Hnd Hreach Hfuel s'; subst s'.
  - rewrite visit_O.
    destruct (mem (Mod.path m) (visited s)) eqn:Hvd.
    + split4; try assumption; try reflexivity.
      * exists (@nil string). rewrite List.app_nil_r. split; [reflexivity|intros x []].
      * left. apply mem_In. exact Hvd.
    + destruct (mem (Mod.path m) (visiting s)) eqn:Hvg.
      * split4; try assumption; try reflexivity.
        -- exists (@nil string). rewrite List.app_nil_r. split; [reflexivity|intros x []].
        -- right. apply mem_In. exact Hvg.
      * apply mem_false in Hvg.
        pose proof (visiting_bound m s Hm Hnd Hvg Hreach). simpl in Hfuel. lia.
  - rewrite visit_S.
    destruct (mem (Mod.path m) (visited s)) eqn:Hvd.
    { split4; try assumption; try reflexivity.
      - exists (@nil string). rewrite List.app_nil_r. split; [reflexivity|intros x []].
      - left. apply mem_In. exact Hvd. }
    destruct (mem (Mod.path m) (visiting s)) eqn:Hvg.
    { split4; try assumption; try reflexivity.
      - exists (@nil string). rewrite List.app_nil_r. split; [reflexivity|intros x []].
      - right. apply mem_In. exact Hvg. }
    apply mem_false in Hvd, Hvg.
    rewrite (setAdd_new _ _ Hvg).
    set (V1 := (visiting s ++ [Mod.path m])%list).
    set (s1 := {| result := result s; visited := visited s; visiting := V1 |}).
    assert (Inv s1) as Hinv1 by (destruct Hinv; constructor; assumption).
    assert (List.NoDup V1) as Hnd1.
    { unfold V1. apply List.NoDup_app; [exact Hnd|constructor; [intros []|constructor]|].
      intros x Hx [<-|[]]. contradiction. }
    destruct (fold_deps depth m V1 IH Hm Hnd1) with (ds := Mod.dependencies m) (s := s1)
      as (Hinv2 & Hv2 & (new & Hnew & Hfresh) & Hdeps); try assumption; try reflexivity.
    { intros v Hv. apply List.in_app_or in Hv as [Hv|[<-|[]]].
      - exact (Hreach v Hv).
      - exists m. split; [exact Hm|]. split; [reflexivity|apply reach_here]. }
    { unfold V1. rewrite List.length_app. simpl. lia. }
    { intros d Hd. exact Hd. }
    set (s2 := List.fold_left (step depth) (Mod.dependencies m) s1) in *.
    cbv zeta.
    assert (In (Mod.path m) V1) as HmV1 by (unfold V1; apply List.in_or_app; right; left; reflexivity).
    assert (~ In (Mod.path m) (visited s2)) as Hnot2.
    { rewrite Hnew. intros Hin. apply List.in_app_or in Hin as [Hin|Hin].
      - exact (Hvd Hin).
      - exact (Hfresh _ Hin HmV1). }
    rewrite (setAdd_new _ _ Hnot2), Hv2.
    split4.
    + destruct Hinv2 as [Hp2 Hg2 Hd2]. constructor; simpl.
      * rewrite List.map_app, Hp2. reflexivity.
      * intros X HX. apply List.in_app_or in HX as [HX|[<-|[]]]; [apply Hg2; exact HX|exact Hm].
      * intros X d B HX Hd HB Hinc. apply List.in_app_or in HX as [HX|[<-|[]]].
        -- destruct (Hd2 X d B HX Hd HB Hinc) as [H|H]; [left|right; exact H].
           apply earlier_app. exact H.
        -- destruct (Hdeps d B Hd HB Hinc) as [H|H].
           ++ left. apply earlier_last. exact H.
           ++ right. destruct (includes_In _ _ HB Hinc) as [HinB _].
              apply List.in_app_or in H as [H|[H|[]]].
              ** destruct (Hreach _ H) as (V & HV & HpV & HrV).
                 rewrite (same_path B V HinB HV (eq_sym HpV)). exact HrV.
              ** rewrite (same_path B m HinB Hm (eq_sym H)). apply reach_here.
    + simpl. unfold V1. apply setDelete_last. exact Hvg.
    + simpl. exists (new ++ [Mod.path m])%list. split.
      * rewrite Hnew, List.app_assoc. reflexivity.
      * intros x Hx. apply List.in_app_or in Hx as [Hx|[<-|[]]].
        -- intros Hin. apply (Hfresh x Hx). unfold V1. apply List.in_or_app. left. exact Hin.
        -- exact Hvg.
    + left. simpl. apply List.in_or_app. right. left. reflexivity.
Qed.

Definition start : Sort := {| result := []; visited := []; visiting := [] |}.

Lemma fold_top (ms : list Mod.t) :
  forall s : Sort,
    (forall m, In m ms -> In m group) ->
    Inv s -> visiting s = [] ->
    let s' :=
      List.fold_left (fun s module => visit (S (List.length group)) all group module s) ms s in
    Inv s' /\ visiting s' = []
    /\ (forall x, In x (visited s) -> In x (visited s'))
    /\ (forall m, In m ms -> In (Mod.path m) (visited s')).
Proof using Hwf.
  induction ms as [|m ms IH]; intros s Hsub Hinv Hv; simpl.
  - split4; try assumption; [intros x Hx; exact Hx|intros m []].
  - destruct (visit_spec (S (List.length group)) m s Hinv) as (H1 & H2 & (new & Hnew & _) & H4).
    + apply Hsub. left. reflexivity.
    + rewrite Hv. constructor.
    + rewrite Hv. intros v [].
    + lia.
    + rewrite Hv in H2, H4.
      destruct (IH _ (fun m' Hm' => Hsub m' (or_intror Hm')) H1 H2) as (G1 & G2 & G3 & G4).
      split4; try assumption.
      * intros x Hx. apply G3. rewrite Hnew. apply List.in_or_app. left. exact Hx.
      * intros m' [<-|Hm'].
        -- apply G3. destruct H4 as [H4|[]]. exact H4.
        -- apply G4. exact Hm'.
Qed.

Lemma topologicalSort_respects_dependencies (A B : Mod.t) :
  edge group A B -> ~ reaches group B A ->
  earlier (List.map Mod.path (topologicalSort all group)) (Mod.path B) (Mod.path A).
Proof using Hwf.
  intros Hedge Hacyclic. unfold topologicalSort.
  destruct (fold_top group start) as (Hinv & _ & _ & Hall).
  - intros m Hm. exact Hm.
  - constructor; simpl; [reflexivity|intros X []|intros X d B' []].
  - reflexivity.
  - fold start. set (s := List.fold_left _ group start) in *.
    destruct Hedge as (HA & HB & d & Hd & _ & Hres).
    destruct Hinv as [Hp Hg Hdeps]. rewrite Hp.
    pose proof (Hall A HA) as HinA. rewrite <- Hp in HinA.
    apply List.in_map_iff in HinA as (X & HpX & HX).
    pose proof (same_path X A (Hg X HX) HA HpX) as ->.
    destruct Hwf as [_ Hgr].
    destruct (Hdeps A d B HX Hd) as [H|H].
    + rewrite Hres. apply Hgr. exact HB.
    + apply In_includes. exact HB.
    + exact H.
    + contradiction.
Qed.

End Sorting.

Section Stored.

Import Bundler.

(** The modules are stored under distinct keys, each under its own path. *)
Definition stored (ms : list (string * Mod.t)) : Prop :=
  List.NoDup (List.map fst ms)
  /\ List.Forall (fun kv : string * Mod.t => Mod.path (snd kv) = fst kv) ms.

Lemma update_keys {A} (k : string) (f : A -> A) (ms : list (string * A)) :
  List.map fst (update k f ms) = List.map fst ms.
Proof.
  induction ms as [|[k' v] ms IH]; simpl; [reflexivity|].
  destruct (String.eqb k' k); simpl; [reflexivity|]. f_equal. exact IH.
Qed.

Lemma stored_update (k : string) (f : Mod.t -> Mod.t) (ms : list (string * Mod.t)) :
  (forall m, Mod.path (f m) = Mod.path m) -> stored ms -> stored (update k f ms).
Proof.
  intros Hf [Hnd Hall]. split; [rewrite update_keys; exact Hnd|].
  clear Hnd. induction Hall as [|[k' m] ms Hm Hms IH]; simpl; [constructor|].
  destruct (String.eqb k' k); constructor; simpl in *; try rewrite Hf; assumption.
Qed.

Lemma assoc_None_keys {A} (k : string) (ms : list (string * A)) :
  assoc k ms = None -> ~ In k (List.map fst ms).
Proof.
  induction ms as [|[k' v] ms IH]; simpl; [intros _ []|].
  destruct (String.eqb k' k) eqn:E; [discriminate|].
  intros H [Hk|Hk]; [subst; rewrite String.eqb_refl in E; discriminate|].
  exact (IH H Hk).
Qed.

Lemma assocSet_absent {A} (k : string) (v : A) (ms : list (string * A)) :
  assoc k ms = None -> assocSet k v ms = (ms ++ [(k, v)])%list.
Proof.
  induction ms as [|[k' v'] ms IH]; simpl; [reflexivity|].
  destruct (String.eqb k' k); [discriminate|]. intros H. f_equal. exact (IH H).
Qed.

Lemma stored_insert (k : string) (m : Mod.t) (ms : list (string * Mod.t)) :
  assoc k ms = None -> Mod.path m = k -> stored ms -> stored (assocSet k m ms).
Proof.
  intros Hnone Hp [Hnd Hall]. rewrite (assocSet_absent _ _ _ Hnone). split.
  - rewrite List.map_app. simpl. apply List.NoDup_app; [exact Hnd|constructor; [intros []|constructor]|].
    intros x Hx [<-|[]]. exact (assoc_None_keys _ _ Hnone Hx).
  - apply List.Forall_app. split; [exact Hall|]. constructor; [exact Hp|constructor].
Qed.

Lemma assoc_stored (ms : list (string * Mod.t)) (k : string) (m : Mod.t) :
  stored ms -> (assoc k ms = Some m <-> In (k, m) ms).
Proof.
  intros [Hnd _]. induction ms as [|[k' v] ms IH]; simpl; [split; [discriminate|intros []]|].
  inversion Hnd as [|? ? Hnot Hnd']; subst.
  destruct (String.eqb k' k) eqn:E.
  - apply String.eqb_eq in E. subst. split.
    + intros [= <-]. left. reflexivity.
    + intros [[= <-]|Hin]; [reflexivity|].
      contradiction Hnot. change k with (fst (k, m)). apply List.in_map. exact Hin.
  - rewrite (IH Hnd'). split; [intros H; right; exact H|].
    intros [[= <- <-]|Hin]; [rewrite String.eqb_refl in E; discriminate|exact Hin].
Qed.

Lemma stored_filter (f : string * Mod.t -> bool) (ms : list (string * Mod.t)) :
  stored ms -> stored (List.filter f ms).
Proof.
  intros [Hnd Hall]. split.
  - clear Hall. induction ms as [|kv ms IH]; simpl; [constructor|].
    inversion Hnd as [|? ? Hnot Hnd']; subst.
    destruct (f kv); simpl; [|exact (IH Hnd')].
    constructor; [|exact (IH Hnd')].
    intros Hin. apply Hnot. apply List.in_map_iff in Hin as (x & Hx & Hin).
    apply List.filter_In in Hin as [Hin _]. rewrite <- Hx. apply List.in_map. exact Hin.
  - apply List.Forall_forall. intros kv Hin. apply List.filter_In in Hin as [Hin _].
    exact (proj1 (List.Forall_forall _ _) Hall kv Hin).
Qed.

Lemma stored_mapModules (f : string -> Mod.t -> Mod.t) (ms : list (string * Mod.t)) :
  (forall k m, Mod.path (f k m) = Mod.path m) -> stored ms -> stored (mapModules f ms).
Proof.
  intros Hf [Hnd Hall]. unfold mapModules. split.
  - rewrite List.map_map. simpl. exact Hnd.
  - clear Hnd. induction Hall as [|kv ms Hkv Hms IH]; simpl; constructor; [|exact IH].
    simpl. rewrite Hf. exact Hkv.
Qed.

Lemma fold_left_invariant {A B} (Q : A -> Prop) (f : A -> B -> A) (l : list B) (a : A) :
  Q a -> (forall a x, Q a -> Q (f a x)) -> Q (List.fold_left f l a).
Proof.
  intros Ha Hf. revert a Ha. induction l as [|x l IH]; intros a Ha; simpl; [exact Ha|].
  apply IH. apply Hf. exact Ha.
Qed.

Lemma stored_assignOnce (ms : list (string * Mod.t)) :
  stored ms -> stored (fst (assignOnce ms)).
Proof.
  intros H. unfold assignOnce.
  apply (fold_left_invariant (fun acc => stored (fst acc))); [exact H|].
  intros [cur changed] kv Hcur. simpl in *.
  destruct (assoc (fst kv) cur) as [module|]; [|exact Hcur].
  destruct (hasChunk module); [exact Hcur|].
  destruct (dependentChunk cur (Mod.dependents module)); [|exact Hcur].
  simpl. apply stored_update; [reflexivity|exact Hcur].
Qed.

Lemma stored_assignLoop (rounds : nat) (ms : list (string * Mod.t)) :
  stored ms -> stored (assignLoop rounds ms).
Proof.
  revert ms. induction rounds as [|rounds IH]; intros ms H; simpl; [exact H|].
  pose proof (stored_assignOnce ms H) as H1.
  destruct (assignOnce ms) as [ms' changed]. simpl in H1.
  destruct changed; [apply IH|]; exact H1.
Qed.

Section Build.

Variable h : Host.

Lemma build_stored (depth : nat) (b b' : t) (out : BundleOutput) :
  stored (modules b) ->
  build h depth b = Some (Ok out, b') ->
  stored (modules b') /\ out_modules out = modules b' /\ chunks out = generateChunks b'.
Proof.
  intros Hb. unfold build.
  destruct (processEntries h depth (entry (options b)) b) as [[[u|e] b1]|] eqn:Hp;
    [|discriminate|discriminate].
  assert (stored (modules b1)) as H1.
  { refine (processEntries_preserves h stored _ _ _ _ _ _ _ Hb Hp).
    - intros k f ms Hf. apply stored_update. intros m. exact (proj1 (Hf m)).
    - intros k m ms Hnone Hpath _. apply stored_insert; assumption. }
  set (b2 := if default true (treeshake (options b1)) then treeShake b1 else b1).
  assert (stored (modules b2)) as H2.
  { unfold b2. destruct (default true (treeshake (options b1))); [|exact H1].
    unfold treeShake, withModules. cbn [modules]. apply stored_filter. exact H1. }
  set (b3 := if default true (splitting (options b2)) then splitCode h b2
             else createSingleChunk b2).
  assert (stored (modules b3)) as H3.
  { unfold b3. destruct (default true (splitting (options b2))).
    - unfold splitCode, withModules. cbn [modules].
      apply stored_mapModules; [intros k m; destruct (hasChunk m); reflexivity|].
      apply stored_assignLoop.
      apply stored_mapModules;
        [intros k m; destruct (Mod.isDynamic m && negb (hasChunk m)); reflexivity|].
      apply stored_mapModules; [intros k m; destruct (Mod.isEntry m); reflexivity|].
      exact H2.
    - unfold createSingleChunk, withModules. cbn [modules].
      apply stored_mapModules; [reflexivity|exact H2]. }
  intros [= <- <-]. simpl. split; [exact H3|]. split; reflexivity.
Qed.

End Build.

Lemma pushTo_members (cid : string) (m : Mod.t) (groups : list (string * list Mod.t))
    (c : string) (g : list Mod.t) (x : Mod.t) :
  In (c, g) (pushTo cid m groups) -> In x g ->
  x = m \/ exists g0, In (c, g0) groups /\ In x g0.
Proof.
  induction groups as [|[c0 g0] groups IH]; simpl.
  - intros [[= <- <-]|[]] [<-|[]]. left. reflexivity.
  - destruct (String.eqb c0 cid).
    + intros [[= <- <-]|Hin] Hx.
      * apply List.in_app_or in Hx as [Hx|[<-|[]]]; [|left; reflexivity].
        right. exists g0. split; [left; reflexivity|exact Hx].
      * right. exists g. split; [right; exact Hin|exact Hx].
    + intros [[= <- <-]|Hin] Hx.
      * right. exists g0. split; [left; reflexivity|exact Hx].
      * destruct (IH Hin Hx) as [->|(g1 & Hg1 & Hx1)]; [left; reflexivity|].
        right. exists g1. split; [right; exact Hg1|exact Hx1].
Qed.

Lemma groupByChunk_members (ms : list (string * Mod.t)) (c : string) (g : list Mod.t)
    (x : Mod.t) :
  In (c, g) (groupByChunk ms) -> In x g -> exists kv, In kv ms /\ snd kv = x.
Proof.
  unfold groupByChunk.
  assert (forall (l : list (string * Mod.t)) (groups : list (string * list Mod.t)),
            (forall c g x, In (c, g) groups -> In x g -> exists kv, In kv ms /\ snd kv = x) ->
            (forall kv, In kv l -> In kv ms) ->
            forall c g x,
              In (c, g) (List.fold_left
                           (fun groups kv => pushTo (chunkIdOf (snd kv)) (snd kv) groups)
                           l groups) ->
              In x g -> exists kv, In kv ms /\ snd kv = x) as H.
  { induction l as [|kv l IH]; intros groups Hg Hsub c' g' x'; simpl; [apply Hg|].
    apply IH.
    - intros c1 g1 x1 Hin Hx.
      destruct (pushTo_members _ _ _ _ _ _ Hin Hx) as [->|(g0 & Hg0 & Hx0)].
      + exists kv. split; [apply Hsub; left; reflexivity|reflexivity].
      + exact (Hg _ _ _ Hg0 Hx0).
    - intros kv' Hkv'. apply Hsub. right. exact Hkv'. }
  apply (H ms []); [intros ? ? ? []|intros kv Hkv; exact Hkv].
Qed.

Lemma stored_wellFormed (ms : list (string * Mod.t)) (c : string) (g : list Mod.t) :
  stored ms -> In (c, g) (groupByChunk ms) -> Order.wellFormed ms g.
Proof.
  intros Hst Hin. split.
  - intros k m Hk. apply (assoc_stored _ _ _ Hst) in Hk.
    destruct Hst as [_ Hall]. exact (proj1 (List.Forall_forall _ _) Hall _ Hk).
  - intros m Hm. destruct (groupByChunk_members _ _ _ _ Hin Hm) as ([k m'] & Hkv & <-).
    simpl. apply (assoc_stored _ _ _ Hst).
    destruct Hst as [_ Hall]. pose proof (proj1 (List.Forall_forall _ _) Hall _ Hkv) as Hp.
    simpl in Hp. rewrite Hp. exact Hkv.
Qed.

(** C7, as the code has it.  In every chunk of a build, a module [B] that a
    module [A] of the same chunk depends on, through a static or a dynamic
    import that the bundler recorded, is defined before [A], unless [B]
    leads back to [A] through such dependencies inside the chunk (a cycle,
    which [topologicalSort] cuts where it meets it). *)
Theorem chunk_order_respects_dependencies
    (h : Host) (depth : nat) (o : BundlerOptions) (out : BundleOutput) (c : Chunk.t) :
  bundle h depth o = Some (Ok out) ->
  In c (chunks out) ->
  exists group : list Mod.t,
    In (Chunk.id c, group) (groupByChunk (out_modules out))
    /\ forall A B : Mod.t,
         Order.edge group A B -> ~ Order.reaches group B A ->
         Order.earlier (Chunk.sorted c) (Mod.path B) (Mod.path A).
Proof.
  unfold bundle. destruct (build h depth (new h o)) as [[r b']|] eqn:Hb; [|discriminate].
  intros [= ->] Hc.
  destruct (build_stored h depth (new h o) b' out) as (Hst & Hms & Hcs); [|exact Hb|].
  { split; simpl; constructor. }
  rewrite Hcs in Hc. unfold generateChunks in Hc.
  apply List.in_map_iff in Hc as ([cid group] & <- & Hin). simpl.
  exists group. rewrite Hms. split; [exact Hin|].
  intros A B Hedge Hacyclic.
  apply (topologicalSort_respects_dependencies (modules b') group
           (stored_wellFormed _ _ _ Hst Hin)); assumption.
Qed.

End Stored.

Section ChunkOrderExamples.

Import Bundler Fixtures.

(** C7 as stated fails when a dynamic import closes a loop that the static
    imports leave open.  With [splitting: false], [/p/b.js] holding
    [import('./a.js')] and [/p/a.js] holding [import './b.js'], the one
    chunk defines [a.js] before [b.js]: the static edge from [a.js] to
    [b.js] is not respected, and no static cycle excuses it, since [b.js]
    has no static import at all. *)
Lemma static_edge_against_the_order :
  bundle backHost 4 backOptions = Some (Ok backOutput)
  /\ List.map (fun c => (Chunk.id c, Chunk.sorted c)) (chunks backOutput)
     = [("bundle", ["/p/a.js"; "/p/b.js"])]
  /\ In ("bundle", backGroup) (groupByChunk (out_modules backOutput))
  /\ Mod.path backA = "/p/a.js" /\ Mod.path backB = "/p/b.js"
  /\ Order.staticEdge backGroup backA backB
  /\ ~ Order.staticReaches backGroup backB backA
  /\ ~ Order.earlier ["/p/a.js"; "/p/b.js"] (Mod.path backB) (Mod.path backA).
Proof.
  split; [vm_compute; reflexivity|].
  split; [vm_compute; reflexivity|].
  split; [vm_compute; left; reflexivity|].
  split; [vm_compute; reflexivity|].
  split; [vm_compute; reflexivity|].
  split; [|split].
  - split; [vm_compute; right; left; reflexivity|].
    split; [vm_compute; left; reflexivity|].
    exists {| Dependency.specifier := "./b.js"; Dependency.resolved := "/p/b.js";
              Dependency.isDynamic := false; Dependency.isTypeOnly := false |}.
    split; [vm_compute; left; reflexivity|]. split; vm_compute; reflexivity.
  - intros H. remember backB as B eqn:HB. remember backA as A eqn:HA.
    destruct H as [X|X Y Z Hedge _].
    + assert (Mod.path backB = Mod.path backA) as Hp by (rewrite <- HB, <- HA; reflexivity).
      vm_compute in Hp. discriminate.
    + subst X. destruct Hedge as (_ & _ & d & Hd & Hkeep & _).
      vm_compute in Hd. destruct Hd as [<-|[]]. vm_compute in Hkeep. discriminate.
  - intros (l1 & l2 & Heq & Hin). vm_compute in Hin.
    destruct l1 as [|x l1]; [destruct Hin|].
    change (Mod.path backA) with "/p/a.js" in Heq.
    destruct l1 as [|y l1]; simpl in Heq; [discriminate|].
    destruct l1; simpl in Heq; discriminate.
Qed.

(** The theorem at work on the chunk of the project with the package
    [pure]. *)
Lemma chunk_order_respects_dependencies_witness :
  exists group : list Mod.t,
    In (Chunk.id pureChunk, group) (groupByChunk (out_modules pureOutput))
    /\ forall A B : Mod.t,
         Order.edge group A B -> ~ Order.reaches group B A ->
         Order.earlier (Chunk.sorted pureChunk) (Mod.path B) (Mod.path A).
Proof.
  apply (chunk_order_respects_dependencies pureHost 4 pureOptions pureOutput pureChunk).
  - vm_compute. reflexivity.
  - vm_compute. left. reflexivity.
Defined.

End ChunkOrderExamples.

(* ===================================================================== *)
(** * Further properties of the code *)
(* ===================================================================== *)

(** ** More on the resolver *)

Section ResolverCacheHits.

Import ModuleResolver.

Lemma resolve_ok_recorded (h : Host) (r r1 : Resolver) (s : string) (f : option string)
    (res : ResolveResult) :
  resolve h r s f = (Ok res, r1) ->
  cache r1 !! cacheKey (basedirOf r f) s = Some (Some (path res)) /\ options r1 = options r.
Proof.
  unfold resolve.
  destruct (cache r !! cacheKey (basedirOf r f) s) as [[c|]|] eqn:Hc.
  - intros [= <- <-]. split; [exact Hc|reflexivity].
  - discriminate.
  - destruct (resolveInternal _ _ _ _ _ _) as [[res'|e'] pc]; [|discriminate].
    intros [= <- <-]. simpl. split; [apply lookup_insert_eq|reflexivity].
Qed.

(** X1.  Once [resolve] has answered for a specifier and a directory, every
    later call whose cache key is the same, whatever the file system has
    become and whatever was resolved in between, is answered from the
    cache: with the path of the first answer, as not external and
    without package data.  The key is the directory, a colon and the
    specifier, so another pair with the same text shares the entry. *)
Theorem resolve_success_stays_cached
    (h : Host) (r r1 : Resolver) (specifier : string) (fromFile : option string)
    (res : ResolveResult) (calls : list Call) (h' : Host)
    (specifier' : string) (fromFile' : option string) :
  resolve h r specifier fromFile = (Ok res, r1) ->
  cacheKey (basedirOf r fromFile') specifier' = cacheKey (basedirOf r fromFile) specifier ->
  resolve h' (resolveAll calls r1) specifier' fromFile'
    = (Ok (plainResult (path res) false), resolveAll calls r1).
Proof.
  intros Hfirst Hkey.
  destruct (resolve_ok_recorded _ _ _ _ _ _ Hfirst) as [Hrec Hopt].
  assert (options (resolveAll calls r1) = options r) as Hopt2
    by (rewrite resolveAll_options; exact Hopt).
  pose proof (resolveAll_keeps_entries calls r1 _ _ Hrec) as Hlater.
  unfold resolve.
  rewrite (basedirOf_options r (resolveAll calls r1) fromFile' Hopt2), Hkey, Hlater.
  reflexivity.
Qed.

End ResolverCacheHits.

Section ResolverFiles.

Import ModuleResolver.

Variables (h : Host) (opts : Options).

Lemma firstExt_spec (filePath : string) (exts : list string) :
  match firstExt h filePath exts with
  | Some p =>
      exists pre ext post,
        exts = (pre ++ ext :: post)%list /\ p = filePath ++ ext
        /\ isFile h p = true
        /\ forall e, In e pre -> isFile h (filePath ++ e) = false
  | None => forall e, In e exts -> isFile h (filePath ++ e) = false
  end.
Proof.
  induction exts as [|ext exts IH]; simpl; [intros e []|].
  destruct (isFile h (filePath ++ ext)) eqn:E.
  - exists [], ext, exts. split; [reflexivity|]. split; [reflexivity|].
    split; [exact E|intros e []].
  - destruct (firstExt h filePath exts) as [p|].
    + destruct IH as (pre & ext' & post & -> & -> & Hp & Hpre).
      exists (ext :: pre), ext', post. split; [reflexivity|]. split; [reflexivity|].
      split; [exact Hp|]. intros e [<-|He]; [exact E|apply Hpre; exact He].
    + intros e [<-|He]; [exact E|apply IH; exact He].
Qed.

(** X2.  [tryResolveFile] answers the path itself when it is a file, and
    else the path with the first extension, in the order of the
    options, that gives a file; whatever it answers is a file, and it
    answers nothing only when none of these is a file. *)
Theorem tryResolveFile_takes_first_file (filePath : string) :
  (isFile h filePath = true -> tryResolveFile h opts filePath = Some filePath)
  /\ (forall pre ext post,
        extensions opts = (pre ++ ext :: post)%list ->
        isFile h filePath = false ->
        (forall e, In e pre -> isFile h (filePath ++ e) = false) ->
        isFile h (filePath ++ ext) = true ->
        tryResolveFile h opts filePath = Some (filePath ++ ext))
  /\ (forall p, tryResolveFile h opts filePath = Some p ->
        isFile h p = true
        /\ (p = filePath \/ exists ext, In ext (extensions opts) /\ p = filePath ++ ext))
  /\ (tryResolveFile h opts filePath = None <->
      isFile h filePath = false
      /\ forall ext, In ext (extensions opts) -> isFile h (filePath ++ ext) = false).
Proof.
  unfold tryResolveFile. pose proof (firstExt_spec filePath (extensions opts)) as Hspec.
  split; [intros ->; reflexivity|]. split; [|split].
  - intros pre ext post Hexts Hexact Hpre Hext. rewrite Hexact.
    destruct (firstExt h filePath (extensions opts)) as [p|].
    + destruct Hspec as (pre' & ext' & post' & Heq & -> & Hp & Hpre').
      rewrite Hexts in Heq. clear Hexts.
      revert pre' Heq Hpre'. induction pre as [|a pre IH]; intros pre' Heq Hpre'.
      * destruct pre' as [|b pre']; simpl in Heq.
        -- injection Heq as -> _. reflexivity.
        -- injection Heq as <- _. rewrite (Hpre' ext (or_introl eq_refl)) in Hext. discriminate.
      * destruct pre' as [|b pre']; simpl in Heq.
        -- injection Heq as <- _. rewrite (Hpre a (or_introl eq_refl)) in Hp. discriminate.
        -- injection Heq as <- Heq. apply (IH (fun e He => Hpre e (or_intror He)) pre' Heq).
           intros e He. apply Hpre'. right. exact He.
    + rewrite (Hspec ext) in Hext; [discriminate|].
      rewrite Hexts. apply List.in_or_app. right. left. reflexivity.
  - intros p. destruct (isFile h filePath) eqn:Hexact.
    + intros [= <-]. split; [exact Hexact|left; reflexivity].
    + destruct (firstExt h filePath (extensions opts)) as [q|]; [|discriminate].
      intros [= Hq]. destruct Hspec as (pre & ext & post & Heq & Hqe & Hp & _).
      subst p. split; [exact Hp|]. right. exists ext. split; [|exact Hqe].
      rewrite Heq. apply List.in_or_app. right. left. reflexivity.
  - destruct (isFile h filePath) eqn:Hexact.
    + split; [discriminate|intros [? _]; discriminate].
    + destruct (firstExt h filePath (extensions opts)) as [q|].
      * destruct Hspec as (pre & ext & post & Heq & -> & Hp & _).
        split; [discriminate|]. intros [_ Hall].
        rewrite Hall in Hp; [discriminate|].
        rewrite Heq. apply List.in_or_app. right. left. reflexivity.
      * split; [intros _; split; [reflexivity|exact Hspec]|reflexivity].
Qed.

Lemma tryResolveFile_isFile (filePath p : string) :
  tryResolveFile h opts filePath = Some p -> isFile h p = true.
Proof.
  unfold tryResolveFile. destruct (isFile h filePath) eqn:E; [intros [= <-]; exact E|].
  pose proof (firstExt_spec filePath (extensions opts)) as Hspec.
  destruct (firstExt h filePath (extensions opts)) as [q|]; [|discriminate].
  intros [= Hq]. destruct Hspec as (_ & _ & _ & _ & _ & Hp & _). subst p. exact Hp.
Qed.

Lemma tryResolveDirectory_isFile (dirPath p : string) (pc pc' : gmap string json) :
  tryResolveDirectory h opts dirPath pc = (Ok (Some p), pc') -> isFile h p = true.
Proof.
  unfold tryResolveDirectory. destruct (negb (isDirectory h dirPath)); [discriminate|].
  unfold bind, ret, lift.
  destruct (existsSync h (Path.join [dirPath; "package.json"])).
  - destruct (readPackageJson h _ pc) as [[pkg|e] pc1]; [|discriminate].
    destruct (getMainFromPackage opts pkg) as [main|e]; [|discriminate].
    destruct (truthyU main).
    + destruct (ModuleResolver.asPathArg (default JNull main)) as [m|e]; [|discriminate].
      destruct (truthyOpt (tryResolveFile h opts (Path.resolve (cwd h) [dirPath; m]))) eqn:Et.
      * intros [= H _]. exact (tryResolveFile_isFile _ _ H).
      * intros [= H _]. exact (tryResolveFile_isFile _ _ H).
    + cbn [truthyOpt]. intros [= H _]. exact (tryResolveFile_isFile _ _ H).
  - cbn [truthyOpt]. intros [= H _]. exact (tryResolveFile_isFile _ _ H).
Qed.

Lemma tryTargets_isFile (targets : list string) (capture p : string) :
  tryTargets h opts targets capture = Some p -> isFile h p = true.
Proof.
  induction targets as [|target rest IH]; simpl; [discriminate|].
  destruct (truthyOpt (tryResolveFile h opts _)); [apply tryResolveFile_isFile|exact IH].
Qed.

Lemma resolvePaths_isFile (specifier p : string) :
  resolvePaths h opts specifier = Some p -> isFile h p = true.
Proof.
  unfold resolvePaths. destruct (negb (truthyStr (baseUrl opts))); [discriminate|].
  induction (paths opts) as [|[pattern targets] rest IH]; simpl; [discriminate|].
  destruct (matchPathsPattern pattern specifier) as [capture|]; [|exact IH].
  destruct (truthyOpt (tryTargets h opts targets capture)); [apply tryTargets_isFile|exact IH].
Qed.

(** X3.  When a specifier that is not external, that no alias rewrites and
    that starts with a dot or a slash is resolved, the answer is a file
    that exists, it is not external and it carries no package name. *)
Theorem relative_import_resolves_to_a_file
    (specifier basedir : string) (depth : nat) (res : ResolveResult)
    (pc pc' : gmap string json) :
  isExternal opts specifier = false ->
  resolveAlias opts specifier = specifier ->
  Str.startsWith specifier "." || Str.startsWith specifier "/" = true ->
  resolveInternal h opts depth specifier basedir pc = (Ok res, pc') ->
  isFile h (path res) = true /\ external res = false /\ packageName res = None.
Proof.
  intros Hext Halias Hstart. destruct depth as [|depth]; [discriminate|].
  cbn [resolveInternal]. rewrite Hext, Halias, String.eqb_refl. cbn [negb].
  destruct (resolvePaths h opts specifier) as [q|] eqn:Hpaths; cbn [truthyOpt].
  - destruct (truthyStr q).
    + intros [= <- _]. split; [|split; reflexivity].
      exact (resolvePaths_isFile _ _ Hpaths).
    + rewrite Hstart. unfold bind.
      destruct (resolveRelative h opts specifier basedir pc) as [[[p|]|e] pc1] eqn:Hrel;
        cbn [truthyOpt]; try discriminate.
      destruct (truthyStr p); [|discriminate].
      intros [= <- _]. split; [|split; reflexivity].
      revert Hrel. unfold resolveRelative.
      destruct (truthyOpt (tryResolveFile h opts _)) eqn:Et.
      * intros [= H _]. exact (tryResolveFile_isFile _ _ H).
      * apply tryResolveDirectory_isFile.
  - rewrite Hstart. unfold bind.
    destruct (resolveRelative h opts specifier basedir pc) as [[[p|]|e] pc1] eqn:Hrel;
      cbn [truthyOpt]; try discriminate.
    destruct (truthyStr p); [|discriminate].
    intros [= <- _]. split; [|split; reflexivity].
    revert Hrel. unfold resolveRelative.
    destruct (truthyOpt (tryResolveFile h opts _)) eqn:Et.
    + intros [= H _]. exact (tryResolveFile_isFile _ _ H).
    + apply tryResolveDirectory_isFile.
Qed.

End ResolverFiles.

Section ResolverExamples.

Import ModuleResolver Fixtures.


(** The theorem at work, on two calls that share the key [/p:./a:b]:
    the bare specifier [b], imported from the directory [/p:./a], is
    answered with the file that [./a:b] resolved to from [/p]. *)
Lemma resolve_success_stays_cached_witness :
  let r := new (resolverOptions true) in
  let first := resolve colonHost r "./a:b" (Some "/p/main.js") in
  fst first = Ok (plainResult "/p/a:b.js" false)
  /\ resolve missingHost (resolveAll [] (snd first)) "b" (Some "/p:./a/x.js")
     = (Ok (plainResult "/p/a:b.js" false), resolveAll [] (snd first)).
Proof.
  intros r first. split; [vm_compute; reflexivity|].
  apply (resolve_success_stays_cached colonHost r (snd first) "./a:b" (Some "/p/main.js")
           (plainResult "/p/a:b.js" false) [] missingHost "b" (Some "/p:./a/x.js")).
  - apply pair_with_snd. vm_compute. reflexivity.
  - vm_compute. reflexivity.
Defined.

Lemma tryResolveFile_takes_first_file_witness :
  tryResolveFile createdHost (options (new (resolverOptions true))) "/p/missing"
  = Some ("/p/missing" ++ ".js").
Proof.
  apply (proj1 (proj2 (tryResolveFile_takes_first_file createdHost
                         (options (new (resolverOptions true))) "/p/missing"))
           [".ts"; ".tsx"] ".js" [".jsx"; ".mjs"; ".mts"; ".cjs"; ".cts"; ".json"]).
  - reflexivity.
  - reflexivity.
  - intros e [<-|[<-|[]]]; reflexivity.
  - reflexivity.
Defined.

Lemma relative_import_resolves_to_a_file_witness :
  isFile createdHost "/p/missing.js" = true
  /\ ModuleResolver.external (plainResult "/p/missing.js" false) = false
  /\ packageName (plainResult "/p/missing.js" false) = None.
Proof.
  apply (relative_import_resolves_to_a_file createdHost (options (new (resolverOptions true)))
           "./missing" "/p" 3 (plainResult "/p/missing.js" false) ∅ ∅).
  - reflexivity.
  - reflexivity.
  - reflexivity.
  - vm_compute. reflexivity.
Defined.

End ResolverExamples.

Section AliasCycles.

Import ModuleResolver.

Variables (h : Host) (opts : Options).

Definition stackOverflow : exn := RangeError "Maximum call stack size exceeded".

(** X4.  Aliases that rewrite a specifier again and again (a set of
    specifiers, none external, each rewritten into another one of the
    set) make [resolveInternal] call itself until the stack is used
    up: it throws the range error of the engine whatever the stack
    limit, and [resolve] records the failure in the cache. *)
Theorem alias_cycle_exhausts_the_stack (rewritten : string -> Prop) :
  (forall s : string,
      rewritten s ->
      isExternal opts s = false /\ resolveAlias opts s <> s /\ rewritten (resolveAlias opts s)) ->
  (forall (depth : nat) (s basedir : string) (pc : gmap string json),
      rewritten s ->
      resolveInternal h opts depth s basedir pc = (Throw stackOverflow, pc))
  /\ (forall (r : Resolver) (s : string) (fromFile : option string),
        options r = opts -> rewritten s ->
        cache r !! cacheKey (basedirOf r fromFile) s = None ->
        resolve h r s fromFile
        = (Throw stackOverflow,
           {| options := options r;
              cache := <[cacheKey (basedirOf r fromFile) s := None]> (cache r);
              packageCache := packageCache r |})).
Proof.
  intros Hstep.
  assert (forall (depth : nat) (s basedir : string) (pc : gmap string json),
             rewritten s ->
             resolveInternal h opts depth s basedir pc = (Throw stackOverflow, pc)) as Hloop.
  { induction depth as [|depth IH]; intros s basedir pc Hs; [reflexivity|].
    cbn [resolveInternal]. destruct (Hstep s Hs) as (Hext & Hne & Hnext).
    rewrite Hext. apply String.eqb_neq in Hne. rewrite Hne. cbn [negb].
    apply IH. exact Hnext. }
  split; [exact Hloop|].
  intros r s fromFile Hopts Hs Hmiss. unfold resolve. rewrite Hmiss, Hopts.
  rewrite (Hloop _ _ _ _ Hs). reflexivity.
Qed.

End AliasCycles.

Section BrowserMaps.

Import ModuleResolver.

Variables (h : Host) (opts : Options).

Lemma walk_first_round_throws (specifier basedir name subpath : string)
    (pc pc' : gmap string json) (e : exn) (n : nat) :
  String.eqb basedir (Path.dirname basedir) = false ->
  lookIn h opts basedir name subpath pc = (Throw e, pc') ->
  walk h opts (S n) specifier basedir basedir name subpath pc = (Throw e, pc').
Proof.
  intros Hroot Hlook. simpl. rewrite Hroot. unfold bind. rewrite Hlook. reflexivity.
Qed.

Lemma getField_own (fields : list (string * json)) (k : string) :
  named k objectPrototype = false -> getField (JObj fields) k = Ok (assoc k fields).
Proof.
  intros Hown. cbn [getField inheritedNames]. rewrite Hown.
  destruct (assoc k fields); reflexivity.
Qed.

(** X5.  For a package whose [package.json] has an object in [browser]
    and no truthy [exports], [module] or [main], the loop over the
    default main fields takes the [browser] object for the entry, and
    resolving the package root throws a type error from [path.join]. *)
Theorem browser_map_without_main_throws
    (specifier basedir : string) (pc pc' : gmap string json)
    (fields aliases : list (string * json)) :
  let name := packageNameOf specifier in
  let nm := Path.join [basedir; "node_modules"; name] in
  subpathOf specifier = EmptyString ->
  String.eqb basedir (Path.dirname basedir) = false ->
  existsSync h nm = true ->
  existsSync h (Path.join [nm; "package.json"]) = true ->
  readPackageJson h (Path.join [nm; "package.json"]) pc = (Ok (JObj fields), pc') ->
  mainFields opts = DEFAULT_MAIN_FIELDS ->
  truthyU (assoc "exports" fields) = false ->
  truthyU (assoc "module" fields) = false ->
  truthyU (assoc "main" fields) = false ->
  assoc "browser" fields = Some (JObj aliases) ->
  exists message : string,
    resolveNodeModule h opts specifier basedir pc = (Throw (TypeError message), pc').
Proof.
  intros name nm Hsub Hroot Hnm Hpkg Hread Hfields Hexports Hmodule Hmain Hbrowser.
  exists "The 'path' argument must be of type string".
  unfold resolveNodeModule, walkRounds. rewrite Nat.add_comm. cbn [Nat.add].
  fold name. rewrite Hsub.
  apply walk_first_round_throws; [exact Hroot|].
  rewrite (lookIn_package h opts _ _ _ _ _ _ Hnm Hpkg Hread).
  unfold lookInPackage, bind, lift, ret. cbn [getProp truthyStr Str.isEmpty negb andb].
  rewrite Hexports. cbn [andb truthyOpt].
  unfold targetPathOf. cbn [truthyStr Str.isEmpty negb].
  unfold getMainFromPackage. cbn [getProp]. rewrite Hbrowser, Hfields.
  assert (firstMainField (JObj fields) DEFAULT_MAIN_FIELDS = Ok (Some (JObj aliases))) as Hf.
  { unfold DEFAULT_MAIN_FIELDS. cbn [firstMainField].
    rewrite !getField_own by reflexivity.
    rewrite Hmodule, Hmain, Hbrowser. reflexivity. }
  destruct (browser opts); rewrite Hf; reflexivity.
Qed.

End BrowserMaps.

Section Specifiers.

Import ModuleResolver.

Lemma split_cons (c : ascii) (s : string) :
  exists p rest, Str.split c s = p :: rest.
Proof.
  destruct s as [|a s]; [exists EmptyString, []; reflexivity|]. cbn [Str.split].
  destruct (Ascii.eqb a c); [eexists _, _; reflexivity|].
  destruct (Str.split c s); eexists _, _; reflexivity.
Qed.

Lemma split_join (c : ascii) (s : string) :
  Str.join (String c EmptyString) (Str.split c s) = s.
Proof.
  induction s as [|a s IH]; [reflexivity|]. cbn [Str.split].
  destruct (split_cons c s) as (p & rest & Es). rewrite Es in *.
  destruct (Ascii.eqb a c) eqn:E.
  - apply Ascii.eqb_eq in E. subst a.
    change (Str.join (String c EmptyString) (EmptyString :: p :: rest))
      with (String c (Str.join (String c EmptyString) (p :: rest))).
    rewrite IH. reflexivity.
  - destruct rest as [|q rest].
    + cbn [Str.join] in *. rewrite IH. reflexivity.
    + change (Str.join (String c EmptyString) (String a p :: q :: rest))
        with (String a (Str.join (String c EmptyString) (p :: q :: rest))).
      rewrite IH. reflexivity.
Qed.

Lemma split_plain (c : ascii) (s : string) :
  Str.includesChar c s = false -> Str.split c s = [s].
Proof.
  induction s as [|a s IH]; [reflexivity|]. cbn [Str.includesChar Str.split].
  intros H. apply orb_false_iff in H as [Ha Hs]. rewrite Ha, (IH Hs). reflexivity.
Qed.

Lemma split_first (c : ascii) (s : string) :
  Str.includesChar c s = true ->
  exists p q rest,
    Str.split c s = p :: q :: rest /\ Str.includesChar c p = false.
Proof.
  induction s as [|a s IH]; [discriminate|]. cbn [Str.includesChar Str.split].
  destruct (Ascii.eqb a c) eqn:Ea.
  - intros _. destruct (split_cons c s) as (q & rest & Es).
    exists EmptyString, q, rest. rewrite Es. split; reflexivity.
  - cbn [orb]. intros Hs. destruct (IH Hs) as (p & q & rest & Es & Hp).
    exists (String a p), q, rest. rewrite Es. split; [reflexivity|].
    cbn [Str.includesChar]. rewrite Ea, Hp. reflexivity.
Qed.

Lemma append_assoc (a b c : string) : (a ++ b) ++ c = a ++ b ++ c.
Proof.
  induction a as [|x a IH]; [reflexivity|].
  change (String x ((a ++ b) ++ c) = String x (a ++ b ++ c)). f_equal. exact IH.
Qed.

Lemma split_app (c : ascii) (p rest : string) :
  Str.includesChar c p = false ->
  Str.split c (p ++ String c rest) = p :: Str.split c rest.
Proof.
  induction p as [|a p IH].
  - intros _. change (EmptyString ++ String c rest) with (String c rest).
    cbn [Str.split]. rewrite Ascii.eqb_refl. reflexivity.
  - cbn [Str.includesChar]. intros H. apply orb_false_iff in H as [Ha Hp].
    change (String a p ++ String c rest) with (String a (p ++ String c rest)).
    cbn [Str.split]. rewrite Ha, (IH Hp). reflexivity.
Qed.

(** X6.  The package name and the subpath that [resolveNodeModule] reads
    off a specifier.  Without a slash the specifier is the name.  With
    one, the name is the text before the first slash and the subpath is
    all the text behind it; for a scoped specifier the name is the text
    before the second slash, scope and package, and the subpath is all
    the text behind that slash.  Name, slash and subpath give the
    specifier back.  A scope alone, as in [@scope], gives the name
    [@scope/undefined]. *)
Theorem specifier_splits_into_name_and_subpath (specifier : string) :
  (Str.startsWith specifier "@" = false ->
   (Str.includesChar Str.slash specifier = false ->
    packageNameOf specifier = specifier /\ subpathOf specifier = EmptyString)
   /\ (Str.includesChar Str.slash specifier = true ->
       specifier = packageNameOf specifier ++ "/" ++ subpathOf specifier
       /\ Str.includesChar Str.slash (packageNameOf specifier) = false)
   /\ (forall name sub : string,
         specifier = name ++ "/" ++ sub ->
         Str.includesChar Str.slash name = false ->
         packageNameOf specifier = name /\ subpathOf specifier = sub))
  /\ (Str.startsWith specifier "@" = true ->
      (Str.includesChar Str.slash specifier = false ->
       packageNameOf specifier = specifier ++ "/undefined"
       /\ subpathOf specifier = EmptyString)
      /\ (forall scope rest : string,
            specifier = scope ++ "/" ++ rest ->
            Str.includesChar Str.slash scope = false ->
            (Str.includesChar Str.slash rest = false ->
             packageNameOf specifier = specifier /\ subpathOf specifier = EmptyString)
            /\ (Str.includesChar Str.slash rest = true ->
                specifier = packageNameOf specifier ++ "/" ++ subpathOf specifier)
            /\ (forall pkg sub : string,
                  rest = pkg ++ "/" ++ sub ->
                  Str.includesChar Str.slash pkg = false ->
                  packageNameOf specifier = scope ++ "/" ++ pkg
                  /\ subpathOf specifier = sub))).
Proof.
  split; intros Hscope; unfold packageNameOf, subpathOf; rewrite Hscope; split.
  - intros Hplain. rewrite (split_plain _ _ Hplain). split; reflexivity.
  - split.
    + intros Hslash. destruct (split_first _ _ Hslash) as (p & q & rest & Es & Hp).
      pose proof (split_join Str.slash specifier) as Hj. rewrite Es in *.
      cbn [List.nth List.skipn]. split; [|exact Hp].
      symmetry. exact Hj.
    + intros name sub -> Hname.
      change (name ++ "/" ++ sub) with (name ++ String Str.slash sub).
      rewrite (split_app _ _ _ Hname). cbn [List.nth List.skipn].
      split; [reflexivity|]. exact (split_join Str.slash sub).
  - intros Hplain. rewrite (split_plain _ _ Hplain). split; reflexivity.
  - intros scope rest -> Hs.
    change (scope ++ "/" ++ rest) with (scope ++ String Str.slash rest).
    rewrite (split_app _ _ _ Hs). split; [|split].
    + intros Hr. rewrite (split_plain _ _ Hr). split; reflexivity.
    + intros Hr. destruct (split_first _ _ Hr) as (p & q & more & Es & Hp).
      pose proof (split_join Str.slash rest) as Hj. rewrite Es in *.
      cbn [List.nth List.skipn]. rewrite <- Hj at 1.
      change (Str.join (String Str.slash EmptyString) (p :: q :: more))
        with (p ++ "/" ++ Str.join "/" (q :: more)).
      rewrite !append_assoc. reflexivity.
    + intros pkg sub -> Hpkg.
      change (pkg ++ "/" ++ sub) with (pkg ++ String Str.slash sub).
      rewrite (split_app _ _ _ Hpkg). cbn [List.nth List.skipn].
      split; [reflexivity|]. exact (split_join Str.slash sub).
Qed.

End Specifiers.

Section ResolverErrorExamples.

Import ModuleResolver Fixtures.


Lemma alias_cycle_exhausts_the_stack_witness :
  resolveInternal missingHost (options (new cycleOptions)) 64 "a" "/p" ∅
  = (Throw stackOverflow, ∅).
Proof.
  refine (proj1 (alias_cycle_exhausts_the_stack missingHost (options (new cycleOptions))
                   (fun s => s = "a" \/ s = "b") _) 64 "a" "/p" ∅ _).
  - intros s Hs. destruct Hs as [Hs|Hs]; subst s.
    + split; [reflexivity|]. split; [discriminate|right; reflexivity].
    + split; [reflexivity|]. split; [discriminate|left; reflexivity].
  - left. reflexivity.
Defined.


Lemma browser_map_without_main_throws_witness :
  exists message : string,
    resolveNodeModule mapHost (options (new (resolverOptions true))) "shim" "/p" ∅
    = (Throw (TypeError message), <["/p/node_modules/shim/package.json" := mapPkg]> ∅).
Proof.
  apply (browser_map_without_main_throws mapHost (options (new (resolverOptions true)))
           "shim" "/p" ∅ (<["/p/node_modules/shim/package.json" := mapPkg]> ∅)
           [("browser", JObj [("fs", JBool false)])] [("fs", JBool false)]);
    vm_compute; reflexivity.
Defined.

Lemma specifier_splits_into_name_and_subpath_witness :
  (packageNameOf "lodash/fp/get" = "lodash" /\ subpathOf "lodash/fp/get" = "fp/get")
  /\ (packageNameOf "@scope" = "@scope" ++ "/undefined" /\ subpathOf "@scope" = EmptyString)
  /\ (packageNameOf "@scope/pkg/sub/x" = "@scope" ++ "/" ++ "pkg"
      /\ subpathOf "@scope/pkg/sub/x" = "sub/x").
Proof.
  split; [|split].
  - exact (proj2 (proj2 (proj1 (specifier_splits_into_name_and_subpath "lodash/fp/get")
                           eq_refl))
             "lodash" "fp/get" eq_refl eq_refl).
  - apply (proj1 (proj2 (specifier_splits_into_name_and_subpath "@scope") eq_refl)).
    reflexivity.
  - exact (proj2 (proj2 (proj2 (proj2 (specifier_splits_into_name_and_subpath
                                         "@scope/pkg/sub/x")
                                  eq_refl)
                           "@scope" "pkg/sub/x" eq_refl eq_refl))
             "pkg" "sub/x" eq_refl eq_refl).
Defined.

End ResolverErrorExamples.

(** ** Path mapping *)

Section Strings.

Lemma length_append (a b : string) :
  String.length (a ++ b) = String.length a + String.length b.
Proof.
  induction a as [|x a IH]; [reflexivity|].
  change (S (String.length (a ++ b)) = S (String.length a + String.length b)).
  f_equal. exact IH.
Qed.

Lemma drop_append (a b : string) : Str.drop (String.length a) (a ++ b) = b.
Proof.
  induction a as [|x a IH]; [destruct b; reflexivity|]. exact IH.
Qed.

Lemma take_append (a b : string) : Str.take (String.length a) (a ++ b) = a.
Proof.
  induction a as [|x a IH]; [destruct b; reflexivity|].
  change (String x (Str.take (String.length a) (a ++ b)) = String x a). f_equal. exact IH.
Qed.

Lemma endsWith_append (a b : string) : Str.endsWith (a ++ b) b = true.
Proof.
  unfold Str.endsWith. rewrite length_append.
  replace (String.length a + String.length b - String.length b) with (String.length a)
    by lia.
  rewrite drop_append, String.eqb_refl, andb_true_r. apply Nat.leb_le. lia.
Qed.

Lemma cutAt_append (c : ascii) (pre post : string) :
  Str.includesChar c pre = false -> Str.cutAt c (pre ++ String c post) = Some (pre, post).
Proof.
  induction pre as [|a pre IH].
  - intros _. change (EmptyString ++ String c post) with (String c post).
    cbn [Str.cutAt]. rewrite Ascii.eqb_refl. reflexivity.
  - cbn [Str.includesChar]. intros H. apply orb_false_iff in H as [Ha Hp].
    change (String a pre ++ String c post) with (String a (pre ++ String c post)).
    cbn [Str.cutAt]. rewrite Ha, (IH Hp). reflexivity.
Qed.

End Strings.

Section PathMapping.

Import ModuleResolver.

Variable h : Host.
Variable opts : Options.

(** The capture of a pattern with a wildcard is what stands in the
    specifier between the two parts of the pattern. *)
Lemma matchPathsPattern_capture (pre post mid : string) :
  Str.includesChar Str.star pre = false ->
  noLineTerminator mid = true ->
  matchPathsPattern (pre ++ "*" ++ post) (pre ++ mid ++ post) = Some mid.
Proof.
  intros Hpre Hmid. unfold matchPathsPattern.
  change (pre ++ "*" ++ post) with (pre ++ String Str.star post).
  rewrite (cutAt_append _ _ _ Hpre).
  rewrite startsWith_append, <- append_assoc, endsWith_append, append_assoc.
  rewrite !length_append.
  assert ((String.length pre + String.length post
           <=? String.length pre + (String.length mid + String.length post))%nat = true) as ->
    by (apply Nat.leb_le; lia).
  cbn [andb].
  replace (String.length pre + (String.length mid + String.length post)
           - String.length pre - String.length post) with (String.length mid) by lia.
  rewrite drop_append, take_append, Hmid. reflexivity.
Qed.

(** X7.  With [baseUrl] set, a specifier that fits the first pattern of
    [paths], a prefix, a wildcard and a suffix, is looked up with the
    text that the wildcard stands for put in place of the wildcard of
    the first target, under [baseUrl]; when that gives a file,
    [resolvePaths] answers it.  (The text must hold no line terminator,
    which the wildcard does not take, and no dollar sign, which
    [String.replace] would expand.) *)
Theorem paths_wildcard_is_substituted
    (pre post tpre tpost mid found : string) (others : list string)
    (rest : list (string * list string)) :
  truthyStr (baseUrl opts) = true ->
  paths opts = (pre ++ "*" ++ post, (tpre ++ "*" ++ tpost) :: others) :: rest ->
  Str.includesChar Str.star pre = false ->
  Str.includesChar Str.star tpre = false ->
  noLineTerminator mid = true ->
  Str.includesChar Str.dollar mid = false ->
  tryResolveFile h opts (Path.resolve (cwd h) [baseUrl opts; tpre ++ mid ++ tpost])
  = Some found ->
  found <> EmptyString ->
  resolvePaths h opts (pre ++ mid ++ post) = Some found.
Proof.
  intros Hbase Hpaths Hpre Htpre Hmid Hdollar Hfound Hne.
  unfold resolvePaths. rewrite Hbase, Hpaths. cbn [negb resolvePathsIn].
  rewrite (matchPathsPattern_capture _ _ _ Hpre Hmid). cbn [tryTargets].
  assert (Str.replaceFirstChar Str.star mid (tpre ++ "*" ++ tpost) = tpre ++ mid ++ tpost)
    as ->.
  { unfold Str.replaceFirstChar.
    change (tpre ++ "*" ++ tpost) with (tpre ++ String Str.star tpost).
    rewrite (cutAt_append _ _ _ Htpre), (expand_plain _ _ _ _ Hdollar). reflexivity. }
  rewrite Hfound.
  assert (truthyOpt (Some found) = true) as Ht
    by (destruct found; [contradiction|reflexivity]).
  rewrite Ht. rewrite Ht. reflexivity.
Qed.

End PathMapping.

Section PathMappingExamples.

Import ModuleResolver Fixtures.


Lemma paths_wildcard_is_substituted_witness :
  resolvePaths createdHost (options (new mappedOptions)) ("@m/" ++ "missing" ++ EmptyString)
  = Some "/p/missing.js".
Proof.
  apply (paths_wildcard_is_substituted createdHost (options (new mappedOptions))
           "@m/" EmptyString "./" EmptyString "missing" "/p/missing.js" [] []).
  - reflexivity.
  - reflexivity.
  - reflexivity.
  - reflexivity.
  - reflexivity.
  - reflexivity.
  - vm_compute. reflexivity.
  - discriminate.
Defined.

End PathMappingExamples.

(** ** Modules of the platform *)

Section Builtins.

Import ModuleResolver.

Lemma builtins_plain :
  List.forallb (fun name => negb (Str.includesChar Str.slash name)) builtins = true.
Proof. reflexivity. Qed.

(** A module of the platform and everything below it is external,
    whatever the options say. *)
Lemma isExternal_builtin (opts : Options) (name rest : string) :
  In name builtins ->
  isExternal opts name = true /\ isExternal opts (name ++ "/" ++ rest) = true.
Proof.
  intros Hin.
  assert (Str.includesChar Str.slash name = false) as Hplain.
  { pose proof (proj1 (List.forallb_forall _ _) builtins_plain name Hin) as H.
    apply negb_true_iff in H. exact H. }
  assert (List.existsb (String.eqb name) builtins = true) as Hb.
  { apply List.existsb_exists. exists name. split; [exact Hin|apply String.eqb_refl]. }
  unfold isExternal. split.
  - destruct (Str.startsWith name "node:"); [reflexivity|].
    rewrite (split_plain _ _ Hplain). cbn [List.hd]. rewrite Hb. reflexivity.
  - destruct (Str.startsWith _ "node:"); [reflexivity|].
    change (name ++ "/" ++ rest) with (name ++ String Str.slash rest).
    rewrite (split_app _ _ _ Hplain). cbn [List.hd]. rewrite Hb. reflexivity.
Qed.

Variable h : Host.

(** X8.  The first import of a module of the platform ([fs],
    [fs/promises], ...) from a directory leaves the bundle as it is:
    no file is read, no module and no dependency is stored, the
    recursive call is not made, and the resolver notes the specifier
    in its cache. *)
Theorem builtin_import_stays_outside
    (recur : string -> bool -> bool -> Bundler.t -> option (outcome unit * Bundler.t))
    (modulePath name rest : string) (imp : KonaParser.ImportInfo) (b : Bundler.t) :
  In name builtins ->
  KonaParser.source imp = name \/ KonaParser.source imp = name ++ "/" ++ rest ->
  KonaParser.isTypeOnly imp = false ->
  (0 < stackLimit h)%nat ->
  let r := Bundler.resolver b in
  let key := cacheKey (basedirOf r (Some modulePath)) (KonaParser.source imp) in
  cache r !! key = None ->
  Bundler.processImport h recur modulePath imp b
  = Some (Bundler.withResolver
            {| options := options r;
               cache := <[key := Some (KonaParser.source imp)]> (cache r);
               packageCache := packageCache r |} b).
Proof.
  intros Hin Hsrc Htype Hstack r key Hmiss.
  assert (isExternal (options r) (KonaParser.source imp) = true) as Hext.
  { destruct (isExternal_builtin (options r) name rest Hin) as [H1 H2].
    destruct Hsrc as [-> | ->]; assumption. }
  unfold Bundler.processImport. rewrite Htype.
  unfold resolve. fold r. fold key. rewrite Hmiss.
  destruct (stackLimit h) as [|d]; [lia|].
  cbn [resolveInternal]. rewrite Hext. cbn [ret plainResult path external]. reflexivity.
Qed.

End Builtins.

Section BuiltinsExamples.

Import ModuleResolver Fixtures.


Lemma builtin_import_stays_outside_witness :
  Bundler.processImport pureHost (fun _ _ _ _ => None) "/p/main.js" fsImport
    (Bundler.new pureHost pureOptions)
  = Some (Bundler.withResolver
            {| options := options (Bundler.resolver (Bundler.new pureHost pureOptions));
               cache := <["/p:fs/promises" := Some "fs/promises"]> ∅;
               packageCache := ∅ |}
            (Bundler.new pureHost pureOptions)).
Proof.
  apply (builtin_import_stays_outside pureHost (fun _ _ _ _ => None) "/p/main.js"
           "fs" "promises" fsImport (Bundler.new pureHost pureOptions)).
  - left. reflexivity.
  - right. reflexivity.
  - reflexivity.
  - vm_compute. lia.
  - reflexivity.
Defined.

End BuiltinsExamples.

(** ** What [parse] reads off the tree *)

Section ParseTree.

Import KonaParser.

Lemma Node_nested_ind (P : Node -> Prop) :
  (forall kind children, Forall P children -> P (mkNode kind children)) ->
  forall node, P node.
Proof.
  intros H. fix IH 1. intros [kind children]. apply H.
  induction children as [|child children IHc]; constructor; [apply IH|exact IHc].
Qed.

Definition visitEach (w : Walk) (n : list SyntaxKind * SyntaxKind) : Walk :=
  visitNode (fst n) (snd n) w.

(** The closure [visit] handles the nodes one after the other, in the
    order of [Tree.nodes]. *)
Lemma visit_nodes (node : Node) :
  forall (ancestors : list SyntaxKind) (w : Walk),
    visit ancestors node w = List.fold_left visitEach (Tree.nodes ancestors node) w.
Proof.
  induction node as [kind children IH] using Node_nested_ind. intros ancestors w.
  cbn [visit Tree.nodes List.fold_left]. unfold visitEach at 2. cbn [fst snd].
  generalize (visitNode ancestors kind w). clear w.
  induction IH as [|child children Hchild _ IHc]; intros w; [reflexivity|].
  cbn [List.fold_left List.flat_map]. rewrite List.fold_left_app, Hchild. apply IHc.
Qed.

Lemma visitNode_fields (a : list SyntaxKind) (k : SyntaxKind) (w : Walk) :
  w_imports (visitNode a k w) = (w_imports w ++ Tree.importOf k)%list
  /\ w_hasJSX (visitNode a k w) = w_hasJSX w || Tree.isJsx k
  /\ w_hasDynamicImport (visitNode a k w) = w_hasDynamicImport w || Tree.isImportCall k
  /\ w_hasTopLevelAwait (visitNode a k w)
     = w_hasTopLevelAwait w || (Tree.isAwait k && reachesSourceFile a).
Proof.
  destruct w as [imps jsx dyn tla].
  destruct k as [|[spec|] typeOnly|[|] [arg|]| | | | | | | | | | | | | |name];
    cbn [visitNode w_imports w_hasJSX w_hasDynamicImport w_hasTopLevelAwait
         Tree.importOf Tree.isJsx Tree.isImportCall Tree.isAwait andb];
    rewrite ?List.app_nil_r, ?orb_false_r, ?orb_true_r;
    try (repeat split; reflexivity).
  destruct (reachesSourceFile a); cbn [w_imports w_hasJSX w_hasDynamicImport w_hasTopLevelAwait];
    rewrite ?List.app_nil_r, ?orb_false_r, ?orb_true_r; repeat split; reflexivity.
Qed.

Lemma fold_visitEach (l : list (list SyntaxKind * SyntaxKind)) :
  forall w : Walk,
    let w' := List.fold_left visitEach l w in
    w_imports w' = (w_imports w ++ List.flat_map (fun n => Tree.importOf (snd n)) l)%list
    /\ w_hasJSX w' = w_hasJSX w || List.existsb (fun n => Tree.isJsx (snd n)) l
    /\ w_hasDynamicImport w'
       = w_hasDynamicImport w || List.existsb (fun n => Tree.isImportCall (snd n)) l
    /\ w_hasTopLevelAwait w'
       = w_hasTopLevelAwait w
         || List.existsb (fun n => Tree.isAwait (snd n) && reachesSourceFile (fst n)) l.
Proof.
  induction l as [|n l IH]; intros w; cbn [List.fold_left List.flat_map List.existsb].
  - rewrite List.app_nil_r, !orb_false_r. repeat split; reflexivity.
  - destruct (IH (visitEach w n)) as (H1 & H2 & H3 & H4).
    destruct (visitNode_fields (fst n) (snd n) w) as (G1 & G2 & G3 & G4).
    unfold visitEach in *. cbv zeta in *.
    rewrite H1, H2, H3, H4, G1, G2, G3, G4, <- List.app_assoc, !orb_assoc.
    repeat split; reflexivity.
Qed.

Variable h : Host.

(** X9.  The imports of a parse result are those of the import
    declarations and of the [import()] calls with a literal argument,
    in the order in which a preorder walk of the tree meets them; a
    dynamic import is never type-only, and sets [hasDynamicImport]. *)
Theorem parse_lists_imports_in_source_order (o : ParserOptions) (src : string) :
  let tree := createSourceFile h (filename o) src (typescript o || jsx o) in
  imports (parse h o src)
  = List.flat_map (fun n => Tree.importOf (snd n)) (Tree.nodes [] tree)
  /\ (forall imp : ImportInfo,
        In imp (imports (parse h o src)) -> isDynamic imp = true ->
        isTypeOnly imp = false /\ hasDynamicImport (parse h o src) = true).
Proof.
  intros tree. unfold parse. fold tree. cbn [imports hasDynamicImport].
  rewrite visit_nodes.
  destruct (fold_visitEach (Tree.nodes [] tree)
              {| w_imports := []; w_hasJSX := false; w_hasDynamicImport := false;
                 w_hasTopLevelAwait := false |}) as (H1 & _ & H3 & _).
  cbv zeta in *. cbn [w_imports w_hasDynamicImport] in *.
  rewrite H1, H3. cbn [List.app orb]. split; [reflexivity|].
  intros imp Hin Hdyn. apply List.in_flat_map in Hin as (n & Hn & Himp).
  assert (Tree.isImportCall (snd n) = true /\ isTypeOnly imp = false) as [Hcall Htype].
  { destruct (snd n) as [|[spec|] typeOnly|[|] [arg|]| | | | | | | | | | | | | |name];
      cbn [Tree.importOf] in Himp; try contradiction;
      destruct Himp as [<-|[]]; cbn [isDynamic] in Hdyn; try discriminate.
    split; reflexivity. }
  split; [exact Htype|]. apply List.existsb_exists. exists n. split; assumption.
Qed.

(** X10.  The flags of a parse result: [hasJSX] says that the tree has a
    JSX node, [hasDynamicImport] that it has an [import()] call,
    [hasTopLevelAwait] that it has an await expression from which the
    walk up the parents reaches the source file, and [hasTypeScript]
    is the option. *)
Theorem parse_flags_say_what_the_tree_holds (o : ParserOptions) (src : string) :
  let tree := createSourceFile h (filename o) src (typescript o || jsx o) in
  hasJSX (parse h o src) = List.existsb (fun n => Tree.isJsx (snd n)) (Tree.nodes [] tree)
  /\ hasDynamicImport (parse h o src)
     = List.existsb (fun n => Tree.isImportCall (snd n)) (Tree.nodes [] tree)
  /\ hasTopLevelAwait (parse h o src)
     = List.existsb (fun n => Tree.isAwait (snd n) && reachesSourceFile (fst n))
         (Tree.nodes [] tree)
  /\ hasTypeScript (parse h o src) = typescript o.
Proof.
  intros tree. unfold parse. fold tree.
  cbn [hasJSX hasDynamicImport hasTopLevelAwait hasTypeScript].
  rewrite visit_nodes.
  destruct (fold_visitEach (Tree.nodes [] tree)
              {| w_imports := []; w_hasJSX := false; w_hasDynamicImport := false;
                 w_hasTopLevelAwait := false |}) as (_ & H2 & H3 & H4).
  cbv zeta in *. cbn [w_hasJSX w_hasDynamicImport w_hasTopLevelAwait] in *.
  rewrite H2, H3, H4. repeat split; reflexivity.
Qed.

End ParseTree.

(** ** The textual check for top-level await *)

Section TextualAwait.

Import EsmRuntime.

Lemma append_nil_r (s : string) : s ++ EmptyString = s.
Proof.
  induction s as [|a s IH]; [reflexivity|].
  change (String a (s ++ EmptyString) = String a s). f_equal. exact IH.
Qed.

Lemma rev_app_twice (s k k' : string) :
  String.rev_app (String.rev_app s k) k' = String.rev_app k (s ++ k').
Proof.
  revert k k'. induction s as [|a s IH]; intros k k'; [reflexivity|].
  cbn [String.rev_app]. rewrite IH. reflexivity.
Qed.

Lemma rev_rev_app (s : string) : String.rev (String.rev_app s EmptyString) = s.
Proof. unfold String.rev. rewrite rev_app_twice. cbn [String.rev_app]. apply append_nil_r. Qed.

(** Outside an async function the loop copies the text, as long as no
    async function begins. *)
Lemma scan_copies (s : string) :
  forall (rest : string) (st : Scan),
    inAsync st = false ->
    (forall i : nat, i < String.length s -> startsAsync (Str.drop i (s ++ rest)) = false) ->
    exists st' : Scan,
      scan st (s ++ rest) = scan st' rest
      /\ inAsync st' = false /\ depth st' = depth st
      /\ kept st' = String.rev_app s (kept st).
Proof.
  induction s as [|a s IH]; intros rest st Hout Hnone.
  - exists st. split; [reflexivity|]. split; [exact Hout|]. split; reflexivity.
  - change (String a s ++ rest) with (String a (s ++ rest)) in *.
    cbn [scan]. pose proof (Hnone 0 ltac:(simpl; lia)) as H0. cbn [Str.drop] in H0.
    set (st1 := scanStep st a (String a (s ++ rest))).
    assert (inAsync st1 = false /\ depth st1 = depth st /\ kept st1 = String a (kept st))
      as (Hi & Hd & Hk).
    { unfold st1, scanStep. rewrite H0, Hout, !andb_false_r. repeat split; reflexivity. }
    destruct (IH rest st1 Hi) as (st' & Hscan & Hi' & Hd' & Hk').
    { intros i Hi0. exact (Hnone (S i) ltac:(simpl; lia)). }
    exists st'. rewrite Hscan, Hi', Hd', Hd, Hk', Hk. repeat split; reflexivity.
Qed.

(** Inside an async function nothing is kept until a closing brace. *)
Lemma scan_drops (s : string) :
  forall st : Scan,
    inAsync st = true -> Str.includesChar "}"%char s = false ->
    kept (scan st s) = kept st /\ inAsync (scan st s) = true.
Proof.
  induction s as [|a s IH]; intros st Hin Hbrace; [split; [reflexivity|exact Hin]|].
  cbn [Str.includesChar] in Hbrace. apply orb_false_iff in Hbrace as [Ha Hs].
  cbn [scan].
  set (st1 := scanStep st a (String a s)).
  assert (inAsync st1 = true /\ kept st1 = kept st) as [Hi Hk].
  { unfold st1, scanStep. rewrite Hin, Ha.
    destruct (startsAsync (String a s)); cbn [andb];
      destruct (Ascii.eqb a "{"%char); split; reflexivity. }
  destruct (IH st1 Hi Hs) as [Hk' Hi']. rewrite Hk', Hk. split; [reflexivity|exact Hi'].
Qed.

(** X11.  On a text in which no async function begins (no position where
    [async], white space and then [function] or a parenthesis start),
    the textual check removes nothing: it answers whether the text
    itself has the word [await] followed by white space, be it in a
    comment or a string. *)
Theorem await_check_without_async (code : string) :
  (forall i : nat, i < String.length code -> startsAsync (Str.drop i code) = false) ->
  stripAsync code = code /\ hasTopLevelAwait code = awaitTest code.
Proof.
  intros Hnone.
  destruct (scan_copies code EmptyString {| depth := 0; inAsync := false; kept := EmptyString |}
              eq_refl) as (st' & Hscan & _ & _ & Hk).
  { intros i Hi. rewrite append_nil_r. exact (Hnone i Hi). }
  rewrite append_nil_r in Hscan. cbn [scan kept] in *.
  assert (stripAsync code = code) as Hstrip.
  { unfold stripAsync. rewrite Hscan, Hk. apply rev_rev_app. }
  split; [exact Hstrip|]. unfold hasTopLevelAwait. rewrite Hstrip. reflexivity.
Qed.

(** X12.  When an async function begins and no closing brace follows, as
    for an arrow function with an expression body, the textual check
    drops the rest of the text: an await behind it is not seen. *)
Theorem await_after_async_arrow_is_missed (before rest : string) :
  (forall i : nat, i < String.length before ->
     startsAsync (Str.drop i (before ++ rest)) = false) ->
  startsAsync rest = true ->
  Str.includesChar "}"%char rest = false ->
  stripAsync (before ++ rest) = before
  /\ hasTopLevelAwait (before ++ rest) = awaitTest before.
Proof.
  intros Hnone Hasync Hbrace.
  destruct (scan_copies before rest {| depth := 0; inAsync := false; kept := EmptyString |}
              eq_refl Hnone) as (st' & Hscan & Hi & Hd & Hk).
  cbn [kept] in Hk.
  assert (kept (scan st' rest) = kept st') as Hkeep.
  { destruct rest as [|a rest]; [discriminate|]. cbn [scan].
    cbn [Str.includesChar] in Hbrace. apply orb_false_iff in Hbrace as [Ha Hs].
    set (st1 := scanStep st' a (String a rest)).
    assert (inAsync st1 = true /\ kept st1 = kept st') as [Hi1 Hk1].
    { unfold st1, scanStep. rewrite Hasync, Ha. cbn [andb].
      destruct (Ascii.eqb a "{"%char); split; reflexivity. }
    destruct (scan_drops rest st1 Hi1 Hs) as [Hk2 _]. rewrite Hk2, Hk1. reflexivity. }
  assert (stripAsync (before ++ rest) = before) as Hstrip.
  { unfold stripAsync. rewrite Hscan, Hkeep, Hk. apply rev_rev_app. }
  split; [exact Hstrip|]. unfold hasTopLevelAwait. rewrite Hstrip. reflexivity.
Qed.

End TextualAwait.

Section TextualAwaitExamples.

Import EsmRuntime.

(** No async function begins at the first [n] positions of [s]. *)
Fixpoint noAsyncWithin (n : nat) (s : string) : bool :=
  match n with
  | O => true
  | S n' =>
      negb (startsAsync s)
      && match s with String _ s' => noAsyncWithin n' s' | EmptyString => true end
  end.

Lemma noAsyncWithin_spec (s : string) (n : nat) :
  noAsyncWithin n s = true ->
  forall i : nat, i < n -> startsAsync (Str.drop i s) = false.
Proof.
  revert s. induction n as [|n IH]; intros s H i Hi; [lia|].
  cbn [noAsyncWithin] in H.
  apply andb_true_iff in H as [H0 Hrest]. destruct i as [|i].
  - cbn [Str.drop]. apply negb_true_iff. exact H0.
  - destruct s as [|a s]; [reflexivity|]. cbn [Str.drop]. apply IH; [exact Hrest|lia].
Defined.

(** The theorem at work: an await in a comment counts. *)
Lemma await_check_without_async_witness :
  stripAsync "// await later" = "// await later"
  /\ hasTopLevelAwait "// await later" = awaitTest "// await later".
Proof.
  apply (await_check_without_async "// await later").
  apply noAsyncWithin_spec. vm_compute. reflexivity.
Defined.

(** The theorem at work: the await after the arrow function is at the
    top level, and is not seen. *)
Lemma await_after_async_arrow_is_missed_witness :
  stripAsync ("const f = " ++ "async (x) => x; await f(1)") = "const f = "
  /\ hasTopLevelAwait ("const f = " ++ "async (x) => x; await f(1)")
     = awaitTest "const f = ".
Proof.
  apply (await_after_async_arrow_is_missed "const f = " "async (x) => x; await f(1)").
  - apply noAsyncWithin_spec. vm_compute. reflexivity.
  - vm_compute. reflexivity.
  - vm_compute. reflexivity.
Defined.

End TextualAwaitExamples.

(** ** Compile-time substitution *)

Lemma rev_app_append (k x : string) :
  String.rev_app k x = String.rev k ++ x.
Proof.
  unfold String.rev. revert x. induction k as [|a k IH]; intros x; [reflexivity|].
  cbn [String.rev_app]. rewrite (IH (String a x)), (IH (String a EmptyString)).
  rewrite append_assoc. reflexivity.
Qed.

Lemma rev_of_rev_app (s before : string) :
  String.rev (String.rev_app s before) = String.rev before ++ s.
Proof.
  unfold String.rev at 1. rewrite rev_app_twice, append_nil_r. apply rev_app_append.
Qed.

Section NonEmptyKey.

Variables (c0 : ascii) (k0 value : string).

Let key : string := String c0 k0.

(** The characters of a match are passed over. *)
Lemma replaceAllGo_skip (x y : string) :
  forall before : string,
    Str.replaceAllGo key value (String.length x) before (x ++ y)
    = Str.replaceAllGo key value 0 (String.rev_app x before) y.
Proof.
  induction x as [|c x IH]; intros before.
  - change (EmptyString ++ y) with y. cbn [String.length String.rev_app].
    destruct y; reflexivity.
  - change (String c x ++ y) with (String c (x ++ y)).
    cbn [String.length Str.replaceAllGo String.rev_app]. apply IH.
Qed.

(** At an occurrence, the expansion of the value is written and the scan
    goes on behind the occurrence. *)
Lemma replaceAllGo_at_key (before rest : string) :
  Str.replaceAllGo key value 0 before (key ++ rest)
  = Str.expand value key (String.rev before) rest
      ++ Str.replaceAllGo key value 0 (String.rev_app key before) rest.
Proof.
  pose proof (startsWith_append key rest) as Hstart.
  pose proof (drop_append key rest) as Hdrop.
  unfold key in *.
  change (String c0 k0 ++ rest) with (String c0 (k0 ++ rest)) in *.
  cbn [Str.replaceAllGo Str.isEmpty]. rewrite Hstart, Hdrop.
  apply (f_equal (String.append _)).
  change (String.length (String c0 k0) - 1) with (String.length k0 - 0).
  rewrite Nat.sub_0_r. cbn [String.rev_app]. apply replaceAllGo_skip.
Qed.

(** Up to the leftmost occurrence of the key the text is copied. *)
Lemma replaceAllGo_leftmost (a b : string) :
  forall before : string,
    (forall i : nat, i < String.length a ->
       Str.startsWith (Str.drop i (a ++ key ++ b)) key = false) ->
    Str.replaceAllGo key value 0 before (a ++ key ++ b)
    = a ++ Str.expand value key (String.rev before ++ a) b
        ++ Str.replaceAllGo key value 0 (String.rev_app key (String.rev_app a before)) b.
Proof.
  induction a as [|c a IH]; intros before Hfirst.
  - change (EmptyString ++ key ++ b) with (key ++ b). rewrite replaceAllGo_at_key.
    rewrite append_nil_r. reflexivity.
  - change (String c a ++ key ++ b) with (String c (a ++ key ++ b)) in *.
    cbn [Str.replaceAllGo]. cbn [Str.isEmpty key].
    pose proof (Hfirst 0 ltac:(simpl; lia)) as H0. cbn [Str.drop] in H0.
    fold key. rewrite H0.
    rewrite (IH (String c before)) by (intros i Hi; exact (Hfirst (S i) ltac:(simpl; lia))).
    cbn [String.rev_app].
    replace (String.rev (String c before) ++ a) with (String.rev before ++ String c a);
      [reflexivity|].
    change (String.rev (String c before)) with (String.rev_app before (String c EmptyString)).
    rewrite rev_app_append, append_assoc. reflexivity.
Qed.

(** A text without the key comes back as it is. *)
Lemma replaceAllGo_absent (s : string) :
  forall before : string,
    (forall i : nat, i < String.length s -> Str.startsWith (Str.drop i s) key = false) ->
    Str.replaceAllGo key value 0 before s = s.
Proof.
  induction s as [|c s IH]; intros before Habsent; cbn [Str.replaceAllGo].
  - reflexivity.
  - cbn [Str.isEmpty key].
    pose proof (Habsent 0 ltac:(simpl; lia)) as H0. cbn [Str.drop] in H0.
    fold key. rewrite H0. f_equal. apply IH.
    intros i Hi. exact (Habsent (S i) ltac:(simpl; lia)).
Qed.

End NonEmptyKey.

(** The pieces [ps] and the last piece [z] with [sep] between them:
    [p1 sep p2 sep ... z]. *)
Fixpoint between (sep : string) (ps : list string) (z : string) : string :=
  match ps with
  | [] => z
  | p :: ps' => p ++ sep ++ between sep ps' z
  end.

(** [ps] and [z] are what is left of the text [between key ps z] when it
    is cut at the occurrences of [key] that a scan from the left finds,
    an occurrence that overlaps the one before it not counted: no
    occurrence starts inside a piece. *)
Fixpoint cutsAt (key : string) (ps : list string) (z : string) : Prop :=
  match ps with
  | [] => forall i : nat, i < String.length z -> Str.startsWith (Str.drop i z) key = false
  | p :: ps' =>
      (forall i : nat, i < String.length p ->
         Str.startsWith (Str.drop i (p ++ key ++ between key ps' z)) key = false)
      /\ cutsAt key ps' z
  end.

(** The text [between key ps z] with every [key] replaced by what
    [String.replace] makes of [value] at that place: [$$] is a dollar,
    [$&] the key, [$`] the text before the occurrence and [$'] the text
    behind it.  [pre] is the text before the first piece. *)
Fixpoint replaced (key value pre : string) (ps : list string) (z : string) : string :=
  match ps with
  | [] => z
  | p :: ps' =>
      p ++ Str.expand value key (pre ++ p) (between key ps' z)
        ++ replaced key value (pre ++ p ++ key) ps' z
  end.

Lemma replaceAllGo_between (key value : string) (ps : list string) (z : string) :
  key <> EmptyString ->
  cutsAt key ps z ->
  forall before : string,
    Str.replaceAllGo key value 0 before (between key ps z)
    = replaced key value (String.rev before) ps z.
Proof.
  intros Hkey. destruct key as [|c k]; [contradiction Hkey; reflexivity|].
  induction ps as [|p ps IH]; cbn [between cutsAt replaced].
  - intros Habsent before. apply replaceAllGo_absent. exact Habsent.
  - intros [Hfirst Hrest] before.
    rewrite (replaceAllGo_leftmost c k value p _ before Hfirst), (IH Hrest).
    rewrite !rev_of_rev_app, !append_assoc. reflexivity.
Qed.

(** Without a dollar sign in it, the value is written as it is. *)
Lemma replaced_plain (key value pre : string) (ps : list string) (z : string) :
  Str.includesChar Str.dollar value = false ->
  replaced key value pre ps z = between value ps z.
Proof.
  intros Hvalue. revert pre. induction ps as [|p ps IH]; intros pre; [reflexivity|].
  cbn [replaced between]. rewrite (expand_plain _ _ _ _ Hvalue), IH. reflexivity.
Qed.

Lemma applyDefinesIn_app (pre post : list (string * string)) (code : string) :
  Bundler.applyDefinesIn (pre ++ post)%list code
  = Bundler.applyDefinesIn post (Bundler.applyDefinesIn pre code).
Proof.
  revert code. induction pre as [|[k v] pre IH]; intros code; [reflexivity|].
  cbn [app Bundler.applyDefinesIn]. apply IH.
Qed.

Lemma turbo_applyDefines_app (pre post : list (string * string)) (code : string) :
  TurboBundler.applyDefines (pre ++ post)%list code
  = TurboBundler.applyDefines post (TurboBundler.applyDefines pre code).
Proof.
  revert code. induction pre as [|[k v] pre IH]; intros code; [reflexivity|].
  cbn [app TurboBundler.applyDefines]. apply IH.
Qed.

(** C6, as the code has it.  The entries of the [define] map are applied
    one after the other, in the order of the map, each to the text that
    the entries before it have left.  An entry is applied as a global
    replacement of the literal key text: every occurrence that a scan
    from the left finds is replaced, whatever stands before and behind it
    (the inside of an identifier, of a string literal or of a comment,
    the left side of an assignment, text that an earlier entry has put
    there), and the entries behind it are applied to the result.  What
    is written for an occurrence is the value as [String.replace]
    expands it there ([replaced]), which is the value itself when it
    holds no dollar sign.  [Bundler.applyDefines] and
    [TurboBundler.transformBatch] do the same. *)
Theorem define_replaces_every_occurrence
    (earlier : list (string * string)) (key value : string)
    (later : list (string * string)) (code : string) (ps : list string) (z : string) :
  key <> EmptyString ->
  cutsAt key ps z ->
  (Bundler.applyDefinesIn earlier code = between key ps z ->
   Bundler.applyDefinesIn (earlier ++ (key, value) :: later)%list code
   = Bundler.applyDefinesIn later (replaced key value EmptyString ps z))
  /\ (TurboBundler.applyDefines earlier code = between key ps z ->
      TurboBundler.applyDefines (earlier ++ (key, value) :: later)%list code
      = TurboBundler.applyDefines later (replaced key value EmptyString ps z))
  /\ (Str.includesChar Str.dollar value = false ->
      replaced key value EmptyString ps z = between value ps z).
Proof.
  intros Hkey Hcuts. split; [|split].
  - intros Hleft. rewrite applyDefinesIn_app, Hleft. cbn [Bundler.applyDefinesIn].
    unfold Str.replaceAll. rewrite (replaceAllGo_between _ _ _ _ Hkey Hcuts). reflexivity.
  - intros Hleft. rewrite turbo_applyDefines_app, Hleft. cbn [TurboBundler.applyDefines].
    unfold Str.replaceAll. rewrite (replaceAllGo_between _ _ _ _ Hkey Hcuts). reflexivity.
  - apply replaced_plain.
Qed.

Section DefinesExamples.

(** C6 as stated fails for [define: {DEBUG: 'false'}]: the key is replaced
    inside a string literal, inside a comment, inside a longer identifier
    and on the left of an assignment. *)
Lemma define_rewrites_strings_and_comments :
  let define := [("DEBUG", "false")] in
  Bundler.applyDefinesIn define "log('DEBUG'); // DEBUG build"
    = "log('false'); // false build"
  /\ Bundler.applyDefinesIn define "// DEBUG" <> "// DEBUG"
  /\ Bundler.applyDefinesIn define "MY_DEBUG_FLAG = 1; DEBUG = 2"
     = "MY_false_FLAG = 1; false = 2"
  /\ List.map TurboBundler.code
       (TurboBundler.transformBatch define None
          [{| TurboBundler.path := "/p/a.js";
              TurboBundler.source := "log('DEBUG'); // DEBUG build";
              TurboBundler.code := EmptyString |}])
     = ["log('false'); // false build"].
Proof. vm_compute. repeat split; try reflexivity. discriminate. Qed.

(** The theorem at work on [define: {A: 'B', B: 'C'}] and the text
    [// A, B]: the first entry leaves [// B, B], and the second entry
    replaces both occurrences, the one that the first entry wrote
    included.  With [define: {A: '<$&>'}] the occurrence is written
    between the brackets. *)
Lemma define_replaces_every_occurrence_witness :
  (Bundler.applyDefinesIn ([("A", "B")] ++ ("B", "C") :: [])%list "// A, B" = "// C, C"
   /\ TurboBundler.applyDefines ([("A", "B")] ++ ("B", "C") :: [])%list "// A, B" = "// C, C")
  /\ Bundler.applyDefinesIn ([] ++ ("A", "<$&>") :: [])%list "xAy" = "x<A>y".
Proof.
  split.
  - assert (cutsAt "B" ["// "; ", "] EmptyString) as Hcuts.
    { cbn [cutsAt]. repeat split.
      - intros i Hi. simpl in Hi. destruct i as [|[|[|i]]]; [reflexivity..|lia].
      - intros i Hi. simpl in Hi. destruct i as [|[|i]]; [reflexivity..|lia].
      - intros i Hi. simpl in Hi. lia. }
    destruct (define_replaces_every_occurrence [("A", "B")] "B" "C" [] "// A, B"
                ["// "; ", "] EmptyString ltac:(discriminate) Hcuts)
      as (Hbundler & Hturbo & _).
    split; [exact (Hbundler eq_refl) | exact (Hturbo eq_refl)].
  - assert (cutsAt "A" ["x"] "y") as Hcuts.
    { cbn [cutsAt]. split.
      - intros i Hi. simpl in Hi. destruct i as [|i]; [reflexivity|lia].
      - intros i Hi. simpl in Hi. destruct i as [|i]; [reflexivity|lia]. }
    destruct (define_replaces_every_occurrence [] "A" "<$&>" [] "xAy"
                ["x"] "y" ltac:(discriminate) Hcuts)
      as (Hbundler & _).
    exact (Hbundler eq_refl).
Defined.

End DefinesExamples.

(** ** The upward walk of the turbo bundler ends *)

Section TurboWalkRounds.

Import TurboBundler.ResolutionCache.

Variable h : Host.

(** From [String.length dir + 2] rounds on, the bound of [walk] is never
    the reason it stops: any two such bounds give the same answer and
    leave the same caches. *)
Lemma turbo_walk_rounds_enough (specifier : string) (extensions : list string) :
  forall (k : nat) (dir : string) (n m : nat) (st : t),
    String.length dir <= k ->
    String.length dir + 2 <= n -> String.length dir + 2 <= m ->
    walk h n specifier dir extensions st = walk h m specifier dir extensions st.
Proof.
  induction k as [|k IH]; intros dir n m st Hk Hn Hm.
  - destruct dir; [|simpl in Hk; lia].
    destruct n as [|n]; [simpl in Hn; lia|]. destruct m as [|m]; [simpl in Hm; lia|].
    cbn [walk]. change (String.eqb EmptyString (Path.dirname EmptyString)) with false.
    cbn iota. unfold bind.
    destruct (resolvePackage h _ extensions st) as [[r|e] st']; [|reflexivity].
    destruct (truthyOpt r); [reflexivity|]. destruct n, m; reflexivity.
  - destruct n as [|n]; [lia|]. destruct m as [|m]; [lia|].
    cbn [walk]. destruct (String.eqb dir (Path.dirname dir)) eqn:Hfix; [reflexivity|].
    unfold bind.
    destruct (resolvePackage h _ extensions st) as [[r|e] st']; [|reflexivity].
    destruct (truthyOpt r); [reflexivity|].
    destruct (dirname_shorter dir) as [Heq|[Hlt|Hdot]].
    + rewrite Heq, String.eqb_refl in Hfix. discriminate.
    + apply IH; lia.
    + rewrite Hdot. destruct n, m; reflexivity.
Qed.

End TurboWalkRounds.

(** ** The resolution cache of the turbo bundler *)

Section TurboResolution.

Import TurboBundler.ResolutionCache.

(** The two caches of file-system answers only grow. *)
Definition grows (st st' : t) : Prop :=
  (forall k v, packageJsonCache st !! k = Some v -> packageJsonCache st' !! k = Some v)
  /\ (forall k v, existsCache st !! k = Some v -> existsCache st' !! k = Some v).

Lemma grows_refl (st : t) : grows st st.
Proof. split; intros k v H; exact H. Qed.

Lemma grows_trans (a b c : t) : grows a b -> grows b c -> grows a c.
Proof. intros [H1 H2] [H3 H4]. split; intros k v H; auto. Qed.

(** A method is settled when a run leaves [cache] alone, lets the two
    other caches grow, and has recorded enough for every later run, on
    any file system, to give the same answer and change nothing. *)
Definition settled {A} (m : Host -> M A) : Prop :=
  forall (h : Host) (st st1 : t) (r : outcome A),
    m h st = (r, st1) ->
    cache st1 = cache st /\ grows st st1
    /\ forall (h' : Host) (st2 : t), grows st1 st2 -> m h' st2 = (r, st2).

Lemma settled_ret {A} (a : A) : settled (fun _ => ret a).
Proof.
  intros h st st1 r [= <- <-]. split; [reflexivity|]. split; [apply grows_refl|].
  intros h' st2 _. reflexivity.
Qed.

Lemma settled_lift {A} (o : outcome A) : settled (fun _ => lift o).
Proof.
  intros h st st1 r [= <- <-]. split; [reflexivity|]. split; [apply grows_refl|].
  intros h' st2 _. reflexivity.
Qed.

Lemma settled_bind {A B} (m : Host -> M A) (k : A -> Host -> M B) :
  settled m -> (forall a, settled (k a)) -> settled (fun h => bind (m h) (fun a => k a h)).
Proof.
  intros Hm Hk h st st1 r. unfold bind.
  destruct (m h st) as [[a|e] sta] eqn:Ema.
  - intros Hka. destruct (Hm _ _ _ _ Ema) as (Hc1 & Hg1 & Hs1).
    destruct (Hk a _ _ _ _ Hka) as (Hc2 & Hg2 & Hs2).
    split; [congruence|]. split; [eapply grows_trans; eassumption|].
    intros h' st2 Hg. rewrite (Hs1 h' st2 (grows_trans _ _ _ Hg2 Hg)). apply Hs2. exact Hg.
  - intros [= <- <-]. destruct (Hm _ _ _ _ Ema) as (Hc1 & Hg1 & Hs1).
    split; [exact Hc1|]. split; [exact Hg1|].
    intros h' st2 Hg. rewrite (Hs1 h' st2 Hg). reflexivity.
Qed.

Lemma settled_fileExists (p : string) : settled (fun h => fileExists h p).
Proof.
  intros h st st1 r. unfold fileExists.
  destruct (existsCache st !! p) as [known|] eqn:E.
  - intros [= <- <-]. split; [reflexivity|]. split; [apply grows_refl|].
    intros h' st2 [_ Hg]. rewrite (Hg _ _ E). reflexivity.
  - intros [= <- <-]. split; [reflexivity|]. split.
    + split; intros k v H; simpl; [exact H|].
      rewrite lookup_insert_ne; [exact H|]. intros ->. congruence.
    + intros h' st2 [_ Hg]. rewrite (Hg p (isFile h p)); [reflexivity|].
      simpl. apply lookup_insert_eq.
Qed.

Lemma settled_readPackageJson (p : string) : settled (fun h => readPackageJson h p).
Proof.
  intros h st st1 r. unfold readPackageJson.
  destruct (packageJsonCache st !! p) as [known|] eqn:E.
  - intros [= <- <-]. split; [reflexivity|]. split; [apply grows_refl|].
    intros h' st2 [Hg _]. rewrite (Hg _ _ E). reflexivity.
  - intros [= <- <-]. split; [reflexivity|]. split.
    + split; intros k v H; simpl; [|exact H].
      rewrite lookup_insert_ne; [exact H|]. intros ->. congruence.
    + intros h' st2 [Hg _]. erewrite Hg; [reflexivity|].
      simpl. apply lookup_insert_eq.
Qed.

Lemma settled_firstExisting (candidates : list string) :
  settled (fun h => firstExisting h candidates).
Proof.
  induction candidates as [|c rest IH]; cbn [firstExisting].
  - apply settled_ret.
  - apply (settled_bind (fun h => fileExists h c)
             (fun found h => if found then ret (Some c) else firstExisting h rest)).
    + apply settled_fileExists.
    + intros [|]; [apply settled_ret|exact IH].
Qed.

Lemma settled_resolveFile (p : string) (exts : list string) :
  settled (fun h => resolveFile h p exts).
Proof.
  unfold resolveFile.
  apply (settled_bind (fun h => fileExists h p)
           (fun exact h =>
              if exact then ret (Some p)
              else
                bind (firstExisting h (List.map (fun ext => p ++ ext) exts))
                  (fun withExt =>
                     match withExt with
                     | Some q => ret (Some q)
                     | None =>
                         firstExisting h
                           (List.map (fun ext => Path.join [p; "index" ++ ext]) exts)
                     end))).
  - apply settled_fileExists.
  - intros [|]; [apply settled_ret|].
    apply (settled_bind (fun h => firstExisting h (List.map (fun ext => p ++ ext) exts))
             (fun withExt h =>
                match withExt with
                | Some q => ret (Some q)
                | None =>
                    firstExisting h
                      (List.map (fun ext => Path.join [p; "index" ++ ext]) exts)
                end)).
    + apply settled_firstExisting.
    + intros [q|]; [apply settled_ret|apply settled_firstExisting].
Qed.

Lemma settled_viaModuleField (pkgDir : string) (pkg : json) :
  settled (fun h => viaModuleField h pkgDir pkg).
Proof.
  unfold viaModuleField.
  apply (settled_bind (fun _ => lift (getProp pkg "module"))
           (fun field h =>
              if truthyU field then
                bind (lift (ModuleResolver.asPathArg (default JNull field)))
                  (fun m =>
                     bind (fileExists h (Path.join [pkgDir; m]))
                       (fun found =>
                          ret (if found then Some (Path.join [pkgDir; m]) else None)))
              else ret None)).
  - apply settled_lift.
  - intros field. destruct (truthyU field); [|apply settled_ret].
    apply (settled_bind (fun _ => lift (ModuleResolver.asPathArg (default JNull field)))
             (fun m h =>
                bind (fileExists h (Path.join [pkgDir; m]))
                  (fun found =>
                     ret (if found then Some (Path.join [pkgDir; m]) else None)))).
    + apply settled_lift.
    + intros m.
      apply (settled_bind (fun h => fileExists h (Path.join [pkgDir; m]))
               (fun found _ => ret (if found then Some (Path.join [pkgDir; m]) else None))).
      * apply settled_fileExists.
      * intros found. apply settled_ret.
Qed.

Lemma settled_viaMainField (pkgDir : string) (pkg : json) (exts : list string) :
  settled (fun h => viaMainField h pkgDir pkg exts).
Proof.
  unfold viaMainField.
  apply (settled_bind (fun _ => lift (getProp pkg "main"))
           (fun field h =>
              if truthyU field then
                bind (lift (ModuleResolver.asPathArg (default JNull field)))
                  (fun m => resolveFile h (Path.join [pkgDir; m]) exts)
              else ret None)).
  - apply settled_lift.
  - intros field. destruct (truthyU field); [|apply settled_ret].
    apply (settled_bind (fun _ => lift (ModuleResolver.asPathArg (default JNull field)))
             (fun m h => resolveFile h (Path.join [pkgDir; m]) exts)).
    + apply settled_lift.
    + intros m. apply settled_resolveFile.
Qed.

Lemma settled_resolvePackage (pkgDir : string) (exts : list string) :
  settled (fun h => resolvePackage h pkgDir exts).
Proof.
  unfold resolvePackage.
  set (pkgJsonPath := Path.join [pkgDir; "package.json"]).
  apply (settled_bind (fun h => fileExists h pkgJsonPath)
           (fun hasPkg h =>
              if negb hasPkg then resolveFile h pkgDir exts
              else
                bind (readPackageJson h pkgJsonPath)
                  (fun pkg =>
                     if negb (truthy pkg) then ret None
                     else
                       bind (lift (getProp pkg "exports"))
                         (fun exports =>
                            bind (if truthyU exports
                                  then lift (resolveExports (default JNull exports) pkgDir)
                                  else ret None)
                              (fun entry =>
                                 if truthyOpt entry then ret entry
                                 else
                                   bind (viaModuleField h pkgDir pkg)
                                     (fun viaModule =>
                                        match viaModule with
                                        | Some p => ret (Some p)
                                        | None =>
                                            bind (viaMainField h pkgDir pkg exts)
                                              (fun viaMain =>
                                                 if truthyOpt viaMain then ret viaMain
                                                 else resolveFile h (Path.join [pkgDir; "index"])
                                                        exts)
                                        end)))))).
  - apply settled_fileExists.
  - intros [|]; cbn [negb]; [|apply settled_resolveFile].
    refine (settled_bind (fun h => readPackageJson h pkgJsonPath) (fun pkg h => _) _ _);
      [apply settled_readPackageJson|].
    intros pkg. destruct (negb (truthy pkg)); [apply settled_ret|].
    refine (settled_bind (fun _ => lift (getProp pkg "exports")) (fun exports h => _) _ _);
      [apply settled_lift|].
    intros exports.
    refine (settled_bind
              (fun _ => if truthyU exports
                        then lift (resolveExports (default JNull exports) pkgDir)
                        else ret None)
              (fun entry h => _) _ _).
    { destruct (truthyU exports); [apply settled_lift|apply settled_ret]. }
    intros entry. destruct (truthyOpt entry); [apply settled_ret|].
    refine (settled_bind (fun h => viaModuleField h pkgDir pkg) (fun viaModule h => _) _ _);
      [apply settled_viaModuleField|].
    intros [p|]; [apply settled_ret|].
    refine (settled_bind (fun h => viaMainField h pkgDir pkg exts) (fun viaMain h => _) _ _);
      [apply settled_viaMainField|].
    intros viaMain. destruct (truthyOpt viaMain); [apply settled_ret|].
    apply settled_resolveFile.
Qed.

Lemma settled_walk (specifier : string) (exts : list string) :
  forall (rounds : nat) (dir : string), settled (fun h => walk h rounds specifier dir exts).
Proof.
  induction rounds as [|rounds IH]; intros dir; cbn [walk];
    destruct (String.eqb dir (Path.dirname dir)); try apply settled_ret.
  refine (settled_bind
            (fun h => resolvePackage h (Path.join [dir; "node_modules"; specifier]) exts)
            (fun resolved h => _) _ _); [apply settled_resolvePackage|].
  intros resolved. destruct (truthyOpt resolved); [apply settled_ret|apply IH].
Qed.

Lemma settled_resolveInternal (specifier fromDir : string) (exts : list string) :
  settled (fun h => resolveInternal h specifier fromDir exts).
Proof.
  unfold resolveInternal.
  destruct (Str.startsWith specifier "." || Str.startsWith specifier "/");
    [apply settled_resolveFile|apply settled_walk].
Qed.

End TurboResolution.

Section TurboResolutionCalls.

Import TurboBundler.ResolutionCache.


Lemma resolve_again (h : Host) (specifier fromDir : string) (exts : list string)
    (st st1 : t) (r : outcome (option string)) :
  resolve h specifier fromDir exts st = (r, st1) ->
  forall (h' : Host) (st2 : t),
    grows st1 st2 ->
    cache st2 !! keyOf fromDir specifier = cache st1 !! keyOf fromDir specifier ->
    resolve h' specifier fromDir exts st2 = (r, st2).
Proof.
  unfold resolve. destruct (cache st !! keyOf fromDir specifier) as [known|] eqn:Ehit.
  - intros [= <- <-] h' st2 _ Hkey. rewrite Hkey, Ehit. reflexivity.
  - destruct (resolveInternal h specifier fromDir exts st) as [[result|e] st'] eqn:Eint;
      destruct (settled_resolveInternal specifier fromDir exts _ _ _ _ Eint)
        as (Hcache & _ & Hagain).
    + destruct (truthyOpt result) eqn:Etruthy.
      * intros [= <- <-] h' st2 Hg Hkey. simpl in Hkey.
        rewrite lookup_insert_eq in Hkey. rewrite Hkey.
        destruct result as [s|]; [reflexivity|discriminate].
      * intros [= <- <-] h' st2 Hg Hkey. rewrite Hkey, Hcache, Ehit.
        rewrite (Hagain h' st2 Hg), Etruthy. reflexivity.
    + intros [= <- <-] h' st2 Hg Hkey. rewrite Hkey, Hcache, Ehit.
      rewrite (Hagain h' st2 Hg). reflexivity.
Qed.

Lemma resolve_grows (h : Host) (specifier fromDir : string) (exts : list string) (st : t) :
  grows st (snd (resolve h specifier fromDir exts st)).
Proof.
  unfold resolve. destruct (cache st !! keyOf fromDir specifier); [apply grows_refl|].
  destruct (resolveInternal h specifier fromDir exts st) as [[result|e] st'] eqn:Eint;
    destruct (settled_resolveInternal specifier fromDir exts _ _ _ _ Eint) as (_ & Hg & _).
  - destruct (truthyOpt result); [|exact Hg].
    destruct Hg as [H1 H2]. split; simpl; assumption.
  - exact Hg.
Qed.

Lemma resolve_other_key (h : Host) (specifier fromDir : string) (exts : list string)
    (st : t) (key : string) :
  keyOf fromDir specifier <> key ->
  cache (snd (resolve h specifier fromDir exts st)) !! key = cache st !! key.
Proof.
  intros Hne. unfold resolve. destruct (cache st !! keyOf fromDir specifier); [reflexivity|].
  destruct (resolveInternal h specifier fromDir exts st) as [[result|e] st'] eqn:Eint;
    destruct (settled_resolveInternal specifier fromDir exts _ _ _ _ Eint) as (Hcache & _ & _).
  - destruct (truthyOpt result); simpl; [|rewrite Hcache; reflexivity].
    rewrite lookup_insert_ne by exact Hne. rewrite Hcache. reflexivity.
  - simpl. rewrite Hcache. reflexivity.
Qed.

(** X13.  A call of [ResolutionCache.resolve] that is repeated gives the
    first answer again and changes nothing, found or not found or
    thrown, whatever the file system has become and whatever was
    resolved in between (calls with another directory or specifier
    but the same key apart): the caches of file-system answers are
    never refreshed. *)
Theorem turbo_resolution_is_settled
    (h : Host) (specifier fromDir : string) (exts : list string) (st st1 : t)
    (r : outcome (option string)) (calls : list TurboCall) (h' : Host) :
  resolve h specifier fromDir exts st = (r, st1) ->
  (forall c : TurboCall,
      In c calls -> keyOf (t_fromDir c) (t_specifier c) = keyOf fromDir specifier ->
      t_fromDir c = fromDir /\ t_specifier c = specifier) ->
  resolve h' specifier fromDir exts (resolveEach exts calls st1)
    = (r, resolveEach exts calls st1).
Proof.
  intros Hfirst Hkeys.
  apply (resolve_again h specifier fromDir exts st st1 r Hfirst).
  - clear. revert st1. induction calls as [|c calls IH]; intros a; [apply grows_refl|].
    unfold resolveEach in *. simpl.
    eapply grows_trans; [apply resolve_grows|apply IH].
  - assert (forall a,
               grows st1 a ->
               cache a !! keyOf fromDir specifier = cache st1 !! keyOf fromDir specifier ->
               cache (resolveEach exts calls a) !! keyOf fromDir specifier
               = cache st1 !! keyOf fromDir specifier) as H.
    { induction calls as [|c calls IH]; intros a Hg Ha; [exact Ha|].
      unfold resolveEach in *. simpl. apply IH.
      - intros c' Hc'. apply Hkeys. right. exact Hc'.
      - eapply grows_trans; [exact Hg|apply resolve_grows].
      - destruct (String.eqb (keyOf (t_fromDir c) (t_specifier c)) (keyOf fromDir specifier))
          eqn:Ek.
        + apply String.eqb_eq in Ek.
          destruct (Hkeys c (or_introl eq_refl) Ek) as [-> ->].
          rewrite (resolve_again h specifier fromDir exts st st1 r Hfirst (t_host c) a Hg Ha).
          exact Ha.
        + apply String.eqb_neq in Ek. rewrite resolve_other_key by exact Ek. exact Ha. }
    apply H; [apply grows_refl|reflexivity].
Qed.

End TurboResolutionCalls.

Section TurboChunks.

Import TurboBundler.

Lemma chunkLoop_spec {T} (size : nat) :
  0 < size ->
  forall (rounds : nat) (arr : list T),
    List.length arr <= rounds ->
    exists cs : list (list T),
      chunkLoop rounds arr size = Some cs
      /\ List.concat cs = arr
      /\ Forall (fun c => 0 < List.length c <= size) cs
      /\ List.length cs * size < List.length arr + size
      /\ List.length arr <= List.length cs * size.
Proof.
  intros Hsize. induction rounds as [|rounds IH]; intros arr Hlen.
  - destruct arr; [|simpl in Hlen; lia]. exists []. simpl. repeat split; try lia. constructor.
  - destruct arr as [|x arr]; [exists []; simpl; repeat split; try lia; constructor|].
    cbn [chunkLoop].
    destruct (IH (List.skipn size (x :: arr))) as (cs & Hcs & Hcat & Hall & Hlt & Hge).
    { rewrite List.length_skipn. simpl in *. lia. }
    rewrite Hcs. exists (List.firstn size (x :: arr) :: cs).
    split; [reflexivity|]. split; [|split; [|split]].
    + simpl List.concat. rewrite Hcat. apply List.firstn_skipn.
    + constructor; [|exact Hall]. rewrite List.length_firstn. simpl List.length. lia.
    + rewrite List.length_skipn in Hlt.
      change (List.length (x :: arr)) with (S (List.length arr)) in *.
      change (List.length (List.firstn size (x :: arr) :: cs)) with (S (List.length cs)).
      destruct (Nat.le_gt_cases size (S (List.length arr))) as [Hle|Hgt].
      * replace (S (List.length arr) - size + size) with (S (List.length arr)) in Hlt by lia.
        lia.
      * replace (S (List.length arr) - size) with 0 in Hlt by lia.
        assert (List.length cs = 0) as -> by nia. lia.
    + rewrite List.length_skipn in Hge.
      change (List.length (x :: arr)) with (S (List.length arr)) in *.
      change (List.length (List.firstn size (x :: arr) :: cs)) with (S (List.length cs)).
      lia.
Qed.

End TurboChunks.

Section TurboBatches.

Import TurboBundler.

Lemma chunkLoop_stuck {T} (x : T) (arr : list T) :
  forall rounds : nat, chunkLoop rounds (x :: arr) 0 = None.
Proof.
  induction rounds as [|rounds IH]; [reflexivity|].
  cbn [chunkLoop]. change (List.skipn 0 (x :: arr)) with (x :: arr). rewrite IH. reflexivity.
Qed.

(** X14.  [chunk(arr, size)] with a positive size cuts the array into
    consecutive pieces that give the array back when joined, each of
    them non-empty and of at most [size] elements, their number being
    the length over the size, rounded up; with size zero and a
    non-empty array the loop never ends. *)
Theorem chunk_cuts_into_pieces {T} (arr : list T) (size : nat) :
  (0 < size ->
   exists cs : list (list T),
     chunk arr size = Some cs
     /\ List.concat cs = arr
     /\ Forall (fun c => 0 < List.length c <= size) cs
     /\ List.length cs * size < List.length arr + size
     /\ List.length arr <= List.length cs * size)
  /\ (arr <> [] -> forall rounds : nat, chunkLoop rounds arr 0 = None).
Proof.
  split.
  - intros Hsize. apply chunkLoop_spec; [exact Hsize|lia].
  - intros Hne rounds. destruct arr as [|x arr]; [contradiction|]. apply chunkLoop_stuck.
Qed.

Lemma chunk_cuts_into_pieces_witness :
  exists cs : list (list nat),
    chunk [1; 2; 3; 4; 5] 2 = Some cs
    /\ List.concat cs = [1; 2; 3; 4; 5]
    /\ Forall (fun c => 0 < List.length c <= 2) cs
    /\ List.length cs * 2 < List.length [1; 2; 3; 4; 5] + 2
    /\ List.length [1; 2; 3; 4; 5] <= List.length cs * 2.
Proof.
  apply (proj1 (chunk_cuts_into_pieces [1; 2; 3; 4; 5] 2)). lia.
Defined.

Lemma batchSize_covers (n cpus : nat) : 0 < cpus -> n <= cpus * batchSize n cpus.
Proof.
  intros Hc. unfold batchSize.
  pose proof (Nat.div_mod_eq (n + cpus - 1) cpus) as Hd.
  pose proof (Nat.mod_upper_bound (n + cpus - 1) cpus ltac:(lia)) as Hm.
  lia.
Qed.

(** X15.  The batches that [build] hands to [transformBatch] hold every
    module once, in order; no batch is empty, so that with no modules
    there is no batch; and there are at most as many batches as
    processors. *)
Theorem batches_cover_modules_once {T} (moduleList : list T) (cpus : nat) :
  0 < cpus ->
  exists batches : list (list T),
    chunk moduleList (batchSize (List.length moduleList) cpus) = Some batches
    /\ List.concat batches = moduleList
    /\ Forall (fun batch => 0 < List.length batch) batches
    /\ (moduleList = [] -> batches = [])
    /\ List.length batches <= cpus.
Proof.
  intros Hc. destruct moduleList as [|x l] eqn:El.
  - exists []. split; [reflexivity|]. split; [reflexivity|].
    split; [constructor|]. split; [reflexivity|simpl; lia].
  - rewrite <- El.
    pose proof (batchSize_covers (List.length moduleList) cpus Hc) as Hcover.
    assert (0 < batchSize (List.length moduleList) cpus) as Hsize.
    { destruct (batchSize (List.length moduleList) cpus); [|lia].
      rewrite El in Hcover. simpl in Hcover. lia. }
    destruct (chunkLoop_spec (batchSize (List.length moduleList) cpus) Hsize
                (List.length moduleList) moduleList (le_n _))
      as (cs & Hcs & Hcat & Hall & Hlt & _).
    exists cs. split; [exact Hcs|]. split; [exact Hcat|].
    split; [eapply List.Forall_impl; [|exact Hall]; cbv beta; intros c Hlen; lia|].
    split; [rewrite El; discriminate|]. nia.
Qed.

(** X15 at work, on five modules and four processors, and on no module
    at all. *)
Lemma batches_cover_modules_once_witness :
  (exists batches : list (list nat),
      chunk [1; 2; 3; 4; 5] (batchSize (List.length [1; 2; 3; 4; 5]) 4) = Some batches
      /\ List.concat batches = [1; 2; 3; 4; 5]
      /\ Forall (fun batch => 0 < List.length batch) batches
      /\ ([1; 2; 3; 4; 5] = [] -> batches = [])
      /\ List.length batches <= 4)
  /\ chunk (@nil nat) (batchSize (List.length (@nil nat)) 4) = Some [].
Proof.
  split.
  - apply (batches_cover_modules_once [1; 2; 3; 4; 5] 4). lia.
  - destruct (batches_cover_modules_once (@nil nat) 4 ltac:(lia))
      as (batches & Hrun & _ & _ & Hnone & _).
    rewrite (Hnone eq_refl) in Hrun. exact Hrun.
Defined.

(** X16.  For the turbo bundler every specifier that starts with neither
    a dot nor a slash is external, whatever the [external] option
    lists, and [resolveToId] leaves it as written without asking the
    resolver. *)
Theorem bare_specifier_is_never_bundled
    (h : Host) (external : list string) (ids : list (string * string))
    (specifier fromPath : string) (st : ResolutionCache.t) :
  isExternal external specifier
  = negb (Str.startsWith specifier "." || Str.startsWith specifier "/")
  /\ (isExternal external specifier = true ->
      resolveToId h external ids specifier fromPath st = (Ok specifier, st)).
Proof.
  split.
  - unfold isExternal.
    destruct (Str.startsWith specifier "." || Str.startsWith specifier "/"); [reflexivity|].
    destruct (Str.startsWith specifier "node:"); [reflexivity|].
    destruct (mem _ builtins); [reflexivity|]. destruct (mem _ external); reflexivity.
  - intros Hext. unfold resolveToId. rewrite Hext. reflexivity.
Qed.

End TurboBatches.

Section TurboExamples.

Import TurboBundler TurboBundler.ResolutionCache Fixtures.

Lemma bare_specifier_is_never_bundled_witness :
  isExternal [] "lodash/get" = negb (Str.startsWith "lodash/get" "." || Str.startsWith "lodash/get" "/")
  /\ resolveToId pureHost [] [("/p/node_modules/pure/index.js", "node_modules/pure/index.js")]
       "pure" "/p/main.js" empty
     = (Ok "pure", empty).
Proof.
  pose proof (bare_specifier_is_never_bundled pureHost []
                [("/p/node_modules/pure/index.js", "node_modules/pure/index.js")]
                "pure" "/p/main.js" empty) as [_ H].
  split; [reflexivity|]. apply H. reflexivity.
Defined.

(** The theorem at work: [./missing] is not found; after another call,
    and although [/p/missing.js] exists by then, it is still not
    found. *)
Lemma turbo_resolution_is_settled_witness :
  let first := resolve missingHost "./missing" "/p" extensions empty in
  let calls := [{| t_host := createdHost; t_specifier := "./main"; t_fromDir := "/p" |}] in
  fst first = Ok None
  /\ resolve createdHost "./missing" "/p" extensions (resolveEach extensions calls (snd first))
     = (Ok None, resolveEach extensions calls (snd first))
  /\ fst (resolve createdHost "./missing" "/p" extensions empty) = Ok (Some "/p/missing.js").
Proof.
  intros first calls. split; [vm_compute; reflexivity|]. split; [|vm_compute; reflexivity].
  apply (turbo_resolution_is_settled missingHost "./missing" "/p" extensions empty (snd first)
           (Ok None) calls createdHost).
  - apply pair_with_snd. vm_compute. reflexivity.
  - intros c [<-|[]] Hkey. vm_compute in Hkey. discriminate.
Defined.

End TurboExamples.

(** ** The chunks of a build *)

Section Groups.

Import Bundler.

Lemma assoc_In {A} (l : list (string * A)) (k : string) (v : A) :
  assoc k l = Some v -> In (k, v) l.
Proof.
  induction l as [|[k' v'] l IH]; simpl; [discriminate|].
  destruct (String.eqb k' k) eqn:E.
  - apply String.eqb_eq in E. subst. intros [= <-]. left. reflexivity.
  - intros H. right. exact (IH H).
Qed.

Lemma In_assoc {A} (l : list (string * A)) (k : string) (v : A) :
  List.NoDup (List.map fst l) -> In (k, v) l -> assoc k l = Some v.
Proof.
  induction l as [|[k' v'] l IH]; simpl; [intros _ []|].
  intros Hnd. inversion Hnd as [|? ? Hnot Hnd']; subst.
  destruct (String.eqb k' k) eqn:E.
  - apply String.eqb_eq in E. subst. intros [[= <-]|Hin]; [reflexivity|].
    contradiction Hnot. change k with (fst (k, v)). apply List.in_map. exact Hin.
  - intros [[= <- <-]|Hin]; [rewrite String.eqb_refl in E; discriminate|].
    exact (IH Hnd' Hin).
Qed.

(** The modules of [ms] that go to the chunk [c], in the order of
    [ms]. *)
Definition membersOf (c : string) (ms : list (string * Mod.t)) : list Mod.t :=
  List.filter (fun m => String.eqb (chunkIdOf m) c) (List.map snd ms).

Lemma membersOf_app (c : string) (l1 l2 : list (string * Mod.t)) :
  membersOf c (l1 ++ l2) = (membersOf c l1 ++ membersOf c l2)%list.
Proof. unfold membersOf. rewrite List.map_app, List.filter_app. reflexivity. Qed.

(** What [chunkModules] holds after the loop has passed the modules
    [seen]. *)
Definition groupsOf (seen : list (string * Mod.t)) (groups : list (string * list Mod.t))
  : Prop :=
  List.NoDup (List.map fst groups)
  /\ forall c : string,
       assoc c groups = match membersOf c seen with [] => None | g => Some g end.

Lemma pushTo_keys (cid : string) (m : Mod.t) (groups : list (string * list Mod.t)) :
  List.map fst (pushTo cid m groups)
  = if has cid groups then List.map fst groups else (List.map fst groups ++ [cid])%list.
Proof.
  unfold has. induction groups as [|[c g] groups IH]; simpl; [reflexivity|].
  destruct (String.eqb c cid); simpl; [reflexivity|]. rewrite IH.
  destruct (assoc cid groups); reflexivity.
Qed.

Lemma pushTo_assoc (cid : string) (m : Mod.t) (groups : list (string * list Mod.t))
    (c : string) :
  assoc c (pushTo cid m groups)
  = if String.eqb cid c then Some (default [] (assoc c groups) ++ [m])%list
    else assoc c groups.
Proof.
  induction groups as [|[c0 g0] groups IH]; simpl.
  - destruct (String.eqb cid c); reflexivity.
  - destruct (String.eqb c0 cid) eqn:E0; simpl.
    + apply String.eqb_eq in E0. subst c0.
      destruct (String.eqb cid c); reflexivity.
    + destruct (String.eqb c0 c) eqn:E1.
      * destruct (String.eqb cid c) eqn:E2; [|reflexivity].
        apply String.eqb_eq in E1, E2. subst. rewrite String.eqb_refl in E0. discriminate.
      * exact IH.
Qed.

Lemma groupsOf_push (seen : list (string * Mod.t)) (groups : list (string * list Mod.t))
    (kv : string * Mod.t) :
  groupsOf seen groups ->
  groupsOf (seen ++ [kv]) (pushTo (chunkIdOf (snd kv)) (snd kv) groups).
Proof.
  intros [Hnd Hassoc]. split.
  - rewrite pushTo_keys. unfold has. destruct (assoc _ groups) eqn:E; [exact Hnd|].
    apply List.NoDup_app; [exact Hnd|constructor; [intros []|constructor]|].
    intros x Hx [<-|[]]. revert Hx. apply assoc_None_keys. exact E.
  - intros c. rewrite pushTo_assoc, membersOf_app, Hassoc.
    assert (membersOf c [kv]
            = if String.eqb (chunkIdOf (snd kv)) c then [snd kv] else []) as -> by reflexivity.
    destruct (String.eqb (chunkIdOf (snd kv)) c) eqn:E.
    + destruct (membersOf c seen); reflexivity.
    + rewrite List.app_nil_r. reflexivity.
Qed.

Lemma groupByChunk_groupsOf (ms : list (string * Mod.t)) : groupsOf ms (groupByChunk ms).
Proof.
  unfold groupByChunk.
  assert (forall (l seen : list (string * Mod.t)) (groups : list (string * list Mod.t)),
             groupsOf seen groups ->
             groupsOf (seen ++ l)
               (List.fold_left (fun groups kv => pushTo (chunkIdOf (snd kv)) (snd kv) groups)
                  l groups)) as H.
  { induction l as [|kv l IH]; intros seen groups Hg; simpl.
    - rewrite List.app_nil_r. exact Hg.
    - replace (seen ++ kv :: l)%list with ((seen ++ [kv]) ++ l)%list
        by (rewrite <- List.app_assoc; reflexivity).
      apply IH. apply groupsOf_push. exact Hg. }
  apply (H ms [] []). split; [constructor|]. intros c. reflexivity.
Qed.

(** The groups of [chunkModules]: one for each chunk id in use, holding
    the modules with that id in the order of [this.modules]. *)
Lemma groupByChunk_spec (ms : list (string * Mod.t)) (c : string) (g : list Mod.t) :
  In (c, g) (groupByChunk ms) <-> g = membersOf c ms /\ g <> [].
Proof.
  destruct (groupByChunk_groupsOf ms) as [Hnd Hassoc]. split.
  - intros Hin. apply (In_assoc _ _ _ Hnd) in Hin. rewrite Hassoc in Hin.
    destruct (membersOf c ms); [discriminate|]. injection Hin as <-. split; [reflexivity|discriminate].
  - intros [-> Hne]. apply assoc_In. rewrite Hassoc.
    destruct (membersOf c ms); [contradiction|reflexivity].
Qed.

End Groups.

Section SortKeepsAll.

Import Order Bundler.

Lemma setAdd_NoDup (x : string) (l : list string) : List.NoDup l -> List.NoDup (setAdd x l).
Proof.
  intros H. unfold setAdd. destruct (mem x l) eqn:E; [exact H|].
  apply mem_false in E. apply List.NoDup_app; [exact H|constructor; [intros []|constructor]|].
  intros y Hy [<-|[]]. contradiction.
Qed.

Lemma visit_NoDup (all : list (string * Mod.t)) (group : list Mod.t) :
  forall (depth : nat) (m : Mod.t) (s : Sort),
    List.NoDup (visited s) -> List.NoDup (visited (visit depth all group m s)).
Proof.
  induction depth as [|depth IH]; intros m s Hs.
  - rewrite visit_O. exact Hs.
  - rewrite visit_S.
    destruct (mem (Mod.path m) (visited s)); [exact Hs|].
    destruct (mem (Mod.path m) (visiting s)); [exact Hs|].
    cbv zeta. cbn [visited]. apply setAdd_NoDup.
    apply (fold_left_invariant (fun s => List.NoDup (visited s))); [exact Hs|].
    intros a d Ha. unfold step. destruct (assoc (Dependency.resolved d) all) as [B|]; [|exact Ha].
    destruct (includes group B); [apply IH|]; exact Ha.
Qed.

Lemma NoDup_map_filter {A B} (f : A -> B) (p : A -> bool) (l : list A) :
  List.NoDup (List.map f l) -> List.NoDup (List.map f (List.filter p l)).
Proof.
  induction l as [|a l IH]; simpl; [intros H; exact H|].
  intros H. inversion H as [|? ? Hnot Hnd]; subst.
  destruct (p a); simpl; [|exact (IH Hnd)].
  constructor; [|exact (IH Hnd)].
  intros Hin. apply Hnot. apply List.in_map_iff in Hin as (x & Hx & Hin).
  apply List.filter_In in Hin as [Hin _]. apply List.in_map_iff. exists x. split; assumption.
Qed.

Lemma NoDup_of_map {A B} (f : A -> B) (l : list A) : List.NoDup (List.map f l) -> List.NoDup l.
Proof.
  induction l as [|a l IH]; simpl; intros H; [constructor|].
  inversion H as [|? ? Hnot Hnd]; subst. constructor; [|exact (IH Hnd)].
  intros Hin. apply Hnot. apply List.in_map. exact Hin.
Qed.

(** [topologicalSort] returns the modules it was given, each once. *)
Lemma topologicalSort_permutation (all : list (string * Mod.t)) (group : list Mod.t) :
  wellFormed all group -> List.NoDup (List.map Mod.path group) ->
  Permutation (topologicalSort all group) group.
Proof.
  intros Hwf Hnd. unfold topologicalSort.
  destruct (fold_top all group Hwf group start) as (Hinv & _ & _ & Hall).
  - intros m Hm. exact Hm.
  - constructor; simpl; [reflexivity|intros X []|intros X d B' []].
  - reflexivity.
  - fold start.
    assert (List.NoDup
              (visited
                 (List.fold_left
                    (fun s module => visit (S (List.length group)) all group module s)
                    group start))) as Hvis.
    { apply (fold_left_invariant (fun s => List.NoDup (visited s))); [constructor|].
      intros a m Ha. apply visit_NoDup. exact Ha. }
    set (s := List.fold_left _ group start) in *.
    destruct Hinv as [Hp Hg _]. rewrite <- Hp in Hvis.
    apply Permutation.NoDup_Permutation.
    + exact (NoDup_of_map _ _ Hvis).
    + exact (NoDup_of_map _ _ Hnd).
    + intros x. split; [apply Hg|].
      intros Hx. pose proof (Hall x Hx) as Hin. rewrite <- Hp in Hin.
      apply List.in_map_iff in Hin as (X & HpX & HX).
      rewrite <- (same_path all group Hwf X x (Hg X HX) Hx HpX). exact HX.
Qed.

Lemma stored_paths (ms : list (string * Mod.t)) :
  stored ms -> forall p : Mod.t -> bool,
    List.map Mod.path (List.filter p (List.map snd ms))
    = List.map fst (List.filter (fun kv => p (snd kv)) ms).
Proof.
  intros [_ Hall] p. induction Hall as [|kv ms Hkv _ IH]; simpl; [reflexivity|].
  destruct (p (snd kv)); simpl; [rewrite Hkv, IH; reflexivity|exact IH].
Qed.

Lemma stored_NoDup_paths (ms : list (string * Mod.t)) :
  stored ms -> List.NoDup (List.map Mod.path (List.map snd ms)).
Proof.
  intros [Hnd Hall].
  assert (List.map Mod.path (List.map snd ms) = List.map fst ms) as ->; [|exact Hnd].
  clear Hnd. induction Hall as [|kv ms Hkv _ IH]; simpl; [reflexivity|].
  rewrite Hkv, IH. reflexivity.
Qed.

(** The sorted modules of a group are the modules of the group. *)
Lemma sorted_permutation (ms : list (string * Mod.t)) (c : string) (g : list Mod.t) :
  stored ms -> In (c, g) (groupByChunk ms) -> Permutation (topologicalSort ms g) g.
Proof.
  intros Hst Hin. apply topologicalSort_permutation.
  - exact (stored_wellFormed _ _ _ Hst Hin).
  - apply groupByChunk_spec in Hin as [-> _]. unfold membersOf.
    apply NoDup_map_filter. apply stored_NoDup_paths. exact Hst.
Qed.

(** Every module lies in the chunk that is named by its [chunk] field. *)
Lemma module_in_chunk (b : t) (k : string) (m : Mod.t) :
  stored (modules b) -> In (k, m) (modules b) ->
  exists c : Chunk.t,
    In c (generateChunks b) /\ Chunk.id c = chunkIdOf m
    /\ In k (Chunk.sorted c) /\ In (Mod.id m) (Chunk.modules c).
Proof.
  intros Hst Hin. unfold generateChunks.
  assert (In m (membersOf (chunkIdOf m) (modules b))) as Hmem.
  { unfold membersOf. apply List.filter_In. split; [|apply String.eqb_refl].
    change m with (snd (k, m)). apply List.in_map. exact Hin. }
  assert (In (chunkIdOf m, membersOf (chunkIdOf m) (modules b))
            (groupByChunk (modules b))) as Hgroup.
  { apply groupByChunk_spec. split; [reflexivity|]. intros Hnil. rewrite Hnil in Hmem.
    destruct Hmem. }
  pose proof (Permutation_in m (Permutation_sym (sorted_permutation _ _ _ Hst Hgroup)) Hmem)
    as Hsorted.
  eexists. split; [apply List.in_map; exact Hgroup|].
  cbn [Chunk.id Chunk.sorted Chunk.modules fst snd].
  split; [reflexivity|]. split.
  - destruct Hst as [_ Hall]. pose proof (proj1 (List.Forall_forall _ _) Hall _ Hin) as Hk.
    simpl in Hk. rewrite <- Hk. apply List.in_map. exact Hsorted.
  - apply List.in_map. exact Hsorted.
Qed.

Variable h : Host.

(** X17.  The chunks of a build share out its modules: no two chunks
    have the same id, every module lies in the chunk named by its
    [chunk] field, and every chunk holds the modules with its id and
    nothing else, each once, and at least one. *)
Theorem chunks_share_out_the_modules
    (depth : nat) (o : BundlerOptions) (out : BundleOutput) :
  bundle h depth o = Some (Ok out) ->
  List.NoDup (List.map Chunk.id (chunks out))
  /\ (forall (k : string) (m : Mod.t),
        In (k, m) (out_modules out) ->
        exists c : Chunk.t,
          In c (chunks out) /\ Chunk.id c = chunkIdOf m
          /\ In k (Chunk.sorted c) /\ In (Mod.id m) (Chunk.modules c))
  /\ (forall c : Chunk.t,
        In c (chunks out) ->
        Permutation (Chunk.sorted c)
          (List.map fst
             (List.filter (fun kv => String.eqb (chunkIdOf (snd kv)) (Chunk.id c))
                (out_modules out)))
        /\ Chunk.sorted c <> []).
Proof.
  unfold bundle. destruct (build h depth (new h o)) as [[r b']|] eqn:Hb; [|discriminate].
  intros [= ->].
  destruct (build_stored h depth (new h o) b' out) as (Hst & Hms & Hcs); [|exact Hb|].
  { split; simpl; constructor. }
  rewrite Hcs, Hms.
  split; [|split].
  - unfold generateChunks. rewrite List.map_map. cbn [Chunk.id].
    exact (proj1 (groupByChunk_groupsOf (modules b'))).
  - intros k m Hin. exact (module_in_chunk b' k m Hst Hin).
  - intros c Hc. unfold generateChunks in Hc.
    apply List.in_map_iff in Hc as ([cid g] & <- & Hin).
    cbn [Chunk.id Chunk.sorted fst snd].
    pose proof (sorted_permutation _ _ _ Hst Hin) as Hp.
    apply groupByChunk_spec in Hin as [Hg Hne]. split.
    + rewrite <- (stored_paths _ Hst (fun m => String.eqb (chunkIdOf m) cid)).
      fold (membersOf cid (modules b')). rewrite <- Hg.
      apply Permutation_map. exact Hp.
    + intros Hnil. apply List.map_eq_nil in Hnil. rewrite Hnil in Hp.
      apply Permutation_nil in Hp. contradiction.
Qed.

End SortKeepsAll.

Section BuildSteps.

Import Bundler.

Variable h : Host.

(** The stages of a build that succeeds. *)
Lemma build_steps (depth : nat) (b b' : t) (out : BundleOutput) :
  build h depth b = Some (Ok out, b') ->
  exists b1 : t,
    processEntries h depth (entry (options b)) b = Some (Ok tt, b1)
    /\ let b2 := if default true (treeshake (options b1)) then treeShake b1 else b1 in
       b' = (if default true (splitting (options b2)) then splitCode h b2
             else createSingleChunk b2)
       /\ out_modules out = modules b' /\ chunks out = generateChunks b'.
Proof.
  unfold build.
  destruct (processEntries h depth (entry (options b)) b) as [[[[] |e] b1]|] eqn:Hp;
    [|discriminate|discriminate].
  intros [= <- <-]. exists b1. split; [reflexivity|]. cbv zeta. cbn [out_modules chunks].
  repeat split; reflexivity.
Qed.

(** The options of the bundler never change. *)
Lemma processImport_options
    (recur : string -> bool -> bool -> t -> option (outcome unit * t))
    (modulePath : string) (imp : KonaParser.ImportInfo) (b b' : t) :
  (forall p d1 d2 b0 r b1, recur p d1 d2 b0 = Some (r, b1) -> options b1 = options b0) ->
  processImport h recur modulePath imp b = Some b' -> options b' = options b.
Proof.
  intros Hrec. unfold processImport.
  destruct (KonaParser.isTypeOnly imp); [intros [= <-]; reflexivity|].
  destruct (ModuleResolver.resolve _ _ _ _) as [[res|e] r'].
  - destruct (ModuleResolver.external res); [intros [= <-]; reflexivity|].
    match goal with
    | |- context [recur ?q ?d1 ?d2 ?b3] =>
        destruct (recur q d1 d2 b3) as [[[u|e] b4]|] eqn:Hr; [| |discriminate];
          intros [= <-]; simpl; rewrite (Hrec _ _ _ _ _ _ Hr); reflexivity
    end.
  - intros [= <-]. reflexivity.
Qed.

Lemma processImports_options
    (recur : string -> bool -> bool -> t -> option (outcome unit * t))
    (modulePath : string) (imps : list KonaParser.ImportInfo) :
  (forall p d1 d2 b0 r b1, recur p d1 d2 b0 = Some (r, b1) -> options b1 = options b0) ->
  forall b b' : t,
    processImports h recur modulePath imps b = Some b' -> options b' = options b.
Proof.
  intros Hrec. unfold processImports.
  induction imps as [|imp imps IH]; intros b b'; simpl.
  - intros [= <-]. reflexivity.
  - destruct (processImport h recur modulePath imp b) as [b1|] eqn:H1.
    + intros H. rewrite (IH _ _ H). exact (processImport_options _ _ _ _ _ Hrec H1).
    + intros H. exfalso. clear -H. induction imps; simpl in H; [discriminate|auto].
Qed.

Lemma processModule_options (depth : nat) :
  forall (p : string) (isEntry isDynamic : bool) (b b' : t) (r : outcome unit),
    processModule h depth p isEntry isDynamic b = Some (r, b') -> options b' = options b.
Proof.
  induction depth as [|depth IH]; intros p isEntry isDynamic b b' r; [discriminate|].
  simpl. destruct (has p (modules b)); [intros [= <- <-]; reflexivity|].
  destruct (negb (existsSync h p)); [intros [= <- <-]; reflexivity|].
  destruct (readFileSync h p) as [src|e]; [|intros [= <- <-]; reflexivity].
  match goal with
  | |- context [processImports h ?rec ?mp ?imps ?b0] =>
      destruct (processImports h rec mp imps b0) as [b1|] eqn:Hp; [|discriminate];
      intros [= <- <-];
      rewrite (processImports_options rec mp imps
                 (fun q d1 d2 b2 r0 b3 H => IH q d1 d2 b2 b3 r0 H) b0 b1 Hp)
  end.
  reflexivity.
Qed.

Lemma processEntries_options (depth : nat) (entries : list string) :
  forall (b b' : t) (r : outcome unit),
    processEntries h depth entries b = Some (r, b') -> options b' = options b.
Proof.
  induction entries as [|en entries IH]; intros b b' r; simpl.
  - intros [= <- <-]. reflexivity.
  - destruct (processModule h depth _ true false b) as [[[u|e] b1]|] eqn:Hp; [| |discriminate].
    + intros H. rewrite (IH _ _ _ H). exact (processModule_options _ _ _ _ _ _ _ Hp).
    + intros [= <- <-]. exact (processModule_options _ _ _ _ _ _ _ Hp).
Qed.

Definition allChunked (ms : list (string * Mod.t)) : Prop :=
  Forall (fun kv : string * Mod.t => hasChunk (snd kv) = true) ms.

Lemma splitCode_allChunked (b : t) : allChunked (modules (splitCode h b)).
Proof.
  unfold splitCode, withModules. cbn [modules]. unfold mapModules at 1.
  apply List.Forall_forall. intros kv Hin. apply List.in_map_iff in Hin as (x & <- & _).
  cbn [snd]. destruct (hasChunk (snd x)) eqn:E; [exact E|].
  unfold hasChunk. cbn [Mod.chunk Mod.withChunk].
  destruct (firstEntryChunk _) as [c|]; [|reflexivity].
  destruct (truthyStr c) eqn:Ec; [exact Ec|reflexivity].
Qed.

Lemma createSingleChunk_chunks (b : t) :
  Forall (fun kv : string * Mod.t => Mod.chunk (snd kv) = Some "bundle")
    (modules (createSingleChunk b)).
Proof.
  unfold createSingleChunk, withModules, mapModules. cbn [modules].
  apply List.Forall_forall. intros kv Hin. apply List.in_map_iff in Hin as (x & <- & _).
  reflexivity.
Qed.

Lemma build_allChunked (depth : nat) (b b' : t) (out : BundleOutput) :
  build h depth b = Some (Ok out, b') -> allChunked (modules b').
Proof.
  intros Hb. destruct (build_steps _ _ _ _ Hb) as (b1 & _ & Hb' & _). cbv zeta in Hb'.
  rewrite Hb'. destruct (default true (splitting _)); [apply splitCode_allChunked|].
  eapply List.Forall_impl; [|apply createSingleChunk_chunks].
  intros kv H. unfold hasChunk. rewrite H. reflexivity.
Qed.

Lemma hasChunk_chunkIdOf (m : Mod.t) :
  hasChunk m = true -> Mod.chunk m = Some (chunkIdOf m).
Proof.
  unfold hasChunk, chunkIdOf. destruct (Mod.chunk m) as [c|]; [|discriminate].
  intros ->. reflexivity.
Qed.

End BuildSteps.

Section OneChunk.

Import Bundler.

Variable h : Host.

Lemma one_key {A} (k : string) (v : A) (l : list (string * A)) :
  List.NoDup (List.map fst l) ->
  (forall kv, In kv l -> fst kv = k) ->
  In (k, v) l -> l = [(k, v)].
Proof.
  intros Hnd Hall Hin. destruct l as [|x l]; [destruct Hin|].
  destruct l as [|y l].
  - destruct Hin as [->|[]]. reflexivity.
  - exfalso. inversion Hnd as [|? ? Hnot _]; subst. apply Hnot.
    rewrite (Hall x (or_introl eq_refl)), <- (Hall y (or_intror (or_introl eq_refl))).
    left. reflexivity.
Qed.

(** X18.  With [splitting: false] a build puts every module into the
    chunk [bundle]: the output has that one chunk, with all the
    modules, or no chunk when it has no module. *)
Theorem build_without_splitting_makes_one_chunk
    (depth : nat) (o : BundlerOptions) (out : BundleOutput) :
  splitting o = Some false ->
  bundle h depth o = Some (Ok out) ->
  (forall kv, In kv (out_modules out) -> Mod.chunk (snd kv) = Some "bundle")
  /\ ((out_modules out = [] /\ chunks out = [])
      \/ exists c : Chunk.t,
           chunks out = [c] /\ Chunk.id c = "bundle"
           /\ Permutation (Chunk.sorted c) (List.map fst (out_modules out))).
Proof.
  intros Hsplit. unfold bundle.
  destruct (build h depth (new h o)) as [[r b']|] eqn:Hb; [|discriminate].
  intros [= ->].
  destruct (build_stored h depth (new h o) b' out) as (Hst & Hms & Hcs); [|exact Hb|].
  { split; simpl; constructor. }
  destruct (build_steps h _ _ _ _ Hb) as (b1 & Hp & Hb' & _). cbv zeta in Hb'.
  pose proof (processEntries_options h _ _ _ _ _ Hp) as Hopt. cbn [options new] in Hopt.
  assert (b' = createSingleChunk
                 (if default true (treeshake (options b1)) then treeShake b1 else b1)) as Hsingle.
  { rewrite Hb'. destruct (default true (treeshake (options b1)));
      cbn [treeShake withModules options]; rewrite Hopt, Hsplit; reflexivity. }
  assert (forall kv, In kv (modules b') -> Mod.chunk (snd kv) = Some "bundle") as Hall.
  { rewrite Hsingle. apply List.Forall_forall. apply createSingleChunk_chunks. }
  rewrite Hms, Hcs. split; [exact Hall|].
  destruct (modules b') as [|kv0 ms0] eqn:Hmods;
    [left; split; [reflexivity|unfold generateChunks; rewrite Hmods; reflexivity]|]. right.
  rewrite <- Hmods in *.
  assert (forall m, In m (List.map snd (modules b')) -> chunkIdOf m = "bundle") as Hid.
  { intros m Hm. apply List.in_map_iff in Hm as (kv & <- & Hkv).
    unfold chunkIdOf. rewrite (Hall kv Hkv). reflexivity. }
  assert (membersOf "bundle" (modules b') = List.map snd (modules b')) as Hmem.
  { unfold membersOf.
    clear -Hid. induction (List.map snd (modules b')) as [|m l IH]; [reflexivity|].
    simpl. rewrite (Hid m (or_introl eq_refl)). simpl. f_equal.
    apply IH. intros m' Hm'. apply Hid. right. exact Hm'. }
  assert (groupByChunk (modules b') = [("bundle", List.map snd (modules b'))]) as Hgroups.
  { apply one_key.
    - exact (proj1 (groupByChunk_groupsOf (modules b'))).
    - intros [c g] Hin. apply groupByChunk_spec in Hin as [Hg Hne]. cbn [fst].
      destruct g as [|m g]; [contradiction|].
      assert (In m (membersOf c (modules b'))) as Hm by (rewrite <- Hg; left; reflexivity).
      unfold membersOf in Hm. apply List.filter_In in Hm as [Hm Hc].
      apply String.eqb_eq in Hc. rewrite <- Hc. apply Hid. exact Hm.
    - apply groupByChunk_spec. split; [symmetry; exact Hmem|].
      rewrite Hmods. discriminate. }
  unfold generateChunks. rewrite Hgroups. cbn [List.map fst snd].
  eexists. split; [reflexivity|]. cbn [Chunk.id Chunk.sorted]. split; [reflexivity|].
  assert (In ("bundle", List.map snd (modules b')) (groupByChunk (modules b'))) as Hin
    by (rewrite Hgroups; left; reflexivity).
  pose proof (topologicalSort_permutation (modules b') (List.map snd (modules b'))
                (stored_wellFormed _ _ _ Hst Hin) (stored_NoDup_paths _ Hst)) as Hperm.
  apply (Permutation_map Mod.path) in Hperm.
  replace (List.map Mod.path (List.map snd (modules b'))) with (List.map fst (modules b'))
    in Hperm; [exact Hperm|].
  destruct Hst as [_ Hpaths]. clear -Hpaths.
  induction Hpaths as [|kv ms Hkv _ IH]; simpl; [reflexivity|]. rewrite Hkv, IH. reflexivity.
Qed.

End OneChunk.

Section ChunkImports.

Import Bundler.

Variable h : Host.

Lemma optEqb_eq (a b : option string) : optEqb a b = true <-> a = b.
Proof.
  destruct a as [x|], b as [y|]; simpl; split; try discriminate; try reflexivity.
  - intros H. apply String.eqb_eq in H. subst. reflexivity.
  - intros [= ->]. apply String.eqb_refl.
Qed.

Lemma addImport_In (c x : option string) (imports : list (option string)) :
  In x (addImport c imports) -> x = c \/ In x imports.
Proof.
  unfold addImport. destruct (List.existsb (optEqb c) imports); [right; assumption|].
  intros H. apply List.in_app_or in H as [H|[<-|[]]]; [right; exact H|left; reflexivity].
Qed.

Lemma addImport_NoDup (c : option string) (imports : list (option string)) :
  List.NoDup imports -> List.NoDup (addImport c imports).
Proof.
  intros Hnd. unfold addImport. destruct (List.existsb (optEqb c) imports) eqn:E; [exact Hnd|].
  apply List.NoDup_app; [exact Hnd|constructor; [intros []|constructor]|].
  intros x Hx [<-|[]].
  assert (List.existsb (optEqb c) imports = true) as Ht.
  { apply List.existsb_exists. exists c. split; [exact Hx|apply optEqb_eq; reflexivity]. }
  congruence.
Qed.

(** What the two loops of [getChunkImports] keep true of [imports]. *)
Lemma getChunkImports_spec (b : t) (group : list Mod.t) (chunkId : string) :
  List.NoDup (getChunkImports b group chunkId)
  /\ forall imp : option string,
       In imp (getChunkImports b group chunkId) ->
       imp <> Some chunkId
       /\ exists (module depModule : Mod.t) (dep : Dependency.t),
            In module group /\ In dep (Mod.dependencies module)
            /\ assoc (Dependency.resolved dep) (modules b) = Some depModule
            /\ Mod.chunk depModule = imp.
Proof.
  unfold getChunkImports.
  set (inner := fun (imports : list (option string)) (dep : Dependency.t) =>
                  match assoc (Dependency.resolved dep) (modules b) with
                  | Some depModule =>
                      if negb (optEqb (Mod.chunk depModule) (Some chunkId)) then
                        addImport (Mod.chunk depModule) imports
                      else imports
                  | None => imports
                  end).
  set (Q := fun (seen : list Mod.t) (imports : list (option string)) =>
              List.NoDup imports
              /\ forall imp : option string,
                   In imp imports ->
                   imp <> Some chunkId
                   /\ exists (module depModule : Mod.t) (dep : Dependency.t),
                        In module seen /\ In dep (Mod.dependencies module)
                        /\ assoc (Dependency.resolved dep) (modules b) = Some depModule
                        /\ Mod.chunk depModule = imp).
  assert (forall (module : Mod.t) (seen : list Mod.t) (ds : list Dependency.t)
                 (imports : list (option string)),
             In module seen -> (forall d, In d ds -> In d (Mod.dependencies module)) ->
             Q seen imports -> Q seen (List.fold_left inner ds imports)) as Hinner.
  { intros module seen. induction ds as [|d ds IH]; intros imports Hm Hsub HQ; [exact HQ|].
    simpl. apply IH; [exact Hm|intros d' Hd'; apply Hsub; right; exact Hd'|].
    unfold inner at 1. destruct (assoc (Dependency.resolved d) (modules b)) as [dm|] eqn:Ed;
      [|exact HQ].
    destruct (optEqb (Mod.chunk dm) (Some chunkId)) eqn:Eq; cbn [negb]; [exact HQ|].
    destruct HQ as [Hnd Hall]. split; [apply addImport_NoDup; exact Hnd|].
    intros imp Himp. apply addImport_In in Himp as [->|Himp]; [|exact (Hall imp Himp)].
    split.
    - intros Heq. apply optEqb_eq in Heq. congruence.
    - exists module, dm, d. split; [exact Hm|]. split; [apply Hsub; left; reflexivity|].
      split; [exact Ed|reflexivity]. }
  assert (forall (l seen : list Mod.t) (imports : list (option string)),
             Q seen imports ->
             Q (seen ++ l)%list
               (List.fold_left
                  (fun imports module => List.fold_left inner (Mod.dependencies module) imports)
                  l imports)) as Houter.
  { induction l as [|m l IH]; intros seen imports HQ; simpl.
    - rewrite List.app_nil_r. exact HQ.
    - replace (seen ++ m :: l)%list with ((seen ++ [m]) ++ l)%list
        by (rewrite <- List.app_assoc; reflexivity).
      apply IH. apply (Hinner m).
      + apply List.in_or_app. right. left. reflexivity.
      + intros d Hd. exact Hd.
      + destruct HQ as [Hnd Hall]. split; [exact Hnd|].
        intros imp Himp. destruct (Hall imp Himp) as (Hne & mo & dm & d & H1 & H2).
        split; [exact Hne|]. exists mo, dm, d. split; [|exact H2].
        apply List.in_or_app. left. exact H1. }
  apply (Houter group [] []). split; [constructor|intros imp []].
Qed.

(** X19.  After a build, the imports that [getChunkImports] lists for a
    chunk are ids of chunks of the output other than the chunk itself,
    each once. *)
Theorem chunk_imports_are_other_chunks
    (depth : nat) (o : BundlerOptions) (out : BundleOutput) (b' : t)
    (group : list Mod.t) (chunkId : string) :
  build h depth (new h o) = Some (Ok out, b') ->
  List.NoDup (getChunkImports b' group chunkId)
  /\ forall imp : option string,
       In imp (getChunkImports b' group chunkId) ->
       exists c : Chunk.t,
         In c (chunks out) /\ imp = Some (Chunk.id c) /\ Chunk.id c <> chunkId.
Proof.
  intros Hb. destruct (getChunkImports_spec b' group chunkId) as [Hnd Hall].
  split; [exact Hnd|]. intros imp Himp.
  destruct (Hall imp Himp) as (Hne & module & dm & d & _ & _ & Hassoc & Hchunk).
  pose proof (build_allChunked h _ _ _ _ Hb) as Hchunked.
  destruct (build_steps h _ _ _ _ Hb) as (_ & _ & _ & _ & Hcs).
  apply assoc_In in Hassoc.
  pose proof (proj1 (List.Forall_forall _ _) Hchunked _ Hassoc) as Hdm. cbn [snd] in Hdm.
  apply hasChunk_chunkIdOf in Hdm.
  assert (In (chunkIdOf dm, membersOf (chunkIdOf dm) (modules b'))
            (groupByChunk (modules b'))) as Hgroup.
  { apply groupByChunk_spec. split; [reflexivity|].
    assert (In dm (membersOf (chunkIdOf dm) (modules b'))) as Hmem.
    { unfold membersOf. apply List.filter_In. split; [|apply String.eqb_refl].
      change dm with (snd (Dependency.resolved d, dm)). apply List.in_map. exact Hassoc. }
    intros Hnil. rewrite Hnil in Hmem. destruct Hmem. }
  eexists. split; [rewrite Hcs; unfold generateChunks; apply List.in_map; exact Hgroup|].
  cbn [Chunk.id fst]. rewrite <- Hchunk, Hdm. split; [reflexivity|].
  intros Heq. apply Hne. rewrite <- Hchunk, Hdm, Heq. reflexivity.
Qed.

End ChunkImports.

Section ChunkExamples.

Import Bundler Fixtures.

Lemma chunks_share_out_the_modules_witness :
  List.NoDup (List.map Chunk.id (chunks splitOutput))
  /\ (forall (k : string) (m : Mod.t),
        In (k, m) (out_modules splitOutput) ->
        exists c : Chunk.t,
          In c (chunks splitOutput) /\ Chunk.id c = chunkIdOf m
          /\ In k (Chunk.sorted c) /\ In (Mod.id m) (Chunk.modules c))
  /\ (forall c : Chunk.t,
        In c (chunks splitOutput) ->
        Permutation (Chunk.sorted c)
          (List.map fst
             (List.filter (fun kv => String.eqb (chunkIdOf (snd kv)) (Chunk.id c))
                (out_modules splitOutput)))
        /\ Chunk.sorted c <> []).
Proof.
  apply (chunks_share_out_the_modules backHost 4 splitOptions splitOutput).
  vm_compute. reflexivity.
Defined.

Lemma build_without_splitting_makes_one_chunk_witness :
  (forall kv, In kv (out_modules backOutput) -> Mod.chunk (snd kv) = Some "bundle")
  /\ ((out_modules backOutput = [] /\ chunks backOutput = [])
      \/ exists c : Chunk.t,
           chunks backOutput = [c] /\ Chunk.id c = "bundle"
           /\ Permutation (Chunk.sorted c) (List.map fst (out_modules backOutput))).
Proof.
  apply (build_without_splitting_makes_one_chunk backHost 4 backOptions backOutput).
  - reflexivity.
  - vm_compute. reflexivity.
Defined.

Lemma chunk_imports_are_other_chunks_witness :
  getChunkImports splitBundler [splitA] (chunkIdOf splitA) <> []
  /\ List.NoDup (getChunkImports splitBundler [splitA] (chunkIdOf splitA))
  /\ forall imp : option string,
       In imp (getChunkImports splitBundler [splitA] (chunkIdOf splitA)) ->
       exists c : Chunk.t,
         In c (chunks splitOutput) /\ imp = Some (Chunk.id c)
         /\ Chunk.id c <> chunkIdOf splitA.
Proof.
  split; [vm_compute; discriminate|].
  apply (chunk_imports_are_other_chunks backHost 4 splitOptions splitOutput splitBundler
           [splitA] (chunkIdOf splitA)).
  vm_compute. reflexivity.
Defined.

End ChunkExamples.

(** ** What tree shaking keeps *)

Section Shaking.

Import Bundler.

(** The paths that usage reaches: those of the entries, and the targets
    of the dependencies of a module whose path is reached. *)
Inductive reached (ms : list (string * Mod.t)) : string -> Prop :=
| reached_entry (k : string) (m : Mod.t) :
    In (k, m) ms -> Mod.isEntry m = true -> reached ms k
| reached_import (k : string) (m : Mod.t) (d : Dependency.t) :
    reached ms k -> In (k, m) ms -> In d (Mod.dependencies m) ->
    reached ms (Dependency.resolved d).

Lemma has_assocSet {A} (k k' : string) (v : A) (l : list (string * A)) :
  has k (assocSet k' v l) = String.eqb k' k || has k l.
Proof. unfold has. rewrite assoc_assocSet. destruct (String.eqb k' k); reflexivity. Qed.

(** What [markDependency] does to the keys. *)
Lemma markDependency_has (used : Used) (changed : bool) (d : Dependency.t) (k : string) :
  has k (fst (markDependency (used, changed) d))
  = String.eqb (Dependency.resolved d) k || has k used.
Proof.
  unfold markDependency.
  destruct (has (Dependency.resolved d) used) eqn:Ehas.
  - destruct (mem "*" (default [] (assoc (Dependency.resolved d) used))); cbn [fst].
    + destruct (String.eqb (Dependency.resolved d) k) eqn:E; [|reflexivity].
      apply String.eqb_eq in E. subst k. rewrite Ehas. reflexivity.
    + rewrite has_assocSet. reflexivity.
  - destruct (mem "*" (default [] (assoc (Dependency.resolved d) (assocSet _ [] used))));
      cbn [fst]; rewrite ?has_assocSet; [reflexivity|].
    destruct (String.eqb (Dependency.resolved d) k); reflexivity.
Qed.

(** A call that reports no change has changed nothing, and has found
    the target marked. *)
Lemma markDependency_quiet (used : Used) (changed : bool) (d : Dependency.t) :
  snd (markDependency (used, changed) d) = false ->
  changed = false /\ fst (markDependency (used, changed) d) = used
  /\ has (Dependency.resolved d) used = true.
Proof.
  unfold markDependency.
  destruct (has (Dependency.resolved d) used) eqn:Ehas.
  - destruct (mem "*" (default [] (assoc (Dependency.resolved d) used))); cbn [fst snd].
    + intros ->. repeat split; reflexivity.
    + discriminate.
  - destruct (mem "*" (default [] (assoc (Dependency.resolved d) (assocSet _ [] used))));
      cbn [fst snd]; discriminate.
Qed.

Lemma markDependencies_has (ds : list Dependency.t) :
  forall (acc : Used * bool) (k : string),
    has k (fst (List.fold_left markDependency ds acc))
    = List.existsb (fun d => String.eqb (Dependency.resolved d) k) ds || has k (fst acc).
Proof.
  induction ds as [|d ds IH]; intros [used changed] k; [reflexivity|].
  cbn [List.fold_left List.existsb].
  destruct (markDependency (used, changed) d) as [used1 changed1] eqn:E.
  rewrite IH. cbn [fst].
  replace used1 with (fst (markDependency (used, changed) d)) by (rewrite E; reflexivity).
  rewrite markDependency_has.
  destruct (String.eqb (Dependency.resolved d) k), (List.existsb _ ds); reflexivity.
Qed.

Lemma markDependencies_quiet (ds : list Dependency.t) :
  forall acc : Used * bool,
    snd (List.fold_left markDependency ds acc) = false ->
    snd acc = false /\ fst (List.fold_left markDependency ds acc) = fst acc
    /\ forall d, In d ds -> has (Dependency.resolved d) (fst acc) = true.
Proof.
  induction ds as [|d ds IH]; intros [used changed] H; cbn [List.fold_left] in *.
  - repeat split; [exact H|intros d []].
  - destruct (IH _ H) as (H1 & H2 & H3).
    destruct (markDependency (used, changed) d) as [used1 changed1] eqn:E.
    cbn [fst snd] in *. subst changed1.
    pose proof (markDependency_quiet used changed d) as Hq. rewrite E in Hq.
    destruct (Hq eq_refl) as (-> & Hu & Hd). cbn [fst] in Hu. subst used1.
    repeat split; [exact H2|]. intros d' [<-|Hd']; [exact Hd|apply H3; exact Hd'].
Qed.

Section Usage.

Variable ms : list (string * Mod.t).

Definition roundStep (acc : Used * bool) (kv : string * Mod.t) : Used * bool :=
  if has (fst kv) (fst acc) then List.fold_left markDependency (Mod.dependencies (snd kv)) acc
  else acc.

Lemma propagateOnce_fold (used : Used) :
  propagateOnce ms used = List.fold_left roundStep ms (used, false).
Proof. reflexivity. Qed.

(** Every key stands for a path that usage reaches. *)
Definition sound (used : Used) : Prop := forall k, has k used = true -> reached ms k.

(** Every path that usage reaches from a key in one step is a key. *)
Definition closed (used : Used) : Prop :=
  forall (k : string) (m : Mod.t) (d : Dependency.t),
    In (k, m) ms -> has k used = true -> In d (Mod.dependencies m) ->
    has (Dependency.resolved d) used = true.

Lemma roundStep_grows (acc : Used * bool) (kv : string * Mod.t) (k : string) :
  has k (fst acc) = true -> has k (fst (roundStep acc kv)) = true.
Proof.
  intros H. unfold roundStep. destruct (has (fst kv) (fst acc)); [|exact H].
  rewrite markDependencies_has, H. apply orb_true_r.
Qed.

Lemma roundStep_sound (acc : Used * bool) (kv : string * Mod.t) :
  In kv ms -> sound (fst acc) -> sound (fst (roundStep acc kv)).
Proof.
  intros Hin Hs k. unfold roundStep. destruct (has (fst kv) (fst acc)) eqn:Ehas; [|apply Hs].
  rewrite markDependencies_has. intros H. apply orb_true_iff in H as [H|H]; [|apply Hs; exact H].
  apply List.existsb_exists in H as (d & Hd & Heq). apply String.eqb_eq in Heq. subst k.
  destruct kv as [k0 m0]. cbn [fst snd] in *.
  exact (reached_import ms k0 m0 d (Hs k0 Ehas) Hin Hd).
Qed.

Lemma rounds_grow (l : list (string * Mod.t)) :
  forall (acc : Used * bool) (k : string),
    has k (fst acc) = true -> has k (fst (List.fold_left roundStep l acc)) = true.
Proof.
  induction l as [|kv l IH]; intros acc k H; [exact H|].
  cbn [List.fold_left]. apply IH. apply roundStep_grows. exact H.
Qed.

Lemma rounds_sound (l : list (string * Mod.t)) :
  forall acc : Used * bool,
    (forall kv, In kv l -> In kv ms) -> sound (fst acc) ->
    sound (fst (List.fold_left roundStep l acc)).
Proof.
  induction l as [|kv l IH]; intros acc Hsub H; [exact H|].
  cbn [List.fold_left]. apply IH; [intros kv' Hkv'; apply Hsub; right; exact Hkv'|].
  apply roundStep_sound; [apply Hsub; left; reflexivity|exact H].
Qed.

Lemma rounds_quiet (l : list (string * Mod.t)) :
  forall acc : Used * bool,
    snd (List.fold_left roundStep l acc) = false ->
    snd acc = false /\ fst (List.fold_left roundStep l acc) = fst acc
    /\ forall (k : string) (m : Mod.t) (d : Dependency.t),
         In (k, m) l -> has k (fst acc) = true -> In d (Mod.dependencies m) ->
         has (Dependency.resolved d) (fst acc) = true.
Proof.
  induction l as [|kv l IH]; intros acc H; cbn [List.fold_left] in *.
  - repeat split; [exact H|intros k m d []].
  - destruct (IH _ H) as (H1 & H2 & H3).
    assert (snd acc = false /\ fst (roundStep acc kv) = fst acc
            /\ (has (fst kv) (fst acc) = true ->
                forall d, In d (Mod.dependencies (snd kv)) ->
                          has (Dependency.resolved d) (fst acc) = true)) as (G1 & G2 & G3).
    { revert H1. unfold roundStep. destruct (has (fst kv) (fst acc)).
      - intros Hq. destruct (markDependencies_quiet _ _ Hq) as (Q1 & Q2 & Q3).
        repeat split; [exact Q1|exact Q2|intros _; exact Q3].
      - intros Hq. repeat split; [exact Hq|discriminate]. }
    rewrite G2 in H2, H3. repeat split; [exact G1|exact H2|].
    intros k m d [->|Hin] Hk Hd; [exact (G3 Hk d Hd)|exact (H3 k m d Hin Hk Hd)].
Qed.

Lemma propagateOnce_quiet (used used' : Used) :
  propagateOnce ms used = (used', false) -> used' = used /\ closed used.
Proof.
  rewrite propagateOnce_fold. intros H.
  pose proof (rounds_quiet ms (used, false)) as Hq. rewrite H in Hq.
  destruct (Hq eq_refl) as (_ & Hu & Hc). split; [exact Hu|exact Hc].
Qed.

(** With rounds enough, the loop ends on keys that are closed. *)
Lemma propagate_result (n : nat) :
  forall used : Used,
    unmarked (allDependencies ms) used < n ->
    sound used ->
    let final := propagate n ms used in
    sound final /\ closed final /\ forall k, has k used = true -> has k final = true.
Proof.
  induction n as [|n IH]; intros used Hn Hs; [lia|].
  cbn [propagate]. pose proof (propagateOnce_unmarked ms used) as Hless.
  destruct (propagateOnce ms used) as [used' changed] eqn:E.
  assert (sound used') as Hs'.
  { replace used' with (fst (propagateOnce ms used)) by (rewrite E; reflexivity).
    rewrite propagateOnce_fold. apply rounds_sound; [intros kv Hkv; exact Hkv|exact Hs]. }
  assert (forall k, has k used = true -> has k used' = true) as Hg.
  { intros k Hk. replace used' with (fst (propagateOnce ms used)) by (rewrite E; reflexivity).
    rewrite propagateOnce_fold. apply rounds_grow. exact Hk. }
  destruct changed.
  - cbn [fst snd] in Hless. specialize (Hless eq_refl).
    destruct (IH used' ltac:(lia) Hs') as (F1 & F2 & F3). cbv zeta in *.
    split; [exact F1|]. split; [exact F2|]. intros k Hk. apply F3, Hg, Hk.
  - destruct (propagateOnce_quiet _ _ E) as [-> Hc]. cbv zeta.
    split; [exact Hs|]. split; [exact Hc|intros k Hk; exact Hk].
Qed.

Lemma entryUsage_has (k : string) :
  has k (entryUsage ms) = true
  <-> exists m, In (k, m) ms /\ Mod.isEntry m = true.
Proof.
  unfold entryUsage.
  assert (forall (l : list (string * Mod.t)) (acc : Used),
             has k (List.fold_left
                      (fun used kv =>
                         if Mod.isEntry (snd kv) then assocSet (fst kv) ["*"] used else used)
                      l acc) = true
             <-> has k acc = true \/ exists m, In (k, m) l /\ Mod.isEntry m = true) as H.
  { induction l as [|[k0 m0] l IH]; intros acc; cbn [List.fold_left fst snd].
    - split; [intros H; left; exact H|intros [H|(m & [] & _)]; exact H].
    - rewrite IH. destruct (Mod.isEntry m0) eqn:E.
      + rewrite has_assocSet. split.
        * intros [H|(m & Hin & Hm)].
          -- apply orb_true_iff in H as [H|H]; [|left; exact H].
             apply String.eqb_eq in H. subst k0. right. exists m0.
             split; [left; reflexivity|exact E].
          -- right. exists m. split; [right; exact Hin|exact Hm].
        * intros [H|(m & [[= -> ->]|Hin] & Hm)].
          -- left. rewrite H. apply orb_true_r.
          -- left. rewrite String.eqb_refl. reflexivity.
          -- right. exists m. split; assumption.
      + split.
        * intros [H|(m & Hin & Hm)]; [left; exact H|].
          right. exists m. split; [right; exact Hin|exact Hm].
        * intros [H|(m & [[= -> ->]|Hin] & Hm)]; [left; exact H|congruence|].
          right. exists m. split; assumption. }
  rewrite H. split; [intros [Hf|He]; [discriminate|exact He]|intros He; right; exact He].
Qed.

(** The keys of [usedExports] are the paths that usage reaches. *)
Lemma usedExports_reached (k : string) : has k (usedExports ms) = true <-> reached ms k.
Proof.
  unfold usedExports.
  destruct (propagate_result (propagateRounds ms) (entryUsage ms)) as (Hs & Hc & Hg).
  - apply unmarked_propagateRounds.
  - intros k0 Hk0. apply entryUsage_has in Hk0 as (m & Hin & Hm).
    exact (reached_entry ms k0 m Hin Hm).
  - cbv zeta in *. split; [apply Hs|].
    induction 1 as [k0 m Hin Hm|k0 m d _ IH Hin Hd].
    + apply Hg. apply entryUsage_has. exists m. split; assumption.
    + exact (Hc k0 m d Hin IH Hd).
Qed.

End Usage.

(** X20.  [treeShake] keeps a module exactly when usage reaches its path
    from an entry along the recorded dependencies, or when the module
    has side effects; the modules it keeps stay as they were. *)
Theorem treeShake_keeps_what_is_reached (b : t) (k : string) (m : Mod.t) :
  In (k, m) (modules (treeShake b))
  <-> In (k, m) (modules b) /\ (reached (modules b) k \/ Mod.sideEffects m = true).
Proof.
  unfold treeShake, withModules. cbn [modules]. rewrite List.filter_In. cbn [fst snd].
  rewrite <- usedExports_reached.
  destruct (has k (usedExports (modules b))), (Mod.sideEffects m); cbn [negb andb];
    intuition congruence.
Qed.

End Shaking.

(** ** What a build keeps of every module *)

Section EachModule.

Import Bundler.

Variable h : Host.
Variable o : BundlerOptions.

(** A property of a module that no later step of the build takes away. *)
Variable Q : Mod.t -> Prop.

Hypothesis Q_dependencies : forall ds m, Q m -> Q (Mod.withDependencies ds m).
Hypothesis Q_dependents : forall ds m, Q m -> Q (Mod.withDependents ds m).
Hypothesis Q_chunk : forall c m, Q m -> Q (Mod.withChunk c m).

(** It holds of a module as [processModule] creates it from a file. *)
Hypothesis Q_created : forall (p source : string) (isEntry isDynamic : bool),
  existsSync h p = true -> readFileSync h p = Ok source ->
  Q {| Mod.id := generateModuleId h p;
       Mod.path := p;
       Mod.source := source;
       Mod.transformed := applyDefinesIn (default [] (define o)) source;
       Mod.parseResult := KonaParser.parse h KonaParser.defaultOptions source;
       Mod.dependencies := [];
       Mod.dependents := [];
       Mod.isEntry := isEntry;
       Mod.isDynamic := isDynamic;
       Mod.chunk := None;
       Mod.hash := hashContent h (applyDefinesIn (default [] (define o)) source);
       Mod.sideEffects := true |}.

Definition each (ms : list (string * Mod.t)) : Prop :=
  Forall (fun kv : string * Mod.t => Q (snd kv)) ms.

(** The bundler has the options [o], and [Q] holds of its modules. *)
Definition kept (b : t) : Prop := options b = o /\ each (modules b).

Lemma each_update (k : string) (f : Mod.t -> Mod.t) (ms : list (string * Mod.t)) :
  (forall m, Q m -> Q (f m)) -> each ms -> each (update k f ms).
Proof.
  intros Hf. induction 1 as [|[k' m] ms Hm Hms IH]; simpl; [constructor|].
  destruct (String.eqb k' k); constructor; simpl in *; auto.
Qed.

Lemma each_insert (k : string) (m : Mod.t) (ms : list (string * Mod.t)) :
  Q m -> each ms -> each (assocSet k m ms).
Proof.
  intros Hm. induction 1 as [|[k' m'] ms Hm' Hms IH]; simpl.
  - constructor; [exact Hm|constructor].
  - destruct (String.eqb k' k); constructor; simpl in *; assumption.
Qed.

Lemma each_filter (f : string * Mod.t -> bool) (ms : list (string * Mod.t)) :
  each ms -> each (List.filter f ms).
Proof.
  intros H. apply List.Forall_forall. intros kv Hin. apply List.filter_In in Hin as [Hin _].
  exact (proj1 (List.Forall_forall _ _) H kv Hin).
Qed.

Lemma each_mapModules (f : string -> Mod.t -> Mod.t) (ms : list (string * Mod.t)) :
  (forall k m, Q m -> Q (f k m)) -> each ms -> each (mapModules f ms).
Proof.
  intros Hf. unfold mapModules.
  induction 1 as [|kv ms Hkv Hms IH]; simpl; constructor; [|exact IH].
  simpl. apply Hf. exact Hkv.
Qed.

Lemma each_assignOnce (ms : list (string * Mod.t)) : each ms -> each (fst (assignOnce ms)).
Proof using Q_chunk.
  intros H. unfold assignOnce.
  apply (fold_left_invariant (fun acc => each (fst acc))); [exact H|].
  intros [cur changed] kv Hcur. simpl in *.
  destruct (assoc (fst kv) cur) as [module|]; [|exact Hcur].
  destruct (hasChunk module); [exact Hcur|].
  destruct (dependentChunk cur (Mod.dependents module)); [|exact Hcur].
  simpl. apply each_update; [apply Q_chunk|exact Hcur].
Qed.

Lemma each_assignLoop (rounds : nat) (ms : list (string * Mod.t)) :
  each ms -> each (assignLoop rounds ms).
Proof using Q_chunk.
  revert ms. induction rounds as [|rounds IH]; intros ms H; simpl; [exact H|].
  pose proof (each_assignOnce ms H) as H1.
  destruct (assignOnce ms) as [ms' changed]. simpl in H1.
  destruct changed; [apply IH|]; exact H1.
Qed.

Lemma processImport_kept
    (recur : string -> bool -> bool -> t -> option (outcome unit * t))
    (modulePath : string) (imp : KonaParser.ImportInfo) (b b' : t) :
  (forall p d1 d2 b0 r b1, kept b0 -> recur p d1 d2 b0 = Some (r, b1) -> kept b1) ->
  kept b ->
  processImport h recur modulePath imp b = Some b' -> kept b'.
Proof using Q_dependencies Q_dependents.
  intros Hrec Hb. unfold processImport.
  destruct (KonaParser.isTypeOnly imp); [intros [= <-]; exact Hb|].
  destruct (ModuleResolver.resolve _ _ _ _) as [[res|e] r'].
  - destruct (ModuleResolver.external res); [intros [= <-]; exact Hb|].
    match goal with
    | |- context [recur ?p ?d1 ?d2 ?b0] =>
        assert (kept b0) as Hb0
          by (split; [exact (proj1 Hb)|];
              apply each_update; [intros m; apply Q_dependencies|exact (proj2 Hb)]);
        destruct (recur p d1 d2 b0) as [[[u|e] b1]|] eqn:Hr; [| |discriminate];
        pose proof (Hrec _ _ _ _ _ _ Hb0 Hr) as Hb1
    end.
    + intros [= <-]. split; [exact (proj1 Hb1)|].
      apply each_update; [intros m; apply Q_dependents|exact (proj2 Hb1)].
    + intros [= <-]. exact Hb1.
  - intros [= <-]. exact Hb.
Qed.

Lemma processImports_kept
    (recur : string -> bool -> bool -> t -> option (outcome unit * t))
    (modulePath : string) (imps : list KonaParser.ImportInfo) (b b' : t) :
  (forall p d1 d2 b0 r b1, kept b0 -> recur p d1 d2 b0 = Some (r, b1) -> kept b1) ->
  kept b ->
  processImports h recur modulePath imps b = Some b' -> kept b'.
Proof using Q_dependencies Q_dependents.
  intros Hrec. unfold processImports. revert b.
  induction imps as [|imp imps IH]; intros b Hb; simpl.
  - intros [= <-]. exact Hb.
  - destruct (processImport h recur modulePath imp b) as [b1|] eqn:H1.
    + apply IH. exact (processImport_kept _ _ _ _ _ Hrec Hb H1).
    + clear. induction imps; simpl; [discriminate|assumption].
Qed.

Lemma processModule_kept (depth : nat) (p : string) (isEntry isDynamic : bool)
    (b b' : t) (r : outcome unit) :
  kept b ->
  processModule h depth p isEntry isDynamic b = Some (r, b') -> kept b'.
Proof using Q_dependencies Q_dependents Q_created.
  revert p isEntry isDynamic b b' r.
  induction depth as [|depth IH]; intros p isEntry isDynamic b b' r Hb; [discriminate|].
  simpl. destruct (has p (modules b)); [intros [= <- <-]; exact Hb|].
  destruct (existsSync h p) eqn:Hex; cbn [negb]; [|intros [= <- <-]; exact Hb].
  destruct (readFileSync h p) as [src|e] eqn:Hread; [|intros [= <- <-]; exact Hb].
  match goal with
  | |- context [processImports h ?rec ?mp ?imps ?b0] =>
      destruct (processImports h rec mp imps b0) as [b1|] eqn:Hp; [|discriminate];
      intros [= <- <-];
      refine (processImports_kept rec mp imps b0 b1 _ _ Hp)
  end.
  - intros q d1 d2 b0 r0 b2 Hb0 Hr. exact (IH _ _ _ _ _ _ Hb0 Hr).
  - destruct Hb as [Ho Hms]. split; [exact Ho|]. cbn [modules withModules].
    apply each_insert; [|exact Hms]. unfold applyDefines. rewrite Ho.
    apply Q_created; assumption.
Qed.

Lemma processEntries_kept (depth : nat) (entries : list string) (b b' : t)
    (r : outcome unit) :
  kept b -> processEntries h depth entries b = Some (r, b') -> kept b'.
Proof using Q_dependencies Q_dependents Q_created.
  revert b. induction entries as [|en entries IH]; intros b Hb; simpl.
  - intros [= <- <-]. exact Hb.
  - destruct (processModule h depth _ true false b) as [[[u|e] b1]|] eqn:Hp; [| |discriminate].
    + apply IH. exact (processModule_kept _ _ _ _ _ _ _ Hb Hp).
    + intros [= <- <-]. exact (processModule_kept _ _ _ _ _ _ _ Hb Hp).
Qed.

Lemma build_each (depth : nat) (b' : t) (out : BundleOutput) :
  build h depth (new h o) = Some (Ok out, b') -> each (modules b').
Proof using Q_dependencies Q_dependents Q_chunk Q_created.
  intros Hbuild. destruct (build_steps h _ _ _ _ Hbuild) as (b1 & Hp & Hb' & _).
  cbv zeta in Hb'.
  assert (kept (new h o)) as Hnew by (split; [reflexivity|constructor]).
  destruct (processEntries_kept _ _ _ _ _ Hnew Hp) as [_ H1].
  set (b2 := if default true (treeshake (options b1)) then treeShake b1 else b1) in *.
  assert (each (modules b2)) as H2.
  { unfold b2. destruct (default true (treeshake (options b1))); [|exact H1].
    unfold treeShake, withModules. cbn [modules]. apply each_filter. exact H1. }
  rewrite Hb'. destruct (default true (splitting (options b2))).
  - unfold splitCode, withModules. cbn [modules].
    apply each_mapModules;
      [intros k m Hm; destruct (hasChunk m); [exact Hm|apply Q_chunk; exact Hm]|].
    apply each_assignLoop.
    apply each_mapModules;
      [intros k m Hm; destruct (Mod.isDynamic m && negb (hasChunk m));
       [apply Q_chunk|]; exact Hm|].
    apply each_mapModules;
      [intros k m Hm; destruct (Mod.isEntry m); [apply Q_chunk|]; exact Hm|].
    exact H2.
  - unfold createSingleChunk, withModules. cbn [modules].
    apply each_mapModules; [intros k m Hm; apply Q_chunk; exact Hm|exact H2].
Qed.

End EachModule.

(** What [processModule] writes into a module and no later step
    changes. *)
Definition fromFile (h : Host) (o : Bundler.BundlerOptions) (m : Mod.t) : Prop :=
  Mod.id m = Bundler.generateModuleId h (Mod.path m)
  /\ existsSync h (Mod.path m) = true
  /\ readFileSync h (Mod.path m) = Ok (Mod.source m)
  /\ Mod.transformed m = Bundler.applyDefinesIn (default [] (Bundler.define o)) (Mod.source m)
  /\ Mod.parseResult m = KonaParser.parse h KonaParser.defaultOptions (Mod.source m)
  /\ Mod.hash m = Bundler.hashContent h (Mod.transformed m)
  /\ Mod.sideEffects m = true.

Lemma build_fromFile (h : Host) (o : Bundler.BundlerOptions) (depth : nat)
    (out : Bundler.BundleOutput) (b' : Bundler.t) (k : string) (m : Mod.t) :
  Bundler.build h depth (Bundler.new h o) = Some (Ok out, b') ->
  In (k, m) (Bundler.modules b') -> fromFile h o m.
Proof.
  intros Hb Hin.
  assert (each (fromFile h o) (Bundler.modules b')) as Hall.
  { refine (build_each h o _ _ _ _ _ depth b' out Hb).
    - intros ds x Hx. exact Hx.
    - intros ds x Hx. exact Hx.
    - intros c x Hx. exact Hx.
    - intros p source isEntry isDynamic Hex Hread. repeat split; assumption. }
  exact (proj1 (List.Forall_forall _ _) Hall _ Hin).
Qed.

(** ** Hot updates *)

Section HotUpdate.

Import Bundler DevServer.

Variable h : Host.

(** [path.relative] looks at its arguments as [path.resolve] leaves
    them. *)
Lemma relative_resolved (cwd from to to' : string) :
  Path.resolve cwd [to] = Path.resolve cwd [to'] ->
  Path.relative cwd from to = Path.relative cwd from to'.
Proof. intros H. unfold Path.relative. rewrite H. reflexivity. Qed.

(** The identifier of every module of a build is the one that
    [generateModuleId] gives to its path. *)
Lemma build_ids (depth : nat) (o : BundlerOptions) (out : BundleOutput) (b' : Bundler.t)
    (k : string) (m : Mod.t) :
  build h depth (new h o) = Some (Ok out, b') ->
  In (k, m) (modules b') -> Mod.id m = generateModuleId h k.
Proof.
  intros Hb Hin.
  destruct (build_stored h depth (new h o) b' out) as (Hst & _ & _); [|exact Hb|].
  { split; simpl; constructor. }
  destruct (build_fromFile h o depth out b' k m Hb Hin) as (Hid & _).
  destruct Hst as [_ Hpaths].
  pose proof (proj1 (List.Forall_forall _ _) Hpaths _ Hin) as Hp.
  simpl in *. rewrite Hid, Hp. reflexivity.
Qed.

Definition jsLike : list string := [".js"; ".jsx"; ".ts"; ".tsx"; ".mjs"].

Lemma flat_map_filter {A B} (p : A -> bool) (f : A -> B) (l : list A) :
  List.flat_map (fun x => if p x then [f x] else []) l = List.map f (List.filter p l).
Proof.
  induction l as [|x l IH]; simpl; [reflexivity|].
  destruct (p x); simpl; rewrite IH; reflexivity.
Qed.

(** X21.  For a server whose bundler has no plugins: when the file that
    changed is a script of the new bundle (its path resolves to the path
    of a module, and its extension is one of [.js], [.jsx], [.ts],
    [.tsx], [.mjs]) and the rebuild succeeds, the
    server stores the new bundle, and every client that is open, and no
    other, is sent one [update] message and no reload; the message
    names, in the order of the chunks, every chunk that lists the
    module, and there is such a chunk. *)
Theorem change_of_bundled_script_is_hot
    (depth : nat) (s : DevServer.t) (out : BundleOutput)
    (changedFile k : string) (m : Mod.t) :
  isRebuilding s = false ->
  bundle h depth (bundlerOptions s) = Some (Ok out) ->
  onRebuild s out = Ok tt ->
  In (k, m) (out_modules out) ->
  Path.resolve (cwd h) [changedFile] = Path.resolve (cwd h) [k] ->
  In (Str.toLowerCase (Path.extname changedFile)) jsLike ->
  let holders := List.filter (fun c => mem (Mod.id m) (Chunk.modules c)) (chunks out) in
  let ups :=
    List.map
      (fun c => {| u_type := js; u_path := "/" ++ Chunk.name c ++ ".js";
                   acceptedPath := changedFile; u_timestamp := now h |})
      holders in
  (exists c : Chunk.t, In c holders /\ In k (Chunk.sorted c))
  /\ rebuild h depth changedFile s
     = Some {| bundlerOptions := bundlerOptions s;
               onRebuild := onRebuild s;
               currentBundle := Some out;
               clients :=
                 List.map
                   (fun c =>
                      {| readyState := readyState c;
                         sent :=
                           match readyState c with
                           | OPEN =>
                               sent c ++ [{| type := Msg.update; timestamp := Some (now h);
                                             updates := Some ups; error := None |}]
                           | _ => sent c
                           end |})
                   (clients s);
               isRebuilding := false |}.
Proof.
  intros Hidle Hbundle Hcb Hin Hsame Hext holders ups. unfold bundle in Hbundle.
  destruct (build h depth (new h (bundlerOptions s))) as [[r b']|] eqn:Hb; [|discriminate].
  injection Hbundle as ->.
  destruct (build_stored h depth (new h (bundlerOptions s)) b' out) as (Hst & Hms & Hcs);
    [|exact Hb|].
  { split; simpl; constructor. }
  rewrite Hms in Hin.
  destruct (module_in_chunk b' k m Hst Hin) as (c & Hc & _ & Hk & Hid).
  rewrite <- Hcs in Hc.
  assert (In c holders) as Hholder.
  { apply List.filter_In. split; [exact Hc|]. apply mem_In. exact Hid. }
  assert (getUpdates h out changedFile = ups) as Hups.
  { unfold getUpdates. cbv zeta.
    destruct (String.eqb (Str.toLowerCase (Path.extname changedFile)) ".css") eqn:Ecss.
    - apply String.eqb_eq in Ecss. rewrite Ecss in Hext. exfalso.
      cbn in Hext. intuition discriminate.
    - assert (List.existsb (String.eqb (Str.toLowerCase (Path.extname changedFile)))
                [".js"; ".jsx"; ".ts"; ".tsx"; ".mjs"] = true) as ->.
      { apply List.existsb_exists. exists (Str.toLowerCase (Path.extname changedFile)).
        split; [exact Hext|apply String.eqb_refl]. }
      rewrite (relative_resolved (cwd h) (cwd h) changedFile k Hsame).
      change (Str.replaceAll "\" "/" (Path.relative (cwd h) (cwd h) k))
        with (generateModuleId h k).
      rewrite <- (build_ids _ _ _ _ _ _ Hb Hin).
      apply (flat_map_filter (fun c => mem (Mod.id m) (Chunk.modules c))). }
  split; [exists c; split; assumption|].
  unfold rebuild. rewrite Hidle, Hb. cbv zeta.
  change (onRebuild (setCurrentBundle out s) out) with (onRebuild s out).
  rewrite Hcb, Hups.
  assert (exists u rest, ups = u :: rest) as (u & rest & Hshape).
  { unfold ups. destruct holders as [|c0 cs]; [destruct Hholder|]. simpl. eauto. }
  rewrite Hshape at 1.
  unfold setRebuilding, broadcast, setCurrentBundle.
  cbn [bundlerOptions onRebuild currentBundle clients isRebuilding]. do 2 f_equal.
  apply List.map_ext. intros [[] sofar]; reflexivity.
Qed.

End HotUpdate.

(** ** The modules of a build *)

Section BuiltModules.

Import Bundler.

Variable h : Host.

Lemma has_keys {A} (k : string) (ms : list (string * A)) :
  has k ms = true <-> In k (List.map fst ms).
Proof.
  unfold has. induction ms as [|[k' v] ms IH]; simpl; [split; [discriminate|intros []]|].
  destruct (String.eqb k' k) eqn:E.
  - apply String.eqb_eq in E. split; [intros _; left; exact E|reflexivity].
  - rewrite IH. split; [intros H; right; exact H|].
    intros [->|H]; [rewrite String.eqb_refl in E; discriminate|exact H].
Qed.

Lemma has_update {A} (k k' : string) (f : A -> A) (ms : list (string * A)) :
  has k (update k' f ms) = has k ms.
Proof.
  destruct (has k ms) eqn:E.
  - apply has_keys. rewrite update_keys. apply has_keys. exact E.
  - destruct (has k (update k' f ms)) eqn:E'; [|reflexivity].
    apply has_keys in E'. rewrite update_keys in E'. apply has_keys in E'. congruence.
Qed.

Lemma mapModules_keys (f : string -> Mod.t -> Mod.t) (ms : list (string * Mod.t)) :
  List.map fst (mapModules f ms) = List.map fst ms.
Proof. unfold mapModules. rewrite List.map_map. reflexivity. Qed.

Lemma assignOnce_keys (ms : list (string * Mod.t)) :
  List.map fst (fst (assignOnce ms)) = List.map fst ms.
Proof.
  unfold assignOnce.
  apply (fold_left_invariant (fun acc => List.map fst (fst acc) = List.map fst ms));
    [reflexivity|].
  intros [cur changed] kv Hcur. simpl in *.
  destruct (assoc (fst kv) cur) as [module|]; [|exact Hcur].
  destruct (hasChunk module); [exact Hcur|].
  destruct (dependentChunk cur (Mod.dependents module)); [|exact Hcur].
  simpl. rewrite update_keys. exact Hcur.
Qed.

Lemma assignLoop_keys (rounds : nat) :
  forall ms : list (string * Mod.t),
    List.map fst (assignLoop rounds ms) = List.map fst ms.
Proof.
  induction rounds as [|rounds IH]; intros ms; simpl; [reflexivity|].
  pose proof (assignOnce_keys ms) as H1.
  destruct (assignOnce ms) as [ms' changed]. simpl in H1.
  destruct changed; [rewrite IH|]; exact H1.
Qed.

(** A path that is a key stays one while modules are processed. *)
Lemma processModule_keeps_key (k : string) (depth : nat) (p : string)
    (isEntry isDynamic : bool) (b b' : t) (r : outcome unit) :
  has k (modules b) = true ->
  processModule h depth p isEntry isDynamic b = Some (r, b') -> has k (modules b') = true.
Proof.
  apply (processModule_preserves h (fun ms => has k ms = true)).
  - intros k' f ms _ H. rewrite has_update. exact H.
  - intros k' m ms _ _ _ H. rewrite has_assocSet, H. apply orb_true_r.
Qed.

Lemma processEntries_keeps_key (k : string) (depth : nat) (entries : list string)
    (b b' : t) (r : outcome unit) :
  has k (modules b) = true ->
  processEntries h depth entries b = Some (r, b') -> has k (modules b') = true.
Proof.
  apply (processEntries_preserves h (fun ms => has k ms = true)).
  - intros k' f ms _ H. rewrite has_update. exact H.
  - intros k' m ms _ _ _ H. rewrite has_assocSet, H. apply orb_true_r.
Qed.

(** A call of [processModule] that returns has the module stored. *)
Lemma processModule_loads (depth : nat) (p : string) (isEntry isDynamic : bool)
    (b b' : t) :
  processModule h depth p isEntry isDynamic b = Some (Ok tt, b') ->
  has p (modules b') = true.
Proof.
  destruct depth as [|depth]; [discriminate|]. simpl.
  destruct (has p (modules b)) eqn:Hhas; [intros [= <-]; exact Hhas|].
  destruct (negb (existsSync h p)); [discriminate|].
  destruct (readFileSync h p) as [src|e]; [|discriminate].
  match goal with
  | |- context [processImports h ?rec ?mp ?imps ?b0] =>
      destruct (processImports h rec mp imps b0) as [b1|] eqn:Hp; [|discriminate];
      intros [= <-];
      refine (processImports_preserves h (fun ms => has p ms = true) _
                rec mp imps b0 b1 _ _ Hp)
  end.
  - intros k' f ms _ H. rewrite has_update. exact H.
  - intros q d1 d2 b0 r0 b2 Hb0 Hr.
    exact (processModule_keeps_key p depth q d1 d2 b0 b2 r0 Hb0 Hr).
  - cbn [modules withModules]. rewrite has_assocSet, String.eqb_refl. reflexivity.
Qed.

Lemma processEntries_loads (depth : nat) (entries : list string) :
  forall (b b' : t),
    processEntries h depth entries b = Some (Ok tt, b') ->
    forall e, In e entries -> has (Path.resolve (cwd h) [cwd h; e]) (modules b') = true.
Proof.
  induction entries as [|en entries IH]; intros b b' Hp e He; [destruct He|].
  simpl in Hp.
  destruct (processModule h depth _ true false b) as [[[[]|err] b1]|] eqn:Hm;
    [|discriminate|discriminate].
  destruct He as [<-|He]; [|exact (IH _ _ Hp e He)].
  apply (processEntries_keeps_key _ depth entries b1 b' (Ok tt)); [|exact Hp].
  exact (processModule_loads _ _ _ _ _ _ Hm).
Qed.

(** The keys of the output are the keys that [processModule] stored. *)
Lemma build_keys (depth : nat) (b b' : t) (out : BundleOutput) :
  allSideEffects (modules b) ->
  build h depth b = Some (Ok out, b') ->
  exists b1 : t,
    processEntries h depth (entry (options b)) b = Some (Ok tt, b1)
    /\ List.map fst (modules b') = List.map fst (modules b1).
Proof.
  intros Hse Hb. destruct (build_steps h _ _ _ _ Hb) as (b1 & Hp & Hb' & _).
  cbv zeta in Hb'. exists b1. split; [exact Hp|].
  assert (allSideEffects (modules b1)) as Hse1.
  { refine (processEntries_preserves h allSideEffects _ _ _ _ _ _ _ Hse Hp).
    - intros k f ms Hf. apply update_sideEffects. intros m. exact (proj2 (Hf m)).
    - intros k m ms _ _ Hm. apply assocSet_sideEffects. exact Hm. }
  set (b2 := if default true (treeshake (options b1)) then treeShake b1 else b1) in *.
  assert (modules b2 = modules b1) as H2.
  { unfold b2. destruct (default true (treeshake (options b1))); [|reflexivity].
    apply treeShake_keeps_all. exact Hse1. }
  rewrite Hb', <- H2. destruct (default true (splitting (options b2))).
  - unfold splitCode, withModules. cbn [modules].
    rewrite mapModules_keys, assignLoop_keys, !mapModules_keys. reflexivity.
  - unfold createSingleChunk, withModules. cbn [modules]. apply mapModules_keys.
Qed.

(** X22.  For a bundler without plugins, every entry of a build that
    succeeds is a module of the output, stored under its resolved path,
    with the text of the file at that path. *)
Theorem entries_are_bundled
    (depth : nat) (o : BundlerOptions) (out : BundleOutput) (e : string) :
  bundle h depth o = Some (Ok out) ->
  In e (entry o) ->
  exists m : Mod.t,
    In (Path.resolve (cwd h) [cwd h; e], m) (out_modules out)
    /\ readFileSync h (Path.resolve (cwd h) [cwd h; e]) = Ok (Mod.source m).
Proof.
  unfold bundle. destruct (build h depth (new h o)) as [[r b']|] eqn:Hb; [|discriminate].
  intros [= ->] He.
  destruct (build_stored h depth (new h o) b' out) as (Hst & Hms & _); [|exact Hb|].
  { split; simpl; constructor. }
  destruct (build_keys depth (new h o) b' out) as (b1 & Hp & Hkeys); [constructor|exact Hb|].
  pose proof (processEntries_loads _ _ _ _ Hp e He) as Hhas.
  apply has_keys in Hhas. rewrite <- Hkeys in Hhas.
  apply List.in_map_iff in Hhas as ([k m] & Hk & Hin). cbn [fst] in Hk. subst k.
  exists m. rewrite Hms. split; [exact Hin|].
  destruct (build_fromFile h o depth out b' _ m Hb Hin) as (_ & _ & Hread & _).
  destruct Hst as [_ Hpaths].
  pose proof (proj1 (List.Forall_forall _ _) Hpaths _ Hin) as Hpath. cbn [fst snd] in Hpath.
  rewrite <- Hpath. exact Hread.
Qed.

(** X23.  For a bundler without plugins, every module of the output of a
    build is stored under its path and carries what [processModule] made
    of the file at that path:
    the identifier of the path, the text of the file, the text with
    the defines applied, the parse result and the hash of the
    transformed text, and the side-effect flag set; it has a chunk. *)
Theorem bundled_module_mirrors_its_file
    (depth : nat) (o : BundlerOptions) (out : BundleOutput) (k : string) (m : Mod.t) :
  bundle h depth o = Some (Ok out) ->
  In (k, m) (out_modules out) ->
  Mod.path m = k
  /\ Mod.id m = generateModuleId h k
  /\ readFileSync h k = Ok (Mod.source m)
  /\ Mod.transformed m = applyDefinesIn (default [] (define o)) (Mod.source m)
  /\ Mod.parseResult m = KonaParser.parse h KonaParser.defaultOptions (Mod.source m)
  /\ Mod.hash m = hashContent h (Mod.transformed m)
  /\ Mod.sideEffects m = true
  /\ Mod.chunk m = Some (chunkIdOf m).
Proof.
  unfold bundle. destruct (build h depth (new h o)) as [[r b']|] eqn:Hb; [|discriminate].
  intros [= ->] Hin.
  destruct (build_stored h depth (new h o) b' out) as (Hst & Hms & _); [|exact Hb|].
  { split; simpl; constructor. }
  rewrite Hms in Hin.
  destruct (build_fromFile h o depth out b' k m Hb Hin)
    as (Hid & _ & Hread & Htr & Hparse & Hhash & Hse).
  destruct Hst as [_ Hpaths].
  pose proof (proj1 (List.Forall_forall _ _) Hpaths _ Hin) as Hpath. cbn [fst snd] in Hpath.
  pose proof (proj1 (List.Forall_forall _ _) (build_allChunked h _ _ _ _ Hb) _ Hin) as Hc.
  cbn [snd] in Hc. rewrite <- Hpath.
  repeat split; try assumption. apply hasChunk_chunkIdOf. exact Hc.
Qed.

End BuiltModules.

Section BuiltModulesExamples.

Import Bundler Fixtures.

Lemma entries_are_bundled_witness :
  exists m : Mod.t,
    In (Path.resolve (cwd pureHost) [cwd pureHost; "main.js"], m) (out_modules pureOutput)
    /\ readFileSync pureHost (Path.resolve (cwd pureHost) [cwd pureHost; "main.js"])
       = Ok (Mod.source m).
Proof.
  apply (entries_are_bundled pureHost 4 pureOptions pureOutput "main.js").
  - vm_compute. reflexivity.
  - left. reflexivity.
Defined.

Lemma bundled_module_mirrors_its_file_witness :
  let m := default noModule (assoc "/p/node_modules/pure/index.js" (out_modules pureOutput)) in
  Mod.path m = "/p/node_modules/pure/index.js"
  /\ Mod.id m = generateModuleId pureHost "/p/node_modules/pure/index.js"
  /\ readFileSync pureHost "/p/node_modules/pure/index.js" = Ok (Mod.source m)
  /\ Mod.transformed m = applyDefinesIn (default [] (define pureOptions)) (Mod.source m)
  /\ Mod.parseResult m = KonaParser.parse pureHost KonaParser.defaultOptions (Mod.source m)
  /\ Mod.hash m = hashContent pureHost (Mod.transformed m)
  /\ Mod.sideEffects m = true
  /\ Mod.chunk m = Some (chunkIdOf m).
Proof.
  apply (bundled_module_mirrors_its_file pureHost 4 pureOptions pureOutput).
  - vm_compute. reflexivity.
  - vm_compute. right. left. reflexivity.
Defined.

End BuiltModulesExamples.

(** ** A build that goes on *)

Section BuildGoesOn.

Import Bundler.

Variable h : Host.

(** *** Enough depth *)

(** The paths of [files] that are not stored yet. *)
Definition unloaded (files : list string) (ms : list (string * Mod.t)) : nat :=
  List.length (List.filter (fun f => negb (has f ms)) files).

(** The keys of [b] are keys of [b']. *)
Definition keeps (b b' : t) : Prop :=
  forall k : string, has k (modules b) = true -> has k (modules b') = true.

Lemma keeps_refl (b : t) : keeps b b.
Proof. intros k H. exact H. Qed.

Lemma keeps_trans (b1 b2 b3 : t) : keeps b1 b2 -> keeps b2 b3 -> keeps b1 b3.
Proof. intros H12 H23 k H. exact (H23 k (H12 k H)). Qed.

Lemma unloaded_keeps (files : list string) (b b' : t) :
  keeps b b' -> unloaded files (modules b') <= unloaded files (modules b).
Proof.
  intros Hg. unfold unloaded. induction files as [|f files IH]; simpl; [lia|].
  destruct (has f (modules b)) eqn:Hf.
  - rewrite (Hg f Hf). simpl. exact IH.
  - destruct (has f (modules b')); simpl; lia.
Qed.

Lemma unloaded_stored (files : list string) (b b' : t) (p : string) :
  keeps b b' -> In p files -> has p (modules b) = false -> has p (modules b') = true ->
  unloaded files (modules b') < unloaded files (modules b).
Proof.
  intros Hg Hin Hb Hb'. unfold unloaded.
  induction files as [|f files IH]; [destruct Hin|]. simpl.
  pose proof (unloaded_keeps files b b' Hg) as Hle. unfold unloaded in Hle.
  destruct Hin as [->|Hin].
  - rewrite Hb, Hb'. simpl. lia.
  - specialize (IH Hin). destruct (has f (modules b)) eqn:Hf.
    + rewrite (Hg f Hf). simpl. exact IH.
    + destruct (has f (modules b')); simpl; lia.
Qed.

Lemma processImports_cons
    (recur : string -> bool -> bool -> t -> option (outcome unit * t))
    (p : string) (imp : KonaParser.ImportInfo) (imps : list KonaParser.ImportInfo) (b : t) :
  processImports h recur p (imp :: imps) b
  = match processImport h recur p imp b with
    | Some b1 => processImports h recur p imps b1
    | None => None
    end.
Proof.
  unfold processImports. simpl.
  destruct (processImport h recur p imp b) as [b1|]; [reflexivity|].
  induction imps as [|i imps IH]; simpl; [reflexivity | exact IH].
Qed.

Section Returns.

Variable files : list string.
Hypothesis files_cover : forall p : string, existsSync h p = true -> In p files.

(** [recur] returns on every bundler with fewer than [n] files left. *)
Definition returnsBelow (n : nat)
    (recur : string -> bool -> bool -> t -> option (outcome unit * t)) : Prop :=
  forall (q : string) (d1 d2 : bool) (b : t),
    unloaded files (modules b) < n ->
    exists (r : outcome unit) (b' : t), recur q d1 d2 b = Some (r, b') /\ keeps b b'.

Lemma keeps_addDependent (q p : string) (b : t) : keeps b (addDependent q p b).
Proof.
  intros k. unfold addDependent, withModules. cbn [modules]. rewrite has_update. auto.
Qed.

Lemma processImport_returns (n : nat)
    (recur : string -> bool -> bool -> t -> option (outcome unit * t))
    (p : string) (imp : KonaParser.ImportInfo) (b : t) :
  returnsBelow n recur -> unloaded files (modules b) < n ->
  exists b' : t, processImport h recur p imp b = Some b' /\ keeps b b'.
Proof.
  intros Hrec Hn. unfold processImport.
  destruct (KonaParser.isTypeOnly imp); [exists b; split; [reflexivity|apply keeps_refl]|].
  destruct (ModuleResolver.resolve _ _ _ _) as [[res|e] r'].
  - destruct (ModuleResolver.external res);
      [eexists; split; [reflexivity|intros k Hk; exact Hk]|].
    match goal with
    | |- context [recur ?q ?d1 ?d2 ?b0] =>
        assert (keeps b b0) as Hg0
          by (intros k Hk; unfold pushDependency, withModules; cbn [modules];
              rewrite has_update; exact Hk);
        destruct (Hrec q d1 d2 b0) as (r & b1 & -> & Hg);
          [pose proof (unloaded_keeps files b b0 Hg0); lia|]
    end.
    destruct r as [u|e]; eexists; (split; [reflexivity|]).
    + intros k Hk. apply keeps_addDependent. exact (Hg k (Hg0 k Hk)).
    + intros k Hk. exact (Hg k (Hg0 k Hk)).
  - eexists. split; [reflexivity|intros k Hk; exact Hk].
Qed.

Lemma processImports_returns (n : nat)
    (recur : string -> bool -> bool -> t -> option (outcome unit * t))
    (p : string) (imps : list KonaParser.ImportInfo) :
  returnsBelow n recur ->
  forall b : t,
    unloaded files (modules b) < n ->
    exists b' : t, processImports h recur p imps b = Some b' /\ keeps b b'.
Proof.
  intros Hrec. induction imps as [|imp imps IH]; intros b Hn.
  - exists b. split; [reflexivity|apply keeps_refl].
  - rewrite processImports_cons.
    destruct (processImport_returns n recur p imp b Hrec Hn) as (b1 & -> & Hg1).
    destruct (IH b1) as (b2 & H2 & Hg2).
    { pose proof (unloaded_keeps files b b1 Hg1). lia. }
    exists b2. split; [exact H2|exact (keeps_trans _ _ _ Hg1 Hg2)].
Qed.

(** With more depth than files are left, [processModule] returns. *)
Lemma processModule_returns (depth : nat) : returnsBelow depth (processModule h depth).
Proof using files_cover.
  induction depth as [|depth IH]; intros p isEntry isDynamic b Hn; [lia|].
  simpl. destruct (has p (modules b)) eqn:Hhas;
    [exists (Ok tt), b; split; [reflexivity|apply keeps_refl]|].
  destruct (existsSync h p) eqn:Hex; cbn [negb];
    [|eexists _, b; split; [reflexivity|apply keeps_refl]].
  destruct (readFileSync h p) as [src|e];
    [|eexists _, b; split; [reflexivity|apply keeps_refl]].
  match goal with
  | |- context [processImports h ?rec ?mp ?imps ?b0] =>
      assert (keeps b b0) as Hg0
        by (intros k Hk; cbn [modules withModules]; rewrite has_assocSet, Hk;
            apply orb_true_r);
      assert (unloaded files (modules b0) < depth) as Hn0;
      [|destruct (processImports_returns depth rec mp imps IH b0 Hn0) as (b1 & -> & Hg1)]
  end.
  - assert (unloaded files (modules (withModules
              (assocSet p
                 {| Mod.id := generateModuleId h p; Mod.path := p; Mod.source := src;
                    Mod.transformed := applyDefines b src;
                    Mod.parseResult := KonaParser.parse h KonaParser.defaultOptions src;
                    Mod.dependencies := []; Mod.dependents := [];
                    Mod.isEntry := isEntry; Mod.isDynamic := isDynamic;
                    Mod.chunk := None;
                    Mod.hash := hashContent h (applyDefines b src);
                    Mod.sideEffects := true |} (modules b)) b))
            < unloaded files (modules b)); [|lia].
    apply (unloaded_stored files _ _ p Hg0 (files_cover p Hex) Hhas).
    cbn [modules withModules]. rewrite has_assocSet, String.eqb_refl. reflexivity.
  - exists (Ok tt), b1. split; [reflexivity|exact (keeps_trans _ _ _ Hg0 Hg1)].
Qed.

Lemma processEntries_returns (depth : nat) (entries : list string) :
  forall b : t,
    unloaded files (modules b) < depth ->
    exists (r : outcome unit) (b' : t), processEntries h depth entries b = Some (r, b').
Proof using files_cover.
  induction entries as [|en entries IH]; intros b Hn; simpl; [eauto|].
  destruct (processModule_returns depth (Path.resolve (cwd h) [cwd h; en]) true false b Hn)
    as ([u|e] & b1 & -> & Hg); [|eauto].
  apply IH. pose proof (unloaded_keeps files b b1 Hg). lia.
Qed.

Lemma build_returns (depth : nat) (b : t) :
  unloaded files (modules b) < depth ->
  exists (r : outcome BundleOutput) (b' : t), build h depth b = Some (r, b').
Proof using files_cover.
  intros Hn. unfold build.
  destruct (processEntries_returns depth (entry (options b)) b Hn) as ([u|e] & b1 & ->);
    eauto.
Qed.

End Returns.

(** *** What becomes of an import *)

Section Handled.

(** The options of the resolver of the bundler. *)
Variable ro : ModuleResolver.Options.

(** What has become of the import [imp] of the module [m] in the
    bundler [b]: it was skipped with a warning, or its edge is recorded
    and leads to a stored module, or the resolver called it external. *)
Definition handled (b : t) (m : Mod.t) (imp : KonaParser.ImportInfo) : Prop :=
  In (couldNotResolve (KonaParser.source imp) (Mod.path m)) (warnings b)
  \/ (exists d : Dependency.t,
        In d (Mod.dependencies m)
        /\ Dependency.specifier d = KonaParser.source imp
        /\ has (Dependency.resolved d) (modules b) = true)
  \/ (exists (r : ModuleResolver.Resolver) (res : ModuleResolver.ResolveResult),
        ModuleResolver.options r = ro
        /\ fst (ModuleResolver.resolve h r (KonaParser.source imp) (Some (Mod.path m)))
           = Ok res
        /\ ModuleResolver.external res = true).

Definition complete (b : t) (m : Mod.t) : Prop :=
  forall imp : KonaParser.ImportInfo,
    In imp (KonaParser.imports (Mod.parseResult m)) ->
    KonaParser.isTypeOnly imp = false -> handled b m imp.

(** [b'] is [b] some steps later: nothing is taken back. *)
Definition later (b b' : t) : Prop :=
  List.incl (warnings b) (warnings b')
  /\ (forall (k : string) (m : Mod.t),
        assoc k (modules b) = Some m ->
        exists m' : Mod.t,
          assoc k (modules b') = Some m'
          /\ Mod.path m' = Mod.path m
          /\ Mod.parseResult m' = Mod.parseResult m
          /\ List.incl (Mod.dependencies m) (Mod.dependencies m'))
  /\ ModuleResolver.options (resolver b') = ModuleResolver.options (resolver b).

(** The modules that [b'] has and [b] had not are complete. *)
Definition newComplete (b b' : t) : Prop :=
  forall (k : string) (m' : Mod.t),
    assoc k (modules b') = Some m' -> assoc k (modules b) = None -> complete b' m'.

Lemma later_refl (b : t) : later b b.
Proof.
  split; [apply List.incl_refl|]. split; [|reflexivity].
  intros k m Hk. exists m. repeat split; [exact Hk|apply List.incl_refl].
Qed.

Lemma later_trans (b1 b2 b3 : t) : later b1 b2 -> later b2 b3 -> later b1 b3.
Proof.
  intros (Hw12 & Hm12 & Ho12) (Hw23 & Hm23 & Ho23).
  split; [exact (List.incl_tran Hw12 Hw23)|]. split; [|congruence].
  intros k m Hk. destruct (Hm12 k m Hk) as (m2 & Hk2 & Hp2 & Hr2 & Hd2).
  destruct (Hm23 k m2 Hk2) as (m3 & Hk3 & Hp3 & Hr3 & Hd3).
  exists m3. repeat split; [exact Hk3|congruence|congruence|exact (List.incl_tran Hd2 Hd3)].
Qed.

Lemma later_has (b b' : t) (k : string) :
  later b b' -> has k (modules b) = true -> has k (modules b') = true.
Proof.
  intros (_ & Hm & _). unfold has. destruct (assoc k (modules b)) as [m|] eqn:Hk;
    [|discriminate].
  destruct (Hm k m Hk) as (m' & -> & _). reflexivity.
Qed.

Lemma handled_later (b b' : t) (k : string) (m m' : Mod.t) (imp : KonaParser.ImportInfo) :
  later b b' -> assoc k (modules b) = Some m -> assoc k (modules b') = Some m' ->
  handled b m imp -> handled b' m' imp.
Proof.
  intros Hl Hk Hk' Hh. pose proof Hl as (Hw & Hm & _).
  destruct (Hm k m Hk) as (m0 & Hk0 & Hpath & _ & Hdeps).
  rewrite Hk' in Hk0. injection Hk0 as <-. unfold handled. rewrite Hpath.
  destruct Hh as [Hwarned|[(d & Hd & Hspec & Hto)|Hext]].
  - left. exact (Hw _ Hwarned).
  - right. left. exists d. repeat split; [exact (Hdeps _ Hd)|exact Hspec|].
    exact (later_has _ _ _ Hl Hto).
  - right. right. exact Hext.
Qed.

Lemma complete_later (b b' : t) (k : string) (m m' : Mod.t) :
  later b b' -> assoc k (modules b) = Some m -> assoc k (modules b') = Some m' ->
  complete b m -> complete b' m'.
Proof.
  intros Hl Hk Hk' Hc imp Himp Htype. pose proof Hl as (_ & Hm & _).
  destruct (Hm k m Hk) as (m0 & Hk0 & _ & Hparse & _).
  rewrite Hk' in Hk0. injection Hk0 as <-. rewrite Hparse in Himp.
  exact (handled_later b b' k m m' imp Hl Hk Hk' (Hc imp Himp Htype)).
Qed.

Lemma newComplete_trans (b1 b2 b3 : t) :
  later b2 b3 -> newComplete b1 b2 -> newComplete b2 b3 -> newComplete b1 b3.
Proof.
  intros Hl H12 H23 k m3 Hk3 Hk1.
  destruct (assoc k (modules b2)) as [m2|] eqn:Hk2.
  - exact (complete_later b2 b3 k m2 m3 Hl Hk2 Hk3 (H12 k m2 Hk2 Hk1)).
  - exact (H23 k m3 Hk3 Hk2).
Qed.

Lemma assoc_update {A} (k k' : string) (f : A -> A) (ms : list (string * A)) :
  assoc k (update k' f ms)
  = if String.eqb k' k then option_map f (assoc k ms) else assoc k ms.
Proof.
  induction ms as [|[k0 v] ms IH]; simpl; [destruct (String.eqb k' k); reflexivity|].
  destruct (String.eqb k0 k') eqn:E0; simpl.
  - apply String.eqb_eq in E0. subst k0. destruct (String.eqb k' k); reflexivity.
  - destruct (String.eqb k0 k) eqn:E.
    + apply String.eqb_eq in E. subst k0. rewrite String.eqb_sym, E0. reflexivity.
    + exact IH.
Qed.

(** An update of a module that keeps its path and parse result and
    does not shorten its dependencies, and new warnings, lead to a later
    bundler. *)
Lemma later_update (b : t) (k : string) (f : Mod.t -> Mod.t) :
  (forall m, Mod.path (f m) = Mod.path m /\ Mod.parseResult (f m) = Mod.parseResult m
             /\ List.incl (Mod.dependencies m) (Mod.dependencies (f m))) ->
  later b (withModules (update k f (modules b)) b).
Proof.
  intros Hf. split; [apply List.incl_refl|]. split; [|reflexivity].
  intros k0 m Hk0. cbn [modules withModules]. rewrite assoc_update, Hk0.
  destruct (String.eqb k k0).
  - exists (f m). destruct (Hf m) as (Hp & Hr & Hd). repeat split; assumption.
  - exists m. repeat split; apply List.incl_refl.
Qed.

Lemma later_warn (b : t) (msg : string) : later b (warn msg b).
Proof.
  split; [intros x Hx; cbn [warnings warn]; apply List.in_or_app; left; exact Hx|].
  split; [|reflexivity].
  intros k m Hk. exists m. repeat split; [exact Hk|apply List.incl_refl].
Qed.

Lemma later_resolved (b : t) (src : string) (from : option string) :
  later b (withResolver (snd (ModuleResolver.resolve h (resolver b) src from)) b).
Proof.
  split; [apply List.incl_refl|]. split; [|apply resolve_options].
  intros k m Hk. exists m. repeat split; [exact Hk|apply List.incl_refl].
Qed.

Lemma newComplete_same (b b' : t) :
  (forall k, has k (modules b') = true -> has k (modules b) = true) -> newComplete b b'.
Proof.
  intros Hsame k m' Hk' Hk. exfalso.
  assert (has k (modules b') = true) as H by (unfold has; rewrite Hk'; reflexivity).
  apply Hsame in H. unfold has in H. rewrite Hk in H. discriminate.
Qed.

(** What the recursive call is to keep. *)
Definition careful (recur : string -> bool -> bool -> t -> option (outcome unit * t))
  : Prop :=
  forall (q : string) (d1 d2 : bool) (b b' : t) (r : outcome unit),
    ModuleResolver.options (resolver b) = ro ->
    recur q d1 d2 b = Some (r, b') ->
    later b b' /\ newComplete b b'
    /\ (r = Ok tt -> has q (modules b') = true).

Lemma processImport_handles
    (recur : string -> bool -> bool -> t -> option (outcome unit * t))
    (p : string) (imp : KonaParser.ImportInfo) (b b' : t) (mp : Mod.t) :
  careful recur ->
  ModuleResolver.options (resolver b) = ro ->
  assoc p (modules b) = Some mp -> Mod.path mp = p ->
  processImport h recur p imp b = Some b' ->
  later b b' /\ newComplete b b'
  /\ (KonaParser.isTypeOnly imp = false ->
      exists m' : Mod.t, assoc p (modules b') = Some m' /\ handled b' m' imp).
Proof.
  intros Hrec Hro Hp Hpath. unfold processImport.
  destruct (KonaParser.isTypeOnly imp) eqn:Htype.
  { intros [= <-]. split; [apply later_refl|].
    split; [apply newComplete_same; auto | discriminate]. }
  pose proof (later_resolved b (KonaParser.source imp) (Some p)) as Hl0.
  destruct (ModuleResolver.resolve h (resolver b) (KonaParser.source imp) (Some p))
    as [[res|e] r'] eqn:Hres; cbn [snd] in Hl0.
  - destruct (ModuleResolver.external res) eqn:Hext.
    + intros [= <-]. split; [exact Hl0|]. split; [apply newComplete_same; auto|].
      intros _. exists mp. split; [exact Hp|]. right. right.
      exists (resolver b), res. rewrite Hpath, Hres. repeat split; assumption.
    + set (d := {| Dependency.specifier := KonaParser.source imp;
                   Dependency.resolved := ModuleResolver.path res;
                   Dependency.isDynamic := KonaParser.isDynamic imp;
                   Dependency.isTypeOnly := false |}).
      set (b0 := pushDependency p d (withResolver r' b)).
      assert (later (withResolver r' b) b0) as Hl1.
      { apply later_update. intros m. repeat split.
        intros x Hx. cbn [Mod.dependencies Mod.withDependencies].
        apply List.in_or_app. left. exact Hx. }
      assert (exists m0, assoc p (modules b0) = Some m0 /\ In d (Mod.dependencies m0))
        as (m0 & Hp0 & Hd0).
      { unfold b0, pushDependency. cbn [modules withModules withResolver].
        rewrite assoc_update, String.eqb_refl, Hp. eexists. split; [reflexivity|].
        cbn [Mod.dependencies Mod.withDependencies]. apply List.in_or_app.
        right. left. reflexivity. }
      assert (ModuleResolver.options (resolver b0) = ro) as Hro0.
      { destruct Hl0 as (_ & _ & Ho). cbn [resolver withResolver] in Ho.
        unfold b0, pushDependency. cbn [resolver withModules withResolver]. congruence. }
      destruct (recur (ModuleResolver.path res) false (KonaParser.isDynamic imp) b0)
        as [[r b1]|] eqn:Hr; [|discriminate].
      destruct (Hrec _ _ _ _ _ _ Hro0 Hr) as (Hl2 & Hnew & Hloaded).
      assert (later b b1) as Hl by exact (later_trans _ _ _ (later_trans _ _ _ Hl0 Hl1) Hl2).
      assert (newComplete b b1) as Hnew1.
      { intros k m' Hk' Hk. apply (Hnew k m' Hk').
        unfold b0, pushDependency. cbn [modules withModules withResolver].
        rewrite assoc_update, Hk. destruct (String.eqb p k); reflexivity. }
      destruct (proj1 (proj2 Hl2) p m0 Hp0) as (m1 & Hp1 & Hpath1 & _ & Hdeps1).
      assert (Mod.path m0 = p) as Hpath0.
      { destruct (proj1 (proj2 (later_trans _ _ _ Hl0 Hl1)) p mp Hp)
          as (m0' & Hp0' & Hpath0 & _). rewrite Hp0 in Hp0'. injection Hp0' as <-.
        congruence. }
      destruct r as [[]|e].
      * intros [= <-].
        assert (later b1 (addDependent (ModuleResolver.path res) p b1)) as Hl3.
        { apply later_update. intros m. repeat split. apply List.incl_refl. }
        split; [exact (later_trans _ _ _ Hl Hl3)|].
        split.
        -- apply (newComplete_trans b b1 _ Hl3 Hnew1). apply newComplete_same.
           intros k. unfold addDependent. cbn [modules withModules].
           rewrite has_update. auto.
        -- intros _. destruct (proj1 (proj2 Hl3) p m1 Hp1) as (m2 & Hp2 & Hpath2 & _ & Hdeps2).
           exists m2. split; [exact Hp2|]. right. left. exists d.
           repeat split; [exact (Hdeps2 _ (Hdeps1 _ Hd0))|].
           apply (later_has _ _ _ Hl3). exact (Hloaded eq_refl).
      * intros [= <-].
        pose proof (later_warn b1 (couldNotResolve (KonaParser.source imp) p)) as Hl3.
        split; [exact (later_trans _ _ _ Hl Hl3)|].
        split.
        -- apply (newComplete_trans b b1 _ Hl3 Hnew1). apply newComplete_same. auto.
        -- intros _. exists m1. split; [exact Hp1|]. left.
           rewrite Hpath1, Hpath0. cbn [warnings warn]. apply List.in_or_app.
           right. left. reflexivity.
  - intros [= <-].
    pose proof (later_warn (withResolver r' b) (couldNotResolve (KonaParser.source imp) p))
      as Hl1.
    split; [exact (later_trans _ _ _ Hl0 Hl1)|].
    split; [apply newComplete_same; auto|].
    intros _. exists mp. split; [exact Hp|]. left. rewrite Hpath.
    cbn [warnings warn]. apply List.in_or_app. right. left. reflexivity.
Qed.

Lemma processImports_handles
    (recur : string -> bool -> bool -> t -> option (outcome unit * t))
    (p : string) (imps : list KonaParser.ImportInfo) :
  careful recur ->
  forall (b b' : t) (mp : Mod.t),
    ModuleResolver.options (resolver b) = ro ->
    assoc p (modules b) = Some mp -> Mod.path mp = p ->
    processImports h recur p imps b = Some b' ->
    later b b' /\ newComplete b b'
    /\ exists m' : Mod.t,
         assoc p (modules b') = Some m'
         /\ forall imp, In imp imps -> KonaParser.isTypeOnly imp = false ->
                        handled b' m' imp.
Proof.
  intros Hrec. induction imps as [|imp imps IH]; intros b b' mp Hro Hp Hpath.
  - intros [= <-]. split; [apply later_refl|]. split; [apply newComplete_same; auto|].
    exists mp. split; [exact Hp|]. intros imp [].
  - rewrite processImports_cons.
    destruct (processImport h recur p imp b) as [b1|] eqn:H1; [|discriminate].
    destruct (processImport_handles recur p imp b b1 mp Hrec Hro Hp Hpath H1)
      as (Hl1 & Hnew1 & Hdone).
    destruct (proj1 (proj2 Hl1) p mp Hp) as (m1 & Hp1 & Hpath1 & _).
    intros H2.
    destruct (IH b1 b' m1) as (Hl2 & Hnew2 & m' & Hp' & Hrest);
      [destruct Hl1 as (_ & _ & Ho); congruence|exact Hp1|congruence|exact H2|].
    split; [exact (later_trans _ _ _ Hl1 Hl2)|].
    split; [exact (newComplete_trans _ _ _ Hl2 Hnew1 Hnew2)|].
    exists m'. split; [exact Hp'|].
    intros i [Heq|Hi] Htype; [subst i|exact (Hrest i Hi Htype)].
    destruct (Hdone Htype) as (m1' & Hp1' & Hh). rewrite Hp1 in Hp1'. injection Hp1' as <-.
    exact (handled_later b1 b' p m1 m' imp Hl2 Hp1 Hp' Hh).
Qed.

Lemma processModule_careful (depth : nat) : careful (processModule h depth).
Proof.
  induction depth as [|depth IH]; intros p isEntry isDynamic b b' r Hro; [discriminate|].
  cbn [processModule]. destruct (has p (modules b)) eqn:Hhas.
  { intros [= <- <-]. split; [apply later_refl|].
    split; [apply newComplete_same; auto|]. intros _. exact Hhas. }
  destruct (negb (existsSync h p)).
  { intros [= <- <-]. split; [apply later_refl|].
    split; [apply newComplete_same; auto|discriminate]. }
  destruct (readFileSync h p) as [src|e].
  2:{ intros [= <- <-]. split; [apply later_refl|].
      split; [apply newComplete_same; auto|discriminate]. }
  set (m0 := {| Mod.id := generateModuleId h p; Mod.path := p; Mod.source := src;
                Mod.transformed := applyDefines b src;
                Mod.parseResult := KonaParser.parse h KonaParser.defaultOptions src;
                Mod.dependencies := []; Mod.dependents := [];
                Mod.isEntry := isEntry; Mod.isDynamic := isDynamic;
                Mod.chunk := None;
                Mod.hash := hashContent h (applyDefines b src);
                Mod.sideEffects := true |}).
  set (b0 := withModules (assocSet p m0 (modules b)) b).
  assert (assoc p (modules b) = None) as Hnone
    by (unfold has in Hhas; destruct (assoc p (modules b)); [discriminate|reflexivity]).
  assert (later b b0) as Hl0.
  { split; [apply List.incl_refl|]. split; [|reflexivity].
    intros k m Hk. exists m. cbn [modules withModules b0]. rewrite assoc_assocSet.
    destruct (String.eqb p k) eqn:E;
      [apply String.eqb_eq in E; subst k; congruence|].
    repeat split; [exact Hk|apply List.incl_refl]. }
  assert (assoc p (modules b0) = Some m0) as Hp0
    by (cbn [modules withModules b0]; rewrite assoc_assocSet, String.eqb_refl; reflexivity).
  destruct (processImports h (processModule h depth) p
              (KonaParser.imports (KonaParser.parse h KonaParser.defaultOptions src)) b0)
    as [b1|] eqn:Hp; [|discriminate].
  intros [= <- <-].
  destruct (processImports_handles (processModule h depth) p _ IH b0 b1 m0 Hro Hp0 eq_refl Hp)
    as (Hl1 & Hnew1 & m1 & Hp1 & Hdone).
  split; [exact (later_trans _ _ _ Hl0 Hl1)|]. split.
  - intros k m' Hk' Hk. destruct (String.eqb p k) eqn:E.
    + apply String.eqb_eq in E. subst k. rewrite Hp1 in Hk'. injection Hk' as <-.
      intros imp Himp Htype. apply Hdone; [|exact Htype].
      destruct (proj1 (proj2 Hl1) p m0 Hp0) as (m1' & Hp1' & _ & Hparse & _).
      rewrite Hp1 in Hp1'. injection Hp1' as <-. rewrite Hparse in Himp. exact Himp.
    + apply (Hnew1 k m' Hk'). cbn [modules withModules b0]. rewrite assoc_assocSet, E.
      exact Hk.
  - intros _. unfold has. rewrite Hp1. reflexivity.
Qed.

Lemma processEntries_careful (depth : nat) (entries : list string) :
  forall (b b' : t) (r : outcome unit),
    ModuleResolver.options (resolver b) = ro ->
    processEntries h depth entries b = Some (r, b') ->
    later b b' /\ newComplete b b'.
Proof.
  induction entries as [|en entries IH]; intros b b' r Hro; simpl.
  - intros [= <- <-]. split; [apply later_refl|apply newComplete_same; auto].
  - destruct (processModule h depth _ true false b) as [[[u|e] b1]|] eqn:Hp; [| |discriminate].
    + destruct (processModule_careful depth _ _ _ _ _ _ Hro Hp) as (Hl1 & Hnew1 & _).
      intros H2. destruct (IH b1 b' r) as (Hl2 & Hnew2);
        [destruct Hl1 as (_ & _ & Ho); congruence|exact H2|].
      split; [exact (later_trans _ _ _ Hl1 Hl2)|exact (newComplete_trans _ _ _ Hl2 Hnew1 Hnew2)].
    + intros [= <- <-].
      destruct (processModule_careful depth _ _ _ _ _ _ Hro Hp) as (Hl1 & Hnew1 & _).
      split; assumption.
Qed.

End Handled.

(** A build fails only when an entry cannot be loaded. *)
Lemma processEntries_loadable (depth : nat) (entries : list string) :
  forall (b b' : t) (r : outcome unit),
    (forall en, In en entries ->
       existsSync h (Path.resolve (cwd h) [cwd h; en]) = true
       /\ exists source, readFileSync h (Path.resolve (cwd h) [cwd h; en]) = Ok source) ->
    processEntries h depth entries b = Some (r, b') -> r = Ok tt.
Proof.
  intros b b' [[]|e] Hload Hp; [reflexivity|]. exfalso.
  destruct (processEntries_throws h _ _ _ _ _ Hp) as (en & Hin & Hwhy).
  destruct (Hload en Hin) as (Hex & source & Hread). cbv zeta in Hwhy.
  destruct Hwhy as [[Hmissing _]|Hthrow]; congruence.
Qed.

(** The steps of [build] behind the loop over the entries keep the
    warnings, and of a module everything but its chunk. *)
Lemma finish_keeps (Q : Mod.t -> Prop) (b1 : t) :
  (forall c m, Q m -> Q (Mod.withChunk c m)) ->
  each Q (modules b1) ->
  let b2 := if default true (treeshake (options b1)) then treeShake b1 else b1 in
  let b' := if default true (splitting (options b2)) then splitCode h b2
            else createSingleChunk b2 in
  each Q (modules b') /\ warnings b' = warnings b1.
Proof.
  intros Q_chunk H1 b2 b'.
  assert (each Q (modules b2) /\ warnings b2 = warnings b1) as [H2 Hw2].
  { unfold b2. destruct (default true (treeshake (options b1))); [|split; auto].
    split; [|reflexivity]. unfold treeShake, withModules. cbn [modules].
    apply each_filter. exact H1. }
  unfold b'. destruct (default true (splitting (options b2))).
  - split; [|exact Hw2]. unfold splitCode, withModules. cbn [modules].
    apply each_mapModules;
      [intros k m Hm; destruct (hasChunk m); [exact Hm|apply Q_chunk; exact Hm]|].
    apply each_assignLoop; [exact Q_chunk|].
    apply each_mapModules;
      [intros k m Hm; destruct (Mod.isDynamic m && negb (hasChunk m));
       [apply Q_chunk|]; exact Hm|].
    apply each_mapModules;
      [intros k m Hm; destruct (Mod.isEntry m); [apply Q_chunk|]; exact Hm|].
    exact H2.
  - split; [|exact Hw2]. unfold createSingleChunk, withModules. cbn [modules].
    apply each_mapModules; [intros k m Hm; apply Q_chunk; exact Hm|exact H2].
Qed.

(** Every import of every module of a build has been handled. *)
Lemma build_handles (depth : nat) (o : BundlerOptions) (out : BundleOutput) (b' : t)
    (p : string) (m : Mod.t) :
  build h depth (new h o) = Some (Ok out, b') ->
  In (p, m) (modules b') ->
  Mod.path m = p /\ complete (ModuleResolver.options (resolver (new h o))) b' m.
Proof.
  intros Hb Hin.
  destruct (build_stored h depth (new h o) b' out) as (Hst & _ & _); [|exact Hb|].
  { split; simpl; constructor. }
  pose proof (proj1 (List.Forall_forall _ _) (proj2 Hst) _ Hin) as Hpath.
  cbn [fst snd] in Hpath. split; [exact Hpath|].
  destruct (build_keys h depth (new h o) b' out) as (b1 & Hp & Hkeys); [constructor|exact Hb|].
  destruct (build_steps h _ _ _ _ Hb) as (b1' & Hp' & Hb' & _).
  rewrite Hp in Hp'. injection Hp' as <-. cbv zeta in Hb'.
  set (ro := ModuleResolver.options (resolver (new h o))).
  destruct (processEntries_careful ro depth _ _ _ _ eq_refl Hp) as (_ & Hnew).
  assert (stored (modules b1)) as Hst1.
  { refine (processEntries_preserves h stored _ _ _ _ _ _ _ _ Hp).
    - intros k f ms Hf. apply stored_update. intros x. exact (proj1 (Hf x)).
    - intros k x ms Hnone Hx _. apply stored_insert; assumption.
    - split; simpl; constructor. }
  set (Q := fun x : Mod.t =>
              forall imp : KonaParser.ImportInfo,
                In imp (KonaParser.imports (Mod.parseResult x)) ->
                KonaParser.isTypeOnly imp = false ->
                In (couldNotResolve (KonaParser.source imp) (Mod.path x)) (warnings b1)
                \/ (exists d : Dependency.t,
                      In d (Mod.dependencies x)
                      /\ Dependency.specifier d = KonaParser.source imp
                      /\ In (Dependency.resolved d) (List.map fst (modules b1)))
                \/ (exists (r : ModuleResolver.Resolver) (res : ModuleResolver.ResolveResult),
                      ModuleResolver.options r = ro
                      /\ fst (ModuleResolver.resolve h r (KonaParser.source imp)
                                (Some (Mod.path x))) = Ok res
                      /\ ModuleResolver.external res = true)).
  assert (each Q (modules b1)) as H1.
  { apply List.Forall_forall. intros [k x] Hx. cbn [snd].
    apply (assoc_stored _ _ _ Hst1) in Hx.
    intros imp Himp Htype.
    destruct (Hnew k x Hx eq_refl imp Himp Htype) as [Hw|[(d & Hd & Hs & Hto)|Hext]].
    - left. exact Hw.
    - right. left. exists d. repeat split; [exact Hd|exact Hs|apply has_keys; exact Hto].
    - right. right. exact Hext. }
  destruct (finish_keeps Q b1 ltac:(intros c x Hx; exact Hx) H1) as [Hall Hw].
  cbv zeta in Hall, Hw. rewrite <- Hb' in Hall, Hw.
  pose proof (proj1 (List.Forall_forall _ _) Hall _ Hin) as Hm. cbn [snd] in Hm.
  intros imp Himp Htype.
  destruct (Hm imp Himp Htype) as [Hwarned|[(d & Hd & Hs & Hto)|Hext]].
  - left. rewrite Hw. exact Hwarned.
  - right. left. exists d. repeat split; [exact Hd|exact Hs|].
    apply has_keys. rewrite Hkeys. exact Hto.
  - right. right. exact Hext.
Qed.

(** The entries of a build lie in its chunks. *)
Lemma build_places_entries (depth : nat) (o : BundlerOptions) (out : BundleOutput) (b' : t)
    (en : string) :
  build h depth (new h o) = Some (Ok out, b') ->
  In en (entry o) ->
  exists c : Chunk.t,
    In c (chunks out) /\ In (Path.resolve (cwd h) [cwd h; en]) (Chunk.sorted c).
Proof.
  intros Hb Hen.
  destruct (build_stored h depth (new h o) b' out) as (Hst & _ & Hcs); [|exact Hb|].
  { split; simpl; constructor. }
  destruct (build_keys h depth (new h o) b' out) as (b1 & Hp & Hkeys); [constructor|exact Hb|].
  pose proof (processEntries_loads h _ _ _ _ Hp en Hen) as Hhas.
  apply has_keys in Hhas. rewrite <- Hkeys in Hhas.
  apply List.in_map_iff in Hhas as ([k m] & Hk & Hin). cbn [fst] in Hk. subst k.
  destruct (module_in_chunk b' _ m Hst Hin) as (c & Hc & _ & Hsorted & _).
  exists c. rewrite Hcs. split; assumption.
Qed.

(** C2, as the code has it, for a bundler without plugins and without
    an [onProgress] callback, on a file system with finitely many files.
    [build] returns.  It fails only when an entry file itself does not
    exist or cannot be read, with the error of that file and without
    output; when every entry can be loaded it succeeds, whatever becomes
    of the imports.  The output of a build that succeeds has every entry
    in one of its chunks, and every import that is not type-only, of
    every module, was gone through: it has left the warning [Could not
    resolve '<specifier>' from '<module>'] (the specifier did not resolve,
    or the file it resolved to could not be loaded), or its edge is
    recorded and leads to a module of the output, or the resolver
    answered that the specifier is external. *)
Theorem unresolved_import_is_skipped
    (files : list string) (o : BundlerOptions) (depth : nat) :
  (forall p : string, existsSync h p = true -> In p files) ->
  List.length files < depth ->
  exists (r : outcome BundleOutput) (b' : t),
    build h depth (new h o) = Some (r, b')
    /\ (forall e : exn,
          r = Throw e ->
          exists en : string,
            In en (entry o)
            /\ let p := Path.resolve (cwd h) [cwd h; en] in
               (existsSync h p = false /\ e = Error ("File not found: " ++ p))
               \/ readFileSync h p = Throw e)
    /\ ((forall en : string,
           In en (entry o) ->
           existsSync h (Path.resolve (cwd h) [cwd h; en]) = true
           /\ exists source : string,
                readFileSync h (Path.resolve (cwd h) [cwd h; en]) = Ok source) ->
        exists out : BundleOutput, r = Ok out)
    /\ (forall out : BundleOutput,
          r = Ok out ->
          (forall en : string,
              In en (entry o) ->
              exists c : Chunk.t,
                In c (chunks out)
                /\ In (Path.resolve (cwd h) [cwd h; en]) (Chunk.sorted c))
          /\ (forall (p : string) (m : Mod.t) (imp : KonaParser.ImportInfo),
                In (p, m) (out_modules out) ->
                In imp (KonaParser.imports (Mod.parseResult m)) ->
                KonaParser.isTypeOnly imp = false ->
                In (couldNotResolve (KonaParser.source imp) p) (warnings b')
                \/ (exists d : Dependency.t,
                      In d (Mod.dependencies m)
                      /\ Dependency.specifier d = KonaParser.source imp
                      /\ has (Dependency.resolved d) (out_modules out) = true)
                \/ (exists (r0 : ModuleResolver.Resolver)
                           (res : ModuleResolver.ResolveResult),
                      ModuleResolver.options r0
                      = ModuleResolver.options (resolver (new h o))
                      /\ fst (ModuleResolver.resolve h r0 (KonaParser.source imp) (Some p))
                         = Ok res
                      /\ ModuleResolver.external res = true))).
Proof.
  intros Hfiles Hdepth.
  destruct (build_returns files Hfiles depth (new h o)) as (r & b' & Hb).
  { unfold unloaded. cbn [modules new]. pose proof (List.filter_length_le
      (fun f => negb (has f (@nil (string * Mod.t)))) files). lia. }
  exists r, b'. split; [exact Hb|]. split; [|split].
  - intros e ->. unfold build in Hb.
    destruct (processEntries h depth (entry (options (new h o))) (new h o))
      as [[[u|e'] b1]|] eqn:Hp; [discriminate| |discriminate].
    injection Hb as <- <-. exact (processEntries_throws h _ _ _ _ _ Hp).
  - intros Hload. unfold build in Hb.
    destruct (processEntries h depth (entry (options (new h o))) (new h o))
      as [[u b1]|] eqn:Hp; [|discriminate].
    pose proof (processEntries_loadable depth _ _ _ _ Hload Hp) as ->.
    injection Hb as <- _. eauto.
  - intros out ->. split.
    + intros en Hen. exact (build_places_entries depth o out b' en Hb Hen).
    + intros p m imp Hin Himp Htype.
      destruct (build_stored h depth (new h o) b' out) as (_ & Hms & _); [|exact Hb|].
      { split; simpl; constructor. }
      rewrite Hms in *.
      destruct (build_handles depth o out b' p m Hb Hin) as (Hpath & Hdone).
      specialize (Hdone imp Himp Htype). unfold handled in Hdone.
      rewrite Hpath in Hdone. exact Hdone.
Qed.

End BuildGoesOn.

Section HostFiles.

Import Fixtures.

Lemma host_files (files : list (string * entry)) (jsons : list (string * json))
    (trees : list (string * Node)) (p : string) :
  existsSync (host files jsons trees) p = true -> In p (List.map fst files).
Proof.
  unfold existsSync, host, table. cbn [fs]. intros H. apply has_keys. exact H.
Qed.

End HostFiles.

Section BuildGoesOnExamples.

Import Bundler Fixtures.

(** The theorem at work: the build of that project returns, with [b.js]
    and the entry in its chunk and the warning for [./missing]. *)
Lemma unresolved_import_is_skipped_witness :
  let o := bundlerOptions ["main.js"] browser None in
  exists (out : BundleOutput) (b' : t),
    build partHost 4 (new partHost o) = Some (Ok out, b')
    /\ List.map Chunk.sorted (chunks out) = [["/p/b.js"; "/p/main.js"]]
    /\ warnings b' = ["Warning: Could not resolve './missing' from '/p/main.js'"].
Proof.
  intros o.
  destruct (unresolved_import_is_skipped partHost ["/p"; "/p/main.js"; "/p/b.js"] o 4
              (host_files _ _ _) ltac:(simpl; lia))
    as (r & b' & Hb & _).
  pose proof Hb as Hrun. vm_compute in Hrun. injection Hrun as <- <-.
  eexists _, _. split; [exact Hb|]. vm_compute. split; reflexivity.
Defined.

End BuildGoesOnExamples.

Section FullReload.

Import Bundler DevServer.

Variable h : Host.

(** The identifiers that a chunk lists are those of modules of the
    bundler. *)
Lemma chunk_lists_modules (b : Bundler.t) (c : Chunk.t) (i : string) :
  stored (modules b) -> In c (generateChunks b) -> In i (Chunk.modules c) ->
  exists (k : string) (m : Mod.t), In (k, m) (modules b) /\ Mod.id m = i.
Proof.
  intros Hst Hc Hi. unfold generateChunks in Hc.
  apply List.in_map_iff in Hc as ([cid g] & <- & Hin). cbn [Chunk.modules snd] in Hi.
  apply List.in_map_iff in Hi as (x & <- & Hx).
  pose proof (Permutation_in x (sorted_permutation _ _ _ Hst Hin) Hx) as Hg.
  destruct (groupByChunk_members _ _ _ _ Hin Hg) as ([k m] & Hkv & <-).
  exists k, m. split; [exact Hkv|reflexivity].
Qed.

Lemma flat_map_nil {A B} (f : A -> list B) (l : list A) :
  (forall x, In x l -> f x = []) -> List.flat_map f l = [].
Proof.
  induction l as [|x l IH]; intros H; simpl; [reflexivity|].
  rewrite (H x (or_introl eq_refl)), IH; [reflexivity|].
  intros y Hy. apply H. right. exact Hy.
Qed.

(** X24.  For a server whose bundler has no plugins: when the file that
    changed is no style sheet and no script of the new bundle (its
    extension is none of [.js], [.jsx], [.ts], [.tsx], [.mjs], or no
    module of the bundle has its identifier), a
    rebuild that succeeds stores the new bundle and sends every client
    that is open, and no other, one [full-reload] message. *)
Theorem change_outside_the_bundle_reloads
    (depth : nat) (s : DevServer.t) (out : BundleOutput) (changedFile : string) :
  isRebuilding s = false ->
  bundle h depth (bundlerOptions s) = Some (Ok out) ->
  onRebuild s out = Ok tt ->
  Str.toLowerCase (Path.extname changedFile) <> ".css" ->
  (In (Str.toLowerCase (Path.extname changedFile)) jsLike ->
   forall (k : string) (m : Mod.t),
     In (k, m) (out_modules out) ->
     generateModuleId h k <> generateModuleId h changedFile) ->
  rebuild h depth changedFile s
  = Some {| bundlerOptions := bundlerOptions s;
            onRebuild := onRebuild s;
            currentBundle := Some out;
            clients :=
              List.map
                (fun c =>
                   {| readyState := readyState c;
                      sent :=
                        match readyState c with
                        | OPEN =>
                            sent c ++ [{| type := Msg.full_reload;
                                          timestamp := Some (now h);
                                          updates := None; error := None |}]
                        | _ => sent c
                        end |})
                (clients s);
            isRebuilding := false |}.
Proof.
  intros Hidle Hbundle Hcb Hext Hout. unfold bundle in Hbundle.
  destruct (build h depth (new h (bundlerOptions s))) as [[r b']|] eqn:Hb; [|discriminate].
  injection Hbundle as ->.
  destruct (build_stored h depth (new h (bundlerOptions s)) b' out) as (Hst & Hms & Hcs);
    [|exact Hb|].
  { split; simpl; constructor. }
  assert (getUpdates h out changedFile = []) as Hups.
  { unfold getUpdates. cbv zeta.
    destruct (String.eqb (Str.toLowerCase (Path.extname changedFile)) ".css") eqn:Ecss;
      [apply String.eqb_eq in Ecss; contradiction|].
    destruct (List.existsb _ _) eqn:Hscript; [|reflexivity].
    assert (In (Str.toLowerCase (Path.extname changedFile)) jsLike) as Hjs.
    { apply List.existsb_exists in Hscript as (x & Hx & Heq).
      apply String.eqb_eq in Heq. rewrite Heq. exact Hx. }
    apply flat_map_nil. intros c Hc.
    destruct (mem _ (Chunk.modules c)) eqn:Hmem; [|reflexivity]. exfalso.
    apply mem_In in Hmem. rewrite Hcs in Hc.
    destruct (chunk_lists_modules b' c _ Hst Hc Hmem) as (k & m & Hin & Hid).
    rewrite (build_ids h _ _ _ _ _ _ Hb Hin) in Hid.
    rewrite <- Hms in Hin. exact (Hout Hjs k m Hin Hid). }
  unfold rebuild. rewrite Hidle, Hb. cbv zeta.
  change (onRebuild (setCurrentBundle out s) out) with (onRebuild s out).
  rewrite Hcb, Hups.
  unfold setRebuilding, broadcast, setCurrentBundle.
  cbn [bundlerOptions onRebuild currentBundle clients isRebuilding]. do 2 f_equal.
  apply List.map_ext. intros [[] sofar]; reflexivity.
Qed.

End FullReload.

Section HotUpdateExamples.

Import Bundler DevServer Fixtures.

(** X21 at work: [main.js] of the project with the package [pure] has
    changed. *)
Lemma change_of_bundled_script_is_hot_witness :
  let s := server ["main.js"] in
  let m := default noModule (assoc "/p/main.js" (out_modules pureOutput)) in
  let holders :=
    List.filter (fun c => mem (Mod.id m) (Chunk.modules c)) (chunks pureOutput) in
  let ups :=
    List.map
      (fun c => {| u_type := js; u_path := "/" ++ Chunk.name c ++ ".js";
                   acceptedPath := "main.js"; u_timestamp := now pureHost |})
      holders in
  (exists c : Chunk.t, In c holders /\ In "/p/main.js" (Chunk.sorted c))
  /\ rebuild pureHost 4 "main.js" s
     = Some {| DevServer.bundlerOptions := DevServer.bundlerOptions s;
               onRebuild := onRebuild s;
               currentBundle := Some pureOutput;
               clients :=
                 List.map
                   (fun c =>
                      {| readyState := readyState c;
                         sent :=
                           match readyState c with
                           | OPEN =>
                               sent c ++ [{| type := Msg.update;
                                             timestamp := Some (now pureHost);
                                             updates := Some ups; error := None |}]
                           | _ => sent c
                           end |})
                   (clients s);
               isRebuilding := false |}.
Proof.
  apply (change_of_bundled_script_is_hot pureHost 4 (server ["main.js"]) pureOutput
           "main.js" "/p/main.js"
           (default noModule (assoc "/p/main.js" (out_modules pureOutput)))).
  - reflexivity.
  - vm_compute. reflexivity.
  - reflexivity.
  - vm_compute. left. reflexivity.
  - vm_compute. reflexivity.
  - vm_compute. left. reflexivity.
Defined.

(** X24 at work: [notes.js] is no module of the bundle, and [main.json]
    is no script. *)
Lemma change_outside_the_bundle_reloads_witness :
  let s := server ["main.js"] in
  let reloaded :=
    Some {| DevServer.bundlerOptions := DevServer.bundlerOptions s;
            onRebuild := onRebuild s;
            currentBundle := Some pureOutput;
            clients :=
              List.map
                (fun c =>
                   {| readyState := readyState c;
                      sent :=
                        match readyState c with
                        | OPEN =>
                            sent c ++ [{| type := Msg.full_reload;
                                          timestamp := Some (now pureHost);
                                          updates := None; error := None |}]
                        | _ => sent c
                        end |})
                (clients s);
            isRebuilding := false |} in
  rebuild pureHost 4 "notes.js" s = reloaded
  /\ rebuild pureHost 4 "main.json" s = reloaded.
Proof.
  intros s reloaded. split.
  - apply (change_outside_the_bundle_reloads pureHost 4 (server ["main.js"]) pureOutput
             "notes.js").
    + reflexivity.
    + vm_compute. reflexivity.
    + reflexivity.
    + vm_compute. discriminate.
    + intros _ k m Hin. vm_compute in Hin.
      destruct Hin as [[= <- _]|[[= <- _]|[]]]; vm_compute; discriminate.
  - apply (change_outside_the_bundle_reloads pureHost 4 (server ["main.js"]) pureOutput
             "main.json").
    + reflexivity.
    + vm_compute. reflexivity.
    + reflexivity.
    + vm_compute. discriminate.
    + intros Hjs. vm_compute in Hjs. exfalso.
      repeat (destruct Hjs as [Hjs|Hjs]; [discriminate Hjs|]). exact Hjs.
Defined.

End HotUpdateExamples.

(** ** Names of module variables *)

Section SanitizeId.

Import Bundler.

Definition isUnderscore (a : ascii) : bool := Ascii.eqb a "_"%char.

Lemma isAlphaNum_underscore : isAlphaNum "_"%char = false.
Proof. reflexivity. Qed.

(** X25.  [sanitizeId] keeps the length of an identifier, leaves nothing
    but ASCII letters, digits and underscores, changes nothing when
    applied again, and leaves an identifier of letters and digits as
    it is. *)
Theorem sanitizeId_leaves_word_characters (id : string) :
  String.length (sanitizeId id) = String.length id
  /\ List.forallb (fun a => isAlphaNum a || isUnderscore a)
       (list_ascii_of_string (sanitizeId id)) = true
  /\ sanitizeId (sanitizeId id) = sanitizeId id
  /\ (List.forallb isAlphaNum (list_ascii_of_string id) = true -> sanitizeId id = id).
Proof.
  induction id as [|a id (IHlen & IHall & IHidem & IHfix)]; [repeat split|].
  cbn [sanitizeId String.length list_ascii_of_string List.forallb].
  split; [rewrite IHlen; reflexivity|]. split; [|split].
  - rewrite IHall, andb_true_r. destruct (isAlphaNum a) eqn:E; [rewrite E; reflexivity|].
    apply orb_true_r.
  - rewrite IHidem. destruct (isAlphaNum a) eqn:E; [rewrite E; reflexivity|].
    rewrite isAlphaNum_underscore. reflexivity.
  - intros H. apply andb_true_iff in H as [Ha Hid]. rewrite Ha, (IHfix Hid). reflexivity.
Qed.

End SanitizeId.

(** ** Where code splitting puts a module *)

Section SplitChunks.

Import Bundler.

Variable h : Host.





















End SplitChunks.

Section SplitChunksExamples.

Import Bundler Fixtures.


End SplitChunksExamples.
